(** * pgBackRest command and option parse (src/config/parse.c)

    A shallow embedding of the configuration resolution engine: the packed
    optional-data lookup, the size parser, the configuration file loader and
    the phases of [configParse] (argv, environment, configuration file, group
    index resolution, validation).  C integers are [Z] with their wrap-around
    written out, C strings are [string], arrays are lists read with [!!] and
    written with [<[_:=_]>], and [THROW] is the [Throw] outcome of [Result]. *)

From Stdlib Require Import ZArith String Ascii List Bool Lia.
From Stdlib Require Import DecimalString.
From stdpp Require Import base list strings.
Import ListNotations.
Local Open Scope Z_scope.

(** ** Errors and results *)

(** The error types thrown in parse.c.  [Unmodelled] stands for the places
    where the C code would read or write outside an array (undefined
    behaviour) or decode an address as a number: the model stops there
    instead of inventing a value. *)
Inductive ErrorType : Type :=
  | AssertError
  | FormatError
  | CommandInvalidError
  | CommandRequiredError
  | ParamInvalidError
  | OptionInvalidError
  | OptionInvalidValueError
  | OptionRequiredError
  | FileMissingError
  | PathOpenError
  | Unmodelled.

Inductive Result (A : Type) : Type :=
  | Ok (a : A)
  | Throw (e : ErrorType) (msg : string).

Arguments Ok {A} a.
Arguments Throw {A} e msg.

Definition bind {A B : Type} (r : Result A) (k : A -> Result B) : Result B :=
  match r with
  | Ok a => k a
  | Throw e msg => Throw e msg
  end.

Notation "'do' x <-- r ;; k" := (bind r (fun x => k))
  (at level 10, x name, r at level 99, k at level 200).
Notation "'ASSERT' b ;; k" := (if b then k else Throw AssertError "assertion failed"%string)
  (at level 10, b at level 99, k at level 200).

Definition isOk {A : Type} (r : Result A) : bool :=
  match r with Ok _ => true | Throw _ _ => false end.

Definition isThrow {A : Type} (e : ErrorType) (r : Result A) : Prop :=
  exists msg, r = Throw e msg.

(** ** C integers *)

Definition UINT_MAX : Z := 4294967295.
Definition UINT64_MODULUS : Z := 2 ^ 64.
Definition INT64_MAX : Z := 2 ^ 63 - 1.
Definition INT64_MIN : Z := - 2 ^ 63.

(** Wrap to [uint64_t]. *)
Definition to_uint64 (z : Z) : Z := z mod UINT64_MODULUS.

(** The cast [(int64_t)] of an unsigned 64-bit value (two's complement). *)
Definition to_int64 (z : Z) : Z :=
  let u := z mod UINT64_MODULUS in
  if u <=? INT64_MAX then u else u - UINT64_MODULUS.

(** ** Strings

    common/type/string.c is not among the sources; its helpers used by the
    parse are given here on [string], each by what its name and its use in
    parse.c say. *)

Definition LF_STR : string := String (ascii_of_nat 10) EmptyString.

Fixpoint strMap (f : ascii -> ascii) (s : string) : string :=
  match s with
  | EmptyString => EmptyString
  | String c rest => String (f c) (strMap f rest)
  end.

(** [tolower] of the C locale. *)
Definition chrLower (c : ascii) : ascii :=
  let n := nat_of_ascii c in
  if ((65 <=? n) && (n <=? 90))%nat then ascii_of_nat (n + 32) else c.

(** Modelled from the spec: [strLower] of common/type/string.c (not among the
    sources), the string in lower case. *)
Definition strLower (s : string) : string := strMap chrLower s.

(** Modelled from the spec: [strReplaceChr] of common/type/string.c (not among
    the sources), every [find] byte replaced by [replace]. *)
Definition strReplaceChr (s : string) (find replace : ascii) : string :=
  strMap (fun c => if Ascii.eqb c find then replace else c) s.

Definition strSize (s : string) : nat := String.length s.

(** [strZ(s)[i]]: the byte at [i]; the terminating NUL at and past the end. *)
Definition chrAt (s : string) (i : nat) : ascii :=
  match String.get i s with
  | Some c => c
  | None => zero
  end.

(** Modelled from the spec: [strTrunc(s, idx)] of common/type/string.c (not
    among the sources), keep the first [idx] bytes. *)
Definition strTrunc (s : string) (idx : Z) : string :=
  substring 0 (Z.to_nat idx) s.

Definition strEq (a b : string) : bool := String.eqb a b.

(** Modelled from the spec: [strBeginsWith] of common/type/string.c (not among
    the sources). *)
Fixpoint strBeginsWith (s prefix : string) : bool :=
  match prefix, s with
  | EmptyString, _ => true
  | String p prest, String c rest => Ascii.eqb p c && strBeginsWith rest prest
  | String _ _, EmptyString => false
  end.

(** [%u] of [printf] for a non-negative integer. *)
Definition fmtUInt (n : Z) : string := NilZero.string_of_uint (N.to_uint (Z.to_N n)).

Definition isDigit (c : ascii) : bool :=
  let n := nat_of_ascii c in ((48 <=? n) && (n <=? 57))%nat.

Definition digitValue (c : ascii) : Z := Z.of_nat (nat_of_ascii c) - 48.

(** Value of a string of decimal digits read left to right, [None] when a
    byte is not a digit. *)
Fixpoint digitsValue (acc : Z) (s : string) : option Z :=
  match s with
  | EmptyString => Some acc
  | String c rest =>
      if isDigit c then digitsValue (acc * 10 + digitValue c) rest else None
  end.

(** Modelled from the spec: [cvtZToUInt64] of common/type/convert.c, which is
    not among the sources.  The spec gives the parse as base ten with failure on
    malformed input ([FormatError]); here a non-empty string of decimal digits
    whose value fits [uint64_t] converts, anything else throws. *)
Definition cvtZToUInt64 (value : string) : Result Z :=
  match value with
  | EmptyString => Throw FormatError "unable to convert string to uint64"
  | _ =>
      match digitsValue 0 value with
      | Some n =>
          if n <? UINT64_MODULUS then Ok n
          else Throw FormatError "unable to convert string to uint64"
      | None => Throw FormatError "unable to convert string to uint64"
      end
  end.

(** Modelled from the spec: [cvtZToInt64] of common/type/convert.c (not among
    the sources): parse base-10 signed 64-bit, failure is a [FormatError]. *)
Definition cvtZToInt64 (value : string) : Result Z :=
  let fail := Throw FormatError "unable to convert string to int64"%string in
  match value with
  | EmptyString => fail
  | String c rest =>
      let '(neg, digits) := if Ascii.eqb c "-" then (true, rest) else (false, value) in
      match digits with
      | EmptyString => fail
      | _ =>
          match digitsValue 0 digits with
          | Some n =>
              let v := if neg then - n else n in
              if (INT64_MIN <=? v) && (v <=? INT64_MAX) then Ok v else fail
          | None => fail
          end
      end
  end.

(** ** Regular expressions *)

(** Modelled from the spec: common/regExp.c, which wraps POSIX extended
    regular expressions and is not among the sources.  The spec quotes the
    expressions; they are kept here as syntax trees and matched by derivatives.
    Both expressions used with [regExpMatchOne] are anchored with [^] and [$],
    so a match is a match of the whole string. *)
Inductive RegExp : Type :=
  | ReNone
  | ReEps
  | ReRange (lo hi : ascii)
  | ReSeq (a b : RegExp)
  | ReAlt (a b : RegExp)
  | ReStar (a : RegExp).

Definition ReChr (c : ascii) : RegExp := ReRange c c.
Definition RePlus (a : RegExp) : RegExp := ReSeq a (ReStar a).
Definition ReOpt (a : RegExp) : RegExp := ReAlt a ReEps.

Fixpoint ReStr (s : string) : RegExp :=
  match s with
  | EmptyString => ReEps
  | String c rest => ReSeq (ReChr c) (ReStr rest)
  end.

Fixpoint ReAny (l : list string) : RegExp :=
  match l with
  | [] => ReNone
  | s :: rest => ReAlt (ReStr s) (ReAny rest)
  end.

Fixpoint reNullable (r : RegExp) : bool :=
  match r with
  | ReNone => false
  | ReEps => true
  | ReRange _ _ => false
  | ReSeq a b => reNullable a && reNullable b
  | ReAlt a b => reNullable a || reNullable b
  | ReStar _ => true
  end.

Fixpoint reDerive (c : ascii) (r : RegExp) : RegExp :=
  match r with
  | ReNone => ReNone
  | ReEps => ReNone
  | ReRange lo hi =>
      if ((nat_of_ascii lo <=? nat_of_ascii c) && (nat_of_ascii c <=? nat_of_ascii hi))%nat
      then ReEps else ReNone
  | ReSeq a b =>
      if reNullable a then ReAlt (ReSeq (reDerive c a) b) (reDerive c b)
      else ReSeq (reDerive c a) b
  | ReAlt a b => ReAlt (reDerive c a) (reDerive c b)
  | ReStar a => ReSeq (reDerive c a) (ReStar a)
  end.

Fixpoint regExpMatchOne (expression : RegExp) (s : string) : bool :=
  match s with
  | EmptyString => reNullable expression
  | String c rest => regExpMatchOne (reDerive c expression) rest
  end.

Definition sizeQualifierList : list string :=
  ["kb"; "k"; "mb"; "m"; "gb"; "g"; "tb"; "t"; "pb"; "p"; "b"]%string.

(** The expression in [convertToByte]:
    [^[0-9]+(kb|k|mb|m|gb|g|tb|t|pb|p|b)*$]. *)
Definition sizeExpression : RegExp :=
  ReSeq (RePlus (ReRange "0" "9")) (ReStar (ReAny sizeQualifierList)).

(** The expression the specification gives for size values:
    [^[0-9]+(kb|k|mb|m|gb|g|tb|t|pb|p|b)?$]. *)
Definition sizeExpressionSpec : RegExp :=
  ReSeq (RePlus (ReRange "0" "9")) (ReOpt (ReAny sizeQualifierList)).

(** ** Size values *)

(** Generate multiplier based on character. *)
Definition sizeQualifierToMultiplier (qualifier : ascii) : Result Z :=
  if Ascii.eqb qualifier "b" then Ok 1
  else if Ascii.eqb qualifier "k" then Ok 1024
  else if Ascii.eqb qualifier "m" then Ok (1024 * 1024)
  else if Ascii.eqb qualifier "g" then Ok (1024 * 1024 * 1024)
  else if Ascii.eqb qualifier "t" then Ok (1024 * 1024 * 1024 * 1024)
  else if Ascii.eqb qualifier "p" then Ok (1024 * 1024 * 1024 * 1024 * 1024)
  else Throw AssertError
         ("'" +:+ String qualifier EmptyString +:+ "' is not a valid size qualifier").

Definition chrLe (a b : ascii) : bool := (nat_of_ascii a <=? nat_of_ascii b)%nat.

(** [convertToByte]: the value in bytes as [uint64_t], or a [FormatError]. *)
Definition convertToByte (value : string) : Result Z :=
  (* Lowercase the value *)
  let valueLower := strLower value in
  (* Match the value against possible values *)
  if regExpMatchOne sizeExpression valueLower then
    let size := strSize valueLower in
    (* position of the qualifier letter, -1 when the value is all digits *)
    let chrPos : Z :=
      if Ascii.eqb (chrAt valueLower (size - 1)) "b" then
        if chrLe (chrAt valueLower (size - 2)) "9"
        then Z.of_nat (size - 1)
        else Z.of_nat (size - 2)
      else if negb (chrLe (chrAt valueLower (size - 1)) "9")
      then Z.of_nat (size - 1)
      else -1 in
    if chrPos =? -1 then
      do n <-- cvtZToUInt64 valueLower ;;
      Ok (to_uint64 (n * 1))
    else
      do multiplier <-- sizeQualifierToMultiplier (chrAt valueLower (Z.to_nat chrPos)) ;;
      do n <-- cvtZToUInt64 (strTrunc valueLower chrPos) ;;
      Ok (to_uint64 (n * multiplier))
  else
    Throw FormatError ("value '" +:+ value +:+ "' is not valid").

(** The multiplier in the words of the specification: [k], [m], [g], [t] and
    [p] are the successive powers of 1024, each with an optional trailing [b];
    a bare [b] or no qualifier is bytes. *)
Definition sizeMultiplierSpec (qualifier : string) : option Z :=
  if strEq qualifier "" || strEq qualifier "b" then Some 1
  else if strEq qualifier "k" || strEq qualifier "kb" then Some (1024 ^ 1)
  else if strEq qualifier "m" || strEq qualifier "mb" then Some (1024 ^ 2)
  else if strEq qualifier "g" || strEq qualifier "gb" then Some (1024 ^ 3)
  else if strEq qualifier "t" || strEq qualifier "tb" then Some (1024 ^ 4)
  else if strEq qualifier "p" || strEq qualifier "pb" then Some (1024 ^ 5)
  else None.


(** ** Parse rules

    The tables of config/parse.auto.c and the constants of config/config.auto.h
    are generated files that are not among the sources: they are the fields of
    [ParseRules], and every function below takes them as a parameter. *)

(** Section enum - defines which sections of the config an option can appear in. *)
Inductive ConfigSection : Type :=
  | cfgSectionCommandLine   (* Command-line only *)
  | cfgSectionGlobal        (* Command-line or in any config section *)
  | cfgSectionStanza.       (* Command-line or in any config stanza section *)

(** Modelled from the spec: the option types of config/config.h (not among the
    sources): boolean, hash, integer, list, path, size, string, time. *)
Inductive ConfigOptionType : Type :=
  | cfgOptTypeBoolean
  | cfgOptTypeHash
  | cfgOptTypeInteger
  | cfgOptTypeList
  | cfgOptTypePath
  | cfgOptTypeSize
  | cfgOptTypeString
  | cfgOptTypeTime.

(** Modelled from the spec: the source of a value, config/config.h (not among
    the sources).  [cfgSourceDefault] is the zero value of the field. *)
Inductive ConfigSource : Type :=
  | cfgSourceDefault
  | cfgSourceParam
  | cfgSourceConfig.

(** One cell of an option's optional data ([const void *]): a packed header
    or an integer payload, or the address of a string constant.  [NULL] is
    [CellInt 0]. *)
Inductive DataCell : Type :=
  | CellInt (v : Z)
  | CellStr (s : string).

Inductive ParseRuleOptionDataType : Type :=
  | parseRuleOptionDataTypeEnd          (* Indicates there is no more data *)
  | parseRuleOptionDataTypeAllowList
  | parseRuleOptionDataTypeAllowRange
  | parseRuleOptionDataTypeCommand
  | parseRuleOptionDataTypeDefault
  | parseRuleOptionDataTypeDepend
  | parseRuleOptionDataTypeRequired.

(** The value of the enumerator. *)
Definition dataTypeCode (t : ParseRuleOptionDataType) : Z :=
  match t with
  | parseRuleOptionDataTypeEnd => 0
  | parseRuleOptionDataTypeAllowList => 1
  | parseRuleOptionDataTypeAllowRange => 2
  | parseRuleOptionDataTypeCommand => 3
  | parseRuleOptionDataTypeDefault => 4
  | parseRuleOptionDataTypeDepend => 5
  | parseRuleOptionDataTypeRequired => 6
  end.

Record ParseRuleCommand : Type := {
  cmdName : string;                    (* Name *)
  cmdCommandRoleValid : Z;             (* Valid for the command role? *)
  cmdParameterAllowed : bool;          (* Command-line parameters are allowed *)
}.

Record ParseRuleOptionGroup : Type := {
  grpName : string;                    (* All options in the group must be prefixed with this name *)
}.

Record ParseRuleOption : Type := {
  optName : string;                    (* Name *)
  optType : ConfigOptionType;          (* e.g. string, int, boolean *)
  optRequired : bool;                  (* Is the option required? *)
  optSection : ConfigSection;          (* e.g. global, stanza, cmd-line *)
  optSecure : bool;                    (* Needs to be redacted in logs and cmd-line? *)
  optMulti : bool;                     (* Can be specified multiple times? *)
  optGroup : bool;                     (* In a group? *)
  optGroupId : nat;                    (* Id if in a group *)
  optCommandRoleValid : list Z;        (* Valid for the command role? *)
  optData : option (list DataCell);    (* Optional data and command overrides *)
}.

(** [struct option] of getopt.h, as [optionList] uses it ([flag] is always
    [NULL]). *)
Record GetoptOption : Type := {
  goName : string;
  has_arg : Z;
  val : Z;
}.

Definition no_argument : Z := 0.
Definition required_argument : Z := 1.

Record ParseRules : Type := {
  parseRuleCommand : list ParseRuleCommand;
  parseRuleOptionGroup : list ParseRuleOptionGroup;
  parseRuleOption : list ParseRuleOption;
  optionList : list GetoptOption;
  optionResolveOrder : list nat;
  CFG_OPTION_KEY_MAX : nat;
  LIST_INITIAL_SIZE : nat;
  cfgCmdNone : nat;
  cfgCmdHelp : nat;
  cfgCmdVersion : nat;
  cfgOptConfig : nat;
  cfgOptConfigPath : nat;
  cfgOptConfigIncludePath : nat;
  cfgOptStanza : nat;
  cfgOptGrpPg : nat;
}.

Definition CFG_COMMAND_TOTAL (rules : ParseRules) : nat := length (parseRuleCommand rules).
Definition CFG_OPTION_TOTAL (rules : ParseRules) : nat := length (parseRuleOption rules).
Definition CFG_OPTION_GROUP_TOTAL (rules : ParseRules) : nat :=
  length (parseRuleOptionGroup rules).

Definition ParseRuleOption_zero : ParseRuleOption :=
  {| optName := EmptyString; optType := cfgOptTypeBoolean; optRequired := false;
     optSection := cfgSectionCommandLine; optSecure := false; optMulti := false;
     optGroup := false; optGroupId := 0%nat; optCommandRoleValid := []; optData := None |}.

(** [parseRuleOption[optionId]].  The callers assert [optionId <
    CFG_OPTION_TOTAL] or take the id from [optionList]; outside the table the
    zero rule is read. *)
Definition ruleOption (rules : ParseRules) (optionId : nat) : ParseRuleOption :=
  nth optionId (parseRuleOption rules) ParseRuleOption_zero.

Definition ruleCommand (rules : ParseRules) (commandId : nat) : ParseRuleCommand :=
  nth commandId (parseRuleCommand rules)
    {| cmdName := EmptyString; cmdCommandRoleValid := 0; cmdParameterAllowed := false |}.

Definition ruleOptionGroup (rules : ParseRules) (groupId : nat) : ParseRuleOptionGroup :=
  nth groupId (parseRuleOptionGroup rules) {| grpName := EmptyString |}.

(** ** Find optional data for a command and option *)

(** Extracted option data.  [list] points into the data list right after the
    header; the model keeps the [listSize] cells it points to. *)
Record ParseRuleOptionData : Type := {
  rodFound : bool;                     (* found: Was the data found? *)
  rodData : Z;                         (* data: Data value *)
  rodListSize : nat;                   (* listSize: Data list size *)
  rodList : list DataCell;             (* list: Data list *)
}.

Definition ParseRuleOptionData_zero : ParseRuleOptionData :=
  {| rodFound := false; rodData := 0; rodListSize := 0%nat; rodList := [] |}.

(** The [do ... while] loop of [parseRuleOptionDataFind].  [offset] grows by
    at least one in every round, so [S (length dataList)] rounds of [fuel]
    are never used up. *)
Fixpoint parseRuleOptionDataFindLoop (fuel : nat) (typeFind : Z) (commandId : Z)
    (dataList : list DataCell) (offset : nat) (commandCurrent : Z)
    (result : ParseRuleOptionData) : Result ParseRuleOptionData :=
  match fuel with
  | O => Throw Unmodelled "out of fuel"
  | S fuel' =>
      match dataList !! offset with
      | None => Throw Unmodelled "read past the end of the data list"
      | Some (CellStr _) => Throw Unmodelled "string address read as a header"
      | Some (CellInt v) =>
          let w := v mod 2 ^ 64 in
          (* Extract data *)
          let type := Z.land (Z.shiftr w 24) 255 in
          let size := Z.to_nat (Z.land (Z.shiftr w 16) 255) in
          let data := Z.land w 65535 in
          let next (commandCurrent : Z) (result : ParseRuleOptionData) :=
            if type =? dataTypeCode parseRuleOptionDataTypeEnd then Ok result
            else parseRuleOptionDataFindLoop fuel' typeFind commandId dataList
                   (offset + size + 1) commandCurrent result in
          (* If a command block then set the current command *)
          if type =? dataTypeCode parseRuleOptionDataTypeCommand then
            (* If data was not found in the expected command then there's nothing more to look for *)
            if commandCurrent =? commandId then Ok result
            else next data result
          (* Only find type if not in a command block yet or in the expected command *)
          else if (type =? typeFind) &&
                  ((commandCurrent =? UINT_MAX) || (commandCurrent =? commandId)) then
            let result :=
              {| rodFound := true; rodData := data; rodListSize := size;
                 rodList := take size (drop (offset + 1) dataList) |} in
            (* If found in the expected command block then nothing more to look for *)
            if commandCurrent =? commandId then Ok result
            else next commandCurrent result
          else next commandCurrent result
      end
  end.

Definition parseRuleOptionDataFind (rules : ParseRules)
    (typeFind : ParseRuleOptionDataType) (commandId : nat) (optionId : nat)
    : Result ParseRuleOptionData :=
  match optData (ruleOption rules optionId) with
  (* Only proceed if there is data *)
  | None => Ok ParseRuleOptionData_zero
  | Some dataList =>
      parseRuleOptionDataFindLoop (S (length dataList)) (dataTypeCode typeFind)
        (Z.of_nat commandId) dataList 0 UINT_MAX ParseRuleOptionData_zero
  end.

(** The macros that build the data list in parse.auto.c. *)
Definition PARSE_RULE_OPTION_OPTIONAL_PUSH (type : ParseRuleOptionDataType) (size : nat)
    (data : Z) : DataCell :=
  CellInt (Z.lor (Z.lor (Z.shiftl (dataTypeCode type) 24) (Z.shiftl (Z.of_nat size) 16)) data).

Definition PARSE_RULE_OPTION_OPTIONAL_COMMAND (command : nat) : list DataCell :=
  [PARSE_RULE_OPTION_OPTIONAL_PUSH parseRuleOptionDataTypeCommand 0 (Z.of_nat command)].

Definition PARSE_RULE_OPTION_OPTIONAL_DEFAULT (defaultParam : string) : list DataCell :=
  [PARSE_RULE_OPTION_OPTIONAL_PUSH parseRuleOptionDataTypeDefault 1 0; CellStr defaultParam].

Definition PARSE_RULE_OPTION_OPTIONAL_REQUIRED (requiredParam : bool) : list DataCell :=
  [PARSE_RULE_OPTION_OPTIONAL_PUSH parseRuleOptionDataTypeRequired 0
     (if requiredParam then 1 else 0)].

Definition PARSE_RULE_OPTION_OPTIONAL_DEPEND_LIST (optionDepend : nat) (values : list string)
    : list DataCell :=
  PARSE_RULE_OPTION_OPTIONAL_PUSH parseRuleOptionDataTypeDepend (length values)
    (Z.of_nat optionDepend) :: map CellStr values.

Definition PARSE_RULE_OPTION_OPTIONAL_ALLOW_LIST (values : list string) : list DataCell :=
  PARSE_RULE_OPTION_OPTIONAL_PUSH parseRuleOptionDataTypeAllowList (length values) 0
    :: map CellStr values.

(** Sign extension of the low 32 bits: [(intptr_t)(int32_t)x]. *)
Definition to_int32 (z : Z) : Z :=
  let u := z mod 2 ^ 32 in if u <? 2 ^ 31 then u else u - 2 ^ 32.

Definition PARSE_RULE_OPTION_OPTIONAL_ALLOW_RANGE (rangeMin rangeMax : Z) : list DataCell :=
  [PARSE_RULE_OPTION_OPTIONAL_PUSH parseRuleOptionDataTypeAllowRange 4 0;
   CellInt (to_int32 (Z.shiftr rangeMin 32));
   CellInt (to_int32 (Z.land rangeMin 4294967295));
   CellInt (to_int32 (Z.shiftr rangeMax 32));
   CellInt (to_int32 (Z.land rangeMax 4294967295))].

(** [PARSE_RULE_OPTION_OPTIONAL_LIST]: the pushes followed by [NULL]. *)
Definition PARSE_RULE_OPTION_OPTIONAL_LIST (pushes : list (list DataCell)) : list DataCell :=
  concat pushes ++ [CellInt 0].

(** ** Rule getters *)

(** [(const char * )data.list[index]]: a string constant or [NULL]. *)
Definition dataListStr (data : ParseRuleOptionData) (index : nat) : Result (option string) :=
  match rodList data !! index with
  | Some (CellStr s) => Ok (Some s)
  | Some (CellInt 0) => Ok None
  | _ => Throw Unmodelled "data list cell is not a string"
  end.

(** [(intptr_t)data.list[index]]. *)
Definition dataListInt (data : ParseRuleOptionData) (index : nat) : Result Z :=
  match rodList data !! index with
  | Some (CellInt v) => Ok v
  | _ => Throw Unmodelled "data list cell is not an integer"
  end.

(** [PARSE_RULE_DATA_INT64]: extract an int64 from optional data list. *)
Definition PARSE_RULE_DATA_INT64 (data : ParseRuleOptionData) (index : nat) : Result Z :=
  do hi <-- dataListInt data index ;;
  do lo <-- dataListInt data (index + 1) ;;
  Ok (to_int64 (Z.lor (Z.shiftl hi 32) lo)).

Definition cfgParseOptionDefault (rules : ParseRules) (commandId optionId : nat)
    : Result (option string) :=
  ASSERT (commandId <? CFG_COMMAND_TOTAL rules)%nat ;;
  ASSERT (optionId <? CFG_OPTION_TOTAL rules)%nat ;;
  do data <-- parseRuleOptionDataFind rules parseRuleOptionDataTypeDefault commandId optionId ;;
  if rodFound data then dataListStr data 0 else Ok None.

Definition cfgParseOptionName (rules : ParseRules) (optionId : nat) : Result string :=
  ASSERT (optionId <? CFG_OPTION_TOTAL rules)%nat ;;
  Ok (optName (ruleOption rules optionId)).

(** [name + strlen(prefix)]. *)
Definition strDrop (n : nat) (s : string) : string :=
  substring n (String.length s - n) s.

Definition cfgParseOptionKeyIdxName (rules : ParseRules) (optionId keyIdx : nat)
    : Result string :=
  ASSERT (optionId <? CFG_OPTION_TOTAL rules)%nat ;;
  let rule := ruleOption rules optionId in
  ASSERT ((negb (optGroup rule) && (keyIdx =? 0)%nat) || optGroup rule) ;;
  (* If the option is in a group then construct the name *)
  if optGroup rule then
    let groupName := grpName (ruleOptionGroup rules (optGroupId rule)) in
    Ok (groupName +:+ fmtUInt (Z.of_nat keyIdx + 1)
          +:+ strDrop (String.length groupName) (optName rule))
  (* Else return the stored name *)
  else Ok (optName rule).

Definition cfgParseOptionRequired (rules : ParseRules) (commandId optionId : nat)
    : Result bool :=
  ASSERT (commandId <? CFG_COMMAND_TOTAL rules)%nat ;;
  ASSERT (optionId <? CFG_OPTION_TOTAL rules)%nat ;;
  do data <-- parseRuleOptionDataFind rules parseRuleOptionDataTypeRequired commandId optionId ;;
  if rodFound data then Ok (negb (rodData data =? 0))
  else Ok (optRequired (ruleOption rules optionId)).

Definition cfgParseOptionSecure (rules : ParseRules) (optionId : nat) : Result bool :=
  ASSERT (optionId <? CFG_OPTION_TOTAL rules)%nat ;;
  Ok (optSecure (ruleOption rules optionId)).

Definition cfgParseOptionType (rules : ParseRules) (optionId : nat)
    : Result ConfigOptionType :=
  ASSERT (optionId <? CFG_OPTION_TOTAL rules)%nat ;;
  Ok (optType (ruleOption rules optionId)).

Definition cfgParseOptionValid (rules : ParseRules) (commandId commandRoleId optionId : nat)
    : Result bool :=
  ASSERT (commandId <? CFG_COMMAND_TOTAL rules)%nat ;;
  ASSERT (optionId <? CFG_OPTION_TOTAL rules)%nat ;;
  Ok (negb (Z.land (nth commandRoleId (optCommandRoleValid (ruleOption rules optionId)) 0)
              (Z.shiftl 1 (Z.of_nat commandId)) =? 0)).

(** ** Options parsed from the command line *)

Record ParseOptionValue : Type := {
  povFound : bool;                     (* found: Was the option found? *)
  povNegate : bool;                    (* negate: Was the option negated on the command line? *)
  povReset : bool;                     (* reset: Was the option reset on the command line? *)
  povSource : ConfigSource;            (* source: Where was the option found? *)
  povValueList : option (list string); (* valueList: List of values found *)
}.

(** [(ParseOptionValue){0}]. *)
Definition ParseOptionValue_zero : ParseOptionValue :=
  {| povFound := false; povNegate := false; povReset := false;
     povSource := cfgSourceDefault; povValueList := None |}.

(** [struct ParseOption]: the array [indexList] with its length
    [indexListTotal]; the pointer is [NULL] exactly when the length is zero. *)
Record ParseOption : Type := {
  indexList : list ParseOptionValue;   (* List of indexed option values *)
}.

Definition indexListTotal (po : ParseOption) : nat := length (indexList po).

Definition ParseOption_zero : ParseOption := {| indexList := [] |}.

(** [optionList[optionId].indexList != NULL]. *)
Definition indexListNotNull (optionList : list ParseOption) (optionId : nat) : bool :=
  match optionList !! optionId with
  | Some po => negb (indexListTotal po =? 0)%nat
  | None => false
  end.

(** The value at a key index; the zero structure when the index has not been
    allocated (as phase 5 of [configParse] reads it). *)
Definition parseOptionValueAt (optionList : list ParseOption) (optionId optionKeyIdx : nat)
    : ParseOptionValue :=
  match optionList !! optionId with
  | Some po => nth optionKeyIdx (indexList po) ParseOptionValue_zero
  | None => ParseOptionValue_zero
  end.

(** Assignment through the pointer [parseOptionIdxValue] returned. *)
Definition parseOptionValueSet (optionList : list ParseOption) (optionId optionKeyIdx : nat)
    (value : ParseOptionValue) : list ParseOption :=
  match optionList !! optionId with
  | Some po => <[optionId := {| indexList := <[optionKeyIdx := value]> (indexList po) |}]> optionList
  | None => optionList
  end.

(** A value found with its value list, neither negated nor reset. *)
Definition parseOptionValueFound (source : ConfigSource) (valueList : option (list string))
    : ParseOptionValue :=
  {| povFound := true; povNegate := false; povReset := false; povSource := source;
     povValueList := valueList |}.

(** Get the indexed value, creating the array to contain it if needed.  The
    result is the option list after the allocation; the value is then read with
    [parseOptionValueAt] and written with [parseOptionValueSet]. *)
Definition parseOptionIdxValue (rules : ParseRules) (optionList : list ParseOption)
    (optionId optionKeyIdx : nat) : Result (list ParseOption) :=
  match optionList !! optionId with
  | None => Throw Unmodelled "option id past the parse option list"
  | Some po =>
      (* If the requested index is beyond what has already been allocated *)
      if (indexListTotal po <=? optionKeyIdx)%nat then
        (* If the option is in a group *)
        if optGroup (ruleOption rules optionId) then
          (* Allocate enough memory to include the requested indexed or a fixed amount *)
          if (indexListTotal po =? 0)%nat then
            let total :=
              if (LIST_INITIAL_SIZE rules / 2 <=? optionKeyIdx)%nat
              then (optionKeyIdx + 1)%nat else (LIST_INITIAL_SIZE rules / 2)%nat in
            Ok (<[optionId := {| indexList := replicate total ParseOptionValue_zero |}]> optionList)
          (* Allocate more memory when needed; initialize the newly allocated memory *)
          else
            let optionOffset := indexListTotal po in
            Ok (<[optionId :=
                    {| indexList := indexList po ++
                         replicate (optionKeyIdx + 1 - optionOffset) ParseOptionValue_zero |}]>
                  optionList)
        (* Else the option is not in a group so there can only be one value *)
        else if (optionKeyIdx =? 0)%nat then
          Ok (<[optionId := {| indexList := [ParseOptionValue_zero] |}]> optionList)
        else Throw Unmodelled "key index past the single value of an ungrouped option"
      else Ok optionList
  end.

(** ** Find an option by name in the option list *)

Definition PARSE_OPTION_FLAG : Z := Z.shiftl 1 30.
Definition PARSE_NEGATE_FLAG : Z := Z.shiftl 1 29.
Definition PARSE_RESET_FLAG : Z := Z.shiftl 1 28.
Definition PARSE_DEPRECATE_FLAG : Z := Z.shiftl 1 27.
Definition PARSE_OPTION_MASK : Z := 255.
Definition PARSE_KEY_IDX_SHIFT : Z := 8.
Definition PARSE_KEY_IDX_MASK : Z := 255.

Record CfgParseOptionResult : Type := {
  resFound : bool;
  resId : nat;
  resKeyIdx : nat;
  resNegate : bool;
  resReset : bool;
  resDeprecated : bool;
}.

Definition CfgParseOptionResult_zero : CfgParseOptionResult :=
  {| resFound := false; resId := 0; resKeyIdx := 0; resNegate := false; resReset := false;
     resDeprecated := false |}.

(** Helper to parse the option info into a structure. *)
Definition cfgParseOptionInfo (info : Z) : CfgParseOptionResult :=
  {| resFound := true;
     resId := Z.to_nat (Z.land info PARSE_OPTION_MASK);
     resKeyIdx := Z.to_nat (Z.land (Z.shiftr info PARSE_KEY_IDX_SHIFT) PARSE_KEY_IDX_MASK);
     resNegate := negb (Z.land info PARSE_NEGATE_FLAG =? 0);
     resReset := negb (Z.land info PARSE_RESET_FLAG =? 0);
     resDeprecated := negb (Z.land info PARSE_DEPRECATE_FLAG =? 0) |}.

Definition cfgParseOption (rules : ParseRules) (optionName : string) : CfgParseOptionResult :=
  (* Search for the option *)
  match find (fun o => strEq optionName (goName o)) (optionList rules) with
  (* If the option was found *)
  | Some o => cfgParseOptionInfo (val o)
  | None => CfgParseOptionResult_zero
  end.

(** ** Collaborators

    The INI parser, the storage helper and the command table of config.c are
    used through their interfaces only; none is among the sources. *)

(** Modelled from the spec: the INI document, [(section, key) -> value |
    list<value>] (common/ini.c is not among the sources). *)
Inductive IniValue : Type :=
  | IniStr (value : string)
  | IniList (values : list string).

Definition Ini : Type := list (string * list (string * IniValue)).

Definition iniSection (ini : Ini) (section : string) : list (string * IniValue) :=
  match find (fun s => strEq section (fst s)) ini with
  | Some s => snd s
  | None => []
  end.

(** Modelled from the spec: the accessors of common/ini.c (not among the
    sources) over that document. *)
Definition iniSectionKeyList (ini : Ini) (section : string) : list string :=
  map fst (iniSection ini section).

Definition iniValue (ini : Ini) (section key : string) : option IniValue :=
  match find (fun kv => strEq key (fst kv)) (iniSection ini section) with
  | Some kv => Some (snd kv)
  | None => None
  end.

Definition iniSectionKeyIsList (ini : Ini) (section key : string) : bool :=
  match iniValue ini section key with
  | Some (IniList _) => true
  | _ => false
  end.

Definition iniGetList (ini : Ini) (section key : string) : option (list string) :=
  match iniValue ini section key with
  | Some (IniList values) => Some values
  | _ => None
  end.

Definition iniGet (ini : Ini) (section key : string) : Result string :=
  match iniValue ini section key with
  | Some (IniStr value) => Ok value
  | _ => Throw FormatError
           ("section '" +:+ section +:+ "', key '" +:+ key +:+ "' does not exist")
  end.

(** Modelled from the spec: the storage the loader reads, [read(path) -> bytes
    | not-found] and the entries of a directory. *)
Record FileSystem : Type := {
  fsFile : string -> option string;
  fsDir : string -> option (list string);
}.

Record Collaborators : Type := {
  cfgCommandId : string -> nat;
  cfgCommandRoleEnum : string -> Result nat;
  cfgCommandName : nat -> string;
  iniParse : string -> Result Ini;
  (* (int64_t)(cvtZToDouble(strZ(value)) * MSEC_PER_SEC) *)
  cvtZToMSec : string -> Result Z;
  fileSystem : FileSystem;
}.

(** Modelled from the spec:
    [storageGetP(storageNewReadP(storageLocal(), file, .ignoreMissing = ...))]
    of storage/storage.c (not among the sources): the bytes of the file, [NULL]
    for a missing file that may be ignored, an error otherwise. *)
Definition storageGet (fs : FileSystem) (file : string) (ignoreMissing : bool)
    : Result (option string) :=
  match fsFile fs file with
  | Some buffer => Ok (Some buffer)
  | None =>
      if ignoreMissing then Ok None
      else Throw FileMissingError ("unable to open missing file '" +:+ file +:+ "' for read")
  end.

Definition reAnyChr : RegExp := ReRange (ascii_of_nat 1) (ascii_of_nat 255).

(** [regExpMatch]: the expression matches somewhere in the string; the
    expressions used here end in [$]. *)
Definition regExpMatch (expression : RegExp) (s : string) : bool :=
  regExpMatchOne (ReSeq (ReStar reAnyChr) expression) s.

(** The expression [.+\.conf$] of the include path listing. *)
Definition confExpression : RegExp := ReSeq (RePlus reAnyChr) (ReStr ".conf").

(** Get a list of files from a directory (Posix storage driver).  In the
    file system of the model a directory that [opendir] cannot open is one that
    does not exist ([errno] is [ENOENT]): a failure for another reason, which
    the code throws also when [errorOnMissing] is false, is not in the model.
    The message is the one of [THROW_SYS_ERROR_FMT] without the text of the
    system error it appends. *)
Definition storageDriverPosixList (fs : FileSystem) (path : string) (errorOnMissing : bool)
    (expression : option RegExp) : Result (option (list string)) :=
  match fsDir fs path with
  (* If the directory could not be opened process errors but ignore missing directories *)
  | None =>
      if errorOnMissing
      then Throw PathOpenError ("unable to open path '" +:+ path +:+ "' for read")
      else Ok None
  | Some entries =>
      (* Exclude current/parent directory and apply the expression if specified *)
      Ok (Some (filter (fun entry =>
                  negb (strEq entry ".") && negb (strEq entry "..") &&
                  match expression with
                  | None => true
                  | Some re => regExpMatch re entry
                  end = true) entries))
  end.

(** Modelled from the spec: [strLstSort(list, sortOrderAsc)] of
    common/type/stringList.c (not among the sources), ascending byte order. *)
Fixpoint strLstInsert (s : string) (l : list string) : list string :=
  match l with
  | [] => [s]
  | x :: rest => if String.leb s x then s :: l else x :: strLstInsert s rest
  end.

Fixpoint strLstSort (l : list string) : list string :=
  match l with
  | [] => []
  | x :: rest => strLstInsert x (strLstSort rest)
  end.

(** Modelled from the spec: [strBaseZ] of common/type/string.c (not among the
    sources), the part of a path after the last [/]. *)
Fixpoint strBase (s : string) : string :=
  match s with
  | EmptyString => EmptyString
  | String c rest =>
      if existsb (Ascii.eqb "/") (list_ascii_of_string rest) then strBase rest
      else if Ascii.eqb c "/" then rest else s
  end.

(** Modelled from the spec: [strLstNewSplitZ] of common/type/stringList.c
    (not among the sources) for a one-byte delimiter: split the string on the
    delimiter into values; a string without delimiter is one value. *)
Fixpoint strLstNewSplit (s : string) (delimiter : ascii) : list string :=
  match s with
  | EmptyString => [EmptyString]
  | String c rest =>
      if Ascii.eqb c delimiter then EmptyString :: strLstNewSplit rest delimiter
      else match strLstNewSplit rest delimiter with
           | first :: others => String c first :: others
           | [] => [String c EmptyString]
           end
  end.

(** ** Load the configuration file(s) *)

Definition cfgFileLoadPart (ext : Collaborators) (config : option string)
    (configPart : option string) : Result (option string) :=
  match configPart with
  | None => Ok config
  | Some configPartStr =>
      (* Validate the file by parsing it as an Ini object *)
      if (0 <? strSize configPartStr)%nat then
        do configPartIni <-- iniParse ext configPartStr ;;
        (* Create the result config file, else add an LF in case the previous
           file did not end with one *)
        let config :=
          match config with
          | None => EmptyString
          | Some config => config +:+ LF_STR
          end in
        (* Add the config part to the result config file *)
        Ok (Some (config +:+ configPartStr))
      else Ok config
  end.

(** The separator rule in the words of the specification: a newline is
    interposed iff the accumulator is non-empty. *)
Definition cfgFileLoadPartSpec (config : option string) (configPart : string) : option string :=
  match config with
  | None => Some configPart
  | Some config =>
      if (strSize config =? 0)%nat then Some configPart
      else Some (config +:+ LF_STR +:+ configPart)
  end.

Definition PGBACKREST_CONFIG_INCLUDE_PATH : string := "conf.d".

(** [optionList[id].indexList != NULL && optionList[id].indexList[0].found]. *)
Definition optionFound (optionList : list ParseOption) (optionId : nat) : bool :=
  indexListNotNull optionList optionId && povFound (parseOptionValueAt optionList optionId 0).

(** [strLstGet(list, 0)] of a value list; a [NULL] or empty list fails its
    assertion. *)
Definition valueListFirst (valueList : option (list string)) : Result string :=
  match valueList with
  | Some (value :: _) => Ok value
  | _ => Throw AssertError "assertion 'listIdx < strLstSize(this)' failed"
  end.

(** The loop over the sorted include files. *)
Fixpoint cfgFileLoadInclude (ext : Collaborators) (configIncludePath : string)
    (list : list string) (result : option string) : Result (option string) :=
  match list with
  | [] => Ok result
  | file :: rest =>
      do buffer <-- storageGet (fileSystem ext) (configIncludePath +:+ "/" +:+ file) true ;;
      do result <-- cfgFileLoadPart ext result buffer ;;
      cfgFileLoadInclude ext configIncludePath rest result
  end.

Definition cfgFileLoad (rules : ParseRules) (ext : Collaborators)
    (optionList : list ParseOption)
    (optConfigDefault optConfigIncludePathDefault origConfigDefault : string)
    : Result (option string) :=
  let loadConfig := true in
  let loadConfigInclude := true in
  (* If the option is specified on the command line, then found will be true
     meaning the file is required to exist, else it is optional *)
  let configFound := optionFound optionList (cfgOptConfig rules) in
  let configRequired := configFound in
  let configPathRequired := optionFound optionList (cfgOptConfigPath rules) in
  let configIncludeRequired := optionFound optionList (cfgOptConfigIncludePath rules) in
  (* Save default for later determining if must check old original default config path *)
  let optConfigDefaultCurrent := optConfigDefault in
  (* If the config-path option is found on the command line, then its value
     will override the base path defaults for config and config-include-path *)
  do defaults <--
    (if configPathRequired then
       do configPath <-- valueListFirst
            (povValueList (parseOptionValueAt optionList (cfgOptConfigPath rules) 0)) ;;
       Ok (configPath +:+ "/" +:+ strBase optConfigDefault,
           configPath +:+ "/" +:+ PGBACKREST_CONFIG_INCLUDE_PATH)
     else Ok (optConfigDefault, optConfigIncludePathDefault)) ;;
  let '(optConfigDefault, optConfigIncludePathDefault) := defaults in
  (* If the --no-config option was passed then do not load the config file *)
  let noConfig :=
    indexListNotNull optionList (cfgOptConfig rules) &&
    povNegate (parseOptionValueAt optionList (cfgOptConfig rules) 0) in
  let loadConfig := if noConfig then false else loadConfig in
  let configRequired := if noConfig then false else configRequired in
  (* If --config option is specified on the command line but neither the
     --config-include-path nor the config-path are passed, then do not attempt
     to load the include files *)
  let skipInclude := configFound && negb (configPathRequired || configIncludeRequired) in
  let loadConfigInclude := if skipInclude then false else loadConfigInclude in
  let configIncludeRequired := if skipInclude then false else configIncludeRequired in
  (* Load the main config file *)
  do result <--
    (if loadConfig then
       (* Get the config file name from the command-line if it exists else default *)
       do configFileName <--
         (if configRequired
          then valueListFirst (povValueList (parseOptionValueAt optionList (cfgOptConfig rules) 0))
          else Ok optConfigDefault) ;;
       (* Load the config file *)
       do buffer <-- storageGet (fileSystem ext) configFileName (negb configRequired) ;;
       match buffer with
       | Some buffer => Ok (Some buffer)
       | None =>
           if strEq configFileName optConfigDefaultCurrent then
             (* If config is current default and it was not found, attempt to
                load the config file from the old default location *)
             storageGet (fileSystem ext) origConfigDefault (negb configRequired)
           else Ok None
       end
     else Ok None) ;;
  (* Load *.conf files from the include directory *)
  if loadConfigInclude then
    (* Validate the file by parsing it as an Ini object *)
    do validated <--
      match result with
      | Some config => do ini <-- iniParse ext config ;; Ok tt
      | None => Ok tt
      end ;;
    (* Get the config include path from the command-line if it exists else default *)
    do configIncludePath <--
      (if configIncludeRequired
       then valueListFirst
              (povValueList (parseOptionValueAt optionList (cfgOptConfigIncludePath rules) 0))
       else Ok optConfigIncludePathDefault) ;;
    (* Get a list of conf files from the specified path - error on missing
       directory if the option was passed on the command line *)
    do list <-- storageDriverPosixList (fileSystem ext) configIncludePath
                  configIncludeRequired (Some confExpression) ;;
    (* If conf files are found, then add them to the config string *)
    match list with
    | Some list =>
        if (0 <? length list)%nat then
          (* Sort the list for reproducibility only -- order does not matter *)
          cfgFileLoadInclude ext configIncludePath (strLstSort list) result
        else Ok result
    | None => Ok result
    end
  else Ok result.

(** ** The configuration under construction *)

(** Modelled from the spec: the variant values of common/type/variant.h (not
    among the sources), a tagged union over bool, int64, string, list of
    strings and key/value. *)
Inductive Variant : Type :=
  | VarBool (b : bool)
  | VarInt64 (i : Z)
  | VarStr (s : string)
  | VarVarLst (l : list string)
  | VarKv (kv : list (string * string)).

(** Modelled from the spec: [ConfigOptionValue], the option and option group
    entries and [Config] of config/config.intern.h (not among the sources),
    with the fields [configParse] reads and writes. *)
Record ConfigOptionValue : Type := {
  covNegate : bool;                    (* negate: Is the option negated? *)
  covReset : bool;                     (* reset: Is the option reset? *)
  covSource : ConfigSource;            (* source: Where the option came from *)
  covValue : option Variant;           (* value: Value, NULL when not set *)
}.

Record ConfigOptionData : Type := {
  coName : string;                     (* name *)
  coValid : bool;                      (* valid: Is option valid for current command? *)
  coGroup : bool;                      (* group: In a group? *)
  coGroupId : nat;                     (* groupId: Id if in a group *)
  coIndex : option (list ConfigOptionValue); (* index: List of indexed values *)
}.

Record ConfigOptionGroupData : Type := {
  cogName : string;                    (* name *)
  cogValid : bool;                     (* valid: Is option group valid for the current command? *)
  cogIndexTotal : nat;                 (* indexTotal: Total number of indexes with values in option group *)
  cogIndexMap : list nat;              (* indexMap[CFG_OPTION_KEY_MAX]: List of index to key index mappings *)
}.

Record Config : Type := {
  cfgCommand : nat;                    (* command: Current command *)
  cfgCommandRole : nat;                (* commandRole: Current command role *)
  cfgHelp : bool;                      (* help: Was help requested for the command? *)
  cfgExe : string;                     (* exe: Location of the executable *)
  cfgParamList : option (list string); (* paramList: Parameters passed to the command *)
  cfgOption : list ConfigOptionData;   (* option[CFG_OPTION_TOTAL] *)
  cfgOptionGroup : list ConfigOptionGroupData; (* optionGroup[CFG_OPTION_GROUP_TOTAL] *)
}.

Definition ConfigOptionData_zero : ConfigOptionData :=
  {| coName := EmptyString; coValid := false; coGroup := false; coGroupId := 0;
     coIndex := None |}.

Definition ConfigOptionGroupData_zero (rules : ParseRules) : ConfigOptionGroupData :=
  {| cogName := EmptyString; cogValid := false; cogIndexTotal := 0;
     cogIndexMap := replicate (CFG_OPTION_KEY_MAX rules) 0%nat |}.

(** Create the config struct: everything but [command] and [exe] is zero. *)
Definition configNew (rules : ParseRules) (exe : string) : Config :=
  {| cfgCommand := cfgCmdNone rules; cfgCommandRole := 0; cfgHelp := false; cfgExe := exe;
     cfgParamList := None;
     cfgOption := replicate (CFG_OPTION_TOTAL rules) ConfigOptionData_zero;
     cfgOptionGroup := replicate (CFG_OPTION_GROUP_TOTAL rules) (ConfigOptionGroupData_zero rules) |}.

Definition cfgCmdRoleDefault : nat := 0.
Definition cfgCmdRoleAsync : nat := 1.
Definition cfgCmdRoleLocal : nat := 2.
Definition cfgCmdRoleRemote : nat := 3.

(** Thread a state through a loop whose body can throw. *)
Fixpoint foldResult {A S : Type} (body : A -> S -> Result S) (l : list A) (s : S) : Result S :=
  match l with
  | [] => Ok s
  | a :: rest => do s' <-- body a s ;; foldResult body rest s'
  end.

(** ** Phase 1: parse command line parameters *)

(** What one call of [getopt_long] hands to the loop: the value returned,
    [argList[optind - 1]], the index of the option in [optionList] and
    [optarg]. *)
Record GetoptResult : Type := {
  optionValue : Z;
  argCurrent : string;
  optionListIdx : nat;
  optarg : string;
}.

Record ParseState : Type := {
  psConfig : Config;
  psParseOptionList : list ParseOption;
  psCommandSet : bool;
  psArgFound : bool;
}.

Definition GetoptOption_zero : GetoptOption :=
  {| goName := EmptyString; has_arg := 0; val := 0 |}.

Definition configSetCommand (config : Config) (command commandRole : nat) (help : bool)
    : Config :=
  {| cfgCommand := command; cfgCommandRole := commandRole; cfgHelp := help;
     cfgExe := cfgExe config; cfgParamList := cfgParamList config;
     cfgOption := cfgOption config; cfgOptionGroup := cfgOptionGroup config |}.

Definition configAddParam (config : Config) (param : string) : Config :=
  {| cfgCommand := cfgCommand config; cfgCommandRole := cfgCommandRole config;
     cfgHelp := cfgHelp config; cfgExe := cfgExe config;
     cfgParamList :=
       Some (match cfgParamList config with Some l => l | None => [] end ++ [param]);
     cfgOption := cfgOption config; cfgOptionGroup := cfgOptionGroup config |}.

(** Parse arguments that are not options, i.e. commands and parameters passed
    to commands ([case 1] of the switch). *)
Definition parseArgCommand (rules : ParseRules) (ext : Collaborators) (arg : string)
    (st : ParseState) : Result ParseState :=
  let config := psConfig st in
  (* The first argument should be the command *)
  if negb (psCommandSet st) then
    (* Try getting the command from the valid command list *)
    let command := cfgCommandId ext arg in
    (* If not successful then a command role may be appended *)
    do commandAndRole <--
      (if (command =? cfgCmdNone rules)%nat then
         match strLstNewSplit arg ":" with
         | [part0; part1] =>
             (* Get command id; if command id is valid then get command role id *)
             let command := cfgCommandId ext part0 in
             if negb (command =? cfgCmdNone rules)%nat
             then do role <-- cfgCommandRoleEnum ext part1 ;; Ok (command, role)
             else Ok (command, cfgCmdRoleDefault)
         | _ => Ok (command, cfgCmdRoleDefault)
         end
       else Ok (command, cfgCmdRoleDefault)) ;;
    let '(command, commandRole) := commandAndRole in
    (* Error when command does not exist *)
    if (command =? cfgCmdNone rules)%nat then
      Throw CommandInvalidError ("invalid command '" +:+ arg +:+ "'")
    (* Error when role is not valid for the command *)
    else if Z.land (cmdCommandRoleValid (ruleCommand rules command))
                   (Z.shiftl 1 (Z.of_nat commandRole)) =? 0 then
      Throw CommandInvalidError ("invalid command/role combination '" +:+ arg +:+ "'")
    else if (command =? cfgCmdHelp rules)%nat then
      Ok {| psConfig := configSetCommand config command commandRole true;
            psParseOptionList := psParseOptionList st;
            psCommandSet := psCommandSet st; psArgFound := psArgFound st |}
    else
      Ok {| psConfig := configSetCommand config command commandRole (cfgHelp config);
            psParseOptionList := psParseOptionList st;
            psCommandSet := true; psArgFound := psArgFound st |}
  (* Additional arguments are command arguments *)
  else
    Ok {| psConfig := configAddParam config arg;
          psParseOptionList := psParseOptionList st;
          psCommandSet := psCommandSet st; psArgFound := psArgFound st |}.

(** [THROW_FMT(OptionInvalidError, "option '%s' <what>", cfgParseOptionKeyIdxName(...))]. *)
Definition throwOption {A : Type} (rules : ParseRules) (optionId keyIdx : nat) (what : string)
    : Result A :=
  do name <-- cfgParseOptionKeyIdxName rules optionId keyIdx ;;
  Throw OptionInvalidError ("option '" +:+ name +:+ "' " +:+ what).

(** Parse valid option ([default] of the switch). *)
Definition parseArgOption (rules : ParseRules) (g : GetoptResult)
    (parseOptionList : list ParseOption) : Result (list ParseOption) :=
  (* Get option id and flags from the option code *)
  let opt := cfgParseOptionInfo (optionValue g) in
  let optionId := resId opt in
  let keyIdx := resKeyIdx opt in
  let hasArg := has_arg (nth (optionListIdx g) (optionList rules) GetoptOption_zero) in
  (* Make sure the option id is valid *)
  ASSERT (optionId <? CFG_OPTION_TOTAL rules)%nat ;;
  (* Error if this option is secure and cannot be passed on the command line *)
  do secure <-- cfgParseOptionSecure rules optionId ;;
  if secure then
    do name <-- cfgParseOptionKeyIdxName rules optionId keyIdx ;;
    Throw OptionInvalidError
      ("option '" +:+ name +:+ "' is not allowed on the command-line" +:+ LF_STR +:+
       "HINT: this option could expose secrets in the process list." +:+ LF_STR +:+
       "HINT: specify the option in a configuration file or an environment variable instead.")
  else
    (* If the option has not been found yet then set it *)
    do parseOptionList <-- parseOptionIdxValue rules parseOptionList optionId keyIdx ;;
    let optionValue := parseOptionValueAt parseOptionList optionId keyIdx in
    if negb (povFound optionValue) then
      Ok (parseOptionValueSet parseOptionList optionId keyIdx
            {| povFound := true; povNegate := resNegate opt; povReset := resReset opt;
               povSource := cfgSourceParam;
               (* Only set the argument if the option requires one *)
               povValueList := if hasArg =? required_argument then Some [optarg g] else None |})
    else
      (* Make sure option is not negated more than once *)
      if povNegate optionValue && resNegate opt then
        throwOption rules optionId keyIdx "is negated multiple times"
      (* Make sure option is not reset more than once *)
      else if povReset optionValue && resReset opt then
        throwOption rules optionId keyIdx "is reset multiple times"
      (* Don't allow an option to be both negated and reset *)
      else if (povReset optionValue && resNegate opt) ||
              (povNegate optionValue && resReset opt) then
        throwOption rules optionId keyIdx "cannot be negated and reset"
      (* Don't allow an option to be both set and negated *)
      else if negb (eqb (povNegate optionValue) (resNegate opt)) then
        throwOption rules optionId keyIdx "cannot be set and negated"
      (* Don't allow an option to be both set and reset *)
      else if negb (eqb (povReset optionValue) (resReset opt)) then
        throwOption rules optionId keyIdx "cannot be set and reset"
      (* Add the argument *)
      else if (hasArg =? required_argument) && optMulti (ruleOption rules optionId) then
        match povValueList optionValue with
        | Some valueList =>
            Ok (parseOptionValueSet parseOptionList optionId keyIdx
                  {| povFound := povFound optionValue; povNegate := povNegate optionValue;
                     povReset := povReset optionValue; povSource := povSource optionValue;
                     povValueList := Some (valueList ++ [optarg g]) |})
        | None => Throw AssertError "assertion 'this != NULL' failed"
        end
      (* Error if the option does not accept multiple arguments *)
      else throwOption rules optionId keyIdx "cannot be set multiple times".

(** The body of the [getopt_long] loop. *)
Definition parseArg (rules : ParseRules) (ext : Collaborators) (g : GetoptResult)
    (st : ParseState) : Result ParseState :=
  do st <--
    (if optionValue g =? 1 then parseArgCommand rules ext (argCurrent g) st
     (* If the option is unknown then error *)
     else if optionValue g =? 63 then
       Throw OptionInvalidError ("invalid option '" +:+ argCurrent g +:+ "'")
     (* If the option is missing an argument then error *)
     else if optionValue g =? 58 then
       Throw OptionInvalidError ("option '" +:+ argCurrent g +:+ "' requires argument")
     else
       do parseOptionList <-- parseArgOption rules g (psParseOptionList st) ;;
       Ok {| psConfig := psConfig st; psParseOptionList := parseOptionList;
             psCommandSet := psCommandSet st; psArgFound := psArgFound st |}) ;;
  (* Arg has been found *)
  Ok {| psConfig := psConfig st; psParseOptionList := psParseOptionList st;
        psCommandSet := psCommandSet st; psArgFound := true |}.

(** [getopt_long] returned an option of [optionList] (the [default] case of
    the switch). *)
Definition getoptIsOption (g : GetoptResult) : bool :=
  negb (optionValue g =? 1) && negb (optionValue g =? 63) && negb (optionValue g =? 58).

(** Phase 1 with the checks that follow the loop. *)
Definition configParseArgs (rules : ParseRules) (ext : Collaborators) (exe : string)
    (args : list GetoptResult) : Result (Config * list ParseOption) :=
  do st <-- foldResult (parseArg rules ext) args
              {| psConfig := configNew rules exe;
                 psParseOptionList := replicate (CFG_OPTION_TOTAL rules) ParseOption_zero;
                 psCommandSet := false; psArgFound := false |} ;;
  let config := psConfig st in
  (* Handle command not found *)
  do config <--
    (if negb (psCommandSet st) && negb (cfgHelp config) then
       (* If there are args then error *)
       if psArgFound st then Throw CommandRequiredError "no command found"
       (* Otherwise set the command to help *)
       else Ok (configSetCommand config (cfgCommand config) (cfgCommandRole config) true)
     else Ok config) ;;
  (* Error when parameters found but the command does not allow parameters *)
  if match cfgParamList config with Some _ => true | None => false end &&
     negb (cfgHelp config) &&
     negb (cmdParameterAllowed (ruleCommand rules (cfgCommand config))) then
    Throw ParamInvalidError "command does not allow parameters"
  else Ok (config, psParseOptionList st).

(** ** Phase 2: parse environment variables *)

Definition PGBACKREST_ENV : string := "PGBACKREST_".
Definition PGBACKREST_ENV_SIZE : nat := String.length PGBACKREST_ENV.

(** [strchr(s, c) - s]. *)
Fixpoint strChr (s : string) (c : ascii) : option nat :=
  match s with
  | EmptyString => None
  | String x rest =>
      if Ascii.eqb x c then Some 0%nat
      else match strChr rest c with
           | Some n => Some (S n)
           | None => None
           end
  end.

(** The option name of an environment entry: the text between the prefix and
    the first [=], lowercased, with [_] replaced by [-]. *)
Definition envKey (keyValue : string) (equalPos : nat) : string :=
  strReplaceChr
    (strLower (substring PGBACKREST_ENV_SIZE (equalPos - PGBACKREST_ENV_SIZE) keyValue))
    "_" "-".

(** The value of an environment entry: the text after the first [=]. *)
Definition envValue (keyValue : string) (equalPos : nat) : string :=
  strDrop (equalPos + 1) keyValue.

(** The body of the loop over [environ].  Warnings go to the log and leave
    the parse untouched. *)
Definition parseEnv (rules : ParseRules) (config : Config) (keyValue : string)
    (parseOptionList : list ParseOption) : Result (list ParseOption) :=
  if strBeginsWith keyValue PGBACKREST_ENV then
    (* Find the first = char *)
    match strChr keyValue "=" with
    | None => Throw AssertError "assertion 'equalPtr != NULL' failed"
    | Some equalPos =>
        (* Get key and value *)
        let key := envKey keyValue equalPos in
        let value := envValue keyValue equalPos in
        (* Find the option *)
        let opt := cfgParseOption rules key in
        (* Warn if the option not found *)
        if negb (resFound opt) then Ok parseOptionList
        (* Warn if negate option found in env *)
        else if resNegate opt then Ok parseOptionList
        (* Warn if reset option found in env *)
        else if resReset opt then Ok parseOptionList
        else
          (* Continue if the option is not valid for this command *)
          do valid <-- cfgParseOptionValid rules (cfgCommand config) (cfgCommandRole config)
                         (resId opt) ;;
          if negb valid then Ok parseOptionList
          else if (strSize value =? 0)%nat then
            Throw OptionInvalidValueError
              ("environment variable '" +:+ key +:+ "' must have a value")
          else
            (* Continue if the option has already been specified on the command line *)
            do parseOptionList <--
              parseOptionIdxValue rules parseOptionList (resId opt) (resKeyIdx opt) ;;
            let optionValue :=
              parseOptionValueAt parseOptionList (resId opt) (resKeyIdx opt) in
            if povFound optionValue then Ok parseOptionList
            else
              let store (negate : bool) (valueList : option (list string)) :=
                parseOptionValueSet parseOptionList (resId opt) (resKeyIdx opt)
                  {| povFound := true; povNegate := negate; povReset := povReset optionValue;
                     povSource := cfgSourceConfig; povValueList := valueList |} in
              do type <-- cfgParseOptionType rules (resId opt) ;;
              (* Convert boolean to string *)
              match type with
              | cfgOptTypeBoolean =>
                  if strEq value "n" then Ok (store true (povValueList optionValue))
                  else if negb (strEq value "y") then
                    Throw OptionInvalidValueError
                      ("environment boolean option '" +:+ key +:+ "' must be 'y' or 'n'")
                  else Ok (store (povNegate optionValue) (povValueList optionValue))
              | _ =>
                  (* Else split list/hash into separate values *)
                  if optMulti (ruleOption rules (resId opt)) then
                    Ok (store (povNegate optionValue) (Some (strLstNewSplit value ":")))
                  (* Else add the string value *)
                  else Ok (store (povNegate optionValue) (Some [value]))
              end
    end
  else Ok parseOptionList.

Definition configParseEnv (rules : ParseRules) (config : Config) (environ : list string)
    (parseOptionList : list ParseOption) : Result (list ParseOption) :=
  foldResult (parseEnv rules config) environ parseOptionList.

(** ** Phase 3: parse config file unless --no-config passed *)

Definition CFGDEF_SECTION_GLOBAL : string := "global".
(** ["/etc/" PROJECT_BIN ".conf"], [PROJECT_BIN] being "pgbackrest". *)
Definition PGBACKREST_CONFIG_ORIG_PATH_FILE : string := "/etc/pgbackrest.conf".

(** Build list of sections to search for options. *)
Definition configSectionList (ext : Collaborators) (config : Config) (stanza : option string)
    : list string :=
  match stanza with
  | Some stanza => [stanza +:+ ":" +:+ cfgCommandName ext (cfgCommand config); stanza]
  | None => []
  end ++
  [CFGDEF_SECTION_GLOBAL +:+ ":" +:+ cfgCommandName ext (cfgCommand config);
   CFGDEF_SECTION_GLOBAL].

(** [kvGet(optionFound, optionFoundKey)] on the keys seen in this section. *)
Definition optionFoundGet (optionFound : list (nat * string)) (optionFoundKey : nat)
    : option string :=
  match find (fun kv => (fst kv =? optionFoundKey)%nat) optionFound with
  | Some kv => Some (snd kv)
  | None => None
  end.

(** The body of the loop over the keys of one section: the keys seen so far
    in the section and the parse option list are the state. *)
Definition parseConfigKey (rules : ParseRules) (config : Config) (ini : Ini)
    (section : string) (sectionIdx : nat) (key : string)
    (state : list (nat * string) * list ParseOption)
    : Result (list (nat * string) * list ParseOption) :=
  let '(optionFound, parseOptionList) := state in
  (* Find the optionName in the main list *)
  let opt := cfgParseOption rules key in
  (* Warn if the option not found *)
  if negb (resFound opt) then Ok state
  (* Warn if negate option found in config *)
  else if resNegate opt then Ok state
  (* Warn if reset option found in config *)
  else if resReset opt then Ok state
  (* Warn if this option should be command-line only *)
  else if match optSection (ruleOption rules (resId opt)) with
          | cfgSectionCommandLine => true
          | _ => false
          end then Ok state
  else
    (* Make sure this option does not appear in the same section with an alternate name *)
    let optionFoundKey := (resId opt * CFG_OPTION_KEY_MAX rules + resKeyIdx opt)%nat in
    match optionFoundGet optionFound optionFoundKey with
    | Some optionFoundName =>
        Throw OptionInvalidError
          ("configuration file contains duplicate options ('" +:+ key +:+ "', '" +:+
           optionFoundName +:+ "') in section '[" +:+ section +:+ "]'")
    | None =>
        let optionFound := optionFound ++ [(optionFoundKey, key)] in
        (* Continue if the option is not valid for this command (with a warning
           if it is in a command section) *)
        do valid <-- cfgParseOptionValid rules (cfgCommand config) (cfgCommandRole config)
                       (resId opt) ;;
        if negb valid then Ok (optionFound, parseOptionList)
        (* Continue if stanza option is in a global section *)
        else if match optSection (ruleOption rules (resId opt)) with
                | cfgSectionStanza => true
                | _ => false
                end && strBeginsWith section CFGDEF_SECTION_GLOBAL
        then Ok (optionFound, parseOptionList)
        else
          (* Continue if this option has already been found in another section
             or command-line/environment *)
          do parseOptionList <--
            parseOptionIdxValue rules parseOptionList (resId opt) (resKeyIdx opt) ;;
          let optionValue :=
            parseOptionValueAt parseOptionList (resId opt) (resKeyIdx opt) in
          if povFound optionValue then Ok (optionFound, parseOptionList)
          else
            let store (negate : bool) (valueList : option (list string)) :=
              (optionFound,
               parseOptionValueSet parseOptionList (resId opt) (resKeyIdx opt)
                 {| povFound := true; povNegate := negate; povReset := povReset optionValue;
                    povSource := cfgSourceConfig; povValueList := valueList |}) in
            (* Process list *)
            if iniSectionKeyIsList ini section key then
              (* Error if the option cannot be specified multiple times *)
              if negb (optMulti (ruleOption rules (resId opt))) then
                throwOption rules (resId opt) (resKeyIdx opt)
                  "cannot be set multiple times"
              else Ok (store (povNegate optionValue) (iniGetList ini section key))
            else
              (* Get the option value *)
              do value <-- iniGet ini section key ;;
              if (strSize value =? 0)%nat then
                Throw OptionInvalidValueError
                  ("section '" +:+ section +:+ "', key '" +:+ key +:+ "' must have a value")
              else
                do type <-- cfgParseOptionType rules (resId opt) ;;
                match type with
                | cfgOptTypeBoolean =>
                    if strEq value "n" then Ok (store true (povValueList optionValue))
                    else if negb (strEq value "y") then
                      Throw OptionInvalidValueError
                        ("boolean option '" +:+ key +:+ "' must be 'y' or 'n'")
                    else Ok (store (povNegate optionValue) (povValueList optionValue))
                (* Else add the string value *)
                | _ => Ok (store (povNegate optionValue) (Some [value]))
                end
    end.

(** The body of the loop over the sections. *)
Definition parseConfigSection (rules : ParseRules) (config : Config) (ini : Ini)
    (sectionAt : nat * string) (parseOptionList : list ParseOption)
    : Result (list ParseOption) :=
  let '(sectionIdx, section) := sectionAt in
  let keyList := iniSectionKeyList ini section in
  do state <-- foldResult (parseConfigKey rules config ini section sectionIdx) keyList
                 ([], parseOptionList) ;;
  Ok (snd state).

(** [strLstGet(list, idx)] paired with its index. *)
Definition indexed {A : Type} (l : list A) : list (nat * A) := imap (fun i a => (i, a)) l.

(** Get the stanza name. *)
Definition configStanza (rules : ParseRules) (parseOptionList : list ParseOption)
    : Result (option string) :=
  if indexListNotNull parseOptionList (cfgOptStanza rules) then
    do stanza <-- valueListFirst
         (povValueList (parseOptionValueAt parseOptionList (cfgOptStanza rules) 0)) ;;
    Ok (Some stanza)
  else Ok None.

(** Loop through sections to search for options. *)
Definition configParseIni (rules : ParseRules) (ext : Collaborators) (config : Config)
    (ini : Ini) (parseOptionList : list ParseOption) : Result (list ParseOption) :=
  do stanza <-- configStanza rules parseOptionList ;;
  foldResult (parseConfigSection rules config ini)
    (indexed (configSectionList ext config stanza)) parseOptionList.

(** [STR(cfgParseOptionDefault(...))]: the default of an option that has
    one ([STR] of [NULL] is undefined). *)
Definition optionDefaultStr (rules : ParseRules) (commandId optionId : nat) : Result string :=
  do value <-- cfgParseOptionDefault rules commandId optionId ;;
  match value with
  | Some value => Ok value
  | None => Throw Unmodelled "STR() of a NULL default"
  end.

Definition configParseFile (rules : ParseRules) (ext : Collaborators) (config : Config)
    (parseOptionList : list ParseOption) : Result (list ParseOption) :=
  (* Load the configuration file(s) *)
  do optConfigDefault <-- optionDefaultStr rules (cfgCommand config) (cfgOptConfig rules) ;;
  do optConfigIncludePathDefault <--
    optionDefaultStr rules (cfgCommand config) (cfgOptConfigIncludePath rules) ;;
  do configString <-- cfgFileLoad rules ext parseOptionList optConfigDefault
                        optConfigIncludePathDefault PGBACKREST_CONFIG_ORIG_PATH_FILE ;;
  match configString with
  | Some configString =>
      do ini <-- iniParse ext configString ;;
      configParseIni rules ext config ini parseOptionList
  | None => Ok parseOptionList
  end.

(** ** Phase 4: create the config and resolve indexed options for each group *)

(** Read and write of a C array: past the end the model stops. *)
Definition arrayGet {A : Type} (l : list A) (i : nat) : Result A :=
  match l !! i with
  | Some a => Ok a
  | None => Throw Unmodelled "read past the end of an array"
  end.

Definition arraySet {A : Type} (l : list A) (i : nat) (a : A) : Result (list A) :=
  if (i <? length l)%nat then Ok (<[i := a]> l)
  else Throw Unmodelled "write past the end of an array".

Definition configSetOption (config : Config) (option : list ConfigOptionData) : Config :=
  {| cfgCommand := cfgCommand config; cfgCommandRole := cfgCommandRole config;
     cfgHelp := cfgHelp config; cfgExe := cfgExe config; cfgParamList := cfgParamList config;
     cfgOption := option; cfgOptionGroup := cfgOptionGroup config |}.

Definition configSetOptionGroup (config : Config) (optionGroup : list ConfigOptionGroupData)
    : Config :=
  {| cfgCommand := cfgCommand config; cfgCommandRole := cfgCommandRole config;
     cfgHelp := cfgHelp config; cfgExe := cfgExe config; cfgParamList := cfgParamList config;
     cfgOption := cfgOption config; cfgOptionGroup := optionGroup |}.

(** Scan the option values to determine which indexes are in use: one round
    of the loop over the key indexes of an option. *)
Definition groupScanKey (groupId : nat) (parseOption : ParseOption) (optionKeyIdx : nat)
    (state : Config * list (list bool)) : Result (Config * list (list bool)) :=
  let '(config, groupIdxMap) := state in
  let value := nth optionKeyIdx (indexList parseOption) ParseOptionValue_zero in
  if povFound value && negb (povReset value) then
    do row <-- arrayGet groupIdxMap groupId ;;
    do used <-- arrayGet row optionKeyIdx ;;
    if negb used then
      do group <-- arrayGet (cfgOptionGroup config) groupId ;;
      do optionGroup <-- arraySet (cfgOptionGroup config) groupId
           {| cogName := cogName group; cogValid := cogValid group;
              cogIndexTotal := cogIndexTotal group + 1; cogIndexMap := cogIndexMap group |} ;;
      do row <-- arraySet row optionKeyIdx true ;;
      do groupIdxMap <-- arraySet groupIdxMap groupId row ;;
      Ok (configSetOptionGroup config optionGroup, groupIdxMap)
    else Ok state
  else Ok state.

(** Determine how many indexes are used in each group: the body of the loop
    over the options. *)
Definition groupScanOption (rules : ParseRules) (ext : Collaborators)
    (parseOptionList : list ParseOption) (optionId : nat)
    (state : Config * list (list bool)) : Result (Config * list (list bool)) :=
  let '(config, groupIdxMap) := state in
  let rule := ruleOption rules optionId in
  (* Always assign name since it may be needed for error messages *)
  do option <-- arrayGet (cfgOption config) optionId ;;
  (* Is the option valid for this command? *)
  do valid <-- cfgParseOptionValid rules (cfgCommand config) (cfgCommandRole config) optionId ;;
  if valid then
    do options <-- arraySet (cfgOption config) optionId
         {| coName := optName rule; coValid := true; coGroup := optGroup rule;
            coGroupId := optGroupId rule; coIndex := coIndex option |} ;;
    let config := configSetOption config options in
    (* If the option is in a group *)
    if optGroup rule then
      let groupId := optGroupId rule in
      do group <-- arrayGet (cfgOptionGroup config) groupId ;;
      do optionGroup <-- arraySet (cfgOptionGroup config) groupId
           {| cogName := cogName group; cogValid := true;
              cogIndexTotal := cogIndexTotal group; cogIndexMap := cogIndexMap group |} ;;
      let config := configSetOptionGroup config optionGroup in
      let parseOption := nth optionId parseOptionList ParseOption_zero in
      foldResult (groupScanKey groupId parseOption) (seq 0 (indexListTotal parseOption))
        (config, groupIdxMap)
    else Ok (config, groupIdxMap)
  else
    (* Error if the invalid option was explicitly set on the command-line *)
    if indexListNotNull parseOptionList optionId then
      do name <-- cfgParseOptionName rules optionId ;;
      Throw OptionInvalidError
        ("option '" +:+ name +:+ "' not valid for command '" +:+
         cfgCommandName ext (cfgCommand config) +:+ "'")
    else
      (* Continue to the next option *)
      do options <-- arraySet (cfgOption config) optionId
           {| coName := optName rule; coValid := coValid option; coGroup := coGroup option;
              coGroupId := coGroupId option; coIndex := coIndex option |} ;;
      Ok (configSetOption config options, groupIdxMap).

(** Write the key to index map for the group: one round of the loop over the
    key indexes, the map and [optionIdxMax] are the state. *)
Definition groupMapKey (row : list bool) (optionKeyIdx : nat) (state : list nat * nat)
    : Result (list nat * nat) :=
  let '(indexMap, optionIdxMax) := state in
  do used <-- arrayGet row optionKeyIdx ;;
  if used then
    do indexMap <-- arraySet indexMap optionIdxMax optionKeyIdx ;;
    Ok (indexMap, (optionIdxMax + 1)%nat)
  else Ok state.

(** Write the indexes into the group in order: the body of the loop over the
    groups. *)
Definition groupWriteIndex (rules : ParseRules) (groupIdxMap : list (list bool))
    (groupId : nat) (config : Config) : Result Config :=
  (* Set group name *)
  do group <-- arrayGet (cfgOptionGroup config) groupId ;;
  let name := grpName (ruleOptionGroup rules groupId) in
  (* Skip the group if it is not valid *)
  if negb (cogValid group) then
    do optionGroup <-- arraySet (cfgOptionGroup config) groupId
         {| cogName := name; cogValid := cogValid group;
            cogIndexTotal := cogIndexTotal group; cogIndexMap := cogIndexMap group |} ;;
    Ok (configSetOptionGroup config optionGroup)
  (* If no values were found in any index then use index 0 since all valid
     groups must have at least one index *)
  else if (cogIndexTotal group =? 0)%nat then
    do optionGroup <-- arraySet (cfgOptionGroup config) groupId
         {| cogName := name; cogValid := cogValid group;
            cogIndexTotal := 1; cogIndexMap := cogIndexMap group |} ;;
    Ok (configSetOptionGroup config optionGroup)
  (* Else write the key to index map for the group *)
  else
    (* For the pg group, key 1 is required to maintain compatibilty with older versions *)
    let start := if (groupId =? cfgOptGrpPg rules)%nat then 1%nat else 0%nat in
    do row <-- arrayGet groupIdxMap groupId ;;
    do written <-- foldResult (groupMapKey row)
                     (seq start (CFG_OPTION_KEY_MAX rules - start))
                     (cogIndexMap group, start) ;;
    do optionGroup <-- arraySet (cfgOptionGroup config) groupId
         {| cogName := name; cogValid := cogValid group;
            cogIndexTotal := cogIndexTotal group; cogIndexMap := fst written |} ;;
    Ok (configSetOptionGroup config optionGroup).

Definition configParseGroup (rules : ParseRules) (ext : Collaborators) (config : Config)
    (parseOptionList : list ParseOption) : Result Config :=
  let groupIdxMap :=
    replicate (CFG_OPTION_GROUP_TOTAL rules) (replicate (CFG_OPTION_KEY_MAX rules) false) in
  do scanned <-- foldResult (groupScanOption rules ext parseOptionList)
                   (seq 0 (CFG_OPTION_TOTAL rules)) (config, groupIdxMap) ;;
  let '(config, groupIdxMap) := scanned in
  foldResult (groupWriteIndex rules groupIdxMap) (seq 0 (CFG_OPTION_GROUP_TOTAL rules)) config.

(** ** Phase 5: validate option definitions and load into configuration *)

Definition ZERO_Z : string := "0".
Definition ONE_Z : string := "1".

(** [%ld] of an [int64_t]. *)
Definition fmtInt64 (i : Z) : string :=
  if i <? 0 then "-" +:+ fmtUInt (- i) else fmtUInt i.

Definition varBool (v : Variant) : Result bool :=
  match v with
  | VarBool b => Ok b
  | _ => Throw AssertError "assertion 'varType(this) == varTypeBool' failed"
  end.

Definition varStr (v : Variant) : Result string :=
  match v with
  | VarStr s => Ok s
  | _ => Throw AssertError "assertion 'varType(this) == varTypeString' failed"
  end.

(** [kvPut]: replace the value of a key already present, else add the pair. *)
Fixpoint kvPut (kv : list (string * string)) (key value : string) : list (string * string) :=
  match kv with
  | [] => [(key, value)]
  | (k, v) :: rest => if strEq k key then (k, value) :: rest else (k, v) :: kvPut rest key value
  end.

Fixpoint strLstJoin (l : list string) (separator : string) : string :=
  match l with
  | [] => EmptyString
  | [s] => s
  | s :: rest => s +:+ separator +:+ strLstJoin rest separator
  end.

(** [strstr(s, sub) != NULL]. *)
Fixpoint strContains (s sub : string) : bool :=
  strBeginsWith s sub ||
  match s with
  | EmptyString => false
  | String _ rest => strContains rest sub
  end.

Definition strEndsWith (s suffix : string) : bool :=
  (String.length suffix <=? String.length s)%nat &&
  strEq (strDrop (String.length s - String.length suffix) s) suffix.

(** [(const char * )depend.list[listIdx]] for every entry of the list. *)
Fixpoint dataListStrs (data : ParseRuleOptionData) (listIdx : nat) (n : nat)
    : Result (list string) :=
  match n with
  | O => Ok []
  | S n' =>
      do value <-- dataListStr data listIdx ;;
      match value with
      | Some value =>
          do rest <-- dataListStrs data (S listIdx) n' ;;
          Ok (value :: rest)
      | None => Throw Unmodelled "NULL string in a data list"
      end
  end.

Definition isParam (source : ConfigSource) : bool :=
  match source with cfgSourceParam => true | _ => false end.

Definition isBoolean (type : ConfigOptionType) : bool :=
  match type with cfgOptTypeBoolean => true | _ => false end.

(** Check option dependencies: [dependResolved], or the error thrown when the
    option was set on the command-line. *)
Definition configParseDepend (rules : ParseRules) (config : Config) (optionId : nat)
    (optionListIdx optionKeyIdx : nat) (optionSet : bool) (parseOptionValue : ParseOptionValue)
    : Result bool :=
  do depend <-- parseRuleOptionDataFind rules parseRuleOptionDataTypeDepend
                  (cfgCommand config) optionId ;;
  if rodFound depend then
    let dependOptionId := Z.to_nat (rodData depend) in
    do dependOptionType <-- cfgParseOptionType rules dependOptionId ;;
    do dependOption <-- arrayGet (cfgOption config) dependOptionId ;;
    match coIndex dependOption with
    | None => Throw AssertError "assertion 'config->option[dependOptionId].index != NULL' failed"
    | Some index =>
        (* Get the depend option value *)
        do dependSlot <-- arrayGet index optionListIdx ;;
        do dependValue <--
          match covValue dependSlot with
          | Some value =>
              if isBoolean dependOptionType then
                do b <-- varBool value ;;
                Ok (Some (VarStr (if b then ONE_Z else ZERO_Z)))
              else Ok (Some value)
          | None => Ok None
          end ;;
        match dependValue with
        (* Can't resolve if the depend option value is null *)
        | None =>
            (* If depend not resolved and option value is set on the command-line then error *)
            if optionSet && isParam (povSource parseOptionValue) then
              do name <-- cfgParseOptionKeyIdxName rules optionId optionKeyIdx ;;
              do dependName <-- cfgParseOptionKeyIdxName rules dependOptionId optionKeyIdx ;;
              Throw OptionInvalidError
                ("option '" +:+ name +:+ "' not valid without option '" +:+ dependName +:+ "'")
            else Ok false
        (* If a depend list exists, make sure the value is in the list *)
        | Some dependValue =>
            if (0 <? rodListSize depend)%nat then
              do dependList <-- dataListStrs depend 0 (rodListSize depend) ;;
              do dependResolved <--
                foldResult (fun candidate (resolved : bool) =>
                              if resolved then Ok true
                              else do value <-- varStr dependValue ;;
                                   Ok (strEq value candidate))
                  dependList false ;;
              (* If depend not resolved and option value is set on the command-line then error *)
              if negb dependResolved && optionSet && isParam (povSource parseOptionValue) then
                (* Get the depend option name *)
                do dependOptionName <-- cfgParseOptionKeyIdxName rules dependOptionId optionKeyIdx ;;
                (* Build the list of possible depend values *)
                do built <--
                  foldResult (fun candidate (state : string * list string) =>
                                let '(dependOptionName, dependValueList) := state in
                                (* Build list based on depend option type *)
                                if isBoolean dependOptionType then
                                  (* Boolean outputs depend option name as no-* when false *)
                                  if strEq candidate ZERO_Z then
                                    do name <-- cfgParseOptionKeyIdxName rules dependOptionId
                                                  optionKeyIdx ;;
                                    Ok ("no-" +:+ name, dependValueList)
                                  else Ok state
                                else
                                  ASSERT (match dependOptionType with
                                          | cfgOptTypePath | cfgOptTypeString => true
                                          | _ => false
                                          end) ;;
                                  Ok (dependOptionName,
                                      dependValueList ++ ["'" +:+ candidate +:+ "'"]))
                    dependList (dependOptionName, []) ;;
                let '(dependOptionName, dependValueList) := built in
                (* Build the error string *)
                let errorValue :=
                  match dependValueList with
                  | [] => EmptyString
                  | [value] => " = " +:+ value
                  | _ => " in (" +:+ strLstJoin dependValueList ", " +:+ ")"
                  end in
                (* Throw the error *)
                do name <-- cfgParseOptionKeyIdxName rules optionId optionKeyIdx ;;
                Throw OptionInvalidError
                  ("option '" +:+ name +:+ "' not valid without option '" +:+
                   dependOptionName +:+ "'" +:+ errorValue)
              else Ok dependResolved
            else Ok true
        end
    end
  else Ok true.

(** [TRY_BEGIN ... CATCH_ANY]: any error of the conversion becomes the
    invalid value error of the option. *)
Definition catchAny {A : Type} (r : Result A) (handler : Result A) : Result A :=
  match r with
  | Ok a => Ok a
  | Throw Unmodelled msg => Throw Unmodelled msg
  | Throw _ _ => handler
  end.

(** [THROW_FMT(OptionInvalidValueError, "'%s' <what> for '%s' option", value, name)]. *)
Definition throwValue {A : Type} (rules : ParseRules) (optionId keyIdx : nat) (value what : string)
    : Result A :=
  do name <-- cfgParseOptionKeyIdxName rules optionId keyIdx ;;
  Throw OptionInvalidValueError
    ("'" +:+ value +:+ "' " +:+ what +:+ " for '" +:+ name +:+ "' option").

(** The value of an option that is set: parse it by type. *)
Definition configParseValue (rules : ParseRules) (ext : Collaborators) (config : Config)
    (optionId optionKeyIdx : nat) (optionType : ConfigOptionType)
    (parseOptionValue : ParseOptionValue) : Result Variant :=
  match optionType with
  | cfgOptTypeBoolean => Ok (VarBool (negb (povNegate parseOptionValue)))
  | cfgOptTypeHash =>
      match povValueList parseOptionValue with
      | None => Throw AssertError "assertion 'this != NULL' failed"
      | Some valueList =>
          do keyValue <--
            foldResult (fun pair keyValue =>
                          match strChr pair "=" with
                          | None =>
                              do name <-- cfgParseOptionKeyIdxName rules optionId optionKeyIdx ;;
                              Throw OptionInvalidError
                                ("key/value '" +:+ pair +:+ "' not valid for '" +:+ name +:+
                                 "' option")
                          | Some equal =>
                              Ok (kvPut keyValue (substring 0 equal pair)
                                    (strDrop (equal + 1) pair))
                          end)
              valueList [] ;;
          Ok (VarKv keyValue)
      end
  | cfgOptTypeList =>
      match povValueList parseOptionValue with
      | None => Throw Unmodelled "NULL value list of a list option"
      | Some valueList => Ok (VarVarLst valueList)
      end
  | _ =>
      do value <-- valueListFirst (povValueList parseOptionValue) ;;
      do parsed <--
        (match optionType with
         (* If a numeric type check that the value is valid *)
         | cfgOptTypeInteger | cfgOptTypeSize | cfgOptTypeTime =>
             (* Check that the value can be converted *)
             do converted <--
               catchAny
                 (match optionType with
                  | cfgOptTypeInteger =>
                      do i <-- cvtZToInt64 value ;; Ok (i, value)
                  | cfgOptTypeSize =>
                      do bytes <-- convertToByte value ;;
                      Ok (to_int64 bytes, fmtInt64 (to_int64 bytes))
                  | _ =>
                      do msec <-- cvtZToMSec ext value ;; Ok (msec, value)
                  end)
                 (throwValue rules optionId optionKeyIdx value "is not valid") ;;
             let '(valueInt64, valueAllow) := converted in
             (* Check value range *)
             do allowRange <-- parseRuleOptionDataFind rules parseRuleOptionDataTypeAllowRange
                                 (cfgCommand config) optionId ;;
             do outOfRange <--
               (if rodFound allowRange then
                  do rangeMin <-- PARSE_RULE_DATA_INT64 allowRange 0 ;;
                  do rangeMax <-- PARSE_RULE_DATA_INT64 allowRange 2 ;;
                  Ok ((valueInt64 <? rangeMin) || (rangeMax <? valueInt64))
                else Ok false) ;;
             if outOfRange then throwValue rules optionId optionKeyIdx value "is out of range"
             else Ok (VarInt64 valueInt64, value, valueAllow)
         (* Else if path make sure it is valid *)
         | _ =>
             (* Make sure it is long enough to be a path *)
             if (strSize value =? 0)%nat then
               throwValue rules optionId optionKeyIdx value "must be >= 1 character"
             else
               do value <--
                 (match optionType with
                  | cfgOptTypePath =>
                      (* Make sure it starts with / *)
                      if negb (strBeginsWith value "/") then
                        throwValue rules optionId optionKeyIdx value "must begin with /"
                      (* Make sure there are no occurrences of // *)
                      else if strContains value "//" then
                        throwValue rules optionId optionKeyIdx value "cannot contain //"
                      (* If the path ends with a / we'll strip it off (unless the value is just /) *)
                      else if strEndsWith value "/" && negb (strSize value =? 1)%nat then
                        Ok (strTrunc value (Z.of_nat (strSize value) - 1))
                      else Ok value
                  | _ => Ok value
                  end) ;;
               Ok (VarStr value, value, value)
         end) ;;
      let '(result, value, valueAllow) := parsed in
      (* If the option has an allow list then check it *)
      do allowList <-- parseRuleOptionDataFind rules parseRuleOptionDataTypeAllowList
                         (cfgCommand config) optionId ;;
      if rodFound allowList then
        do allowed <-- dataListStrs allowList 0 (rodListSize allowList) ;;
        if existsb (strEq valueAllow) allowed then Ok result
        else throwValue rules optionId optionKeyIdx value "is not allowed"
      else Ok result
  end.

(** The default of an option that is resolved but not set: the value parsed
    from the default string, or [NULL] when there is none and none is required. *)
Definition configParseDefault (rules : ParseRules) (ext : Collaborators) (config : Config)
    (optionId optionKeyIdx : nat) (optionType : ConfigOptionType) : Result (option Variant) :=
  (* Get the default value for this option *)
  do value <-- cfgParseOptionDefault rules (cfgCommand config) optionId ;;
  match value with
  (* If the option has a default *)
  | Some value =>
      match optionType with
      | cfgOptTypeBoolean => Ok (Some (VarBool (strEq value ONE_Z)))
      | cfgOptTypePath | cfgOptTypeString => Ok (Some (VarStr value))
      | cfgOptTypeInteger | cfgOptTypeSize | cfgOptTypeTime =>
          do i <-- cvtZToInt64 value ;; Ok (Some (VarInt64 i))
      | _ =>
          Throw AssertError
            "assertion 'optionType == cfgOptTypeInteger || optionType == cfgOptTypeSize || optionType == cfgOptTypeTime' failed"
      end
  | None =>
      (* Else error if option is required and help was not requested *)
      do required <-- cfgParseOptionRequired rules (cfgCommand config) optionId ;;
      if required && negb (cfgHelp config) then
        let hint :=
          match optSection (ruleOption rules optionId) with
          | cfgSectionStanza => LF_STR +:+ "HINT: does this stanza exist?"
          | _ => EmptyString
          end in
        do name <-- cfgParseOptionKeyIdxName rules optionId optionKeyIdx ;;
        Throw OptionRequiredError
          (cfgCommandName ext (cfgCommand config) +:+ " command requires option: " +:+
           name +:+ hint)
      else Ok None
  end.

(** [optionSet]: is the value set for this option? *)
Definition optionIsSet (optionType : ConfigOptionType) (parseOptionValue : ParseOptionValue)
    : bool :=
  povFound parseOptionValue &&
  (isBoolean optionType || negb (povNegate parseOptionValue)) &&
  negb (povReset parseOptionValue).

(** Get the key index by looking it up in the group or by defaulting to 0 for
    ungrouped options. *)
Definition configSlotKeyIdx (rules : ParseRules) (config : Config) (optionId : nat)
    (optionListIdx : nat) : Result nat :=
  let optionGroup := optGroup (ruleOption rules optionId) in
  let optionGroupId := optGroupId (ruleOption rules optionId) in
  if optionGroup then
    do group <-- arrayGet (cfgOptionGroup config) optionGroupId ;;
    arrayGet (cogIndexMap group) optionListIdx
  else Ok 0%nat.

(** The body of the loop through the option indexes: the value stored at
    [config->option[optionId].index[optionListIdx]]. *)
Definition configParseSlot (rules : ParseRules) (ext : Collaborators) (config : Config)
    (parseOptionList : list ParseOption) (optionId : nat) (optionType : ConfigOptionType)
    (optionListIdx : nat) : Result ConfigOptionValue :=
  (* Get the key index by looking it up in the group or by defaulting to 0 for ungrouped options *)
  do optionKeyIdx <-- configSlotKeyIdx rules config optionId optionListIdx ;;
  (* Get the parsed value using the key index. Provide a default structure
     when the value was not found. *)
  let parseOptionValue := parseOptionValueAt parseOptionList optionId optionKeyIdx in
  (* Is the value set for this option? *)
  let optionSet := optionIsSet optionType parseOptionValue in
  (* Initialize option value and set negate and reset flag *)
  let configOptionValue (source : ConfigSource) (value : option Variant) :=
    {| covNegate := povNegate parseOptionValue; covReset := povReset parseOptionValue;
       covSource := source; covValue := value |} in
  (* Check option dependencies *)
  do dependResolved <-- configParseDepend rules config optionId optionListIdx optionKeyIdx
                          optionSet parseOptionValue ;;
  (* Is the option resolved? *)
  if dependResolved then
    (* Is the option set? *)
    if optionSet then
      do value <-- configParseValue rules ext config optionId optionKeyIdx optionType
                     parseOptionValue ;;
      Ok (configOptionValue (povSource parseOptionValue) (Some value))
    else if povNegate parseOptionValue then
      Ok (configOptionValue (povSource parseOptionValue) None)
    (* Else try to set a default *)
    else
      do value <-- configParseDefault rules ext config optionId optionKeyIdx optionType ;;
      Ok (configOptionValue cfgSourceDefault value)
  else Ok (configOptionValue cfgSourceDefault None).

(** The body of the loop over the resolve order. *)
Definition configParseOption (rules : ParseRules) (ext : Collaborators)
    (parseOptionList : list ParseOption) (optionId : nat) (config : Config) : Result Config :=
  do option <-- arrayGet (cfgOption config) optionId ;;
  (* Skip this option if it is not valid *)
  if negb (coValid option) then Ok config
  else
    (* Determine the option index total. For options that are not indexed the
       index total is 1. *)
    do optionListIndexTotal <--
      (if optGroup (ruleOption rules optionId) then
         do group <-- arrayGet (cfgOptionGroup config) (optGroupId (ruleOption rules optionId)) ;;
         Ok (cogIndexTotal group)
       else Ok 1%nat) ;;
    (* Loop through the option indexes *)
    do optionType <-- cfgParseOptionType rules optionId ;;
    foldResult (fun optionListIdx (config : Config) =>
                  do value <-- configParseSlot rules ext config parseOptionList optionId
                                 optionType optionListIdx ;;
                  do option <-- arrayGet (cfgOption config) optionId ;;
                  do options <-- arraySet (cfgOption config) optionId
                       {| coName := coName option; coValid := coValid option;
                          coGroup := coGroup option; coGroupId := coGroupId option;
                          coIndex :=
                            Some (match coIndex option with Some l => l | None => [] end
                                  ++ [value]) |} ;;
                  Ok (configSetOption config options))
      (seq 0 optionListIndexTotal)
      (configSetOption config
         (<[optionId := {| coName := coName option; coValid := coValid option;
                           coGroup := coGroup option; coGroupId := coGroupId option;
                           coIndex := Some [] |}]> (cfgOption config))).

Definition configParseValidate (rules : ParseRules) (ext : Collaborators) (config : Config)
    (parseOptionList : list ParseOption) : Result Config :=
  foldResult (configParseOption rules ext parseOptionList) (optionResolveOrder rules) config.

(** ** configParse

    The phases in order, from the results of [getopt_long] and the
    environment to the configuration handed to [cfgInit].  The model ends
    there: [cfgInit] and the loop after it, which sets the default index of
    each group, read the configuration through config.c, which is not among the
    sources.  That loop changes neither option values nor index maps, but it
    throws [OptionInvalidValueError] when the key of the group default option
    is not in the index map of its group; a result [Ok] of the model is a run
    that reaches [cfgInit]. *)
Definition configParse (rules : ParseRules) (ext : Collaborators) (exe : string)
    (args : list GetoptResult) (environ : list string) : Result Config :=
  (* Phase 1: parse command line parameters *)
  do parsed <-- configParseArgs rules ext exe args ;;
  let '(config, parseOptionList) := parsed in
  (* Only continue if command options need to be validated *)
  if negb (cfgCommand config =? cfgCmdNone rules)%nat &&
     negb (cfgCommand config =? cfgCmdVersion rules)%nat &&
     negb (cfgCommand config =? cfgCmdHelp rules)%nat then
    (* Phase 2: parse environment variables *)
    do parseOptionList <-- configParseEnv rules config environ parseOptionList ;;
    (* Phase 3: parse config file unless --no-config passed *)
    do parseOptionList <-- configParseFile rules ext config parseOptionList ;;
    (* Phase 4: create the config and resolve indexed options for each group *)
    do config <-- configParseGroup rules ext config parseOptionList ;;
    (* Phase 5: validate option definitions and load into configuration *)
    configParseValidate rules ext config parseOptionList
  else Ok config.

(** ** The optional data as records

    The data list of an option is a sequence of records, each a header cell
    followed by its list, closed by [NULL].  The lookup is stated on the
    records; [encodeRecords] is the layout the macros produce. *)
Record DataRecord : Type := {
  recType : ParseRuleOptionDataType;
  recData : Z;
  recList : list DataCell;
}.

Definition encodeRecord (r : DataRecord) : list DataCell :=
  PARSE_RULE_OPTION_OPTIONAL_PUSH (recType r) (length (recList r)) (recData r) :: recList r.

Definition encodeRecords (records : list DataRecord) : list DataCell :=
  PARSE_RULE_OPTION_OPTIONAL_LIST (map encodeRecord records).

(** What fits the header: a type other than End, a list size in a byte and
    data in sixteen bits. *)
Definition recordWf (r : DataRecord) : Prop :=
  recType r <> parseRuleOptionDataTypeEnd /\
  (length (recList r) < 256)%nat /\
  0 <= recData r < 65536.

Definition isCommandRecord (r : DataRecord) : bool :=
  match recType r with
  | parseRuleOptionDataTypeCommand => true
  | _ => false
  end.

Definition hasType (t : ParseRuleOptionDataType) (r : DataRecord) : bool :=
  dataTypeCode (recType r) =? dataTypeCode t.

(** The records before the first Command record: the unscoped ones. *)
Fixpoint unscopedRecords (records : list DataRecord) : list DataRecord :=
  match records with
  | [] => []
  | r :: rest => if isCommandRecord r then [] else r :: unscopedRecords rest
  end.

(** The block of a command: the records after the first Command record that
    names it, up to the next Command record. *)
Fixpoint commandRecords (commandId : Z) (records : list DataRecord) : list DataRecord :=
  match records with
  | [] => []
  | r :: rest =>
      if isCommandRecord r && (recData r =? commandId) then unscopedRecords rest
      else commandRecords commandId rest
  end.

(** What the lookup returns, read off the loop: the first record of the type
    in the block of the command, else the last unscoped record of the type. *)
Definition dataFindFirstScoped (typeFind : ParseRuleOptionDataType) (commandId : Z)
    (records : list DataRecord) : option DataRecord :=
  match List.find (hasType typeFind) (commandRecords commandId records) with
  | Some r => Some r
  | None => last (List.filter (hasType typeFind) (unscopedRecords records))
  end.

(** The scope of a record in the words of the specification: a Command
    record scopes all following records until the next Command record, the end
    of the stream, or a match in the requested command. *)
Inductive DataScope : Type :=
  | ScopeNone
  | ScopeCommand (commandId : Z)
  | ScopeEnded.

(** The matching records in the words of the specification, in the order of
    the stream: the records of the requested type that are unscoped or in the
    scope of the requested command, each with whether it is command-scoped. *)
Fixpoint matchingRecordsSpec (typeFind : ParseRuleOptionDataType) (commandId : Z)
    (scope : DataScope) (records : list DataRecord) : list (bool * DataRecord) :=
  match records with
  | [] => []
  | r :: rest =>
      if isCommandRecord r then
        matchingRecordsSpec typeFind commandId (ScopeCommand (recData r)) rest
      else if hasType typeFind r then
        match scope with
        | ScopeNone => (false, r) :: matchingRecordsSpec typeFind commandId scope rest
        | ScopeCommand c =>
            if c =? commandId
            then (true, r) :: matchingRecordsSpec typeFind commandId ScopeEnded rest
            else matchingRecordsSpec typeFind commandId scope rest
        | ScopeEnded => matchingRecordsSpec typeFind commandId scope rest
        end
      else matchingRecordsSpec typeFind commandId scope rest
  end.

(** The lookup in the words of the specification: the last matching record,
    preferring a command-scoped match over an unscoped one. *)
Definition dataFindSpec (typeFind : ParseRuleOptionDataType) (commandId : Z)
    (records : list DataRecord) : option DataRecord :=
  let matching := matchingRecordsSpec typeFind commandId ScopeNone records in
  match last (List.filter fst matching) with
  | Some found => Some (snd found)
  | None => option_map snd (last matching)
  end.

(** The number of Command records that name a command: at most one in the
    tables of parse.auto.c, where each command has one override block. *)
Definition commandBlocks (commandId : Z) (records : list DataRecord) : nat :=
  length (List.filter (fun r => isCommandRecord r && (recData r =? commandId)) records).

(** The extracted data of a record, [found = false] when there is none. *)
Definition dataOfRecord (r : option DataRecord) : ParseRuleOptionData :=
  match r with
  | Some r =>
      {| rodFound := true; rodData := recData r; rodListSize := length (recList r);
         rodList := recList r |}
  | None => ParseRuleOptionData_zero
  end.

(** The loop of [parseRuleOptionDataFind] on records. *)
Fixpoint scanRecords (typeFind : ParseRuleOptionDataType) (commandId commandCurrent : Z)
    (result : option DataRecord) (records : list DataRecord) : option DataRecord :=
  match records with
  | [] => result
  | r :: rest =>
      if isCommandRecord r then
        if commandCurrent =? commandId then result
        else scanRecords typeFind commandId (recData r) result rest
      else if hasType typeFind r &&
              ((commandCurrent =? UINT_MAX) || (commandCurrent =? commandId)) then
        if commandCurrent =? commandId then Some r
        else scanRecords typeFind commandId commandCurrent (Some r) rest
      else scanRecords typeFind commandId commandCurrent result rest
  end.


(** ** Relations between the states of the merge

    The properties of the phases are stated with these relations between the
    parse option list before and after a step. *)

(** The frame of the merge: every value already found is kept as it is. *)
Definition keepsFound (before after : list ParseOption) : Prop :=
  forall id k,
    povFound (parseOptionValueAt before id k) = true ->
    parseOptionValueAt after id k = parseOptionValueAt before id k.

(** Found values stay found and keep their source. *)
Definition keepsSource (before after : list ParseOption) : Prop :=
  forall id k,
    povFound (parseOptionValueAt before id k) = true ->
    povFound (parseOptionValueAt after id k) = true /\
    povSource (parseOptionValueAt after id k) = povSource (parseOptionValueAt before id k).

(** Every found value came from the command line. *)
Definition allParam (optionList : list ParseOption) : Prop :=
  forall id k,
    povFound (parseOptionValueAt optionList id k) = true ->
    povSource (parseOptionValueAt optionList id k) = cfgSourceParam.

(** What a step newly finds carries the source [cfgSourceConfig]. *)
Definition storesConfig (before after : list ParseOption) : Prop :=
  forall id k,
    povFound (parseOptionValueAt before id k) = false ->
    povFound (parseOptionValueAt after id k) = true ->
    povSource (parseOptionValueAt after id k) = cfgSourceConfig.

Definition mergesConfig (before after : list ParseOption) : Prop :=
  keepsFound before after /\ storesConfig before after.

(** Entry 0 of the index map of every group holds key index 0. *)
Definition indexMapZero (optionGroup : list ConfigOptionGroupData) : Prop :=
  forall groupId group,
    optionGroup !! groupId = Some group -> cogIndexMap group !! 0%nat = Some 0%nat.

(** Entry 0 of the index map of one group holds key index 0. *)
Definition indexMapZeroAt (groupId : nat) (optionGroup : list ConfigOptionGroupData) : Prop :=
  forall group, optionGroup !! groupId = Some group -> cogIndexMap group !! 0%nat = Some 0%nat.

(** ** A small rule table

    Three commands, two groups and ten options in the shape parse.auto.c gives
    them, used to run the model on concrete command lines. *)
Module Demo.

Definition cmdBackup : nat := 0.
Definition cmdHelp : nat := 1.
Definition cmdVersion : nat := 2.
Definition cmdNone : nat := 3.

Definition optConfig : nat := 0.
Definition optConfigIncludePath : nat := 1.
Definition optConfigPath : nat := 2.
Definition optStanza : nat := 3.
Definition optPgPath : nat := 4.
Definition optRepoPath : nat := 5.
Definition optBufferSize : nat := 6.
Definition optRepoCipherPass : nat := 7.
Definition optCompress : nat := 8.
Definition optDbInclude : nat := 9.

Definition grpPg : nat := 0.
Definition grpRepo : nat := 1.

(** Valid for the backup command in the default role only. *)
Definition backupOnly : list Z := [Z.shiftl 1 (Z.of_nat cmdBackup); 0; 0; 0].

Definition rule (name : string) (type : ConfigOptionType) (required : bool)
    (section : ConfigSection) (secure multi : bool) (group : option nat)
    (data : list (list DataCell)) : ParseRuleOption :=
  {| optName := name; optType := type; optRequired := required; optSection := section;
     optSecure := secure; optMulti := multi;
     optGroup := match group with Some _ => true | None => false end;
     optGroupId := match group with Some g => g | None => 0%nat end;
     optCommandRoleValid := backupOnly;
     optData := match data with
                | [] => None
                | _ => Some (PARSE_RULE_OPTION_OPTIONAL_LIST data)
                end |}.

Definition options : list ParseRuleOption :=
  [ rule "config" cfgOptTypeString true cfgSectionCommandLine false false None
      [PARSE_RULE_OPTION_OPTIONAL_DEFAULT "/etc/pgbackrest/pgbackrest.conf"];
    rule "config-include-path" cfgOptTypePath true cfgSectionCommandLine false false None
      [PARSE_RULE_OPTION_OPTIONAL_DEFAULT "/etc/pgbackrest/conf.d"];
    rule "config-path" cfgOptTypePath false cfgSectionCommandLine false false None [];
    rule "stanza" cfgOptTypeString true cfgSectionCommandLine false false None [];
    rule "pg-path" cfgOptTypePath true cfgSectionStanza false false (Some grpPg) [];
    rule "repo-path" cfgOptTypePath true cfgSectionGlobal false false (Some grpRepo)
      [PARSE_RULE_OPTION_OPTIONAL_DEFAULT "/var/lib/pgbackrest"];
    rule "buffer-size" cfgOptTypeSize true cfgSectionGlobal false false None
      [PARSE_RULE_OPTION_OPTIONAL_ALLOW_RANGE 16384 16777216;
       PARSE_RULE_OPTION_OPTIONAL_DEFAULT "1048576"];
    rule "repo-cipher-pass" cfgOptTypeString false cfgSectionGlobal true false (Some grpRepo) [];
    rule "compress" cfgOptTypeBoolean true cfgSectionGlobal false false None
      [PARSE_RULE_OPTION_OPTIONAL_DEFAULT "1"];
    rule "db-include" cfgOptTypeList false cfgSectionGlobal false true None [] ]%string.

Definition alias (name : string) (hasArg : Z) (flags : Z) (keyIdx optionId : nat)
    : GetoptOption :=
  {| goName := name; has_arg := hasArg;
     val := Z.lor (Z.lor (Z.lor PARSE_OPTION_FLAG flags)
                     (Z.shiftl (Z.of_nat keyIdx) PARSE_KEY_IDX_SHIFT)) (Z.of_nat optionId) |}.

Definition aliases : list GetoptOption :=
  [ alias "config" required_argument 0 0 optConfig;
    alias "no-config" no_argument PARSE_NEGATE_FLAG 0 optConfig;
    alias "config-include-path" required_argument 0 0 optConfigIncludePath;
    alias "config-path" required_argument 0 0 optConfigPath;
    alias "stanza" required_argument 0 0 optStanza;
    alias "pg1-path" required_argument 0 0 optPgPath;
    alias "reset-pg1-path" no_argument PARSE_RESET_FLAG 0 optPgPath;
    alias "db-path" required_argument PARSE_DEPRECATE_FLAG 0 optPgPath;
    alias "pg2-path" required_argument 0 1 optPgPath;
    alias "pg3-path" required_argument 0 2 optPgPath;
    alias "repo1-path" required_argument 0 0 optRepoPath;
    alias "buffer-size" required_argument 0 0 optBufferSize;
    alias "reset-buffer-size" no_argument PARSE_RESET_FLAG 0 optBufferSize;
    alias "repo1-cipher-pass" required_argument 0 0 optRepoCipherPass;
    alias "compress" no_argument 0 0 optCompress;
    alias "no-compress" no_argument PARSE_NEGATE_FLAG 0 optCompress;
    alias "db-include" required_argument 0 0 optDbInclude ]%string.

Definition rules : ParseRules :=
  {| parseRuleCommand :=
       [ {| cmdName := "backup"; cmdCommandRoleValid := 1; cmdParameterAllowed := false |};
         {| cmdName := "help"; cmdCommandRoleValid := 1; cmdParameterAllowed := true |};
         {| cmdName := "version"; cmdCommandRoleValid := 1; cmdParameterAllowed := false |} ];
     parseRuleOptionGroup := [ {| grpName := "pg" |}; {| grpName := "repo" |} ];
     parseRuleOption := options;
     optionList := aliases;
     optionResolveOrder :=
       [optConfig; optConfigIncludePath; optConfigPath; optStanza; optPgPath; optRepoPath;
        optBufferSize; optRepoCipherPass; optCompress; optDbInclude];
     CFG_OPTION_KEY_MAX := 256;
     LIST_INITIAL_SIZE := 8;
     cfgCmdNone := cmdNone;
     cfgCmdHelp := cmdHelp;
     cfgCmdVersion := cmdVersion;
     cfgOptConfig := optConfig;
     cfgOptConfigPath := optConfigPath;
     cfgOptConfigIncludePath := optConfigIncludePath;
     cfgOptStanza := optStanza;
     cfgOptGrpPg := grpPg |}.

(** [cfgCommandId]: the index of the name in the command table, [cfgCmdNone]
    when it is not there. *)
Fixpoint commandId (name : string) (commands : list ParseRuleCommand) (id : nat) : nat :=
  match commands with
  | [] => id
  | c :: rest => if strEq name (cmdName c) then id else commandId name rest (S id)
  end.

Definition commandRoleEnum (role : string) : Result nat :=
  if strEq role "default" then Ok cfgCmdRoleDefault
  else if strEq role "async" then Ok cfgCmdRoleAsync
  else if strEq role "local" then Ok cfgCmdRoleLocal
  else if strEq role "remote" then Ok cfgCmdRoleRemote
  else Throw CommandInvalidError ("invalid command role '" +:+ role +:+ "'").

(** A document with a stanza section and a global section. *)
Definition ini : Ini :=
  [ ("demo", [("pg1-path", IniStr "/from/stanza"); ("stanza", IniStr "other")]);
    ("global:backup", [("buffer-size", IniStr "32768")]);
    ("global", [("buffer-size", IniStr "65536"); ("compress", IniStr "n");
                ("db-include", IniList ["a"; "b"])]) ]%string.

(** Collaborators over a file system that holds [files] and lists [dirs];
    every file parses to the document [ini]. *)
Definition ext (files : list (string * string)) (dirs : list (string * list string))
    : Collaborators :=
  {| cfgCommandId := fun name => commandId name (parseRuleCommand rules) 0;
     cfgCommandRoleEnum := commandRoleEnum;
     cfgCommandName := fun id => cmdName (ruleCommand rules id);
     iniParse := fun _ => Ok ini;
     cvtZToMSec := fun value => do i <-- cvtZToInt64 value ;; Ok (i * 1000);
     fileSystem :=
       {| fsFile := fun path =>
            match find (fun f => strEq path (fst f)) files with
            | Some f => Some (snd f)
            | None => None
            end;
          fsDir := fun path =>
            match find (fun d => strEq path (fst d)) dirs with
            | Some d => Some (snd d)
            | None => None
            end |} |}.

(** What [getopt_long] returns for [--name=value] (or [--name]). *)
Definition arg (name value : string) : GetoptResult :=
  match find (fun ia => strEq name (goName (snd ia))) (indexed aliases) with
  | Some (idx, o) =>
      {| optionValue := val o; argCurrent := "--" +:+ name; optionListIdx := idx;
         optarg := value |}
  | None =>
      {| optionValue := 63; argCurrent := "--" +:+ name; optionListIdx := 0;
         optarg := EmptyString |}
  end.

(** What [getopt_long] returns for a positional argument. *)
Definition positional (value : string) : GetoptResult :=
  {| optionValue := 1; argCurrent := value; optionListIdx := 0; optarg := value |}.

(** The value and source stored for an option index in a configuration. *)
Definition optionValueOf (r : Result Config) (optionId optionListIdx : nat)
    : option (ConfigSource * option Variant) :=
  match r with
  | Ok config =>
      match cfgOption config !! optionId with
      | Some o =>
          match coIndex o with
          | Some index =>
              match index !! optionListIdx with
              | Some v => Some (covSource v, covValue v)
              | None => None
              end
          | None => None
          end
      | None => None
      end
  | Throw _ _ => None
  end.

(** An empty main configuration file next to an include directory with one
    file. *)
Definition emptyMainFiles : list (string * string) :=
  [ ("/etc/pgbackrest/pgbackrest.conf", EmptyString);
    ("/etc/pgbackrest/conf.d/a.conf", "[global]") ]%string.

Definition emptyMainDirs : list (string * list string) :=
  [ ("/etc/pgbackrest/conf.d", ["."; ".."; "a.conf"; "readme.txt"]) ]%string.

(** A run in which the command line, the environment and the configuration
    file all supply [buffer-size]. *)
Definition mainFile : list (string * string) :=
  [ ("/etc/pgbackrest/pgbackrest.conf", "[global]") ]%string.

Definition precedenceArgs : list GetoptResult :=
  [ arg "stanza" "demo"; arg "buffer-size" "64kb"; positional "backup" ]%string.

Definition precedenceEnviron : list string :=
  [ "HOME=/root"; "PGBACKREST_BUFFER_SIZE=32kb" ]%string.

(** The configuration after [backup] was read from the command line. *)
Definition backupConfig : Config :=
  configSetCommand (configNew rules "pgbackrest") cmdBackup cfgCmdRoleDefault false.

(** The parse option list after [--stanza=demo] on the command line. *)
Definition stanzaOptionList : list ParseOption :=
  <[optStanza :=
      {| indexList :=
           [ {| povFound := true; povNegate := false; povReset := false;
                povSource := cfgSourceParam; povValueList := Some ["demo"%string] |} ] |}]>
    (replicate (CFG_OPTION_TOTAL rules) ParseOption_zero).

(** The parse option list after [--no-config] on the command line. *)
Definition noConfigOptionList : list ParseOption :=
  <[optConfig :=
      {| indexList :=
           [ {| povFound := true; povNegate := true; povReset := false;
                povSource := cfgSourceParam; povValueList := None |} ] |}]>
    (replicate (CFG_OPTION_TOTAL rules) ParseOption_zero).

(** A table whose only option carries a default of its own, a default for
    the backup command and another for the help command. *)
Definition overrideRecords : list DataRecord :=
  [ {| recType := parseRuleOptionDataTypeDefault; recData := 0; recList := [CellStr "6"] |};
    {| recType := parseRuleOptionDataTypeCommand; recData := Z.of_nat cmdBackup; recList := [] |};
    {| recType := parseRuleOptionDataTypeDefault; recData := 0; recList := [CellStr "3"] |};
    {| recType := parseRuleOptionDataTypeCommand; recData := Z.of_nat cmdHelp; recList := [] |};
    {| recType := parseRuleOptionDataTypeDefault; recData := 0; recList := [CellStr "9"] |} ]%string.

Definition overrideRules : ParseRules :=
  {| parseRuleCommand := parseRuleCommand rules;
     parseRuleOptionGroup := parseRuleOptionGroup rules;
     parseRuleOption :=
       [ {| optName := "compress-level"; optType := cfgOptTypeInteger; optRequired := false;
            optSection := cfgSectionGlobal; optSecure := false; optMulti := false;
            optGroup := false; optGroupId := 0%nat; optCommandRoleValid := backupOnly;
            optData := Some (encodeRecords overrideRecords) |} ];
     optionList := [alias "compress-level" required_argument 0 0 0];
     optionResolveOrder := [0%nat];
     CFG_OPTION_KEY_MAX := 256;
     LIST_INITIAL_SIZE := 8;
     cfgCmdNone := cmdNone;
     cfgCmdHelp := cmdHelp;
     cfgCmdVersion := cmdVersion;
     cfgOptConfig := optConfig;
     cfgOptConfigPath := optConfigPath;
     cfgOptConfigIncludePath := optConfigIncludePath;
     cfgOptStanza := optStanza;
     cfgOptGrpPg := grpPg |}.

(** The table with [pg-path] made optional, as for a command that can run
    without a cluster path. *)
Definition optionalPgRules : ParseRules :=
  {| parseRuleCommand := parseRuleCommand rules;
     parseRuleOptionGroup := parseRuleOptionGroup rules;
     parseRuleOption :=
       <[optPgPath := rule "pg-path" cfgOptTypePath false cfgSectionStanza false false
                        (Some grpPg) []]> options;
     optionList := aliases;
     optionResolveOrder := optionResolveOrder rules;
     CFG_OPTION_KEY_MAX := 256;
     LIST_INITIAL_SIZE := 8;
     cfgCmdNone := cmdNone;
     cfgCmdHelp := cmdHelp;
     cfgCmdVersion := cmdVersion;
     cfgOptConfig := optConfig;
     cfgOptConfigPath := optConfigPath;
     cfgOptConfigIncludePath := optConfigIncludePath;
     cfgOptStanza := optStanza;
     cfgOptGrpPg := grpPg |}.

(** The table with parameters allowed for the first command, as they are for
    archive-get and archive-push. *)
Definition parameterRules : ParseRules :=
  {| parseRuleCommand :=
       [ {| cmdName := "backup"; cmdCommandRoleValid := 1; cmdParameterAllowed := true |};
         {| cmdName := "help"; cmdCommandRoleValid := 1; cmdParameterAllowed := true |};
         {| cmdName := "version"; cmdCommandRoleValid := 1; cmdParameterAllowed := false |} ];
     parseRuleOptionGroup := parseRuleOptionGroup rules;
     parseRuleOption := options;
     optionList := aliases;
     optionResolveOrder := optionResolveOrder rules;
     CFG_OPTION_KEY_MAX := 256;
     LIST_INITIAL_SIZE := 8;
     cfgCmdNone := cmdNone;
     cfgCmdHelp := cmdHelp;
     cfgCmdVersion := cmdVersion;
     cfgOptConfig := optConfig;
     cfgOptConfigPath := optConfigPath;
     cfgOptConfigIncludePath := optConfigIncludePath;
     cfgOptStanza := optStanza;
     cfgOptGrpPg := grpPg |}.

(** The table with [buffer-size] depending on [compress] being on, as
    compress-level does; [compress] is resolved before it. *)
Definition dependRules : ParseRules :=
  {| parseRuleCommand := parseRuleCommand rules;
     parseRuleOptionGroup := parseRuleOptionGroup rules;
     parseRuleOption :=
       <[optBufferSize :=
           rule "buffer-size" cfgOptTypeSize true cfgSectionGlobal false false None
             [PARSE_RULE_OPTION_OPTIONAL_DEPEND_LIST optCompress ["1"%string];
              PARSE_RULE_OPTION_OPTIONAL_ALLOW_RANGE 16384 16777216;
              PARSE_RULE_OPTION_OPTIONAL_DEFAULT "1048576"]]> options;
     optionList := aliases;
     optionResolveOrder :=
       [optConfig; optConfigIncludePath; optConfigPath; optStanza; optPgPath; optRepoPath;
        optCompress; optBufferSize; optRepoCipherPass; optDbInclude];
     CFG_OPTION_KEY_MAX := 256;
     LIST_INITIAL_SIZE := 8;
     cfgCmdNone := cmdNone;
     cfgCmdHelp := cmdHelp;
     cfgCmdVersion := cmdVersion;
     cfgOptConfig := optConfig;
     cfgOptConfigPath := optConfigPath;
     cfgOptConfigIncludePath := optConfigIncludePath;
     cfgOptStanza := optStanza;
     cfgOptGrpPg := grpPg |}.

(** The table with [db-include] valid for no command it has, as it is for
    every command but restore. *)
Definition restoreOptionRules : ParseRules :=
  {| parseRuleCommand := parseRuleCommand rules;
     parseRuleOptionGroup := parseRuleOptionGroup rules;
     parseRuleOption :=
       <[optDbInclude := {| optName := "db-include"; optType := cfgOptTypeList;
                            optRequired := false; optSection := cfgSectionGlobal;
                            optSecure := false; optMulti := true; optGroup := false;
                            optGroupId := 0; optCommandRoleValid := [0; 0; 0; 0];
                            optData := None |}]> options;
     optionList := aliases;
     optionResolveOrder := optionResolveOrder rules;
     CFG_OPTION_KEY_MAX := 256;
     LIST_INITIAL_SIZE := 8;
     cfgCmdNone := cmdNone;
     cfgCmdHelp := cmdHelp;
     cfgCmdVersion := cmdVersion;
     cfgOptConfig := optConfig;
     cfgOptConfigPath := optConfigPath;
     cfgOptConfigIncludePath := optConfigIncludePath;
     cfgOptStanza := optStanza;
     cfgOptGrpPg := grpPg |}.

End Demo.

(** ** More of the option tables *)

(** [cfgParseOptionId]: the id of the option with this name, [-1] when there
    is none; the loop does not stop at a match. *)
Definition cfgParseOptionId (rules : ParseRules) (optionName : string) : Z :=
  fold_left (fun (result : Z) (optionId : nat) =>
               if strEq optionName (optName (ruleOption rules optionId))
               then Z.of_nat optionId else result)
    (seq 0 (CFG_OPTION_TOTAL rules)) (-1).

(** The same option seen again with another argument. *)
Definition getoptWithArg (g : GetoptResult) (value : string) : GetoptResult :=
  {| optionValue := optionValue g; argCurrent := argCurrent g;
     optionListIdx := optionListIdx g; optarg := value |}.

(** The state of the [getopt_long] loop before the first argument. *)
Definition parseStateInit (rules : ParseRules) (exe : string) : ParseState :=
  {| psConfig := configNew rules exe;
     psParseOptionList := replicate (CFG_OPTION_TOTAL rules) ParseOption_zero;
     psCommandSet := false; psArgFound := false |}.

(** What phases 2 to 5 leave as phase 1 set it: command, role, help, the
    executable and the parameters. *)
Definition sameCommand (before after : Config) : Prop :=
  cfgCommand after = cfgCommand before /\
  cfgCommandRole after = cfgCommandRole before /\
  cfgHelp after = cfgHelp before /\
  cfgExe after = cfgExe before /\
  cfgParamList after = cfgParamList before.

(** [parseRuleCommand[command].commandRoleValid & (1 << commandRole)]. *)
Definition commandRoleValid (rules : ParseRules) (command commandRole : nat) : bool :=
  negb (Z.land (cmdCommandRoleValid (ruleCommand rules command))
               (Z.shiftl 1 (Z.of_nat commandRole)) =? 0).

(** ** The keys in use in a group

    What the scan of phase 4 computes, read off its loops: an option counts for
    a group when it is valid for the command and a member of the group; a key
    index is in use when some such option has a value that was found and not
    reset at it. *)

Definition optionValidFor (rules : ParseRules) (config : Config) (optionId : nat) : bool :=
  match cfgParseOptionValid rules (cfgCommand config) (cfgCommandRole config) optionId with
  | Ok valid => valid
  | Throw _ _ => false
  end.

Definition optionInGroup (rules : ParseRules) (config : Config) (groupId optionId : nat)
    : bool :=
  optionValidFor rules config optionId && optGroup (ruleOption rules optionId) &&
  (optGroupId (ruleOption rules optionId) =? groupId)%nat.

(** [indexList[optionKeyIdx].found && !indexList[optionKeyIdx].reset]. *)
Definition valueInUse (parseOptionList : list ParseOption) (optionId optionKeyIdx : nat)
    : bool :=
  povFound (parseOptionValueAt parseOptionList optionId optionKeyIdx) &&
  negb (povReset (parseOptionValueAt parseOptionList optionId optionKeyIdx)).

Definition groupKeyUsed (rules : ParseRules) (config : Config)
    (parseOptionList : list ParseOption) (groupId : nat) (options : list nat)
    (optionKeyIdx : nat) : bool :=
  existsb (fun optionId =>
             optionInGroup rules config groupId optionId &&
             valueInUse parseOptionList optionId optionKeyIdx) options.

(** [groupIdxMap[groupId][optionKeyIdx]], false outside the row. *)
Definition rowUsed (row : list bool) (optionKeyIdx : nat) : bool :=
  match row !! optionKeyIdx with
  | Some used => used
  | None => false
  end.

(** The state of the scan of phase 4, for the keys [used] and the groups
    [valid] so far: the row of a group marks the keys in use, the index total
    counts them, and the index map is still as created. *)
Definition groupState (rules : ParseRules) (config0 : Config) (used : nat -> nat -> bool)
    (valid : nat -> bool) (state : Config * list (list bool)) : Prop :=
  sameCommand config0 (fst state) /\
  length (snd state) = CFG_OPTION_GROUP_TOTAL rules /\
  length (cfgOptionGroup (fst state)) = CFG_OPTION_GROUP_TOTAL rules /\
  forall groupId row group,
    snd state !! groupId = Some row ->
    cfgOptionGroup (fst state) !! groupId = Some group ->
    length row = CFG_OPTION_KEY_MAX rules /\
    (forall k, rowUsed row k = used groupId k) /\
    cogIndexTotal group =
      length (List.filter (rowUsed row) (seq 0 (CFG_OPTION_KEY_MAX rules))) /\
    cogIndexMap group = replicate (CFG_OPTION_KEY_MAX rules) 0%nat /\
    cogValid group = valid groupId.

(** The parameters of the command so far, none for [NULL]. *)
Definition paramsOf (config : Config) : list string :=
  match cfgParamList config with Some l => l | None => [] end.

(** The option index total of phase 5: the index total of the group of the
    option, 1 for an option that is not in a group. *)
Definition optionIndexTotal (rules : ParseRules) (config : Config) (optionId : nat) : nat :=
  if optGroup (ruleOption rules optionId) then
    match cfgOptionGroup config !! optGroupId (ruleOption rules optionId) with
    | Some group => cogIndexTotal group
    | None => 0%nat
    end
  else 1%nat.

(** An option with its index list replaced. *)
Definition optionWithIndex (option : ConfigOptionData) (index : list ConfigOptionValue)
    : ConfigOptionData :=
  {| coName := coName option; coValid := coValid option; coGroup := coGroup option;
     coGroupId := coGroupId option; coIndex := Some index |}.

(** The configuration in which phase 5 computes index [optionListIdx] of an
    option: [current], the configuration when the loop over the resolve order
    reaches the option, with the values of the lower indexes stored. *)
Definition configAtSlot (current : Config) (optionId : nat)
    (values : list ConfigOptionValue) (optionListIdx : nat) : Config :=
  match cfgOption current !! optionId with
  | Some option =>
      configSetOption current
        (<[optionId := optionWithIndex option (take optionListIdx values)]>
           (cfgOption current))
  | None => current
  end.

(** The index list of an option as phase 5 leaves it, [current] being the
    configuration when the loop over the resolve order reaches the option: one
    value for each index, each the result of [configParseSlot] for that index
    in the configuration the loop through the indexes has then. *)
Definition slotsStored (rules : ParseRules) (ext : Collaborators) (current : Config)
    (parseOptionList : list ParseOption) (optionId : nat) (option : ConfigOptionData)
    : Prop :=
  exists values optionType,
    coIndex option = Some values /\
    cfgParseOptionType rules optionId = Ok optionType /\
    length values = optionIndexTotal rules current optionId /\
    forall optionListIdx value,
      values !! optionListIdx = Some value ->
      configParseSlot rules ext (configAtSlot current optionId values optionListIdx)
        parseOptionList optionId optionType optionListIdx = Ok value.

(** Whether a key of a section provides the option at a key index: the key
    names it through an alias that neither negates nor resets, and the option
    is not command-line only, is valid for the command and role and is not a
    stanza option in a section whose name begins with [global] (the tests of
    the loop through the keys that come before the value is read). *)
Definition keyProvides (rules : ParseRules) (config : Config) (section key : string)
    (optionId optionKeyIdx : nat) : bool :=
  let opt := cfgParseOption rules key in
  resFound opt && negb (resNegate opt) && negb (resReset opt) &&
  negb (match optSection (ruleOption rules (resId opt)) with
        | cfgSectionCommandLine => true
        | _ => false
        end) &&
  optionValidFor rules config (resId opt) &&
  negb (match optSection (ruleOption rules (resId opt)) with
        | cfgSectionStanza => true
        | _ => false
        end && strBeginsWith section CFGDEF_SECTION_GLOBAL) &&
  (resId opt =? optionId)%nat && (resKeyIdx opt =? optionKeyIdx)%nat.

(** The value of a key of a section in the words of the specification, for
    an option that [previous] did not find: marked found with source config;
    a list-valued key needs a multi option and gives its values; a plain value
    must not be empty, gives a boolean option its negation by [n] (and must
    then be [y] or [n]) and any other option the one value.  [None] where the
    specification has an error. *)
Definition sectionKeyValueSpec (rules : ParseRules) (ini : Ini) (section key : string)
    (optionId : nat) (previous : ParseOptionValue) : option ParseOptionValue :=
  let found (negate : bool) (valueList : option (list string)) :=
    {| povFound := true; povNegate := negate; povReset := povReset previous;
       povSource := cfgSourceConfig; povValueList := valueList |} in
  match iniValue ini section key with
  | Some (IniList values) =>
      if optMulti (ruleOption rules optionId)
      then Some (found (povNegate previous) (Some values))
      else None
  | Some (IniStr value) =>
      if (strSize value =? 0)%nat then None
      else
        match cfgParseOptionType rules optionId with
        | Ok cfgOptTypeBoolean =>
            if strEq value "n" then Some (found true (povValueList previous))
            else if strEq value "y"
                 then Some (found (povNegate previous) (povValueList previous))
                 else None
        | Ok _ => Some (found (povNegate previous) (Some [value]))
        | Throw _ _ => None
        end
  | None => None
  end.

(** ** The environment in place of the command line

    What a run holds when one option came from the environment and not from
    the command line: the same, with the source [cfgSourceConfig] in place of
    [cfgSourceParam] at that option and key index. *)

Definition mapResult {A B : Type} (f : A -> B) (r : Result A) : Result B :=
  match r with
  | Ok a => Ok (f a)
  | Throw e msg => Throw e msg
  end.

Definition valueFromEnv (value : ParseOptionValue) : ParseOptionValue :=
  {| povFound := povFound value; povNegate := povNegate value; povReset := povReset value;
     povSource := cfgSourceConfig; povValueList := povValueList value |}.

(** The parsed value at [id] and [k]: with the source of the environment
    when that is the option and key index and the value was found. *)
Definition cellFromEnv (optionId optionKeyIdx id k : nat) (value : ParseOptionValue)
    : ParseOptionValue :=
  if (id =? optionId)%nat && (k =? optionKeyIdx)%nat && povFound value
  then valueFromEnv value else value.

Definition optionFromEnv (optionId optionKeyIdx id : nat) (parseOption : ParseOption)
    : ParseOption :=
  {| indexList := imap (cellFromEnv optionId optionKeyIdx id) (indexList parseOption) |}.

Definition parseOptionListFromEnv (optionId optionKeyIdx : nat)
    (parseOptionList : list ParseOption) : list ParseOption :=
  imap (optionFromEnv optionId optionKeyIdx) parseOptionList.

(** The value at an index of the option in the configuration: with the
    source of the environment when the index is that of the key index and the
    value came from the command line. *)
Definition slotFromEnv (rules : ParseRules) (config : Config) (optionId optionKeyIdx : nat)
    (optionListIdx : nat) (value : ConfigOptionValue) : ConfigOptionValue :=
  match configSlotKeyIdx rules config optionId optionListIdx with
  | Ok keyIdx =>
      if (keyIdx =? optionKeyIdx)%nat && isParam (covSource value)
      then {| covNegate := covNegate value; covReset := covReset value;
              covSource := cfgSourceConfig; covValue := covValue value |}
      else value
  | Throw _ _ => value
  end.

Definition configOptionFromEnv (rules : ParseRules) (config : Config)
    (optionId optionKeyIdx id : nat) (option : ConfigOptionData) : ConfigOptionData :=
  if (id =? optionId)%nat then
    {| coName := coName option; coValid := coValid option; coGroup := coGroup option;
       coGroupId := coGroupId option;
       coIndex := option_map (imap (slotFromEnv rules config optionId optionKeyIdx))
                    (coIndex option) |}
  else option.

Definition configFromEnv (rules : ParseRules) (optionId optionKeyIdx : nat) (config : Config)
    : Config :=
  configSetOption config
    (imap (configOptionFromEnv rules config optionId optionKeyIdx) (cfgOption config)).

(** An argument names the option at the key index. *)
Definition argNamesOption (g : GetoptResult) (optionId optionKeyIdx : nat) : bool :=
  getoptIsOption g &&
  (resId (cfgParseOptionInfo (optionValue g)) =? optionId)%nat &&
  (resKeyIdx (cfgParseOptionInfo (optionValue g)) =? optionKeyIdx)%nat.

(** An entry of the environment names the option at the key index. *)
Definition envNamesOption (rules : ParseRules) (keyValue : string)
    (optionId optionKeyIdx : nat) : bool :=
  strBeginsWith keyValue PGBACKREST_ENV &&
  match strChr keyValue "=" with
  | Some equalPos =>
      let opt := cfgParseOption rules (envKey keyValue equalPos) in
      resFound opt && (resId opt =? optionId)%nat && (resKeyIdx opt =? optionKeyIdx)%nat
  | None => false
  end.

(** The allocation of [parseOptionIdxValue] in closed form: whether it
    succeeds for an index list of [total] values, and how many zero values it
    appends. *)
Definition allocOk (grouped : bool) (total optionKeyIdx : nat) : bool :=
  negb (total <=? optionKeyIdx)%nat || grouped || (optionKeyIdx =? 0)%nat.

Definition allocExtra (grouped : bool) (half total optionKeyIdx : nat) : nat :=
  if (total <=? optionKeyIdx)%nat then
    if (total =? 0)%nat then
      if grouped then (if (half <=? optionKeyIdx)%nat then optionKeyIdx + 1 else half)%nat
      else 1%nat
    else (optionKeyIdx + 1 - total)%nat
  else 0%nat.

(** The parse option list with a value stored for the option at the key
    index: allocated, then assigned. *)
Definition parseOptionStore (rules : ParseRules) (parseOptionList : list ParseOption)
    (optionId optionKeyIdx : nat) (value : ParseOptionValue) : list ParseOption :=
  match parseOptionIdxValue rules parseOptionList optionId optionKeyIdx with
  | Ok allocated => parseOptionValueSet allocated optionId optionKeyIdx value
  | Throw _ _ => parseOptionList
  end.

(** The state of phase 1 with a value stored for the option at the key
    index, an argument having been found. *)
Definition parseStateStore (rules : ParseRules) (optionId optionKeyIdx : nat)
    (value : ParseOptionValue) (st : ParseState) : ParseState :=
  {| psConfig := psConfig st;
     psParseOptionList :=
       parseOptionStore rules (psParseOptionList st) optionId optionKeyIdx value;
     psCommandSet := psCommandSet st; psArgFound := true |}.

(** A configuration without the sources recorded for its values. *)
Definition valueWithoutSource (value : ConfigOptionValue) : bool * bool * option Variant :=
  (covNegate value, covReset value, covValue value).

Definition optionWithoutSource (data : ConfigOptionData)
    : string * bool * bool * nat * option (list (bool * bool * option Variant)) :=
  (coName data, coValid data, coGroup data, coGroupId data,
   option_map (map valueWithoutSource) (coIndex data)).

Definition configWithoutSource (config : Config) :=
  (cfgCommand config, cfgCommandRole config, cfgHelp config, cfgExe config,
   cfgParamList config, map optionWithoutSource (cfgOption config), cfgOptionGroup config).

(** * Properties *)

(** ** Size values *)

Example convertToByte_1kb : convertToByte "1kb" = Ok 1024.
Proof. reflexivity. Qed.

Example convertToByte_2m : convertToByte "2m" = Ok 2097152.
Proof. reflexivity. Qed.

Example convertToByte_5 : convertToByte "5" = Ok 5.
Proof. reflexivity. Qed.

(** C3: the expression of [convertToByte] repeats the qualifier group, so a
    value with a doubled byte qualifier, which the expression of the
    specification (at most one qualifier) rejects, is accepted and converted:
    [convertToByte("5bb") == 5]. *)
Theorem convertToByte_accepts_repeated_qualifier :
  regExpMatchOne sizeExpressionSpec (strLower "5bb") = false /\
  regExpMatchOne sizeExpression (strLower "5bb") = true /\
  convertToByte "5bb" = Ok 5.
Proof. repeat split; vm_compute; reflexivity. Qed.

(** With more than one qualifier the conversion of the digits fails where
    the specification has the expression fail. *)
Example convertToByte_5kbkb : isThrow FormatError (convertToByte "5kbkb").
Proof. eexists. vm_compute. reflexivity. Qed.

(** The multiplication is in [uint64_t]: 2^54 KiB wraps to zero. *)
Example convertToByte_wraps : convertToByte "18014398509481984k" = Ok 0.
Proof. vm_compute. reflexivity. Qed.

(** ** Matching by derivatives *)

Lemma regExpMatchOne_alt (a b : RegExp) (s : string) :
  regExpMatchOne (ReAlt a b) s = regExpMatchOne a s || regExpMatchOne b s.
Proof. revert a b. induction s as [| c s IH]; intros a b; [reflexivity | apply IH]. Qed.

Lemma regExpMatchOne_seq (a b : RegExp) (s1 s2 : string) :
  regExpMatchOne a s1 = true -> regExpMatchOne b s2 = true ->
  regExpMatchOne (ReSeq a b) (s1 +:+ s2) = true.
Proof.
  revert a. induction s1 as [| c s1 IH]; intros a Ha Hb.
  - change (EmptyString +:+ s2) with s2. cbn [regExpMatchOne] in Ha.
    destruct s2 as [| c s2].
    + cbn [regExpMatchOne reNullable] in *. rewrite Ha, Hb. reflexivity.
    + cbn [regExpMatchOne reDerive] in Hb |- *. rewrite Ha, regExpMatchOne_alt, Hb.
      apply orb_true_r.
  - change (String c s1 +:+ s2) with (String c (s1 +:+ s2)).
    cbn [regExpMatchOne reDerive] in *.
    destruct (reNullable a).
    + rewrite regExpMatchOne_alt, (IH _ Ha Hb). reflexivity.
    + apply IH; assumption.
Qed.

Lemma regExpMatchOne_star (a : RegExp) (c : ascii) (s1 s2 : string) :
  regExpMatchOne a (String c s1) = true -> regExpMatchOne (ReStar a) s2 = true ->
  regExpMatchOne (ReStar a) (String c s1 +:+ s2) = true.
Proof.
  intros Ha Hs. change (String c s1 +:+ s2) with (String c (s1 +:+ s2)).
  cbn [regExpMatchOne reDerive] in *.
  apply regExpMatchOne_seq; assumption.
Qed.

Lemma regExpMatchOne_digit (c : ascii) :
  isDigit c = true -> regExpMatchOne (ReRange "0" "9") (String c EmptyString) = true.
Proof.
  unfold isDigit. intros H. cbn [regExpMatchOne reDerive].
  change (nat_of_ascii "0") with 48%nat. change (nat_of_ascii "9") with 57%nat.
  rewrite H. reflexivity.
Qed.

Lemma digitsValue_digits (s : string) (acc n : Z) :
  digitsValue acc s = Some n ->
  forall i, (i < String.length s)%nat -> isDigit (chrAt s i) = true.
Proof.
  revert acc. induction s as [| c s IH]; intros acc H i Hi; cbn [String.length] in Hi; [lia |].
  cbn [digitsValue] in H. destruct (isDigit c) eqn:Hc; [| discriminate].
  destruct i as [| i]; [exact Hc |].
  unfold chrAt in *. cbn [String.get]. eapply IH; [exact H | lia].
Qed.

Lemma regExpMatchOne_digits_star (s : string) (acc n : Z) :
  digitsValue acc s = Some n -> regExpMatchOne (ReStar (ReRange "0" "9")) s = true.
Proof.
  revert acc. induction s as [| c s IH]; intros acc H; [reflexivity |].
  cbn [digitsValue] in H. destruct (isDigit c) eqn:Hc; [| discriminate].
  change (String c s) with (String c EmptyString +:+ s).
  apply regExpMatchOne_star; [apply regExpMatchOne_digit; exact Hc | eapply IH; exact H].
Qed.

Lemma regExpMatchOne_digits_plus (s : string) (n : Z) :
  s <> EmptyString -> digitsValue 0 s = Some n ->
  regExpMatchOne (RePlus (ReRange "0" "9")) s = true.
Proof.
  destruct s as [| c s]; [congruence |]. intros _ H.
  cbn [digitsValue] in H. destruct (isDigit c) eqn:Hc; [| discriminate].
  change (String c s) with (String c EmptyString +:+ s).
  apply regExpMatchOne_seq; [apply regExpMatchOne_digit; exact Hc |].
  eapply regExpMatchOne_digits_star; exact H.
Qed.

(** The qualifiers the specification gives a multiplier. *)
Lemma sizeMultiplierSpec_cases (qualifier : string) (multiplier : Z) :
  sizeMultiplierSpec qualifier = Some multiplier ->
  In (qualifier, multiplier)
    [ (""%string, 1); ("b"%string, 1); ("k"%string, 1024); ("kb"%string, 1024);
      ("m"%string, 1024 ^ 2); ("mb"%string, 1024 ^ 2); ("g"%string, 1024 ^ 3);
      ("gb"%string, 1024 ^ 3); ("t"%string, 1024 ^ 4); ("tb"%string, 1024 ^ 4);
      ("p"%string, 1024 ^ 5); ("pb"%string, 1024 ^ 5) ].
Proof.
  unfold sizeMultiplierSpec, strEq. intros H.
  repeat match type of H with
  | context [String.eqb qualifier ?q] =>
      destruct (String.eqb_spec qualifier q) as [-> | _];
        [vm_compute in H; injection H as <-; cbn [In]; tauto |]
  end.
  discriminate H.
Qed.

Lemma strSize_append (a b : string) :
  strSize (a +:+ b) = (strSize a + strSize b)%nat.
Proof.
  unfold strSize. induction a as [| c a IH]; [reflexivity |].
  change (String c a +:+ b) with (String c (a +:+ b)). cbn [String.length]. rewrite IH.
  reflexivity.
Qed.

Lemma chrAt_append_l (a b : string) (i : nat) :
  (i < strSize a)%nat -> chrAt (a +:+ b) i = chrAt a i.
Proof. intros Hi. unfold chrAt. rewrite <- append_correct1 by exact Hi. reflexivity. Qed.

Lemma chrAt_append_r (a b : string) (i : nat) :
  chrAt (a +:+ b) (strSize a + i) = chrAt b i.
Proof.
  unfold chrAt, strSize. rewrite (Nat.add_comm (String.length a) i), <- append_correct2.
  reflexivity.
Qed.

Lemma strTrunc_append (a b : string) :
  strTrunc (a +:+ b) (Z.of_nat (strSize a)) = a.
Proof.
  unfold strTrunc, strSize. rewrite Nat2Z.id. induction a as [| c a IH].
  - destruct b; reflexivity.
  - change (String c a +:+ b) with (String c (a +:+ b)). cbn [String.length substring].
    rewrite IH. reflexivity.
Qed.

Lemma isDigit_not_qualifier (c : ascii) :
  isDigit c = true -> Ascii.eqb c "b" = false /\ chrLe c "9" = true.
Proof.
  unfold isDigit, chrLe. change (nat_of_ascii "9") with 57%nat. intros H.
  apply andb_true_iff in H. destruct H as [_ H]. split; [| exact H].
  apply Ascii.eqb_neq. intros ->. vm_compute in H. discriminate H.
Qed.

Lemma cvtZToUInt64_digits (digits : string) (n : Z) :
  digits <> EmptyString -> digitsValue 0 digits = Some n -> n < UINT64_MODULUS ->
  cvtZToUInt64 digits = Ok n.
Proof.
  intros Hne Hval Hfit. unfold cvtZToUInt64. destruct digits as [| c rest]; [congruence |].
  rewrite Hval. destruct (Z.ltb_spec n UINT64_MODULUS); [reflexivity | lia].
Qed.

Lemma strAppend_empty (s : string) : s +:+ EmptyString = s.
Proof.
  induction s as [| c s IH]; [reflexivity |].
  change (String c s +:+ EmptyString) with (String c (s +:+ EmptyString)). rewrite IH.
  reflexivity.
Qed.

(** The byte [j] places before the end of [digits +:+ qualifier], within the
    qualifier, just before it, and the position where the qualifier starts. *)
Lemma chrAt_tail (digits qualifier : string) (j : nat) :
  (1 <= j <= strSize qualifier)%nat ->
  chrAt (digits +:+ qualifier) (strSize (digits +:+ qualifier) - j) =
    chrAt qualifier (strSize qualifier - j).
Proof.
  intros Hj. rewrite strSize_append.
  replace (strSize digits + strSize qualifier - j)%nat
    with (strSize digits + (strSize qualifier - j))%nat by lia.
  apply chrAt_append_r.
Qed.

Lemma chrAt_tail_digit (digits qualifier : string) (j : nat) :
  j = (strSize qualifier + 1)%nat -> (0 < strSize digits)%nat ->
  chrAt (digits +:+ qualifier) (strSize (digits +:+ qualifier) - j) =
    chrAt digits (strSize digits - 1).
Proof.
  intros -> Hlen. rewrite strSize_append.
  replace (strSize digits + strSize qualifier - (strSize qualifier + 1))%nat
    with (strSize digits - 1)%nat by lia.
  apply chrAt_append_l. lia.
Qed.

Lemma chrAt_qualifier (digits qualifier : string) :
  chrAt (digits +:+ qualifier) (strSize digits) = chrAt qualifier 0.
Proof.
  replace (strSize digits) with (strSize digits + 0)%nat at 1 by lia. apply chrAt_append_r.
Qed.

(** [convertToByte] on a value without qualifier letter. *)
Lemma convertToByte_bytes (value : string) (n : Z) :
  let lower := strLower value in
  regExpMatchOne sizeExpression lower = true ->
  Ascii.eqb (chrAt lower (strSize lower - 1)) "b" = false ->
  chrLe (chrAt lower (strSize lower - 1)) "9" = true ->
  cvtZToUInt64 lower = Ok n ->
  convertToByte value = Ok (to_uint64 (n * 1)).
Proof.
  intros lower Hmatch Hb Hle Hcvt. unfold convertToByte. fold lower.
  rewrite Hmatch. cbv zeta. rewrite Hb, Hle. cbn [negb].
  change (-1 =? -1) with true. cbv iota. rewrite Hcvt. reflexivity.
Qed.

(** [convertToByte] on a value whose qualifier letter is found at [pos]: the
    last byte when it is not a digit and either is not [b] or follows a digit,
    the byte before a final [b] otherwise. *)
Lemma convertToByte_qualifier (value : string) (pos : nat) (multiplier n : Z) :
  let lower := strLower value in
  let last := chrAt lower (strSize lower - 1) in
  let previous := chrAt lower (strSize lower - 2) in
  regExpMatchOne sizeExpression lower = true ->
  (Ascii.eqb last "b" = true /\ chrLe previous "9" = true /\ pos = (strSize lower - 1)%nat) \/
  (Ascii.eqb last "b" = true /\ chrLe previous "9" = false /\ pos = (strSize lower - 2)%nat) \/
  (Ascii.eqb last "b" = false /\ chrLe last "9" = false /\ pos = (strSize lower - 1)%nat) ->
  sizeQualifierToMultiplier (chrAt lower pos) = Ok multiplier ->
  cvtZToUInt64 (strTrunc lower (Z.of_nat pos)) = Ok n ->
  convertToByte value = Ok (to_uint64 (n * multiplier)).
Proof.
  intros lower last previous Hmatch Hpos Hmul Hcvt. unfold convertToByte. fold lower.
  rewrite Hmatch. cbv zeta. fold last. fold previous.
  assert (Hfound : forall k : nat, (Z.of_nat k =? -1) = false)
    by (intros k; apply Z.eqb_neq; lia).
  destruct Hpos as [(Hb & Hle & ->) | [(Hb & Hle & ->) | (Hb & Hle & ->)]];
    rewrite Hb, ?Hle; cbn [negb]; rewrite Hfound, Nat2Z.id, Hmul; cbn [bind];
    rewrite Hcvt; reflexivity.
Qed.

(** X6: on every value of the shape the specification gives -- digits
    followed by at most one qualifier, in any case -- whose digits fit
    [uint64_t], [convertToByte] accepts and multiplies as specified, in
    [uint64_t] (the product wraps modulo 2^64). *)
Lemma convertToByte_spec_values (value digits qualifier : string) (n multiplier : Z) :
  strLower value = digits +:+ qualifier ->
  digits <> EmptyString ->
  digitsValue 0 digits = Some n ->
  n < UINT64_MODULUS ->
  sizeMultiplierSpec qualifier = Some multiplier ->
  regExpMatchOne sizeExpressionSpec (strLower value) = true /\
  convertToByte value = Ok (to_uint64 (n * multiplier)).
Proof.
  intros Hlower Hne Hval Hfit Hq. apply sizeMultiplierSpec_cases in Hq.
  pose proof (regExpMatchOne_digits_plus _ _ Hne Hval) as Hplus.
  pose proof (cvtZToUInt64_digits _ _ Hne Hval Hfit) as Hcvt.
  assert (Hlen : (0 < strSize digits)%nat)
    by (destruct digits; [congruence | unfold strSize; cbn [String.length]; lia]).
  assert (Hlast : isDigit (chrAt digits (strSize digits - 1)) = true)
    by (eapply digitsValue_digits; [exact Hval | unfold strSize in *; lia]).
  apply isDigit_not_qualifier in Hlast. destruct Hlast as [Hnotb Hle9].
  assert (Hspec : regExpMatchOne (ReOpt (ReAny sizeQualifierList)) qualifier = true /\
                  regExpMatchOne (ReStar (ReAny sizeQualifierList)) qualifier = true).
  { cbn [In] in Hq.
    repeat (destruct Hq as [Hq | Hq]; [injection Hq as <- <-; split; vm_compute; reflexivity |]).
    contradiction. }
  destruct Hspec as [Hopt Hstar].
  assert (Hmatch : regExpMatchOne sizeExpression (strLower value) = true)
    by (rewrite Hlower; apply regExpMatchOne_seq; assumption).
  split; [rewrite Hlower; apply regExpMatchOne_seq; assumption |].
  assert (Hsize : forall q k, strSize q = k ->
            (strSize (digits +:+ q) - k)%nat = strSize digits)
    by (intros q k <-; rewrite strSize_append; lia).
  destruct (String.eqb_spec qualifier EmptyString) as [-> | Hq0].
  { (* no qualifier *)
    assert (multiplier = 1) as ->.
    { cbn [In] in Hq. destruct Hq as [Hq | Hq]; [congruence |].
      repeat (destruct Hq as [Hq | Hq]; [discriminate Hq |]). contradiction. }
    rewrite strAppend_empty in Hlower. rewrite Hlower in Hmatch.
    apply convertToByte_bytes; rewrite ?Hlower; assumption. }
  apply (convertToByte_qualifier value (strSize digits)); rewrite ?Hlower.
  - rewrite <- Hlower. exact Hmatch.
  - cbn [In] in Hq.
    repeat (destruct Hq as [Hq | Hq];
      [ injection Hq as <- <-;
        first
          [ congruence
          | left; rewrite chrAt_tail, chrAt_tail_digit, (Hsize _ 1%nat)
              by first [exact Hlen | reflexivity | vm_compute; lia];
            split; [vm_compute; reflexivity | split; [exact Hle9 | reflexivity]]
          | right; left; rewrite !chrAt_tail, (Hsize _ 2%nat)
              by first [exact Hlen | reflexivity | vm_compute; lia];
            split; [vm_compute; reflexivity | split; vm_compute; reflexivity]
          | right; right; rewrite !chrAt_tail, (Hsize _ 1%nat)
              by first [exact Hlen | reflexivity | vm_compute; lia];
            split; [vm_compute; reflexivity | split; vm_compute; reflexivity] ]
      | ]).
    contradiction.
  - rewrite chrAt_qualifier. cbn [In] in Hq.
    repeat (destruct Hq as [Hq | Hq];
      [injection Hq as <- <-; first [congruence | vm_compute; reflexivity] |]).
    contradiction.
  - rewrite strTrunc_append. exact Hcvt.
Qed.

(** ** Optional data lookup *)

Lemma lor_shiftl_add (x b n : Z) :
  0 <= n -> 0 <= b < 2 ^ n -> Z.lor (Z.shiftl x n) b = x * 2 ^ n + b.
Proof.
  intros Hn Hb.
  assert (Hland : Z.land (Z.shiftl x n) b = 0).
  { apply Z.bits_inj'. intros i Hi.
    rewrite Z.land_spec, Z.bits_0.
    destruct (Z.ltb_spec i n) as [Hlt | Hge].
    - rewrite Z.shiftl_spec_low by lia. reflexivity.
    - destruct (Z.eq_dec b 0) as [-> | Hb0].
      + rewrite Z.bits_0. apply andb_false_r.
      + rewrite (Z.bits_above_log2 b i), andb_false_r; [reflexivity | lia |].
        assert (Z.log2 b < n) by (apply Z.log2_lt_pow2; lia). lia. }
  pose proof (Z.add_lor_land (Z.shiftl x n) b) as Hadd.
  rewrite Hland, Z.add_0_r in Hadd. rewrite Hadd.
  rewrite Z.shiftl_mul_pow2 by lia. reflexivity.
Qed.

Lemma push_value (t : ParseRuleOptionDataType) (size : nat) (data : Z) :
  (size < 256)%nat -> 0 <= data < 65536 ->
  PARSE_RULE_OPTION_OPTIONAL_PUSH t size data =
    CellInt ((dataTypeCode t * 256 + Z.of_nat size) * 65536 + data).
Proof.
  intros Hs Hd. unfold PARSE_RULE_OPTION_OPTIONAL_PUSH. f_equal.
  replace (Z.shiftl (dataTypeCode t) 24) with (Z.shiftl (Z.shiftl (dataTypeCode t) 8) 16)
    by (rewrite Z.shiftl_shiftl by lia; reflexivity).
  rewrite <- Z.shiftl_lor.
  rewrite (lor_shiftl_add (dataTypeCode t) (Z.of_nat size) 8) by (simpl; lia).
  rewrite lor_shiftl_add by (simpl; lia).
  reflexivity.
Qed.

Lemma dataTypeCode_range (t : ParseRuleOptionDataType) : 0 <= dataTypeCode t <= 6.
Proof. destruct t; simpl; lia. Qed.

Lemma dataTypeCode_inj (a b : ParseRuleOptionDataType) :
  dataTypeCode a = dataTypeCode b -> a = b.
Proof. destruct a, b; simpl; intros H; try reflexivity; discriminate H. Qed.

(** Decoding the header of a record gives back its type, size and data. *)
Lemma header_decode (c s d : Z) :
  0 <= c <= 6 -> 0 <= s < 256 -> 0 <= d < 65536 ->
  let w := ((c * 256 + s) * 65536 + d) mod 2 ^ 64 in
  Z.land (Z.shiftr w 24) 255 = c /\
  Z.land (Z.shiftr w 16) 255 = s /\
  Z.land w 65535 = d.
Proof.
  intros Hc Hs Hd w.
  assert (Hw : w = (c * 256 + s) * 65536 + d).
  { unfold w. apply Z.mod_small. change (2 ^ 64) with 18446744073709551616. lia. }
  rewrite Hw.
  change 255 with (Z.ones 8). change 65535 with (Z.ones 16).
  rewrite !Z.land_ones, !Z.shiftr_div_pow2 by lia.
  change (2 ^ 24) with 16777216. change (2 ^ 16) with 65536. change (2 ^ 8) with 256.
  repeat split; Z.div_mod_to_equations; lia.
Qed.

Lemma isCommandRecord_code (r : DataRecord) :
  (dataTypeCode (recType r) =? dataTypeCode parseRuleOptionDataTypeCommand) = isCommandRecord r.
Proof. unfold isCommandRecord. destruct (recType r); reflexivity. Qed.

Lemma record_list_slice (pre : list DataCell) (h : DataCell) (l rest : list DataCell) :
  take (length l) (drop (length pre + 1) (pre ++ (h :: l) ++ rest)) = l.
Proof.
  replace (pre ++ (h :: l) ++ rest) with ((pre ++ [h]) ++ l ++ rest)
    by (rewrite <- !app_assoc; reflexivity).
  rewrite drop_app_length' by (rewrite length_app; simpl; lia).
  apply take_app_length.
Qed.

(** The loop over the cells follows [scanRecords] over the records. *)
Lemma find_loop_records (typeFind : ParseRuleOptionDataType) (commandId : Z)
    (records : list DataRecord) :
  Forall recordWf records ->
  typeFind <> parseRuleOptionDataTypeEnd ->
  forall (fuel : nat) (pre : list DataCell) (commandCurrent : Z) (result : option DataRecord),
    (length records < fuel)%nat ->
    parseRuleOptionDataFindLoop fuel (dataTypeCode typeFind) commandId
      (pre ++ concat (map encodeRecord records) ++ [CellInt 0]) (length pre)
      commandCurrent (dataOfRecord result)
    = Ok (dataOfRecord (scanRecords typeFind commandId commandCurrent result records)).
Proof.
  intros Hwf Hend. induction Hwf as [| r rest Hr Hrest IH]; intros fuel pre cur result Hfuel.
  - destruct fuel as [| fuel]; [simpl in Hfuel; lia |].
    cbn [parseRuleOptionDataFindLoop concat map app]. rewrite lookup_app_r by lia. rewrite Nat.sub_diag. simpl.
    destruct typeFind; try congruence; reflexivity.
  - destruct fuel as [| fuel]; [simpl in Hfuel; lia |].
    destruct Hr as (Htype & Hsize & Hdata).
    cbn [map concat]. unfold encodeRecord at 1.
    rewrite push_value by assumption.
    set (dataList := pre ++ _).
    assert (Hlook : dataList !! length pre =
                    Some (CellInt ((dataTypeCode (recType r) * 256 + Z.of_nat (length (recList r)))
                                   * 65536 + recData r))).
    { unfold dataList. rewrite lookup_app_r by lia. rewrite Nat.sub_diag. reflexivity. }
    cbn [parseRuleOptionDataFindLoop]. rewrite Hlook.
    destruct (header_decode (dataTypeCode (recType r)) (Z.of_nat (length (recList r)))
                (recData r) (dataTypeCode_range _) ltac:(lia) Hdata) as (Ht & Hs & Hd).
    cbv zeta in Ht, Hs, Hd. rewrite Ht, Hs, Hd. rewrite Nat2Z.id.
    rewrite isCommandRecord_code.
    assert (Hnotend : (dataTypeCode (recType r) =? dataTypeCode parseRuleOptionDataTypeEnd) = false).
    { apply Z.eqb_neq. intros Heq. apply Htype. apply dataTypeCode_inj. exact Heq. }
    rewrite Hnotend.
    assert (Hslice : take (length (recList r)) (drop (length pre + 1) dataList) = recList r).
    { unfold dataList. rewrite <- (app_assoc (_ :: recList r)).
      apply record_list_slice. }
    rewrite Hslice.
    assert (Hnext : forall cur' result',
               parseRuleOptionDataFindLoop fuel (dataTypeCode typeFind) commandId dataList
                 (length pre + length (recList r) + 1) cur' (dataOfRecord result')
               = Ok (dataOfRecord (scanRecords typeFind commandId cur' result' rest))).
    { intros cur' result'.
      specialize (IH fuel (pre ++ encodeRecord r) cur' result' ltac:(simpl in Hfuel; lia)).
      replace (length pre + length (recList r) + 1)%nat with (length (pre ++ encodeRecord r))
        by (rewrite length_app; unfold encodeRecord; simpl; lia).
      rewrite <- IH. f_equal. unfold dataList.
      rewrite <- !app_assoc. f_equal. unfold encodeRecord at 2.
      rewrite push_value by assumption. reflexivity. }
    cbn [scanRecords]. unfold hasType.
    destruct (isCommandRecord r).
    + destruct (cur =? commandId); [reflexivity | apply Hnext].
    + destruct ((dataTypeCode (recType r) =? dataTypeCode typeFind) &&
                ((cur =? UINT_MAX) || (cur =? commandId))).
      * destruct (cur =? commandId); [reflexivity |].
        apply (Hnext cur (Some r)).
      * apply Hnext.
Qed.

Lemma scanRecords_in_command (typeFind : ParseRuleOptionDataType) (commandId : Z)
    (result : option DataRecord) (records : list DataRecord) :
  scanRecords typeFind commandId commandId result records =
    match List.find (hasType typeFind) (unscopedRecords records) with
    | Some r => Some r
    | None => result
    end.
Proof.
  induction records as [| r rest IH]; [reflexivity |].
  cbn [scanRecords unscopedRecords]. rewrite Z.eqb_refl, orb_true_r, andb_true_r.
  destruct (isCommandRecord r); [reflexivity |].
  cbn [List.find]. destruct (hasType typeFind r); [reflexivity | apply IH].
Qed.

Lemma scanRecords_other_command (typeFind : ParseRuleOptionDataType) (commandId : Z)
    (records : list DataRecord) :
  Forall recordWf records ->
  forall (commandCurrent : Z) (result : option DataRecord),
    commandCurrent <> commandId -> commandCurrent <> UINT_MAX ->
    scanRecords typeFind commandId commandCurrent result records =
      match List.find (hasType typeFind) (commandRecords commandId records) with
      | Some r => Some r
      | None => result
      end.
Proof.
  intros Hwf. induction Hwf as [| r rest Hr Hrest IH]; intros cur result Hcur Hmax;
    [reflexivity |].
  cbn [scanRecords commandRecords].
  apply Z.eqb_neq in Hcur as Hcur'. apply Z.eqb_neq in Hmax as Hmax'.
  rewrite Hcur', Hmax'. cbn [orb]. rewrite andb_false_r.
  destruct (isCommandRecord r); cbn [andb].
  - destruct (Z.eqb_spec (recData r) commandId) as [Heq | Hne].
    + rewrite Heq. apply scanRecords_in_command.
    + apply IH; [exact Hne |].
      destruct Hr as (_ & _ & Hdata). unfold UINT_MAX. lia.
  - apply IH; assumption.
Qed.

Lemma last_cons_some {A : Type} (x : A) (l : list A) :
  last (x :: l) = match last l with Some y => Some y | None => Some x end.
Proof. destruct l as [| y l]; [reflexivity |]. rewrite last_cons_cons. simpl. 
  destruct (last (y :: l)) eqn:E; [reflexivity |].
  apply last_None in E. discriminate.
Qed.

Lemma scanRecords_unscoped (typeFind : ParseRuleOptionDataType) (commandId : Z)
    (records : list DataRecord) :
  Forall recordWf records ->
  commandId <> UINT_MAX ->
  forall result : option DataRecord,
    scanRecords typeFind commandId UINT_MAX result records =
      match List.find (hasType typeFind) (commandRecords commandId records) with
      | Some r => Some r
      | None =>
          match last (List.filter (hasType typeFind) (unscopedRecords records)) with
          | Some r => Some r
          | None => result
          end
      end.
Proof.
  intros Hwf Hmax. induction Hwf as [| r rest Hr Hrest IH]; intros result; [reflexivity |].
  cbn [scanRecords commandRecords unscopedRecords].
  assert (Hne : (UINT_MAX =? commandId) = false) by (apply Z.eqb_neq; congruence).
  rewrite Hne, Z.eqb_refl. cbn [orb]. rewrite andb_true_r.
  destruct (isCommandRecord r); cbn [andb].
  - destruct (Z.eqb_spec (recData r) commandId) as [Heq | Hdiff].
    + rewrite Heq. apply scanRecords_in_command.
    + rewrite scanRecords_other_command; [reflexivity | assumption | exact Hdiff |].
      destruct Hr as (_ & _ & Hdata). unfold UINT_MAX. lia.
  - cbn [List.filter]. destruct (hasType typeFind r).
    + rewrite IH, last_cons_some.
      destruct (List.find _ _); [reflexivity |].
      destruct (last _); reflexivity.
    + apply IH.
Qed.

Lemma encodeRecords_length (records : list DataRecord) :
  (length records <= length (concat (map encodeRecord records)))%nat.
Proof.
  induction records as [| r rest IH]; [simpl; lia |].
  cbn [map concat]. rewrite length_app. unfold encodeRecord at 1. cbn [length]. lia.
Qed.

(** The lookup on the encoding of well-formed records, read off the loop:
    the first record of the type in the block of the command, else the last
    unscoped record of the type. *)
Lemma parseRuleOptionDataFind_records (rules : ParseRules)
    (typeFind : ParseRuleOptionDataType) (commandId optionId : nat)
    (records : list DataRecord) :
  optData (ruleOption rules optionId) = Some (encodeRecords records) ->
  Forall recordWf records ->
  typeFind <> parseRuleOptionDataTypeEnd ->
  Z.of_nat commandId <> UINT_MAX ->
  parseRuleOptionDataFind rules typeFind commandId optionId =
    Ok (dataOfRecord (dataFindFirstScoped typeFind (Z.of_nat commandId) records)).
Proof.
  intros Hdata Hwf Hend Hmax.
  unfold parseRuleOptionDataFind. rewrite Hdata.
  unfold encodeRecords, PARSE_RULE_OPTION_OPTIONAL_LIST.
  pose proof (find_loop_records typeFind (Z.of_nat commandId) records Hwf Hend
                (S (length (concat (map encodeRecord records) ++ [CellInt 0]))) []
                UINT_MAX None) as Hloop.
  cbn [app length dataOfRecord] in Hloop. rewrite Hloop.
  - rewrite scanRecords_unscoped by assumption.
    unfold dataFindFirstScoped.
    destruct (List.find _ _); [reflexivity |]. destruct (last _); reflexivity.
  - rewrite length_app. pose proof (encodeRecords_length records). simpl. lia.
Qed.

(** Past the scope of the requested command, with no block of it ahead,
    nothing matches. *)
Lemma matchingRecordsSpec_none (typeFind : ParseRuleOptionDataType) (commandId : Z)
    (records : list DataRecord) :
  forall scope,
    commandBlocks commandId records = 0%nat ->
    scope <> ScopeNone -> scope <> ScopeCommand commandId ->
    matchingRecordsSpec typeFind commandId scope records = [].
Proof.
  induction records as [| r rest IH]; intros scope Hblocks Hnone Hscope; [reflexivity |].
  unfold commandBlocks in *. cbn [List.filter matchingRecordsSpec] in *.
  destruct (isCommandRecord r) eqn:Hcommand; cbn [andb] in Hblocks.
  - destruct (Z.eqb_spec (recData r) commandId) as [Heq | Hne];
      [cbn [length] in Hblocks; lia |].
    apply IH; [exact Hblocks | discriminate | congruence].
  - destruct (hasType typeFind r); [| apply IH; assumption].
    destruct scope as [| c |]; [congruence | | apply IH; assumption].
    destruct (Z.eqb_spec c commandId) as [-> | Hne]; [congruence |].
    apply IH; assumption.
Qed.

(** In the scope of the requested command, with no further block of it, the
    one match is the first record of the type before the next Command record. *)
Lemma matchingRecordsSpec_block (typeFind : ParseRuleOptionDataType) (commandId : Z)
    (records : list DataRecord) :
  commandBlocks commandId records = 0%nat ->
  matchingRecordsSpec typeFind commandId (ScopeCommand commandId) records =
    match List.find (hasType typeFind) (unscopedRecords records) with
    | Some r => [(true, r)]
    | None => []
    end.
Proof.
  induction records as [| r rest IH]; intros Hblocks; [reflexivity |].
  pose proof Hblocks as Hrest. unfold commandBlocks in Hrest.
  cbn [List.filter] in Hrest. cbn [matchingRecordsSpec unscopedRecords].
  destruct (isCommandRecord r) eqn:Hcommand; cbn [andb] in Hrest.
  - destruct (Z.eqb_spec (recData r) commandId) as [Heq | Hne];
      [cbn [length] in Hrest; lia |].
    cbn [List.find]. apply matchingRecordsSpec_none; [exact Hrest | discriminate | congruence].
  - cbn [List.find]. destruct (hasType typeFind r).
    + rewrite Z.eqb_refl. f_equal.
      apply matchingRecordsSpec_none; [exact Hrest | discriminate | discriminate].
    + apply IH. exact Hrest.
Qed.

(** Outside the scope of the requested command, with at most one block of
    it ahead, the one match is the first record of the type in that block. *)
Lemma matchingRecordsSpec_ahead (typeFind : ParseRuleOptionDataType) (commandId : Z)
    (records : list DataRecord) :
  forall scope,
    (commandBlocks commandId records <= 1)%nat ->
    scope <> ScopeNone -> scope <> ScopeCommand commandId ->
    matchingRecordsSpec typeFind commandId scope records =
      match List.find (hasType typeFind) (commandRecords commandId records) with
      | Some r => [(true, r)]
      | None => []
      end.
Proof.
  induction records as [| r rest IH]; intros scope Hblocks Hnone Hscope; [reflexivity |].
  pose proof Hblocks as Hrest. unfold commandBlocks in Hrest.
  cbn [List.filter] in Hrest. cbn [matchingRecordsSpec commandRecords].
  destruct (isCommandRecord r) eqn:Hcommand; cbn [andb] in *.
  - destruct (Z.eqb_spec (recData r) commandId) as [Heq | Hne].
    + cbn [length] in Hrest. rewrite Heq. apply matchingRecordsSpec_block.
      unfold commandBlocks. lia.
    + apply IH; [exact Hrest | discriminate | congruence].
  - destruct (hasType typeFind r); [| apply IH; assumption].
    destruct scope as [| c |]; [congruence | | apply IH; assumption].
    destruct (Z.eqb_spec c commandId) as [-> | Hne]; [congruence |].
    apply IH; assumption.
Qed.

(** From the start of the stream: the unscoped records of the type, then
    the match of the block of the command. *)
Lemma matchingRecordsSpec_stream (typeFind : ParseRuleOptionDataType) (commandId : Z)
    (records : list DataRecord) :
  (commandBlocks commandId records <= 1)%nat ->
  matchingRecordsSpec typeFind commandId ScopeNone records =
    map (pair false) (List.filter (hasType typeFind) (unscopedRecords records)) ++
    match List.find (hasType typeFind) (commandRecords commandId records) with
    | Some r => [(true, r)]
    | None => []
    end.
Proof.
  induction records as [| r rest IH]; intros Hblocks; [reflexivity |].
  pose proof Hblocks as Hrest. unfold commandBlocks in Hrest.
  cbn [List.filter] in Hrest. cbn [matchingRecordsSpec commandRecords unscopedRecords].
  destruct (isCommandRecord r) eqn:Hcommand; cbn [andb] in *.
  - cbn [List.filter map app].
    destruct (Z.eqb_spec (recData r) commandId) as [Heq | Hne].
    + cbn [length] in Hrest. rewrite Heq. apply matchingRecordsSpec_block.
      unfold commandBlocks. lia.
    + apply matchingRecordsSpec_ahead; [exact Hrest | discriminate | congruence].
  - cbn [List.filter]. destruct (hasType typeFind r).
    + cbn [map app]. f_equal. apply IH. exact Hrest.
    + apply IH. exact Hrest.
Qed.

Lemma filter_scoped_unscoped (l : list DataRecord) :
  List.filter fst (map (pair false) l) = [].
Proof. induction l as [| r l IH]; [reflexivity | exact IH]. Qed.

Lemma last_map_pair (l : list DataRecord) :
  option_map snd (last (map (pair false) l)) = last l.
Proof.
  induction l as [| r l IH]; [reflexivity |].
  cbn [map]. destruct l as [| r' l]; [reflexivity |]. exact IH.
Qed.

(** On a stream with at most one block of the command, the reading of the
    specification and the loop give the same record. *)
Lemma dataFindSpec_first_scoped (typeFind : ParseRuleOptionDataType) (commandId : Z)
    (records : list DataRecord) :
  (commandBlocks commandId records <= 1)%nat ->
  dataFindSpec typeFind commandId records = dataFindFirstScoped typeFind commandId records.
Proof.
  intros Hblocks. unfold dataFindSpec, dataFindFirstScoped. cbv zeta.
  rewrite (matchingRecordsSpec_stream _ _ _ Hblocks).
  rewrite List.filter_app, filter_scoped_unscoped.
  destruct (List.find (hasType typeFind) (commandRecords commandId records)) as [r |].
  - cbn [List.filter fst app]. reflexivity.
  - cbn [List.filter app]. rewrite app_nil_r. cbn [last]. apply last_map_pair.
Qed.

(** C5: on the encoding of well-formed records in which the requested
    command has at most one block, as in the generated tables, the lookup
    returns the last matching record, preferring a command-scoped match over an
    unscoped one, where the scope of a Command record ends at the next Command
    record, at the end of the stream or at a match in the requested command;
    when no record of the type matches, the result has [found = false]. *)
Theorem parseRuleOptionDataFind_last_matching_record
    (rules : ParseRules) (typeFind : ParseRuleOptionDataType) (commandId optionId : nat)
    (records : list DataRecord) :
  optData (ruleOption rules optionId) = Some (encodeRecords records) ->
  Forall recordWf records ->
  typeFind <> parseRuleOptionDataTypeEnd ->
  Z.of_nat commandId <> UINT_MAX ->
  (commandBlocks (Z.of_nat commandId) records <= 1)%nat ->
  parseRuleOptionDataFind rules typeFind commandId optionId =
    Ok (dataOfRecord (dataFindSpec typeFind (Z.of_nat commandId) records)) /\
  (matchingRecordsSpec typeFind (Z.of_nat commandId) ScopeNone records = [] ->
   exists data,
     parseRuleOptionDataFind rules typeFind commandId optionId = Ok data /\
     rodFound data = false).
Proof.
  intros Hdata Hwf Hend Hmax Hblocks.
  pose proof (parseRuleOptionDataFind_records _ _ _ _ _ Hdata Hwf Hend Hmax) as Hfind.
  rewrite <- (dataFindSpec_first_scoped _ _ _ Hblocks) in Hfind.
  split; [exact Hfind |].
  intros Hnone. rewrite Hfind. unfold dataFindSpec. cbv zeta. rewrite Hnone.
  eexists. split; reflexivity.
Qed.

(** The option of [Demo.overrideRules] carries an unscoped default, a
    default for the backup command and one for the help command: the lookup for
    backup returns the default of its block, the lookup for version the
    unscoped one. *)
Lemma parseRuleOptionDataFind_last_matching_record_witness :
  parseRuleOptionDataFind Demo.overrideRules parseRuleOptionDataTypeDefault Demo.cmdBackup 0 =
    Ok {| rodFound := true; rodData := 0; rodListSize := 1; rodList := [CellStr "3"] |} /\
  parseRuleOptionDataFind Demo.overrideRules parseRuleOptionDataTypeDefault Demo.cmdVersion 0 =
    Ok {| rodFound := true; rodData := 0; rodListSize := 1; rodList := [CellStr "6"] |} /\
  exists data,
    parseRuleOptionDataFind Demo.overrideRules parseRuleOptionDataTypeAllowList
      Demo.cmdBackup 0 = Ok data /\
    rodFound data = false.
Proof.
  assert (Hwf : Forall recordWf Demo.overrideRecords).
  { repeat (apply Forall_cons; split;
            [unfold recordWf; simpl; repeat split; (lia || discriminate) |]).
    apply Forall_nil. exact I. }
  split; [| split].
  - apply (proj1 (parseRuleOptionDataFind_last_matching_record Demo.overrideRules
                    parseRuleOptionDataTypeDefault Demo.cmdBackup 0 Demo.overrideRecords
                    eq_refl Hwf ltac:(discriminate) ltac:(vm_compute; discriminate)
                    ltac:(vm_compute; lia))).
  - apply (proj1 (parseRuleOptionDataFind_last_matching_record Demo.overrideRules
                    parseRuleOptionDataTypeDefault Demo.cmdVersion 0 Demo.overrideRecords
                    eq_refl Hwf ltac:(discriminate) ltac:(vm_compute; discriminate)
                    ltac:(vm_compute; lia))).
  - apply (proj2 (parseRuleOptionDataFind_last_matching_record Demo.overrideRules
                    parseRuleOptionDataTypeAllowList Demo.cmdBackup 0 Demo.overrideRecords
                    eq_refl Hwf ltac:(discriminate) ltac:(vm_compute; discriminate)
                    ltac:(vm_compute; lia))).
    reflexivity.
Defined.

(** ** Configuration parts *)

(** C4 (as amended): a part that is null or empty leaves the accumulator
    unchanged; a non-empty part that parses as INI is appended, after a newline
    separator iff the accumulator already exists (is not null) -- the first part
    is stored without a leading separator, an accumulator holding the empty
    text of an empty main file still gets one. *)
Theorem cfgFileLoadPart_separator_iff_accumulator_exists
    (ext : Collaborators) (config : option string) (configPart : string) (ini : Ini) :
  (0 < strSize configPart)%nat ->
  iniParse ext configPart = Ok ini ->
  cfgFileLoadPart ext config None = Ok config /\
  cfgFileLoadPart ext config (Some EmptyString) = Ok config /\
  cfgFileLoadPart ext None (Some configPart) = Ok (Some configPart) /\
  (forall accumulator : string,
     cfgFileLoadPart ext (Some accumulator) (Some configPart) =
       Ok (Some ((accumulator +:+ LF_STR) +:+ configPart))).
Proof.
  intros Hsize Hini. unfold cfgFileLoadPart.
  apply Nat.ltb_lt in Hsize. rewrite Hsize, Hini. cbn [bind strSize String.length Nat.ltb Nat.leb].
  repeat split.
Qed.

Lemma cfgFileLoadPart_separator_witness :
  cfgFileLoadPart (Demo.ext [] []) (Some "[global]"%string) None = Ok (Some "[global]"%string) /\
  cfgFileLoadPart (Demo.ext [] []) (Some "[global]"%string) (Some EmptyString) =
    Ok (Some "[global]"%string) /\
  cfgFileLoadPart (Demo.ext [] []) None (Some "[demo]"%string) = Ok (Some "[demo]"%string) /\
  (forall accumulator : string,
     cfgFileLoadPart (Demo.ext [] []) (Some accumulator) (Some "[demo]"%string) =
       Ok (Some ((accumulator +:+ LF_STR) +:+ "[demo]"%string))).
Proof.
  apply (cfgFileLoadPart_separator_iff_accumulator_exists (Demo.ext [] [])
           (Some "[global]"%string) "[demo]"%string Demo.ini).
  - simpl. lia.
  - reflexivity.
Defined.

(** C4 as stated fails on an accumulator that exists and is empty (the main
    file was read and has no bytes): the accumulator is not non-empty, yet the
    separator is inserted.  [cfgFileLoad] reaches that state with an empty main
    file and one include file. *)
Lemma cfgFileLoadPart_separator_on_empty_accumulator :
  cfgFileLoadPart (Demo.ext [] []) (Some EmptyString) (Some "[global]"%string) =
    Ok (Some (LF_STR +:+ "[global]"%string)) /\
  cfgFileLoadPartSpec (Some EmptyString) "[global]"%string = Some "[global]"%string /\
  cfgFileLoadPart (Demo.ext [] []) (Some EmptyString) (Some "[global]"%string) <>
    Ok (cfgFileLoadPartSpec (Some EmptyString) "[global]"%string) /\
  cfgFileLoad Demo.rules (Demo.ext Demo.emptyMainFiles Demo.emptyMainDirs)
    (replicate (CFG_OPTION_TOTAL Demo.rules) ParseOption_zero)
    "/etc/pgbackrest/pgbackrest.conf"%string "/etc/pgbackrest/conf.d"%string
    PGBACKREST_CONFIG_ORIG_PATH_FILE = Ok (Some (LF_STR +:+ "[global]"%string)).
Proof.
  repeat split; try (vm_compute; reflexivity).
  vm_compute. intros H. discriminate H.
Qed.

(** ** The parse option list *)

Lemma bind_Ok {A B : Type} (r : Result A) (k : A -> Result B) (b : B) :
  bind r k = Ok b -> exists a, r = Ok a /\ k a = Ok b.
Proof. destruct r as [a | e msg]; simpl; intros H; [eauto | discriminate]. Qed.

(** Invert a successful [do] step in a hypothesis. *)
Ltac bind_inv H :=
  let a := fresh "a" in
  let Ha := fresh "Ha" in
  let Hk := fresh "Hk" in
  apply bind_Ok in H; destruct H as (a & Ha & Hk); rename Hk into H.

Lemma foldResult_preserves {A S : Type} (R : S -> S -> Prop) (body : A -> S -> Result S) :
  (forall s, R s s) ->
  (forall s1 s2 s3, R s1 s2 -> R s2 s3 -> R s1 s3) ->
  (forall a s s', body a s = Ok s' -> R s s') ->
  forall l s s', foldResult body l s = Ok s' -> R s s'.
Proof.
  intros Hrefl Htrans Hbody l. induction l as [| a l IH]; intros s s' H.
  - simpl in H. inversion H; subst. apply Hrefl.
  - simpl in H. bind_inv H. eapply Htrans; [eapply Hbody; eassumption | eapply IH; eassumption].
Qed.

Lemma foldResult_app {A S : Type} (body : A -> S -> Result S) (l1 l2 : list A) (s : S) :
  foldResult body (l1 ++ l2) s = (do s1 <-- foldResult body l1 s ;; foldResult body l2 s1).
Proof.
  revert s. induction l1 as [| a l1 IH]; intros s; [reflexivity |].
  simpl. destruct (body a s) as [s' | e msg]; simpl; [apply IH | reflexivity].
Qed.

Lemma arrayGet_Ok {A : Type} (l : list A) (i : nat) (a : A) :
  arrayGet l i = Ok a -> l !! i = Some a.
Proof. unfold arrayGet. destruct (l !! i); intros H; inversion H; reflexivity. Qed.

Lemma arraySet_Ok {A : Type} (l : list A) (i : nat) (a : A) (l' : list A) :
  arraySet l i a = Ok l' -> l' = <[i := a]> l /\ (i < length l)%nat.
Proof.
  unfold arraySet. destruct (Nat.ltb_spec i (length l)) as [Hlt | Hge];
    intros Heq; inversion Heq.
  split; [reflexivity | assumption].
Qed.

Lemma nth_replicate_zero {A : Type} (n k : nat) (x : A) : nth k (replicate n x) x = x.
Proof.
  rewrite nth_lookup. destruct (replicate n x !! k) eqn:E; [| reflexivity].
  apply lookup_replicate in E. destruct E as [-> _]. reflexivity.
Qed.

Lemma nth_app_replicate_zero {A : Type} (l : list A) (n k : nat) (x : A) :
  nth k (l ++ replicate n x) x = nth k l x.
Proof.
  destruct (Nat.lt_ge_cases k (length l)) as [Hlt | Hge].
  - apply app_nth1. exact Hlt.
  - rewrite app_nth2 by lia. rewrite nth_replicate_zero.
    symmetry. apply nth_overflow. lia.
Qed.

(** Allocation never changes what is read at any key index of any option:
    the cells it adds are zero, as is the value read where nothing is
    allocated. *)
Lemma parseOptionIdxValue_at (rules : ParseRules) (optionList optionList' : list ParseOption)
    (optionId optionKeyIdx : nat) :
  parseOptionIdxValue rules optionList optionId optionKeyIdx = Ok optionList' ->
  forall id k, parseOptionValueAt optionList' id k = parseOptionValueAt optionList id k.
Proof.
  unfold parseOptionIdxValue. intros H id k.
  destruct (optionList !! optionId) as [po |] eqn:Hpo; [| discriminate].
  assert (Hother : forall po', id <> optionId ->
            parseOptionValueAt (<[optionId := po']> optionList) id k =
            parseOptionValueAt optionList id k).
  { intros po' Hne. unfold parseOptionValueAt.
    rewrite list_lookup_insert_ne by congruence. reflexivity. }
  assert (Hsame : forall po',
            nth k (indexList po') ParseOptionValue_zero =
              nth k (indexList po) ParseOptionValue_zero ->
            parseOptionValueAt (<[optionId := po']> optionList) optionId k =
            parseOptionValueAt optionList optionId k).
  { intros po' Hnth. unfold parseOptionValueAt.
    rewrite list_lookup_insert_eq by (eapply lookup_lt_Some; eassumption).
    rewrite Hpo. exact Hnth. }
  destruct (indexListTotal po <=? optionKeyIdx)%nat eqn:Hle;
    [| inversion H; subst; reflexivity].
  destruct (optGroup (ruleOption rules optionId)).
  - destruct (Nat.eqb_spec (indexListTotal po) 0) as [Hzero | Hnz]; inversion H; subst.
    + destruct (Nat.eq_dec id optionId) as [-> | Hne]; [| apply Hother; exact Hne].
      apply Hsame. cbn [indexList]. rewrite nth_replicate_zero.
      unfold indexListTotal in Hzero. apply nil_length_inv in Hzero. rewrite Hzero.
      destruct k; reflexivity.
    + destruct (Nat.eq_dec id optionId) as [-> | Hne]; [| apply Hother; exact Hne].
      apply Hsame. cbn [indexList]. apply nth_app_replicate_zero.
  - destruct (optionKeyIdx =? 0)%nat eqn:Hk; inversion H; subst.
    destruct (Nat.eq_dec id optionId) as [-> | Hne]; [| apply Hother; exact Hne].
    apply Hsame. cbn [indexList].
    apply Nat.eqb_eq in Hk. subst optionKeyIdx. apply Nat.leb_le in Hle.
    unfold indexListTotal in Hle. assert (Hnil : indexList po = []).
    { apply nil_length_inv. lia. }
    rewrite Hnil. destruct k as [| [| k]]; reflexivity.
Qed.

(** After the allocation the key index is inside the array. *)
Lemma parseOptionIdxValue_allocated (rules : ParseRules)
    (optionList optionList' : list ParseOption) (optionId optionKeyIdx : nat) :
  parseOptionIdxValue rules optionList optionId optionKeyIdx = Ok optionList' ->
  exists po, optionList' !! optionId = Some po /\ (optionKeyIdx < indexListTotal po)%nat.
Proof.
  unfold parseOptionIdxValue. intros H.
  set (half := (LIST_INITIAL_SIZE rules / 2)%nat) in *.
  destruct (optionList !! optionId) as [po |] eqn:Hpo; [| discriminate].
  pose proof (lookup_lt_Some _ _ _ Hpo) as Hlen.
  destruct (Nat.leb_spec (indexListTotal po) optionKeyIdx) as [Hle | Hgt];
    [| injection H as <-; eauto].
  destruct (optGroup (ruleOption rules optionId)).
  - destruct (Nat.eqb_spec (indexListTotal po) 0) as [Hzero | Hnz]; injection H as <-;
      rewrite list_lookup_insert_eq by assumption; eexists; (split; [reflexivity |]);
      unfold indexListTotal; cbn [indexList].
    + rewrite length_replicate.
      destruct (Nat.leb_spec half optionKeyIdx); lia.
    + rewrite length_app, length_replicate. unfold indexListTotal in Hle. lia.
  - destruct (Nat.eqb_spec optionKeyIdx 0) as [-> | Hk]; [| discriminate].
    injection H as <-.
    rewrite list_lookup_insert_eq by assumption. eexists; split; [reflexivity |].
    unfold indexListTotal. simpl. lia.
Qed.

(** Allocation touches the entry of its own option only. *)
Lemma parseOptionIdxValue_other (rules : ParseRules) (optionList optionList' : list ParseOption)
    (optionId optionKeyIdx : nat) :
  parseOptionIdxValue rules optionList optionId optionKeyIdx = Ok optionList' ->
  forall id, id <> optionId -> optionList' !! id = optionList !! id.
Proof.
  unfold parseOptionIdxValue. intros H id Hne.
  destruct (optionList !! optionId) as [po |]; [| discriminate].
  destruct (indexListTotal po <=? optionKeyIdx)%nat; [| inversion H; subst; reflexivity].
  destruct (optGroup (ruleOption rules optionId)).
  - destruct (indexListTotal po =? 0)%nat; inversion H; subst;
      apply list_lookup_insert_ne; congruence.
  - destruct (optionKeyIdx =? 0)%nat; inversion H; subst.
    apply list_lookup_insert_ne; congruence.
Qed.

Lemma parseOptionValueSet_other (optionList : list ParseOption) (optionId optionKeyIdx : nat)
    (value : ParseOptionValue) (id : nat) :
  id <> optionId -> parseOptionValueSet optionList optionId optionKeyIdx value !! id = optionList !! id.
Proof.
  intros Hne. unfold parseOptionValueSet.
  destruct (optionList !! optionId); [| reflexivity].
  apply list_lookup_insert_ne. congruence.
Qed.

Lemma parseOptionValueSet_at_same (optionList : list ParseOption) (optionId optionKeyIdx : nat)
    (value : ParseOptionValue) (po : ParseOption) :
  optionList !! optionId = Some po -> (optionKeyIdx < indexListTotal po)%nat ->
  parseOptionValueAt (parseOptionValueSet optionList optionId optionKeyIdx value)
    optionId optionKeyIdx = value.
Proof.
  intros Hpo Hlt. unfold parseOptionValueAt, parseOptionValueSet. rewrite Hpo.
  rewrite list_lookup_insert_eq by (eapply lookup_lt_Some; eassumption).
  cbn [indexList]. rewrite nth_lookup, list_lookup_insert_eq by exact Hlt. reflexivity.
Qed.

Lemma parseOptionValueSet_at_other (optionList : list ParseOption) (optionId optionKeyIdx : nat)
    (value : ParseOptionValue) (id k : nat) :
  (id, k) <> (optionId, optionKeyIdx) ->
  parseOptionValueAt (parseOptionValueSet optionList optionId optionKeyIdx value) id k =
    parseOptionValueAt optionList id k.
Proof.
  intros Hne. unfold parseOptionValueAt, parseOptionValueSet.
  destruct (optionList !! optionId) as [po |] eqn:Hpo; [| reflexivity].
  destruct (Nat.eq_dec id optionId) as [-> | Hid].
  - rewrite list_lookup_insert_eq by (eapply lookup_lt_Some; eassumption).
    rewrite Hpo. cbn [indexList]. rewrite !nth_lookup.
    rewrite list_lookup_insert_ne by congruence. reflexivity.
  - rewrite list_lookup_insert_ne by congruence. reflexivity.
Qed.

Lemma keepsFound_refl (optionList : list ParseOption) : keepsFound optionList optionList.
Proof. intros id k _. reflexivity. Qed.

Lemma keepsFound_trans (a b c : list ParseOption) :
  keepsFound a b -> keepsFound b c -> keepsFound a c.
Proof.
  intros Hab Hbc id k Hfound. rewrite Hbc; [apply Hab; exact Hfound |].
  rewrite Hab; assumption.
Qed.

(** Storing at a key index that was not found keeps every found value. *)
Lemma keepsFound_store (rules : ParseRules) (optionList optionList' : list ParseOption)
    (optionId optionKeyIdx : nat) (value : ParseOptionValue) :
  parseOptionIdxValue rules optionList optionId optionKeyIdx = Ok optionList' ->
  povFound (parseOptionValueAt optionList' optionId optionKeyIdx) = false ->
  keepsFound optionList (parseOptionValueSet optionList' optionId optionKeyIdx value).
Proof.
  intros Halloc Hnot id k Hfound.
  pose proof (parseOptionIdxValue_at _ _ _ _ _ Halloc) as Hat.
  rewrite parseOptionValueSet_at_other; [apply Hat |].
  intros Heq. inversion Heq; subst. rewrite Hat in Hnot. congruence.
Qed.

Lemma keepsFound_alloc (rules : ParseRules) (optionList optionList' : list ParseOption)
    (optionId optionKeyIdx : nat) :
  parseOptionIdxValue rules optionList optionId optionKeyIdx = Ok optionList' ->
  keepsFound optionList optionList'.
Proof. intros Halloc id k _. eapply parseOptionIdxValue_at; eassumption. Qed.

(** ** The frame of the phases *)

(** Split the outcome of a step on its leading test, binding or match. *)
Ltac case_head H :=
  match type of H with
  | Ok _ = Ok _ => injection H as <-
  | Ok _ = Ok _ => injection H as ? ?; subst
  | Throw _ _ = Ok _ => discriminate H
  | (ASSERT ?c ;; _) = Ok _ => destruct c eqn:?
  | (if ?c then _ else _) = Ok _ => destruct c eqn:?
  | bind ?r _ = Ok _ => destruct r eqn:?; cbn [bind] in H
  | (match ?x with _ => _ end) = Ok _ => destruct x eqn:?
  end.

Ltac solve_keeps :=
  first
    [ apply keepsFound_refl
    | eapply keepsFound_alloc; eassumption
    | eapply keepsFound_store; eassumption ].

(** Phase 2 keeps every value already found: the environment never
    overrides the command line (nor an earlier environment entry). *)
Lemma parseEnv_keepsFound (rules : ParseRules) (config : Config) (keyValue : string)
    (optionList optionList' : list ParseOption) :
  parseEnv rules config keyValue optionList = Ok optionList' ->
  keepsFound optionList optionList'.
Proof.
  unfold parseEnv. cbv zeta. intros H.
  repeat case_head H; solve_keeps.
Qed.

Lemma configParseEnv_keepsFound (rules : ParseRules) (config : Config) (environ : list string)
    (optionList optionList' : list ParseOption) :
  configParseEnv rules config environ optionList = Ok optionList' ->
  keepsFound optionList optionList'.
Proof.
  unfold configParseEnv.
  apply (foldResult_preserves keepsFound);
    [apply keepsFound_refl | apply keepsFound_trans |].
  intros keyValue s s'. apply parseEnv_keepsFound.
Qed.

(** Phase 3 keeps every value already found: a key of a section never
    overrides the command line, the environment or an earlier section. *)
Lemma parseConfigKey_keepsFound (rules : ParseRules) (config : Config) (ini : Ini)
    (section : string) (sectionIdx : nat) (key : string)
    (state state' : list (nat * string) * list ParseOption) :
  parseConfigKey rules config ini section sectionIdx key state = Ok state' ->
  keepsFound (snd state) (snd state').
Proof.
  unfold parseConfigKey, throwOption. destruct state as [optionFound optionList].
  cbv zeta. intros H.
  repeat case_head H; cbn [snd]; solve_keeps.
Qed.

Lemma parseConfigSection_keepsFound (rules : ParseRules) (config : Config) (ini : Ini)
    (sectionAt : nat * string) (optionList optionList' : list ParseOption) :
  parseConfigSection rules config ini sectionAt optionList = Ok optionList' ->
  keepsFound optionList optionList'.
Proof.
  unfold parseConfigSection. destruct sectionAt as [sectionIdx section]. intros H.
  bind_inv H. injection H as <-.
  change optionList with (snd (@nil (nat * string), optionList)).
  revert Ha.
  apply (foldResult_preserves (fun s s' => keepsFound (snd s) (snd s'))).
  - intros s. apply keepsFound_refl.
  - intros s1 s2 s3. apply keepsFound_trans.
  - intros key s s'. apply parseConfigKey_keepsFound.
Qed.

Lemma configParseIni_keepsFound (rules : ParseRules) (ext : Collaborators) (config : Config)
    (ini : Ini) (optionList optionList' : list ParseOption) :
  configParseIni rules ext config ini optionList = Ok optionList' ->
  keepsFound optionList optionList'.
Proof.
  unfold configParseIni. intros H. bind_inv H. revert H.
  apply (foldResult_preserves keepsFound);
    [apply keepsFound_refl | apply keepsFound_trans |].
  intros sectionAt s s'. apply parseConfigSection_keepsFound.
Qed.

Lemma configParseFile_keepsFound (rules : ParseRules) (ext : Collaborators) (config : Config)
    (optionList optionList' : list ParseOption) :
  configParseFile rules ext config optionList = Ok optionList' ->
  keepsFound optionList optionList'.
Proof.
  unfold configParseFile. intros H. repeat bind_inv H.
  destruct a1 as [configString |].
  - bind_inv H. eapply configParseIni_keepsFound; eassumption.
  - injection H as <-. apply keepsFound_refl.
Qed.

(** ** Phase 1 records the command line as [cfgSourceParam] *)

Lemma keepsSource_refl (optionList : list ParseOption) : keepsSource optionList optionList.
Proof. intros id k H. split; [exact H | reflexivity]. Qed.

Lemma keepsSource_trans (a b c : list ParseOption) :
  keepsSource a b -> keepsSource b c -> keepsSource a c.
Proof.
  intros Hab Hbc id k Hfound. destruct (Hab id k Hfound) as [Hf Hs].
  destruct (Hbc id k Hf) as [Hf' Hs']. split; [exact Hf' | congruence].
Qed.

Lemma parseOptionValueAt_replicate_zero (n id k : nat) :
  parseOptionValueAt (replicate n ParseOption_zero) id k = ParseOptionValue_zero.
Proof.
  unfold parseOptionValueAt. destruct (replicate n ParseOption_zero !! id) eqn:E; [| reflexivity].
  apply lookup_replicate in E. destruct E as [-> _]. simpl. destruct k; reflexivity.
Qed.

Lemma allParam_initial (n : nat) : allParam (replicate n ParseOption_zero).
Proof. intros id k H. rewrite parseOptionValueAt_replicate_zero in H. discriminate H. Qed.

(** The option case of the loop: the option it names is found afterwards,
    and nothing found before loses its mark or changes its source. *)
Lemma parseArgOption_records (rules : ParseRules) (g : GetoptResult)
    (optionList optionList' : list ParseOption) :
  parseArgOption rules g optionList = Ok optionList' ->
  let opt := cfgParseOptionInfo (optionValue g) in
  keepsSource optionList optionList' /\
  povFound (parseOptionValueAt optionList' (resId opt) (resKeyIdx opt)) = true /\
  (allParam optionList -> allParam optionList').
Proof.
  unfold parseArgOption, throwOption. cbv zeta. intros H.
  set (id := resId (cfgParseOptionInfo (optionValue g))) in *.
  set (k := resKeyIdx (cfgParseOptionInfo (optionValue g))) in *.
  destruct (id <? CFG_OPTION_TOTAL rules)%nat; [| discriminate].
  destruct (cfgParseOptionSecure rules id) as [secure |]; cbn [bind] in H; [| discriminate].
  destruct secure.
  { destruct (cfgParseOptionKeyIdxName rules id k); discriminate. }
  destruct (parseOptionIdxValue rules optionList id k) as [allocated |] eqn:Halloc;
    cbn [bind] in H; [| discriminate].
  pose proof (parseOptionIdxValue_at _ _ _ _ _ Halloc) as Hat.
  destruct (parseOptionIdxValue_allocated _ _ _ _ _ Halloc) as (po & Hpo & Hlt).
  assert (Hstore : forall value,
            povFound value = true ->
            (povFound (parseOptionValueAt optionList id k) = true ->
             povSource value = povSource (parseOptionValueAt optionList id k)) ->
            povSource value = cfgSourceParam \/
              povSource value = povSource (parseOptionValueAt optionList id k) /\
              povFound (parseOptionValueAt optionList id k) = true ->
            keepsSource optionList (parseOptionValueSet allocated id k value) /\
            povFound (parseOptionValueAt (parseOptionValueSet allocated id k value) id k)
              = true /\
            (allParam optionList -> allParam (parseOptionValueSet allocated id k value))).
  { intros value Hfound Hsame Hsource.
    assert (Hread : parseOptionValueAt (parseOptionValueSet allocated id k value) id k = value)
      by (eapply parseOptionValueSet_at_same; eassumption).
    repeat split.
    - destruct (decide ((id0, k0) = (id, k))) as [Heq | Hne].
      + injection Heq as -> ->. rewrite Hread. exact Hfound.
      + rewrite parseOptionValueSet_at_other by exact Hne. rewrite Hat. exact H0.
    - destruct (decide ((id0, k0) = (id, k))) as [Heq | Hne].
      + injection Heq as -> ->. rewrite Hread. apply Hsame. exact H0.
      + rewrite parseOptionValueSet_at_other by exact Hne. rewrite Hat. reflexivity.
    - rewrite Hread. exact Hfound.
    - intros Hall id' k' Hf.
      destruct (decide ((id', k') = (id, k))) as [Heq | Hne].
      + injection Heq as -> ->. rewrite Hread.
        destruct Hsource as [Hp | [Hs Hfo]]; [exact Hp |].
        rewrite Hs. apply Hall. exact Hfo.
      + rewrite parseOptionValueSet_at_other in Hf |- * by exact Hne.
        rewrite Hat in Hf |- *. apply Hall. exact Hf. }
  destruct (povFound (parseOptionValueAt allocated id k)) eqn:Hfound; cbn [negb] in H.
  - repeat case_head H.
    apply Hstore; cbn [povFound povSource].
    + reflexivity.
    + intros _. rewrite Hat. reflexivity.
    + right. rewrite <- Hat. split; [reflexivity | exact Hfound].
  - injection H as <-. apply Hstore; cbn [povFound povSource].
    + reflexivity.
    + intros Hf. rewrite <- Hat in Hf. congruence.
    + left. reflexivity.
Qed.

Lemma parseArg_records (rules : ParseRules) (ext : Collaborators) (g : GetoptResult)
    (st st' : ParseState) :
  parseArg rules ext g st = Ok st' ->
  keepsSource (psParseOptionList st) (psParseOptionList st') /\
  (allParam (psParseOptionList st) -> allParam (psParseOptionList st')) /\
  (getoptIsOption g = true ->
   let opt := cfgParseOptionInfo (optionValue g) in
   povFound (parseOptionValueAt (psParseOptionList st') (resId opt) (resKeyIdx opt)) = true).
Proof.
  unfold parseArg, getoptIsOption. intros H. bind_inv H. injection H as <-. cbn [psParseOptionList].
  destruct (optionValue g =? 1) eqn:H1.
  { assert (Hsame : psParseOptionList a = psParseOptionList st).
    { unfold parseArgCommand in Ha. repeat case_head Ha; reflexivity. }
    rewrite Hsame. split; [apply keepsSource_refl |]. split; [tauto | discriminate]. }
  destruct (optionValue g =? 63) eqn:H63; [discriminate |].
  destruct (optionValue g =? 58) eqn:H58; [discriminate |].
  bind_inv Ha. injection Ha as <-. cbn [psParseOptionList].
  destruct (parseArgOption_records _ _ _ _ Ha0) as (Hkeep & Hfound & Hall).
  split; [exact Hkeep |]. split; [exact Hall |]. intros _. exact Hfound.
Qed.

(** After phase 1 every option [getopt_long] returned is found, and every
    found value has the source [cfgSourceParam]. *)
Lemma configParseArgs_records (rules : ParseRules) (ext : Collaborators) (exe : string)
    (args : list GetoptResult) (config : Config) (optionList : list ParseOption) :
  configParseArgs rules ext exe args = Ok (config, optionList) ->
  allParam optionList /\
  forall g, In g args -> getoptIsOption g = true ->
    povFound (parseOptionValueAt optionList (resId (cfgParseOptionInfo (optionValue g)))
                (resKeyIdx (cfgParseOptionInfo (optionValue g)))) = true.
Proof.
  unfold configParseArgs. intros H. bind_inv H.
  assert (Hlist : optionList = psParseOptionList a) by (repeat case_head H; congruence).
  subst optionList. clear H.
  set (init := {| psConfig := configNew rules exe;
                  psParseOptionList := replicate (CFG_OPTION_TOTAL rules) ParseOption_zero;
                  psCommandSet := false; psArgFound := false |}) in *.
  assert (Hinit : allParam (psParseOptionList init)) by apply allParam_initial.
  assert (Hgen : forall l s s', foldResult (parseArg rules ext) l s = Ok s' ->
            keepsSource (psParseOptionList s) (psParseOptionList s') /\
            (allParam (psParseOptionList s) -> allParam (psParseOptionList s'))).
  { induction l as [| g l IH]; intros s s' Hf.
    - injection Hf as <-. split; [apply keepsSource_refl | tauto].
    - simpl in Hf. bind_inv Hf. destruct (parseArg_records _ _ _ _ _ Ha0) as (Hk & Hp & _).
      destruct (IH _ _ Hf) as (Hk' & Hp').
      split; [eapply keepsSource_trans; eassumption | tauto]. }
  split; [apply (Hgen _ _ _ Ha); exact Hinit |].
  intros g Hin Hopt. apply in_split in Hin. destruct Hin as (l1 & l2 & ->).
  rewrite foldResult_app in Ha. bind_inv Ha. simpl in Ha. bind_inv Ha.
  destruct (parseArg_records _ _ _ _ _ Ha1) as (_ & _ & Hfound).
  destruct (Hgen _ _ _ Ha) as (Hk & _). apply Hk. apply Hfound. exact Hopt.
Qed.

(** C1: for every option the command line supplied, the value recorded
    after phase 1 is found with source [param], and it is the value recorded
    after the environment and the configuration file have been merged, whatever
    they supply; nor is any value found after the environment phase overwritten
    by a configuration-file section. *)
Theorem configParse_param_wins (rules : ParseRules) (ext : Collaborators) (exe : string)
    (args : list GetoptResult) (environ : list string) (config : Config)
    (afterArgs afterEnv afterFile : list ParseOption) (g : GetoptResult) :
  configParseArgs rules ext exe args = Ok (config, afterArgs) ->
  configParseEnv rules config environ afterArgs = Ok afterEnv ->
  configParseFile rules ext config afterEnv = Ok afterFile ->
  In g args -> getoptIsOption g = true ->
  let id := resId (cfgParseOptionInfo (optionValue g)) in
  let k := resKeyIdx (cfgParseOptionInfo (optionValue g)) in
  povFound (parseOptionValueAt afterFile id k) = true /\
  povSource (parseOptionValueAt afterFile id k) = cfgSourceParam /\
  parseOptionValueAt afterEnv id k = parseOptionValueAt afterArgs id k /\
  parseOptionValueAt afterFile id k = parseOptionValueAt afterArgs id k /\
  (forall id' k', povFound (parseOptionValueAt afterEnv id' k') = true ->
     parseOptionValueAt afterFile id' k' = parseOptionValueAt afterEnv id' k').
Proof.
  intros Hargs Henv Hfile Hin Hopt id k.
  destruct (configParseArgs_records _ _ _ _ _ _ Hargs) as (Hall & Hfound).
  specialize (Hfound g Hin Hopt). fold id k in Hfound.
  pose proof (configParseEnv_keepsFound _ _ _ _ _ Henv) as Hkeep1.
  pose proof (configParseFile_keepsFound _ _ _ _ _ Hfile) as Hkeep2.
  assert (H1 : parseOptionValueAt afterEnv id k = parseOptionValueAt afterArgs id k)
    by (apply Hkeep1; exact Hfound).
  assert (H2 : parseOptionValueAt afterFile id k = parseOptionValueAt afterArgs id k).
  { rewrite <- H1. apply Hkeep2. rewrite H1. exact Hfound. }
  rewrite H2. repeat split; try assumption.
  - apply Hall. exact Hfound.
Qed.

Lemma configParse_param_wins_witness :
  exists config afterArgs afterEnv afterFile,
    configParseArgs Demo.rules (Demo.ext Demo.mainFile []) "pgbackrest" Demo.precedenceArgs =
      Ok (config, afterArgs) /\
    configParseEnv Demo.rules config Demo.precedenceEnviron afterArgs = Ok afterEnv /\
    configParseFile Demo.rules (Demo.ext Demo.mainFile []) config afterEnv = Ok afterFile /\
    povFound (parseOptionValueAt afterFile Demo.optBufferSize 0) = true /\
    povSource (parseOptionValueAt afterFile Demo.optBufferSize 0) = cfgSourceParam /\
    parseOptionValueAt afterEnv Demo.optBufferSize 0 =
      parseOptionValueAt afterArgs Demo.optBufferSize 0 /\
    parseOptionValueAt afterFile Demo.optBufferSize 0 =
      parseOptionValueAt afterArgs Demo.optBufferSize 0 /\
    (forall id' k', povFound (parseOptionValueAt afterEnv id' k') = true ->
       parseOptionValueAt afterFile id' k' = parseOptionValueAt afterEnv id' k').
Proof.
  eexists _, _, _, _.
  split; [lazy; reflexivity |]. split; [lazy; reflexivity |]. split; [lazy; reflexivity |].
  eapply (configParse_param_wins Demo.rules (Demo.ext Demo.mainFile []) "pgbackrest"
            Demo.precedenceArgs Demo.precedenceEnviron _ _ _ _
            (Demo.arg "buffer-size" "64kb")).
  - lazy. reflexivity.
  - lazy. reflexivity.
  - lazy. reflexivity.
  - right. left. reflexivity.
  - reflexivity.
Defined.

(** ** Command-line-only options *)

Lemma parseConfigKey_commandLine (rules : ParseRules) (config : Config) (ini : Ini)
    (section : string) (sectionIdx : nat) (key : string)
    (state state' : list (nat * string) * list ParseOption) (optionId : nat) :
  optSection (ruleOption rules optionId) = cfgSectionCommandLine ->
  parseConfigKey rules config ini section sectionIdx key state = Ok state' ->
  snd state' !! optionId = snd state !! optionId.
Proof.
  intros Hsection. unfold parseConfigKey, throwOption.
  destruct state as [optionFound optionList]. cbv zeta. intros H.
  destruct (resFound (cfgParseOption rules key)); cbn [negb] in H;
    [| injection H as <-; reflexivity].
  destruct (resNegate (cfgParseOption rules key)); [injection H as <-; reflexivity |].
  destruct (resReset (cfgParseOption rules key)); [injection H as <-; reflexivity |].
  destruct (optSection (ruleOption rules (resId (cfgParseOption rules key)))) eqn:Hkey;
    [injection H as <-; reflexivity | |].
  all: assert (Hne : optionId <> resId (cfgParseOption rules key)) by congruence.
  all: repeat case_head H; cbn [snd]; try reflexivity.
  all: try (rewrite parseOptionValueSet_other by exact Hne).
  all: eapply parseOptionIdxValue_other; eassumption.
Qed.

Lemma configParseIni_commandLine (rules : ParseRules) (ext : Collaborators) (config : Config)
    (ini : Ini) (optionList optionList' : list ParseOption) (optionId : nat) :
  optSection (ruleOption rules optionId) = cfgSectionCommandLine ->
  configParseIni rules ext config ini optionList = Ok optionList' ->
  optionList' !! optionId = optionList !! optionId.
Proof.
  intros Hsection. unfold configParseIni. intros H. bind_inv H. revert H.
  apply (foldResult_preserves (fun s s' : list ParseOption => s' !! optionId = s !! optionId));
    [reflexivity | intros; congruence |].
  intros [sectionIdx section] s s' Hs. unfold parseConfigSection in Hs.
  bind_inv Hs. injection Hs as <-.
  change (s !! optionId) with (snd (@nil (nat * string), s) !! optionId).
  revert Ha0.
  apply (foldResult_preserves
           (fun t t' : list (nat * string) * list ParseOption =>
              snd t' !! optionId = snd t !! optionId));
    [reflexivity | intros; congruence |].
  intros key t t'. apply parseConfigKey_commandLine. exact Hsection.
Qed.

(** C2 (as amended): an option whose rule section is command-line-only
    never takes effect from a configuration file: whatever the sections hold,
    phase 3 leaves the parsed values of the option exactly as they were. *)
Theorem configParseFile_skips_command_line_only (rules : ParseRules) (ext : Collaborators)
    (config : Config) (optionList optionList' : list ParseOption) (optionId : nat) :
  optSection (ruleOption rules optionId) = cfgSectionCommandLine ->
  configParseFile rules ext config optionList = Ok optionList' ->
  optionList' !! optionId = optionList !! optionId.
Proof.
  intros Hsection. unfold configParseFile. intros H. repeat bind_inv H.
  destruct a1 as [configString |].
  - bind_inv H. eapply configParseIni_commandLine; eassumption.
  - injection H as <-. reflexivity.
Qed.

(** The [demo] section of the file holds a [stanza] key; the stanza parsed
    from the command line stays as it was. *)
Lemma configParseFile_skips_command_line_only_witness :
  exists config afterArgs afterFile,
    configParseArgs Demo.rules (Demo.ext Demo.mainFile []) "pgbackrest" Demo.precedenceArgs =
      Ok (config, afterArgs) /\
    configParseFile Demo.rules (Demo.ext Demo.mainFile []) config afterArgs = Ok afterFile /\
    afterFile !! Demo.optStanza = afterArgs !! Demo.optStanza.
Proof.
  destruct (configParseArgs Demo.rules (Demo.ext Demo.mainFile []) "pgbackrest"
              Demo.precedenceArgs) as [[config afterArgs] | e msg] eqn:Hargs;
    [| vm_compute in Hargs; discriminate Hargs].
  destruct (configParseFile Demo.rules (Demo.ext Demo.mainFile []) config afterArgs)
    as [afterFile | e msg] eqn:Hfile.
  - exists config, afterArgs, afterFile.
    split; [reflexivity |]. split; [exact Hfile |].
    apply (configParseFile_skips_command_line_only Demo.rules (Demo.ext Demo.mainFile [])
             config afterArgs afterFile Demo.optStanza).
    + reflexivity.
    + exact Hfile.
  - exfalso. vm_compute in Hargs. injection Hargs as <- <-.
    vm_compute in Hfile. discriminate Hfile.
Defined.

(** C2 as stated fails for the environment: phase 2 has no section test, so
    the command-line-only option [stanza] set through [PGBACKREST_STANZA] is
    stored and reaches the configuration. *)
Lemma configParse_command_line_only_from_environment :
  optSection (ruleOption Demo.rules Demo.optStanza) = cfgSectionCommandLine /\
  Demo.optionValueOf
    (configParse Demo.rules (Demo.ext [] []) "pgbackrest" [Demo.positional "backup"]
       ["PGBACKREST_STANZA=demo"; "PGBACKREST_PG1_PATH=/db"]%string)
    Demo.optStanza 0 = Some (cfgSourceConfig, Some (VarStr "demo")).
Proof. split; vm_compute; reflexivity. Qed.

(** ** Environment entries with an empty value *)

(** C9: for an environment entry with the prefix and an empty value, the
    [OptionInvalidValueError] is thrown exactly when the derived name resolves to
    a known option that is not a negate or reset alias and is valid for the
    current command and role; an entry that is unknown, a negate or reset alias,
    or not valid is skipped: the parse option list is returned unchanged. *)
Theorem parseEnv_empty_value (rules : ParseRules) (config : Config) (keyValue : string)
    (equalPos : nat) (optionList : list ParseOption) :
  strBeginsWith keyValue PGBACKREST_ENV = true ->
  strChr keyValue "=" = Some equalPos ->
  strSize (envValue keyValue equalPos) = 0%nat ->
  let key := envKey keyValue equalPos in
  let opt := cfgParseOption rules key in
  let valid := cfgParseOptionValid rules (cfgCommand config) (cfgCommandRole config) (resId opt) in
  (resFound opt = true /\ resNegate opt = false /\ resReset opt = false /\ valid = Ok true ->
   parseEnv rules config keyValue optionList =
     Throw OptionInvalidValueError ("environment variable '" +:+ key +:+ "' must have a value")) /\
  (isThrow OptionInvalidValueError (parseEnv rules config keyValue optionList) ->
   resFound opt = true /\ resNegate opt = false /\ resReset opt = false /\ valid = Ok true) /\
  (resFound opt = false \/ resNegate opt = true \/ resReset opt = true \/ valid = Ok false ->
   parseEnv rules config keyValue optionList = Ok optionList).
Proof.
  intros Hprefix Hequal Hempty key opt valid.
  unfold parseEnv, isThrow. rewrite Hprefix, Hequal. cbv zeta. fold key. fold opt. fold valid.
  rewrite Hempty. cbn [Nat.eqb].
  assert (Hvalid : forall msg, valid <> Throw OptionInvalidValueError msg).
  { intros msg. unfold valid, cfgParseOptionValid.
    destruct (_ <? CFG_COMMAND_TOTAL rules)%nat; [| discriminate].
    destruct (_ <? CFG_OPTION_TOTAL rules)%nat; discriminate. }
  destruct (resFound opt), (resNegate opt), (resReset opt); cbn [negb];
    try destruct valid as [[|] | e msg]; cbn [bind negb];
    (split; [| split]).
  all: try (intros (Hf & Hn & Hr & Hv); first [reflexivity | congruence]).
  all: try (intros [msg' Hmsg];
            first [ discriminate Hmsg
                  | exfalso; injection Hmsg as He Hm; subst; eapply Hvalid; reflexivity
                  | repeat split; reflexivity ]).
  all: intros [Hs | [Hs | [Hs | Hs]]]; first [reflexivity | congruence].
Qed.

(** [PGBACKREST_STANZA=] names a valid option; [stanza] is position 17
    of the entry. *)
Lemma parseEnv_empty_value_witness :
  let keyValue := "PGBACKREST_STANZA="%string in
  let optionList := replicate (CFG_OPTION_TOTAL Demo.rules) ParseOption_zero in
  let opt := cfgParseOption Demo.rules (envKey keyValue 17) in
  let valid := cfgParseOptionValid Demo.rules (cfgCommand Demo.backupConfig)
                 (cfgCommandRole Demo.backupConfig) (resId opt) in
  (resFound opt = true /\ resNegate opt = false /\ resReset opt = false /\ valid = Ok true ->
   parseEnv Demo.rules Demo.backupConfig keyValue optionList =
     Throw OptionInvalidValueError
       ("environment variable '" +:+ envKey keyValue 17 +:+ "' must have a value")) /\
  (isThrow OptionInvalidValueError (parseEnv Demo.rules Demo.backupConfig keyValue optionList) ->
   resFound opt = true /\ resNegate opt = false /\ resReset opt = false /\ valid = Ok true) /\
  (resFound opt = false \/ resNegate opt = true \/ resReset opt = true \/ valid = Ok false ->
   parseEnv Demo.rules Demo.backupConfig keyValue optionList = Ok optionList).
Proof.
  apply (parseEnv_empty_value Demo.rules Demo.backupConfig "PGBACKREST_STANZA="%string 17
           (replicate (CFG_OPTION_TOTAL Demo.rules) ParseOption_zero)).
  - reflexivity.
  - reflexivity.
  - reflexivity.
Defined.

(** The entry above is the hard error; an empty negate alias is skipped. *)
Example parseEnv_empty_value_examples :
  parseEnv Demo.rules Demo.backupConfig "PGBACKREST_STANZA="
    (replicate (CFG_OPTION_TOTAL Demo.rules) ParseOption_zero) =
    Throw OptionInvalidValueError "environment variable 'stanza' must have a value" /\
  parseEnv Demo.rules Demo.backupConfig "PGBACKREST_NO_COMPRESS="
    (replicate (CFG_OPTION_TOTAL Demo.rules) ParseOption_zero) =
    Ok (replicate (CFG_OPTION_TOTAL Demo.rules) ParseOption_zero) /\
  parseEnv Demo.rules Demo.backupConfig "PGBACKREST_UNKNOWN="
    (replicate (CFG_OPTION_TOTAL Demo.rules) ParseOption_zero) =
    Ok (replicate (CFG_OPTION_TOTAL Demo.rules) ParseOption_zero).
Proof. repeat split; vm_compute; reflexivity. Qed.

(** ** Section search order *)

Lemma mergesConfig_refl (optionList : list ParseOption) : mergesConfig optionList optionList.
Proof. split; [apply keepsFound_refl | intros id k H1 H2; congruence]. Qed.

Lemma mergesConfig_trans (a b c : list ParseOption) :
  mergesConfig a b -> mergesConfig b c -> mergesConfig a c.
Proof.
  intros [Hk1 Hs1] [Hk2 Hs2]. split; [eapply keepsFound_trans; eassumption |].
  intros id k Ha Hc.
  destruct (povFound (parseOptionValueAt b id k)) eqn:Hb.
  - rewrite (Hk2 id k Hb). apply Hs1; assumption.
  - apply Hs2; assumption.
Qed.

Lemma mergesConfig_alloc (rules : ParseRules) (optionList optionList' : list ParseOption)
    (optionId optionKeyIdx : nat) :
  parseOptionIdxValue rules optionList optionId optionKeyIdx = Ok optionList' ->
  mergesConfig optionList optionList'.
Proof.
  intros Halloc. split; [eapply keepsFound_alloc; eassumption |].
  intros id k H1 H2. rewrite (parseOptionIdxValue_at _ _ _ _ _ Halloc) in H2. congruence.
Qed.

Lemma mergesConfig_store (rules : ParseRules) (optionList optionList' : list ParseOption)
    (optionId optionKeyIdx : nat) (value : ParseOptionValue) :
  parseOptionIdxValue rules optionList optionId optionKeyIdx = Ok optionList' ->
  povFound (parseOptionValueAt optionList' optionId optionKeyIdx) = false ->
  povSource value = cfgSourceConfig ->
  mergesConfig optionList (parseOptionValueSet optionList' optionId optionKeyIdx value).
Proof.
  intros Halloc Hnot Hsource. split; [eapply keepsFound_store; eassumption |].
  intros id k H1 H2.
  pose proof (parseOptionIdxValue_at _ _ _ _ _ Halloc) as Hat.
  destruct (parseOptionIdxValue_allocated _ _ _ _ _ Halloc) as (po & Hpo & Hlt).
  destruct (decide ((id, k) = (optionId, optionKeyIdx))) as [Heq | Hne].
  - injection Heq as -> ->.
    rewrite (parseOptionValueSet_at_same _ _ _ _ _ Hpo Hlt). exact Hsource.
  - rewrite parseOptionValueSet_at_other in H2 by exact Hne. rewrite Hat in H2. congruence.
Qed.

Ltac solve_merges :=
  first
    [ apply mergesConfig_refl
    | eapply mergesConfig_alloc; eassumption
    | eapply mergesConfig_store; [eassumption | eassumption | reflexivity] ].

Lemma parseConfigKey_merges (rules : ParseRules) (config : Config) (ini : Ini)
    (section : string) (sectionIdx : nat) (key : string)
    (state state' : list (nat * string) * list ParseOption) :
  parseConfigKey rules config ini section sectionIdx key state = Ok state' ->
  mergesConfig (snd state) (snd state').
Proof.
  unfold parseConfigKey, throwOption. destruct state as [optionFound optionList].
  cbv zeta. intros H.
  repeat case_head H; cbn [snd]; solve_merges.
Qed.

Lemma parseConfigSection_merges (rules : ParseRules) (config : Config) (ini : Ini)
    (sectionAt : nat * string) (optionList optionList' : list ParseOption) :
  parseConfigSection rules config ini sectionAt optionList = Ok optionList' ->
  mergesConfig optionList optionList'.
Proof.
  unfold parseConfigSection. destruct sectionAt as [sectionIdx section]. intros H.
  bind_inv H. injection H as <-.
  change optionList with (snd (@nil (nat * string), optionList)).
  revert Ha.
  apply (foldResult_preserves (fun s s' => mergesConfig (snd s) (snd s'))).
  - intros s. apply mergesConfig_refl.
  - intros s1 s2 s3. apply mergesConfig_trans.
  - intros key s s'. apply parseConfigKey_merges.
Qed.

Lemma parseConfigSections_merges (rules : ParseRules) (config : Config) (ini : Ini)
    (sections : list (nat * string)) (optionList optionList' : list ParseOption) :
  foldResult (parseConfigSection rules config ini) sections optionList = Ok optionList' ->
  mergesConfig optionList optionList'.
Proof.
  apply (foldResult_preserves mergesConfig);
    [apply mergesConfig_refl | apply mergesConfig_trans |].
  intros sectionAt s s'. apply parseConfigSection_merges.
Qed.

(** A loop whose rounds each keep a relation keeps it, the rounds being
    those of the elements of the list. *)
Lemma foldResult_preserves_in {A S : Type} (R : S -> S -> Prop) (body : A -> S -> Result S)
    (l : list A) :
  (forall s, R s s) ->
  (forall s1 s2 s3, R s1 s2 -> R s2 s3 -> R s1 s3) ->
  (forall a s s', In a l -> body a s = Ok s' -> R s s') ->
  forall s s', foldResult body l s = Ok s' -> R s s'.
Proof.
  intros Hrefl Htrans. induction l as [| a l IH]; intros Hbody s s' H.
  - injection H as <-. apply Hrefl.
  - cbn [foldResult] in H. apply bind_Ok in H. destruct H as (s1 & Hs1 & H).
    eapply Htrans; [eapply Hbody; [left; reflexivity | exact Hs1] |].
    eapply IH; [| exact H]. intros b t t' Hb. apply Hbody. right. exact Hb.
Qed.

Ltac key_tests H Hprovides :=
  match type of H with
  | context [resFound ?opt] => destruct (resFound opt)
  end;
  cbn [negb andb] in H, Hprovides;
  [match type of H with
   | context [resNegate ?opt] => destruct (resNegate opt)
   end;
   cbn [negb andb] in H, Hprovides;
   [|
    match type of H with
    | context [resReset ?opt] => destruct (resReset opt)
    end;
    cbn [negb andb] in H, Hprovides;
    [|
     match type of H with
     | context [optSection ?rule] => destruct (optSection rule)
     end;
     cbn [negb andb] in H, Hprovides;
     (match type of H with
      | context [optionFoundGet ?found ?foundKey] =>
          destruct (optionFoundGet found foundKey); [discriminate H |]
      | _ => idtac
      end;
      try match type of H with
          | context [cfgParseOptionValid ?rules ?c ?r ?id] =>
              destruct (cfgParseOptionValid rules c r id) as [[|] | ? ?];
              cbn [bind negb andb] in H, Hprovides; [| | discriminate H]
          end;
      try match type of H with
          | context [strBeginsWith ?s ?prefix] =>
              destruct (strBeginsWith s prefix); cbn [negb andb] in H, Hprovides
          end)]] |].

(** A key that does not provide the option at a key index leaves what is
    read there. *)
Lemma parseConfigKey_not_provider (rules : ParseRules) (config : Config) (ini : Ini)
    (section : string) (sectionIdx : nat) (key : string)
    (state state' : list (nat * string) * list ParseOption) (id k : nat) :
  parseConfigKey rules config ini section sectionIdx key state = Ok state' ->
  keyProvides rules config section key id k = false ->
  parseOptionValueAt (snd state') id k = parseOptionValueAt (snd state) id k.
Proof.
  unfold parseConfigKey, throwOption, keyProvides, optionValidFor.
  destruct state as [optionFound optionList]. cbv zeta. intros H Hno.
  key_tests H Hno; try (injection H as <-; reflexivity);
    repeat case_head H; cbn [snd]; try reflexivity;
    try (eapply parseOptionIdxValue_at; eassumption);
    (rewrite parseOptionValueSet_at_other;
     [eapply parseOptionIdxValue_at; eassumption |
      intros Heq; injection Heq as Hid Hk; subst id k; rewrite !Nat.eqb_refl in Hno;
      discriminate Hno]).
Qed.

(** The first key that provides an option not found so far stores its
    value. *)
Lemma parseConfigKey_provider (rules : ParseRules) (config : Config) (ini : Ini)
    (section : string) (sectionIdx : nat) (key : string)
    (state state' : list (nat * string) * list ParseOption) (id k : nat) :
  parseConfigKey rules config ini section sectionIdx key state = Ok state' ->
  keyProvides rules config section key id k = true ->
  povFound (parseOptionValueAt (snd state) id k) = false ->
  sectionKeyValueSpec rules ini section key id (parseOptionValueAt (snd state) id k) =
    Some (parseOptionValueAt (snd state') id k).
Proof.
  unfold parseConfigKey, throwOption, keyProvides, optionValidFor.
  destruct state as [optionFound optionList]. cbv zeta. cbn [snd]. intros H Hyes Hnot.
  key_tests H Hyes; try discriminate Hyes;
    (apply andb_prop in Hyes; destruct Hyes as [Hid Hk];
     apply Nat.eqb_eq in Hid; apply Nat.eqb_eq in Hk; rewrite Hid, Hk in H;
     apply bind_Ok in H; destruct H as (allocated & Halloc & H);
     pose proof (parseOptionIdxValue_at _ _ _ _ _ Halloc id k) as Hat;
     destruct (parseOptionIdxValue_allocated _ _ _ _ _ Halloc) as (po & Hpo & Hlt);
     rewrite Hat, Hnot in H;
     unfold sectionKeyValueSpec, iniSectionKeyIsList, iniGetList, iniGet in *;
     destruct (iniValue ini section key) as [[value | values] |];
     cbn [bind negb] in H; try discriminate H;
     repeat case_head H; cbn [snd];
     rewrite ?(parseOptionValueSet_at_same _ _ _ _ _ Hpo Hlt);
     repeat match goal with
            | Hb : negb ?b = false |- _ => destruct b; [clear Hb | discriminate Hb]
            end;
     reflexivity).
Qed.

(** What a key stores is found. *)
Lemma sectionKeyValueSpec_found (rules : ParseRules) (ini : Ini) (section key : string)
    (optionId : nat) (previous value : ParseOptionValue) :
  sectionKeyValueSpec rules ini section key optionId previous = Some value ->
  povFound value = true.
Proof.
  unfold sectionKeyValueSpec. cbv zeta. intros H.
  repeat match type of H with
         | Some _ = Some _ => injection H as <-; reflexivity
         | None = Some _ => discriminate H
         | (if ?c then _ else _) = Some _ => destruct c
         | (match ?x with _ => _ end) = Some _ => destruct x
         end.
Qed.

(** A section none of whose keys provides the option at a key index leaves
    what is read there. *)
Lemma parseConfigSection_no_provider (rules : ParseRules) (config : Config) (ini : Ini)
    (sectionAt : nat * string) (optionList optionList' : list ParseOption) (id k : nat) :
  parseConfigSection rules config ini sectionAt optionList = Ok optionList' ->
  (forall key, In key (iniSectionKeyList ini (snd sectionAt)) ->
               keyProvides rules config (snd sectionAt) key id k = false) ->
  parseOptionValueAt optionList' id k = parseOptionValueAt optionList id k.
Proof.
  unfold parseConfigSection. destruct sectionAt as [sectionIdx section]. cbn [snd].
  intros H Hno. apply bind_Ok in H. destruct H as (state & Hfold & H). injection H as <-.
  change optionList with (snd (@nil (nat * string), optionList)).
  revert Hfold.
  apply (foldResult_preserves_in
           (fun s s' : list (nat * string) * list ParseOption =>
              parseOptionValueAt (snd s') id k = parseOptionValueAt (snd s) id k));
    [reflexivity | intros; congruence |].
  intros key s s' Hkey Hstep. eapply parseConfigKey_not_provider; [exact Hstep |].
  apply Hno. exact Hkey.
Qed.

(** The section of the first key that provides an option not found so far
    stores the value of that key. *)
Lemma parseConfigSection_first_provider (rules : ParseRules) (config : Config) (ini : Ini)
    (sectionIdx : nat) (section : string) (optionList optionList' : list ParseOption)
    (id k : nat) (keysBefore : list string) (key : string) (keysAfter : list string) :
  parseConfigSection rules config ini (sectionIdx, section) optionList = Ok optionList' ->
  iniSectionKeyList ini section = keysBefore ++ key :: keysAfter ->
  (forall earlier, In earlier keysBefore ->
                   keyProvides rules config section earlier id k = false) ->
  keyProvides rules config section key id k = true ->
  povFound (parseOptionValueAt optionList id k) = false ->
  sectionKeyValueSpec rules ini section key id (parseOptionValueAt optionList id k) =
    Some (parseOptionValueAt optionList' id k).
Proof.
  unfold parseConfigSection. intros H Hkeys Hno Hyes Hnot.
  apply bind_Ok in H. destruct H as (state & Hfold & H). injection H as <-.
  rewrite Hkeys, foldResult_app in Hfold.
  apply bind_Ok in Hfold. destruct Hfold as (state1 & Hbefore & Hfold).
  cbn [foldResult] in Hfold. apply bind_Ok in Hfold. destruct Hfold as (state2 & Hkey & Hafter).
  assert (Hsame : parseOptionValueAt (snd state1) id k = parseOptionValueAt optionList id k).
  { change optionList with (snd (@nil (nat * string), optionList)).
    revert Hbefore.
    apply (foldResult_preserves_in
             (fun s s' : list (nat * string) * list ParseOption =>
                parseOptionValueAt (snd s') id k = parseOptionValueAt (snd s) id k));
      [reflexivity | intros; congruence |].
    intros earlier s s' Hearlier Hstep. eapply parseConfigKey_not_provider; [exact Hstep |].
    apply Hno. exact Hearlier. }
  pose proof (parseConfigKey_provider _ _ _ _ _ _ _ _ id k Hkey Hyes) as Hstored.
  rewrite Hsame in Hstored. specialize (Hstored Hnot). rewrite Hstored. f_equal.
  symmetry.
  assert (Hkeep : keepsFound (snd state2) (snd state)).
  { revert Hafter.
    apply (foldResult_preserves
             (fun s s' : list (nat * string) * list ParseOption =>
                keepsFound (snd s) (snd s')));
      [intros; apply keepsFound_refl | intros s1 s2 s3; apply keepsFound_trans |].
    intros later s s' Hstep. apply (parseConfigKey_merges _ _ _ _ _ _ _ _ Hstep). }
  apply Hkeep. eapply sectionKeyValueSpec_found. exact Hstored.
Qed.

(** Sections none of whose keys provides the option at a key index leave
    what is read there. *)
Lemma parseConfigSections_no_provider (rules : ParseRules) (config : Config) (ini : Ini)
    (sections : list (nat * string)) (optionList optionList' : list ParseOption) (id k : nat) :
  foldResult (parseConfigSection rules config ini) sections optionList = Ok optionList' ->
  (forall sectionAt key,
     In sectionAt sections -> In key (iniSectionKeyList ini (snd sectionAt)) ->
     keyProvides rules config (snd sectionAt) key id k = false) ->
  parseOptionValueAt optionList' id k = parseOptionValueAt optionList id k.
Proof.
  intros H Hno. revert H.
  apply (foldResult_preserves_in
           (fun l l' : list ParseOption =>
              parseOptionValueAt l' id k = parseOptionValueAt l id k));
    [reflexivity | intros; congruence |].
  intros sectionAt l l' Hsection Hstep.
  eapply parseConfigSection_no_provider; [exact Hstep |].
  intros key Hkey. apply (Hno sectionAt key Hsection Hkey).
Qed.

(** C6: the sections are searched in the order [stanza:command], [stanza],
    [global:command], [global], the two stanza sections being present exactly
    when the stanza option has been parsed.  For an option and key index that
    the command line and the environment left unset, the first section of that
    order with a key that provides it wins: the final parse option list holds
    there the value of the first such key of that section, found with source
    [config], whatever the later sections hold.  And what any section is the
    first to store is in the final list as that section stored it. *)
Theorem configParseIni_first_section_wins (rules : ParseRules) (ext : Collaborators)
    (config : Config) (ini : Ini) (optionList optionList' : list ParseOption) :
  configParseIni rules ext config ini optionList = Ok optionList' ->
  exists stanza : option string,
    configStanza rules optionList = Ok stanza /\
    (stanza = None <-> indexListNotNull optionList (cfgOptStanza rules) = false) /\
    configSectionList ext config stanza =
      match stanza with
      | Some stanza =>
          [stanza +:+ ":" +:+ cfgCommandName ext (cfgCommand config); stanza;
           "global:" +:+ cfgCommandName ext (cfgCommand config); "global"]%string
      | None =>
          ["global:" +:+ cfgCommandName ext (cfgCommand config); "global"]%string
      end /\
    (forall (before : list (nat * string)) (sectionIdx : nat) (section : string)
            (after : list (nat * string)) (keysBefore : list string) (key : string)
            (keysAfter : list string) (optionId optionKeyIdx : nat),
       indexed (configSectionList ext config stanza) =
         before ++ (sectionIdx, section) :: after ->
       iniSectionKeyList ini section = keysBefore ++ key :: keysAfter ->
       povFound (parseOptionValueAt optionList optionId optionKeyIdx) = false ->
       (forall earlier earlierKey,
          In earlier before -> In earlierKey (iniSectionKeyList ini (snd earlier)) ->
          keyProvides rules config (snd earlier) earlierKey optionId optionKeyIdx = false) ->
       (forall earlierKey,
          In earlierKey keysBefore ->
          keyProvides rules config section earlierKey optionId optionKeyIdx = false) ->
       keyProvides rules config section key optionId optionKeyIdx = true ->
       sectionKeyValueSpec rules ini section key optionId
         (parseOptionValueAt optionList optionId optionKeyIdx) =
         Some (parseOptionValueAt optionList' optionId optionKeyIdx) /\
       povFound (parseOptionValueAt optionList' optionId optionKeyIdx) = true /\
       povSource (parseOptionValueAt optionList' optionId optionKeyIdx) = cfgSourceConfig) /\
    forall (before : list (nat * string)) (section : nat * string) (after : list (nat * string)),
      indexed (configSectionList ext config stanza) = before ++ section :: after ->
      exists beforeSection afterSection : list ParseOption,
        foldResult (parseConfigSection rules config ini) before optionList = Ok beforeSection /\
        parseConfigSection rules config ini section beforeSection = Ok afterSection /\
        foldResult (parseConfigSection rules config ini) after afterSection = Ok optionList' /\
        forall id k,
          povFound (parseOptionValueAt beforeSection id k) = false ->
          povFound (parseOptionValueAt afterSection id k) = true ->
          parseOptionValueAt optionList' id k = parseOptionValueAt afterSection id k /\
          povSource (parseOptionValueAt optionList' id k) = cfgSourceConfig.
Proof.
  unfold configParseIni. intros H.
  apply bind_Ok in H. destruct H as (stanza & Hstanza & H).
  exists stanza. split; [exact Hstanza |]. split; [| split; [| split]].
  - unfold configStanza in Hstanza.
    destruct (indexListNotNull optionList (cfgOptStanza rules)).
    + apply bind_Ok in Hstanza. destruct Hstanza as (name & _ & Hstanza).
      injection Hstanza as <-. split; intros Hx; discriminate Hx.
    + injection Hstanza as <-. split; reflexivity.
  - destruct stanza; reflexivity.
  - intros before sectionIdx section after keysBefore key keysAfter optionId optionKeyIdx
      Hsplit Hkeys Hnot Hsections Hbefore Hyes.
    rewrite Hsplit, foldResult_app in H.
    apply bind_Ok in H. destruct H as (beforeSection & Hfold1 & H).
    cbn [foldResult] in H. apply bind_Ok in H. destruct H as (afterSection & Hsection & Hfold2).
    pose proof (parseConfigSections_no_provider _ _ _ _ _ _ optionId optionKeyIdx Hfold1
                  Hsections) as Hsame.
    rewrite <- Hsame in Hnot.
    pose proof (parseConfigSection_first_provider _ _ _ _ _ _ _ optionId optionKeyIdx _ _ _
                  Hsection Hkeys Hbefore Hyes Hnot) as Hstored.
    rewrite Hsame in Hstored.
    pose proof (sectionKeyValueSpec_found _ _ _ _ _ _ _ Hstored) as Hfound.
    destruct (parseConfigSections_merges _ _ _ _ _ _ Hfold2) as [Hkeep _].
    rewrite (Hkeep optionId optionKeyIdx Hfound).
    split; [exact Hstored |]. split; [exact Hfound |].
    destruct (parseConfigSection_merges _ _ _ _ _ _ Hsection) as [_ Hstore].
    apply Hstore; assumption.
  - intros before section after Hsplit. rewrite Hsplit in H.
    rewrite foldResult_app in H.
    apply bind_Ok in H. destruct H as (beforeSection & Hfold1 & H).
    cbn [foldResult] in H. apply bind_Ok in H. destruct H as (afterSection & Hsection & Hfold2).
    exists beforeSection, afterSection. repeat split; try assumption.
    + destruct (parseConfigSections_merges _ _ _ _ _ _ Hfold2) as [Hkeep _].
      apply Hkeep. assumption.
    + destruct (parseConfigSections_merges _ _ _ _ _ _ Hfold2) as [Hkeep _].
      rewrite (Hkeep id k) by assumption.
      destruct (parseConfigSection_merges _ _ _ _ _ _ Hsection) as [_ Hstore].
      apply Hstore; assumption.
Qed.

(** [buffer-size] is in [global:backup] and in [global]: the first wins. *)
Example configParseIni_first_section_example :
  exists optionList',
    configParseIni Demo.rules (Demo.ext [] []) Demo.backupConfig Demo.ini Demo.stanzaOptionList =
      Ok optionList' /\
    parseOptionValueAt optionList' Demo.optBufferSize 0 =
      {| povFound := true; povNegate := false; povReset := false;
         povSource := cfgSourceConfig; povValueList := Some ["32768"%string] |} /\
    parseOptionValueAt optionList' Demo.optPgPath 0 =
      {| povFound := true; povNegate := false; povReset := false;
         povSource := cfgSourceConfig; povValueList := Some ["/from/stanza"%string] |}.
Proof. eexists. split; [vm_compute; reflexivity |]. split; vm_compute; reflexivity. Qed.

(** With [--stanza=demo] and [Demo.ini]: [buffer-size] is in
    [global:backup], the third section of the order, and in [global]; the value
    of [global:backup] is the one in the final list. *)
Lemma configParseIni_first_section_wins_witness :
  exists optionList' : list ParseOption,
    configParseIni Demo.rules (Demo.ext [] []) Demo.backupConfig Demo.ini Demo.stanzaOptionList =
      Ok optionList' /\
    configSectionList (Demo.ext [] []) Demo.backupConfig (Some "demo"%string) =
      ["demo:backup"; "demo"; "global:backup"; "global"]%string /\
    iniSectionKeyList Demo.ini "global" = ["buffer-size"; "compress"; "db-include"]%string /\
    keyProvides Demo.rules Demo.backupConfig "global" "buffer-size" Demo.optBufferSize 0 =
      true /\
    parseOptionValueAt optionList' Demo.optBufferSize 0 =
      {| povFound := true; povNegate := false; povReset := false;
         povSource := cfgSourceConfig; povValueList := Some ["32768"%string] |}.
Proof.
  destruct (configParseIni Demo.rules (Demo.ext [] []) Demo.backupConfig Demo.ini
              Demo.stanzaOptionList) as [optionList' | e msg] eqn:Hrun;
    [| vm_compute in Hrun; discriminate Hrun].
  exists optionList'. split; [reflexivity |]. split; [reflexivity |].
  split; [reflexivity |]. split; [reflexivity |].
  destruct (configParseIni_first_section_wins Demo.rules (Demo.ext [] []) Demo.backupConfig
              Demo.ini Demo.stanzaOptionList optionList' Hrun)
    as (stanza & Hstanza & _ & _ & Hfirst & _).
  assert (stanza = Some "demo"%string) as -> by (vm_compute in Hstanza; congruence).
  destruct (Hfirst [(0%nat, "demo:backup"%string); (1%nat, "demo"%string)] 2%nat
              "global:backup"%string [(3%nat, "global"%string)] [] "buffer-size"%string []
              Demo.optBufferSize 0%nat eq_refl eq_refl eq_refl) as (Hstored & _).
  - intros earlier earlierKey [<- | [<- | []]] Hkey; vm_compute in Hkey.
    + destruct Hkey.
    + destruct Hkey as [<- | [<- | []]]; reflexivity.
  - intros earlierKey [].
  - reflexivity.
  - vm_compute in Hstored. injection Hstored as Hstored. symmetry. exact Hstored.
Defined.

(** ** Group index maps *)

Lemma foldResult_invariant {A S : Type} (P : S -> Prop) (body : A -> S -> Result S) :
  (forall a s s', body a s = Ok s' -> P s -> P s') ->
  forall l s s', P s -> foldResult body l s = Ok s' -> P s'.
Proof.
  intros Hbody l s s' Hs Hfold. revert Hs. revert Hfold.
  apply (foldResult_preserves (fun s s' => P s -> P s')); [tauto | tauto | exact Hbody].
Qed.

Lemma indexMapZero_initial (rules : ParseRules) :
  (0 < CFG_OPTION_KEY_MAX rules)%nat ->
  indexMapZero (replicate (CFG_OPTION_GROUP_TOTAL rules) (ConfigOptionGroupData_zero rules)).
Proof.
  intros Hmax groupId group Hlook. apply lookup_replicate in Hlook. destruct Hlook as [-> _].
  unfold ConfigOptionGroupData_zero. cbn [cogIndexMap].
  apply lookup_replicate. split; [reflexivity | exact Hmax].
Qed.

(** Phase 1 leaves the option groups of the configuration as created. *)
Lemma parseArg_optionGroup (rules : ParseRules) (ext : Collaborators) (g : GetoptResult)
    (st st' : ParseState) :
  parseArg rules ext g st = Ok st' ->
  cfgOptionGroup (psConfig st') = cfgOptionGroup (psConfig st).
Proof.
  unfold parseArg, parseArgCommand. intros H. bind_inv H. injection H as <-. cbn [psConfig].
  repeat case_head Ha; reflexivity.
Qed.

Lemma configParseArgs_optionGroup (rules : ParseRules) (ext : Collaborators) (exe : string)
    (args : list GetoptResult) (config : Config) (optionList : list ParseOption) :
  configParseArgs rules ext exe args = Ok (config, optionList) ->
  cfgOptionGroup config =
    replicate (CFG_OPTION_GROUP_TOTAL rules) (ConfigOptionGroupData_zero rules).
Proof.
  unfold configParseArgs. intros H. bind_inv H.
  assert (Hfold : cfgOptionGroup (psConfig a) =
                  replicate (CFG_OPTION_GROUP_TOTAL rules) (ConfigOptionGroupData_zero rules)).
  { revert Ha.
    apply (foldResult_invariant
             (fun st => cfgOptionGroup (psConfig st) =
                        replicate (CFG_OPTION_GROUP_TOTAL rules)
                          (ConfigOptionGroupData_zero rules))).
    - intros g s s' Hstep Hs. rewrite (parseArg_optionGroup _ _ _ _ _ Hstep). exact Hs.
    - reflexivity. }
  bind_inv H.
  assert (Hsame : cfgOptionGroup a0 = cfgOptionGroup (psConfig a))
    by (repeat case_head Ha0; reflexivity).
  repeat case_head H; congruence.
Qed.

Lemma indexMapZero_set (optionGroup optionGroup' : list ConfigOptionGroupData)
    (groupId : nat) (group group' : ConfigOptionGroupData) :
  arrayGet optionGroup groupId = Ok group ->
  arraySet optionGroup groupId group' = Ok optionGroup' ->
  cogIndexMap group' = cogIndexMap group ->
  indexMapZero optionGroup -> indexMapZero optionGroup'.
Proof.
  intros Hget Hset Hmap Hzero id g Hlook.
  apply arrayGet_Ok in Hget. apply arraySet_Ok in Hset. destruct Hset as [-> Hlt].
  destruct (decide (id = groupId)) as [-> | Hne].
  - rewrite list_lookup_insert_eq in Hlook by exact Hlt. injection Hlook as <-.
    rewrite Hmap. eapply Hzero. exact Hget.
  - rewrite list_lookup_insert_ne in Hlook by congruence. eapply Hzero. exact Hlook.
Qed.

Lemma groupScanKey_indexMap (groupId : nat) (parseOption : ParseOption) (optionKeyIdx : nat)
    (state state' : Config * list (list bool)) :
  groupScanKey groupId parseOption optionKeyIdx state = Ok state' ->
  indexMapZero (cfgOptionGroup (fst state)) -> indexMapZero (cfgOptionGroup (fst state')).
Proof.
  unfold groupScanKey. destruct state as [config groupIdxMap]. cbv zeta. intros H Hzero.
  repeat case_head H; cbn [fst configSetOptionGroup cfgOptionGroup]; try exact Hzero.
  eapply indexMapZero_set; [eassumption | eassumption | reflexivity | exact Hzero].
Qed.

Lemma groupScanOption_indexMap (rules : ParseRules) (ext : Collaborators)
    (parseOptionList : list ParseOption) (optionId : nat)
    (state state' : Config * list (list bool)) :
  groupScanOption rules ext parseOptionList optionId state = Ok state' ->
  indexMapZero (cfgOptionGroup (fst state)) -> indexMapZero (cfgOptionGroup (fst state')).
Proof.
  unfold groupScanOption. destruct state as [config groupIdxMap]. cbv zeta. intros H Hzero.
  cbn [fst] in Hzero.
  destruct (arrayGet (cfgOption config) optionId) as [option |]; cbn [bind] in H;
    [| discriminate].
  destruct (cfgParseOptionValid rules (cfgCommand config) (cfgCommandRole config) optionId)
    as [valid |]; cbn [bind] in H; [| discriminate].
  destruct valid.
  - bind_inv H. cbn [configSetOption cfgOptionGroup] in H.
    destruct (optGroup (ruleOption rules optionId)).
    + bind_inv H. bind_inv H. revert H.
      apply (foldResult_invariant (fun s => indexMapZero (cfgOptionGroup (fst s)))).
      * intros k s s'. apply groupScanKey_indexMap.
      * cbn [fst configSetOptionGroup cfgOptionGroup].
        eapply indexMapZero_set; [eassumption | eassumption | reflexivity | exact Hzero].
    + injection H as <-. exact Hzero.
  - repeat case_head H; cbn [fst configSetOption cfgOptionGroup]; exact Hzero.
Qed.

Lemma groupMapKey_indexMap (row : list bool) (optionKeyIdx : nat)
    (state state' : list nat * nat) :
  groupMapKey row optionKeyIdx state = Ok state' ->
  fst state !! 0%nat = Some 0%nat /\ (1 <= snd state)%nat ->
  fst state' !! 0%nat = Some 0%nat /\ (1 <= snd state')%nat.
Proof.
  unfold groupMapKey. destruct state as [indexMap optionIdxMax]. intros H [Hzero Hmax].
  cbn [fst snd] in *.
  destruct (arrayGet row optionKeyIdx) as [used |]; cbn [bind] in H; [| discriminate].
  destruct used; [| injection H as <-; split; assumption].
  bind_inv H. injection H as <-. cbn [fst snd].
  apply arraySet_Ok in Ha. destruct Ha as [-> _].
  split; [| lia]. rewrite list_lookup_insert_ne by lia. exact Hzero.
Qed.

Lemma groupWriteIndex_indexMap (rules : ParseRules) (groupIdxMap : list (list bool))
    (groupId : nat) (config config' : Config) :
  groupWriteIndex rules groupIdxMap groupId config = Ok config' ->
  indexMapZeroAt (cfgOptGrpPg rules) (cfgOptionGroup config) ->
  indexMapZeroAt (cfgOptGrpPg rules) (cfgOptionGroup config').
Proof.
  unfold groupWriteIndex. cbv zeta. intros H Hzero.
  destruct (arrayGet (cfgOptionGroup config) groupId) as [group |] eqn:Hget; cbn [bind] in H;
    [| discriminate].
  apply arrayGet_Ok in Hget.
  assert (Hset : forall group' optionGroup',
            arraySet (cfgOptionGroup config) groupId group' = Ok optionGroup' ->
            (groupId = cfgOptGrpPg rules -> cogIndexMap group' !! 0%nat = Some 0%nat) ->
            indexMapZeroAt (cfgOptGrpPg rules) optionGroup').
  { intros group' optionGroup' Hs Hmap g Hlook.
    apply arraySet_Ok in Hs. destruct Hs as [-> Hlt].
    destruct (decide (cfgOptGrpPg rules = groupId)) as [Heq | Hne].
    - rewrite Heq in Hlook. rewrite list_lookup_insert_eq in Hlook by exact Hlt.
      injection Hlook as <-. apply Hmap. congruence.
    - rewrite list_lookup_insert_ne in Hlook by congruence. apply Hzero. exact Hlook. }
  assert (Hold : groupId = cfgOptGrpPg rules -> cogIndexMap group !! 0%nat = Some 0%nat).
  { intros ->. apply Hzero. exact Hget. }
  destruct (cogValid group); cbn [negb] in H.
  - destruct (cogIndexTotal group =? 0)%nat.
    + bind_inv H. injection H as <-. cbn [configSetOptionGroup cfgOptionGroup].
      eapply Hset; [eassumption | exact Hold].
    + bind_inv H. bind_inv H. bind_inv H. injection H as <-.
      cbn [configSetOptionGroup cfgOptionGroup].
      eapply Hset; [eassumption |]. cbn [cogIndexMap]. intros Hpg.
      rewrite Hpg, Nat.eqb_refl in Ha0.
      assert (Hinv : fst a0 !! 0%nat = Some 0%nat /\ (1 <= snd a0)%nat).
      { revert Ha0.
        apply (foldResult_invariant
                 (fun s : list nat * nat => fst s !! 0%nat = Some 0%nat /\ (1 <= snd s)%nat)).
        - intros k s s'. apply groupMapKey_indexMap.
        - cbn [fst snd]. split; [apply Hold; exact Hpg | lia]. }
      apply Hinv.
  - bind_inv H. injection H as <-. cbn [configSetOptionGroup cfgOptionGroup].
    eapply Hset; [eassumption | exact Hold].
Qed.

(** After phase 4, entry 0 of the index map of the pg group holds key index
    0, whatever was parsed: the map is created zeroed, the scan of the options
    never writes it, and the write loop of the pg group starts at dense
    position 1. *)
Lemma configParseGroup_indexMapZeroAt (rules : ParseRules) (ext : Collaborators)
    (config config' : Config) (parseOptionList : list ParseOption) :
  indexMapZero (cfgOptionGroup config) ->
  configParseGroup rules ext config parseOptionList = Ok config' ->
  indexMapZeroAt (cfgOptGrpPg rules) (cfgOptionGroup config').
Proof.
  intros Hinit Hgroup.
  unfold configParseGroup in Hgroup. cbv zeta in Hgroup. bind_inv Hgroup.
  destruct a as [scanned groupIdxMap].
  assert (Hscan : indexMapZero (cfgOptionGroup scanned)).
  { change scanned with (fst (scanned, groupIdxMap)). revert Ha.
    apply (foldResult_invariant (fun s => indexMapZero (cfgOptionGroup (fst s)))).
    - intros optionId s s'. apply groupScanOption_indexMap.
    - cbn [fst]. exact Hinit. }
  revert Hgroup.
  apply (foldResult_invariant
           (fun c => indexMapZeroAt (cfgOptGrpPg rules) (cfgOptionGroup c))).
  - intros groupId c c'. apply groupWriteIndex_indexMap.
  - intros g Hg. eapply Hscan. exact Hg.
Qed.

(** Phase 5 writes option values only; the groups stay as phase 4 left them. *)
Lemma configParseOption_optionGroup (rules : ParseRules) (ext : Collaborators)
    (parseOptionList : list ParseOption) (optionId : nat) (config config' : Config) :
  configParseOption rules ext parseOptionList optionId config = Ok config' ->
  cfgOptionGroup config' = cfgOptionGroup config.
Proof.
  unfold configParseOption. intros H. bind_inv H.
  destruct (coValid a); cbn [negb] in H; [| injection H as <-; reflexivity].
  bind_inv H. bind_inv H.
  apply (foldResult_preserves (fun c c' : Config => cfgOptionGroup c' = cfgOptionGroup c))
    in H.
  - exact H.
  - reflexivity.
  - intros s1 s2 s3 H12 H23. congruence.
  - intros optionListIdx c c' Hbody. bind_inv Hbody. bind_inv Hbody. bind_inv Hbody.
    injection Hbody as <-. reflexivity.
Qed.

Lemma configParseValidate_optionGroup (rules : ParseRules) (ext : Collaborators)
    (config config' : Config) (parseOptionList : list ParseOption) :
  configParseValidate rules ext config parseOptionList = Ok config' ->
  cfgOptionGroup config' = cfgOptionGroup config.
Proof.
  unfold configParseValidate.
  apply (foldResult_preserves (fun c c' : Config => cfgOptionGroup c' = cfgOptionGroup c)).
  - reflexivity.
  - intros s1 s2 s3 H12 H23. congruence.
  - intros optionId c c'. apply configParseOption_optionGroup.
Qed.

(** C10: in the configuration of every parse that succeeds, entry 0 of the
    index map of the pg group holds key index 0.  This covers the commands that
    stop after phase 1 (the map is still as created) and the parses in which no
    pg1 option was set and the index total of the group was counted from other
    keys only. *)
Theorem configParse_pg_indexMap_zero (rules : ParseRules) (ext : Collaborators)
    (exe : string) (args : list GetoptResult) (environ : list string) (config : Config)
    (group : ConfigOptionGroupData) :
  (0 < CFG_OPTION_KEY_MAX rules)%nat ->
  configParse rules ext exe args environ = Ok config ->
  cfgOptionGroup config !! cfgOptGrpPg rules = Some group ->
  cogIndexMap group !! 0%nat = Some 0%nat.
Proof.
  intros Hmax Hparse Hlook.
  unfold configParse in Hparse. bind_inv Hparse. destruct a as [parsed afterArgs].
  pose proof (configParseArgs_optionGroup _ _ _ _ _ _ Ha) as Hinit.
  assert (Hzero : indexMapZero (cfgOptionGroup parsed))
    by (rewrite Hinit; apply indexMapZero_initial; exact Hmax).
  destruct (negb (cfgCommand parsed =? cfgCmdNone rules)%nat &&
            negb (cfgCommand parsed =? cfgCmdVersion rules)%nat &&
            negb (cfgCommand parsed =? cfgCmdHelp rules)%nat).
  - bind_inv Hparse. bind_inv Hparse. bind_inv Hparse.
    apply configParseValidate_optionGroup in Hparse. rewrite Hparse in Hlook.
    eapply configParseGroup_indexMapZeroAt; eassumption.
  - injection Hparse as <-. eapply Hzero. exact Hlook.
Qed.

(** Only [pg2-path] is set, for a command that does not require [pg-path]:
    the parse succeeds, the index total is 1, counted from key index 1, and
    position 0 of the map still holds key index 0. *)
Lemma configParse_pg_indexMap_zero_witness :
  exists (config : Config) (group : ConfigOptionGroupData),
    configParse Demo.optionalPgRules (Demo.ext [] []) "pgbackrest"
      [Demo.arg "stanza" "demo"; Demo.arg "pg2-path" "/db"; Demo.positional "backup"] [] =
      Ok config /\
    cfgOptionGroup config !! cfgOptGrpPg Demo.optionalPgRules = Some group /\
    cogIndexTotal group = 1%nat /\
    take 3 (cogIndexMap group) = [0; 1; 0]%nat /\
    cogIndexMap group !! 0%nat = Some 0%nat.
Proof.
  destruct (configParse Demo.optionalPgRules (Demo.ext [] []) "pgbackrest"
              [Demo.arg "stanza" "demo"; Demo.arg "pg2-path" "/db"; Demo.positional "backup"] [])
    as [config | e msg] eqn:Hparse; [| vm_compute in Hparse; discriminate Hparse].
  destruct (cfgOptionGroup config !! cfgOptGrpPg Demo.optionalPgRules) as [group |] eqn:Hlook.
  - exists config, group.
    split; [reflexivity |]. split; [exact Hlook |].
    pose proof (configParse_pg_indexMap_zero Demo.optionalPgRules (Demo.ext [] []) "pgbackrest"
                  _ _ config group ltac:(vm_compute; lia) Hparse Hlook) as Hzero.
    vm_compute in Hparse. injection Hparse as <-.
    vm_compute in Hlook. injection Hlook as <-.
    split; [reflexivity |]. split; [reflexivity | exact Hzero].
  - exfalso. vm_compute in Hparse. injection Hparse as <-.
    vm_compute in Hlook. discriminate Hlook.
Defined.

(** ** Defaults and required options *)

(** C7 (as amended): for an option slot whose dependency is resolved and
    whose value is neither set nor negated, a default found for the command and
    option is parsed by the option type and stored with source [default] -- a
    boolean is true iff the string is "1", a path or string is the string
    itself, an integer, size or time is the string read as a base-10 int64;
    without a default, a slot required for the command fails with
    [OptionRequiredError] unless help was requested, the message ending in the
    hint exactly when the section of the option is stanza; otherwise the slot
    stays null. *)
Theorem configParseSlot_unset_default (rules : ParseRules) (ext : Collaborators)
    (config : Config) (parseOptionList : list ParseOption) (optionId : nat)
    (optionType : ConfigOptionType) (optionListIdx optionKeyIdx : nat) :
  configSlotKeyIdx rules config optionId optionListIdx = Ok optionKeyIdx ->
  let parseOptionValue := parseOptionValueAt parseOptionList optionId optionKeyIdx in
  optionIsSet optionType parseOptionValue = false ->
  povNegate parseOptionValue = false ->
  configParseDepend rules config optionId optionListIdx optionKeyIdx false parseOptionValue
    = Ok true ->
  let slot := configParseSlot rules ext config parseOptionList optionId optionType
                optionListIdx in
  let stored (value : option Variant) : Result ConfigOptionValue :=
    Ok {| covNegate := false; covReset := povReset parseOptionValue;
          covSource := cfgSourceDefault; covValue := value |} in
  (forall defaultValue : string,
     cfgParseOptionDefault rules (cfgCommand config) optionId = Ok (Some defaultValue) ->
     match optionType with
     | cfgOptTypeBoolean => slot = stored (Some (VarBool (strEq defaultValue "1")))
     | cfgOptTypePath | cfgOptTypeString => slot = stored (Some (VarStr defaultValue))
     | cfgOptTypeInteger | cfgOptTypeSize | cfgOptTypeTime =>
         slot = (do i <-- cvtZToInt64 defaultValue ;; stored (Some (VarInt64 i)))
     | cfgOptTypeHash | cfgOptTypeList => isThrow AssertError slot
     end) /\
  (forall (required : bool) (name : string),
     cfgParseOptionDefault rules (cfgCommand config) optionId = Ok None ->
     cfgParseOptionRequired rules (cfgCommand config) optionId = Ok required ->
     cfgParseOptionKeyIdxName rules optionId optionKeyIdx = Ok name ->
     slot =
       if required && negb (cfgHelp config) then
         Throw OptionRequiredError
           (cfgCommandName ext (cfgCommand config) +:+ " command requires option: " +:+ name +:+
            match optSection (ruleOption rules optionId) with
            | cfgSectionStanza => LF_STR +:+ "HINT: does this stanza exist?"
            | _ => EmptyString
            end)
       else stored None).
Proof.
  intros Hkey parseOptionValue Hset Hnegate Hdepend slot stored.
  assert (Hslot : slot =
            (do value <-- configParseDefault rules ext config optionId optionKeyIdx optionType ;;
             stored value)).
  { unfold slot, configParseSlot. rewrite Hkey. cbn [bind]. fold parseOptionValue.
    rewrite Hset, Hdepend. cbn [bind]. rewrite Hnegate. reflexivity. }
  rewrite Hslot. unfold configParseDefault. split.
  - intros defaultValue Hdefault. rewrite Hdefault. cbn [bind].
    destruct optionType; cbn [bind]; try reflexivity.
    + eexists. reflexivity.
    + destruct (cvtZToInt64 defaultValue); reflexivity.
    + eexists. reflexivity.
    + destruct (cvtZToInt64 defaultValue); reflexivity.
    + destruct (cvtZToInt64 defaultValue); reflexivity.
  - intros required name Hdefault Hrequired Hname.
    rewrite Hdefault. cbn [bind]. rewrite Hrequired. cbn [bind].
    destruct (required && negb (cfgHelp config)); [| reflexivity].
    rewrite Hname. reflexivity.
Qed.

(** [buffer-size] is not set and has the default "1048576"; [pg1-path] is
    not set, has no default, is required and belongs to the stanza section. *)
Lemma configParseSlot_unset_default_witness :
  configParseSlot Demo.rules (Demo.ext [] []) Demo.backupConfig
    (replicate (CFG_OPTION_TOTAL Demo.rules) ParseOption_zero)
    Demo.optBufferSize cfgOptTypeSize 0 =
    Ok {| covNegate := false; covReset := false; covSource := cfgSourceDefault;
          covValue := Some (VarInt64 1048576) |} /\
  configParseSlot Demo.rules (Demo.ext [] []) Demo.backupConfig
    (replicate (CFG_OPTION_TOTAL Demo.rules) ParseOption_zero)
    Demo.optPgPath cfgOptTypePath 0 =
    Throw OptionRequiredError
      ("backup command requires option: pg1-path" +:+ LF_STR +:+
       "HINT: does this stanza exist?").
Proof.
  split.
  - destruct (configParseSlot_unset_default Demo.rules (Demo.ext [] []) Demo.backupConfig
                (replicate (CFG_OPTION_TOTAL Demo.rules) ParseOption_zero)
                Demo.optBufferSize cfgOptTypeSize 0 0
                eq_refl eq_refl eq_refl eq_refl) as [Hdefault _].
    exact (Hdefault "1048576"%string eq_refl).
  - destruct (configParseSlot_unset_default Demo.rules (Demo.ext [] []) Demo.backupConfig
                (replicate (CFG_OPTION_TOTAL Demo.rules) ParseOption_zero)
                Demo.optPgPath cfgOptTypePath 0 0
                eq_refl eq_refl eq_refl eq_refl) as [_ Hrequired].
    exact (Hrequired true "pg1-path"%string eq_refl eq_refl eq_refl).
Defined.

(** C7 as stated fails for a negated option that is not boolean: after
    [--no-config] the slot of [config] is resolved and has no set value, a
    default exists, and the value stays null with the source of the negation. *)
Lemma configParseSlot_negated_keeps_null :
  optionIsSet cfgOptTypeString (parseOptionValueAt Demo.noConfigOptionList Demo.optConfig 0)
    = false /\
  configParseDepend Demo.rules Demo.backupConfig Demo.optConfig 0 0 false
    (parseOptionValueAt Demo.noConfigOptionList Demo.optConfig 0) = Ok true /\
  cfgParseOptionDefault Demo.rules Demo.cmdBackup Demo.optConfig =
    Ok (Some "/etc/pgbackrest/pgbackrest.conf"%string) /\
  configParseSlot Demo.rules (Demo.ext [] []) Demo.backupConfig Demo.noConfigOptionList
    Demo.optConfig cfgOptTypeString 0 =
    Ok {| covNegate := true; covReset := false; covSource := cfgSourceParam;
          covValue := None |} /\
  parseArgOption Demo.rules (Demo.arg "no-config" EmptyString)
    (replicate (CFG_OPTION_TOTAL Demo.rules) ParseOption_zero) = Ok Demo.noConfigOptionList.
Proof. repeat split; vm_compute; reflexivity. Qed.

(** ** Option codes and option names *)

Lemma land_bit (a n : Z) :
  0 <= n -> Z.land a (Z.shiftl 1 n) = if Z.testbit a n then 2 ^ n else 0.
Proof.
  intros Hn. rewrite Z.shiftl_1_l. apply Z.bits_inj'. intros m Hm.
  rewrite Z.land_spec, Z.pow2_bits_eqb by lia.
  destruct (Z.eqb_spec n m) as [<- | Hne].
  - destruct (Z.testbit a n); [rewrite Z.pow2_bits_true by lia; reflexivity |].
    rewrite Z.bits_0. reflexivity.
  - rewrite andb_false_r. destruct (Z.testbit a n); [| rewrite Z.bits_0; reflexivity].
    rewrite Z.pow2_bits_false by lia. reflexivity.
Qed.

Lemma flag_test (a n : Z) :
  0 <= n -> negb (Z.land a (Z.shiftl 1 n) =? 0) = Z.odd (a / 2 ^ n).
Proof.
  intros Hn. rewrite land_bit by exact Hn. rewrite Z.testbit_odd, Z.shiftr_div_pow2 by exact Hn.
  destruct (Z.odd (a / 2 ^ n)); [| reflexivity].
  assert (0 < 2 ^ n) by (apply Z.pow_pos_nonneg; lia).
  destruct (Z.eqb_spec (2 ^ n) 0); [lia | reflexivity].
Qed.

(** The code of an alias is the sum of its parts: the flags, the key index
    and the option id do not overlap. *)
Lemma option_code_sum (flags : Z) (keyIdx optionId : nat) :
  0 <= flags -> flags mod 2 ^ 16 = 0 -> (keyIdx < 256)%nat -> (optionId < 256)%nat ->
  Z.lor (Z.lor flags (Z.shiftl (Z.of_nat keyIdx) PARSE_KEY_IDX_SHIFT)) (Z.of_nat optionId) =
    flags + Z.of_nat keyIdx * 256 + Z.of_nat optionId.
Proof.
  intros Hflags Hmod Hk Hid. unfold PARSE_KEY_IDX_SHIFT.
  rewrite Z.shiftl_mul_pow2 by lia. change (2 ^ 8) with 256.
  assert (Hf : flags = Z.shiftl (flags / 2 ^ 16) 16).
  { rewrite Z.shiftl_mul_pow2 by lia. pose proof (Z.div_mod flags (2 ^ 16) ltac:(lia)). lia. }
  rewrite Hf at 1. rewrite (lor_shiftl_add (flags / 2 ^ 16) (Z.of_nat keyIdx * 256) 16) by lia.
  replace (flags / 2 ^ 16 * 2 ^ 16) with flags
    by (pose proof (Z.div_mod flags (2 ^ 16) ltac:(lia)); lia).
  assert (Hlow : (flags + Z.of_nat keyIdx * 256) mod 2 ^ 8 = 0).
  { change (2 ^ 16) with (2 ^ 8 * 256) in Hmod. change (2 ^ 8) with 256 in *.
    rewrite Z.add_mod, Z.mod_mul by lia.
    replace (flags mod 256) with 0; [reflexivity |].
    symmetry. apply Z.mod_divide; [lia |]. apply Z.mod_divide in Hmod; [| lia].
    destruct Hmod as [q Hq]. exists (q * 256). lia. }
  assert (Hs : flags + Z.of_nat keyIdx * 256 =
               Z.shiftl ((flags + Z.of_nat keyIdx * 256) / 2 ^ 8) 8).
  { rewrite Z.shiftl_mul_pow2 by lia.
    pose proof (Z.div_mod (flags + Z.of_nat keyIdx * 256) (2 ^ 8) ltac:(lia)). lia. }
  rewrite Hs at 1. rewrite lor_shiftl_add by lia.
  pose proof (Z.div_mod (flags + Z.of_nat keyIdx * 256) (2 ^ 8) ltac:(lia)). lia.
Qed.

Ltac odd_flag :=
  match goal with
  | |- Z.odd ?x = _ =>
      let H := fresh "H" in
      pose proof (Zmod_odd x) as H; destruct (Z.odd x);
      first [reflexivity | exfalso; revert H; Z.div_mod_to_equations; lia]
  end.

(** X1: the option codes round trip.  A code built from the parse option
    flags, a key index and an option id below 256 is decoded by
    [cfgParseOptionInfo] into exactly these parts, and it is none of the values
    [getopt_long] returns for a positional argument, an unknown option or a
    missing argument. *)
Theorem cfgParseOptionInfo_decodes_option_code (negate reset deprecated : bool)
    (keyIdx optionId : nat) :
  (keyIdx < 256)%nat -> (optionId < 256)%nat ->
  let info :=
    Z.lor (Z.lor (Z.lor (Z.lor (Z.lor PARSE_OPTION_FLAG
                                   (if negate then PARSE_NEGATE_FLAG else 0))
                            (if reset then PARSE_RESET_FLAG else 0))
                     (if deprecated then PARSE_DEPRECATE_FLAG else 0))
              (Z.shiftl (Z.of_nat keyIdx) PARSE_KEY_IDX_SHIFT))
      (Z.of_nat optionId) in
  cfgParseOptionInfo info =
    {| resFound := true; resId := optionId; resKeyIdx := keyIdx; resNegate := negate;
       resReset := reset; resDeprecated := deprecated |} /\
  info <> 1 /\ info <> 63 /\ info <> 58 /\ 0 <= info < 2 ^ 31.
Proof.
  intros Hk Hid info.
  assert (Hinfo : exists flags,
            info = flags + Z.of_nat keyIdx * 256 + Z.of_nat optionId /\
            flags = 2 ^ 30 + (if negate then 2 ^ 29 else 0) + (if reset then 2 ^ 28 else 0) +
                    (if deprecated then 2 ^ 27 else 0)).
  { eexists. split; [| reflexivity]. unfold info.
    rewrite <- option_code_sum; [| | | exact Hk | exact Hid].
    - destruct negate, reset, deprecated; reflexivity.
    - destruct negate, reset, deprecated; vm_compute; discriminate.
    - destruct negate, reset, deprecated; reflexivity. }
  destruct Hinfo as (flags & Hsum & Hflags).
  assert (Hrange : 0 <= Z.of_nat keyIdx * 256 + Z.of_nat optionId < 2 ^ 16) by lia.
  clearbody info. subst info.
  split; [| destruct negate, reset, deprecated; lia].
  unfold cfgParseOptionInfo, PARSE_OPTION_MASK, PARSE_KEY_IDX_MASK, PARSE_KEY_IDX_SHIFT,
    PARSE_NEGATE_FLAG, PARSE_RESET_FLAG, PARSE_DEPRECATE_FLAG.
  rewrite !flag_test by lia.
  change 255 with (Z.ones 8). rewrite !Z.land_ones, Z.shiftr_div_pow2 by lia.
  f_equal.
  - apply Nat2Z.inj. rewrite Z2Nat.id by (apply Z.mod_pos_bound; lia).
    destruct negate, reset, deprecated; subst flags; Z.div_mod_to_equations; lia.
  - apply Nat2Z.inj. rewrite Z2Nat.id by (apply Z.mod_pos_bound; lia).
    destruct negate, reset, deprecated; subst flags; Z.div_mod_to_equations; lia.
  - destruct negate, reset, deprecated; subst flags; odd_flag.
  - destruct negate, reset, deprecated; subst flags; odd_flag.
  - destruct negate, reset, deprecated; subst flags; odd_flag.
Qed.

Lemma cfgParseOptionInfo_decodes_option_code_witness :
  cfgParseOptionInfo
    (Z.lor (Z.lor (Z.lor (Z.lor (Z.lor PARSE_OPTION_FLAG PARSE_NEGATE_FLAG) 0)
                     PARSE_DEPRECATE_FLAG)
              (Z.shiftl (Z.of_nat 2) PARSE_KEY_IDX_SHIFT))
       (Z.of_nat 4)) =
    {| resFound := true; resId := 4; resKeyIdx := 2; resNegate := true; resReset := false;
       resDeprecated := true |}.
Proof.
  apply (proj1 (cfgParseOptionInfo_decodes_option_code true false true 2 4
                  ltac:(lia) ltac:(lia))).
Defined.

(** ** Option ids by name *)

Lemma cfgParseOptionId_step (rules : ParseRules) (optionName : string) (n : nat) (start : Z) :
  fold_left (fun (result : Z) (optionId : nat) =>
               if strEq optionName (optName (ruleOption rules optionId))
               then Z.of_nat optionId else result) (seq 0 (S n)) start =
    if strEq optionName (optName (ruleOption rules n)) then Z.of_nat n
    else fold_left (fun (result : Z) (optionId : nat) =>
                      if strEq optionName (optName (ruleOption rules optionId))
                      then Z.of_nat optionId else result) (seq 0 n) start.
Proof. rewrite seq_S, fold_left_app. reflexivity. Qed.

(** The scan over the first [n] options: the last match below [n]. *)
Lemma cfgParseOptionId_scan (rules : ParseRules) (optionName : string) (n : nat) :
  let result :=
    fold_left (fun (result : Z) (optionId : nat) =>
                 if strEq optionName (optName (ruleOption rules optionId))
                 then Z.of_nat optionId else result) (seq 0 n) (-1) in
  (result = -1 /\ forall id, (id < n)%nat -> optName (ruleOption rules id) <> optionName) \/
  (exists id, result = Z.of_nat id /\ (id < n)%nat /\
     optName (ruleOption rules id) = optionName /\
     forall id', (id < id' < n)%nat -> optName (ruleOption rules id') <> optionName).
Proof.
  induction n as [| n IH]; cbv zeta in *.
  - left. split; [reflexivity | intros id Hid; lia].
  - rewrite cfgParseOptionId_step. unfold strEq.
    destruct (String.eqb_spec optionName (optName (ruleOption rules n))) as [Heq | Hne].
    + right. exists n. repeat split; [lia | congruence | intros id' Hid'; lia].
    + destruct IH as [[Hres Hnone] | (id & Hres & Hlt & Hname & Hlast)].
      * left. split; [exact Hres |]. intros id Hid.
        destruct (decide (id = n)) as [-> | Hn]; [congruence | apply Hnone; lia].
      * right. exists id. repeat split; [exact Hres | lia | exact Hname |].
        intros id' Hid'. destruct (decide (id' = n)) as [-> | Hn]; [congruence |].
        apply Hlast. lia.
Qed.

(** X4: [cfgParseOptionId] returns the id of the last option of the table
    with the name and [-1] when no option has it; where the names of the table
    are distinct it is the inverse of [cfgParseOptionName]. *)
Theorem cfgParseOptionId_last_match (rules : ParseRules) (optionName : string) :
  (cfgParseOptionId rules optionName = -1 <->
   forall id, (id < CFG_OPTION_TOTAL rules)%nat ->
              optName (ruleOption rules id) <> optionName) /\
  (forall id, cfgParseOptionId rules optionName = Z.of_nat id ->
     cfgParseOptionName rules id = Ok optionName /\
     forall id', (id < id' < CFG_OPTION_TOTAL rules)%nat ->
                 optName (ruleOption rules id') <> optionName) /\
  (NoDup (map optName (parseRuleOption rules)) ->
   forall id, cfgParseOptionName rules id = Ok optionName ->
              cfgParseOptionId rules optionName = Z.of_nat id).
Proof.
  pose proof (cfgParseOptionId_scan rules optionName (CFG_OPTION_TOTAL rules)) as Hscan.
  cbv zeta in Hscan. fold (cfgParseOptionId rules optionName) in Hscan.
  assert (Hname : forall id, cfgParseOptionName rules id = Ok optionName <->
                    (id < CFG_OPTION_TOTAL rules)%nat /\
                    optName (ruleOption rules id) = optionName).
  { intros id. unfold cfgParseOptionName.
    destruct (Nat.ltb_spec id (CFG_OPTION_TOTAL rules)) as [Hlt | Hge].
    - split; [intros H; injection H as H; split; assumption | intros [_ ->]; reflexivity].
    - split; [discriminate | intros [Hlt _]; lia]. }
  split; [| split].
  - split.
    + intros Hres. destruct Hscan as [[_ Hnone] | (id & Hid & _)]; [exact Hnone | lia].
    + intros Hnone. destruct Hscan as [[Hres _] | (id & _ & Hlt & Hmatch & _)];
        [exact Hres | exfalso; exact (Hnone id Hlt Hmatch)].
  - intros id Hres. destruct Hscan as [[Hminus _] | (id0 & Hid0 & Hlt & Hmatch & Hlast)];
      [lia |].
    assert (id0 = id) as -> by lia.
    split; [apply Hname; split; assumption | exact Hlast].
  - intros Hnodup id Hid. apply Hname in Hid. destruct Hid as [Hlt Hmatch].
    destruct Hscan as [[_ Hnone] | (id0 & Hid0 & Hlt0 & Hmatch0 & _)];
      [exfalso; exact (Hnone id Hlt Hmatch) |].
    rewrite Hid0. f_equal.
    unfold ruleOption, CFG_OPTION_TOTAL in *.
    apply (NoDup_lookup _ id0 id optionName Hnodup); rewrite list_lookup_fmap.
    + destruct (nth_lookup_or_length (parseRuleOption rules) id0 ParseRuleOption_zero)
        as [-> | Hge]; [cbn; congruence | lia].
    + destruct (nth_lookup_or_length (parseRuleOption rules) id ParseRuleOption_zero)
        as [-> | Hge]; [cbn; congruence | lia].
Qed.

Lemma cfgParseOptionId_last_match_witness :
  cfgParseOptionId Demo.rules "pg-path" = Z.of_nat Demo.optPgPath /\
  cfgParseOptionId Demo.rules "pg1-path" = -1.
Proof.
  pose proof (cfgParseOptionId_last_match Demo.rules "pg-path") as (_ & _ & Hinverse).
  split; [| reflexivity].
  apply Hinverse; [| reflexivity].
  apply (bool_decide_unpack _). vm_compute. reflexivity.
Defined.

(** ** Option names with a key index *)

Lemma substring_all (s : string) : substring 0 (String.length s) s = s.
Proof. induction s as [| c s IH]; [reflexivity |]. cbn [String.length substring]. rewrite IH. reflexivity. Qed.

Lemma strDrop_append (prefix s : string) :
  strDrop (String.length prefix) (prefix +:+ s) = s.
Proof.
  unfold strDrop. induction prefix as [| c prefix IH].
  - change (EmptyString +:+ s) with s. cbn [String.length]. rewrite Nat.sub_0_r.
    apply substring_all.
  - change (String c prefix +:+ s) with (String c (prefix +:+ s)).
    cbn [String.length substring]. exact IH.
Qed.

(** X5: the name of a grouped option at a key index is the group name, the
    key index plus one in decimal and what follows the group name in the option
    name ([pg-path] at key index 2 is [pg3-path]); an option outside a group
    has its stored name at key index 0 and no name at any other key index. *)
Theorem cfgParseOptionKeyIdxName_inserts_key (rules : ParseRules) (optionId keyIdx : nat) :
  (optionId < CFG_OPTION_TOTAL rules)%nat ->
  let rule := ruleOption rules optionId in
  let groupName := grpName (ruleOptionGroup rules (optGroupId rule)) in
  (optGroup rule = true ->
   forall suffix : string,
     optName rule = groupName +:+ suffix ->
     cfgParseOptionKeyIdxName rules optionId keyIdx =
       Ok (groupName +:+ fmtUInt (Z.of_nat keyIdx + 1) +:+ suffix)) /\
  (optGroup rule = false ->
   (keyIdx = 0%nat -> cfgParseOptionKeyIdxName rules optionId keyIdx = Ok (optName rule)) /\
   (keyIdx <> 0%nat -> isThrow AssertError (cfgParseOptionKeyIdxName rules optionId keyIdx))).
Proof.
  intros Hid rule groupName. apply Nat.ltb_lt in Hid.
  unfold cfgParseOptionKeyIdxName. rewrite Hid. fold rule. split.
  - intros Hgroup suffix Hname. rewrite Hgroup. cbn [negb andb orb]. fold groupName.
    rewrite Hname, strDrop_append. reflexivity.
  - intros Hgroup. rewrite Hgroup. cbn [negb andb orb]. split.
    + intros ->. reflexivity.
    + intros Hne. apply Nat.eqb_neq in Hne. rewrite Hne. eexists. reflexivity.
Qed.

Lemma cfgParseOptionKeyIdxName_inserts_key_witness :
  cfgParseOptionKeyIdxName Demo.rules Demo.optPgPath 2 = Ok "pg3-path"%string /\
  cfgParseOptionKeyIdxName Demo.rules Demo.optStanza 0 = Ok "stanza"%string /\
  isThrow AssertError (cfgParseOptionKeyIdxName Demo.rules Demo.optStanza 1).
Proof.
  split; [| split].
  - apply (proj1 (cfgParseOptionKeyIdxName_inserts_key Demo.rules Demo.optPgPath 2
                    ltac:(vm_compute; lia)) eq_refl "-path"%string eq_refl).
  - apply (proj2 (cfgParseOptionKeyIdxName_inserts_key Demo.rules Demo.optStanza 0
                    ltac:(vm_compute; lia)) eq_refl); reflexivity.
  - apply (proj2 (cfgParseOptionKeyIdxName_inserts_key Demo.rules Demo.optStanza 1
                    ltac:(vm_compute; lia)) eq_refl); discriminate.
Defined.

(** ** Allocation of the parsed values *)

Lemma parseOptionIdxValue_succeeds (rules : ParseRules) (optionList : list ParseOption)
    (optionId optionKeyIdx : nat) :
  (optionId < length optionList)%nat ->
  optGroup (ruleOption rules optionId) = true \/ optionKeyIdx = 0%nat ->
  exists optionList',
    parseOptionIdxValue rules optionList optionId optionKeyIdx = Ok optionList' /\
    length optionList' = length optionList.
Proof.
  intros Hid Hkey. unfold parseOptionIdxValue.
  destruct (optionList !! optionId) as [po |] eqn:Hpo;
    [| apply lookup_ge_None in Hpo; lia].
  destruct (indexListTotal po <=? optionKeyIdx)%nat; [| eexists; split; reflexivity].
  destruct (optGroup (ruleOption rules optionId)).
  - destruct (indexListTotal po =? 0)%nat; eexists; (split; [reflexivity |]);
      apply length_insert.
  - destruct Hkey as [Hgroup | ->]; [discriminate |].
    cbn [Nat.eqb]. eexists. split; [reflexivity | apply length_insert].
Qed.

(** X3: [parseOptionIdxValue] succeeds for every option of the list at key
    index 0 and for a grouped option at any key index; afterwards the key index
    is allocated, the list has its length, no other option is touched, and
    every value reads as before (what is new is zero, as an unallocated value
    reads). *)
Theorem parseOptionIdxValue_allocates (rules : ParseRules) (optionList : list ParseOption)
    (optionId optionKeyIdx : nat) :
  (optionId < length optionList)%nat ->
  optGroup (ruleOption rules optionId) = true \/ optionKeyIdx = 0%nat ->
  exists optionList',
    parseOptionIdxValue rules optionList optionId optionKeyIdx = Ok optionList' /\
    length optionList' = length optionList /\
    (exists po, optionList' !! optionId = Some po /\ (optionKeyIdx < indexListTotal po)%nat) /\
    (forall id, id <> optionId -> optionList' !! id = optionList !! id) /\
    (forall id k, parseOptionValueAt optionList' id k = parseOptionValueAt optionList id k).
Proof.
  intros Hid Hkey.
  destruct (parseOptionIdxValue_succeeds rules optionList optionId optionKeyIdx Hid Hkey)
    as (optionList' & Hcall & Hlen).
  exists optionList'. split; [exact Hcall |]. split; [exact Hlen |]. split; [| split].
  - eapply parseOptionIdxValue_allocated. exact Hcall.
  - eapply parseOptionIdxValue_other. exact Hcall.
  - eapply parseOptionIdxValue_at. exact Hcall.
Qed.

Lemma parseOptionIdxValue_allocates_witness :
  exists optionList',
    parseOptionIdxValue Demo.rules Demo.stanzaOptionList Demo.optPgPath 6 = Ok optionList' /\
    length optionList' = length Demo.stanzaOptionList /\
    (exists po, optionList' !! Demo.optPgPath = Some po /\ (6 < indexListTotal po)%nat) /\
    (forall id, id <> Demo.optPgPath -> optionList' !! id = Demo.stanzaOptionList !! id) /\
    (forall id k, parseOptionValueAt optionList' id k =
                  parseOptionValueAt Demo.stanzaOptionList id k).
Proof.
  apply (parseOptionIdxValue_allocates Demo.rules Demo.stanzaOptionList Demo.optPgPath 6).
  - vm_compute. lia.
  - left. reflexivity.
Defined.

(** ** Integers in the optional data *)

Lemma to_int32_small (z : Z) : - 2 ^ 31 <= z < 2 ^ 31 -> to_int32 z = z.
Proof.
  intros Hz. unfold to_int32. cbv zeta.
  destruct (Z.ltb_spec (z mod 2 ^ 32) (2 ^ 31)) as [Hlt | Hge];
    revert Hlt || revert Hge; Z.div_mod_to_equations; lia.
Qed.

Lemma to_int32_wrap (z : Z) :
  0 <= z < 2 ^ 32 -> to_int32 z = if z <? 2 ^ 31 then z else z - 2 ^ 32.
Proof.
  intros Hz. unfold to_int32. rewrite Z.mod_small by lia. reflexivity.
Qed.

Lemma to_int64_small (z : Z) : INT64_MIN <= z <= INT64_MAX -> to_int64 z = z.
Proof.
  unfold to_int64, UINT64_MODULUS, INT64_MIN, INT64_MAX. cbv zeta. intros Hz.
  destruct (Z.leb_spec 0 z) as [Hpos | Hneg].
  - rewrite Z.mod_small by lia.
    destruct (Z.leb_spec z (2 ^ 63 - 1)); [reflexivity | lia].
  - replace (z mod 2 ^ 64) with (z + 2 ^ 64)
      by (apply (Z.mod_unique z (2 ^ 64) (-1)); lia).
    destruct (Z.leb_spec (z + 2 ^ 64) (2 ^ 63 - 1)); lia.
Qed.

(** A negative low word fills the high word with ones. *)
Lemma lor_negative_low (hi lo : Z) :
  - 2 ^ 32 <= lo < 0 -> Z.lor (Z.shiftl hi 32) lo = lo.
Proof.
  intros Hlo. apply Z.bits_inj'. intros m Hm. rewrite Z.lor_spec.
  destruct (Z.ltb_spec m 32) as [Hlt | Hge].
  - rewrite Z.shiftl_spec_low by lia. reflexivity.
  - rewrite (Z.bits_above_log2_neg lo m); [apply orb_true_r | lia |].
    destruct (Z.eq_dec lo (-1)) as [-> | Hne]; [simpl; lia |].
    assert (Z.log2 (Z.pred (- lo)) < 32) by (apply Z.log2_lt_pow2; lia). lia.
Qed.

(** What [PARSE_RULE_DATA_INT64] reads back from the two cells
    [PARSE_RULE_OPTION_OPTIONAL_ALLOW_RANGE] writes for a bound. *)
Lemma allow_range_cells (v : Z) :
  INT64_MIN <= v <= INT64_MAX ->
  to_int64 (Z.lor (Z.shiftl (to_int32 (Z.shiftr v 32)) 32)
                  (to_int32 (Z.land v 4294967295))) =
    if v mod 2 ^ 32 <? 2 ^ 31 then v else v mod 2 ^ 32 - 2 ^ 32.
Proof.
  unfold INT64_MIN, INT64_MAX. intros Hv.
  change 4294967295 with (Z.ones 32). rewrite Z.land_ones, Z.shiftr_div_pow2 by lia.
  assert (Hlo : 0 <= v mod 2 ^ 32 < 2 ^ 32) by (apply Z.mod_pos_bound; lia).
  assert (Hhi : - 2 ^ 31 <= v / 2 ^ 32 < 2 ^ 31) by (Z.div_mod_to_equations; lia).
  rewrite (to_int32_small (v / 2 ^ 32)) by exact Hhi.
  rewrite to_int32_wrap by exact Hlo.
  destruct (Z.ltb_spec (v mod 2 ^ 32) (2 ^ 31)) as [Hlt | Hge].
  - rewrite lor_shiftl_add by lia.
    rewrite to_int64_small; unfold INT64_MIN, INT64_MAX;
      pose proof (Z.div_mod v (2 ^ 32) ltac:(lia)); lia.
  - rewrite lor_negative_low by lia.
    apply to_int64_small. unfold INT64_MIN, INT64_MAX. lia.
Qed.

(** X2: the bounds of an allow range round trip through the optional data
    when the low 32 bits of the bound are below 2^31; otherwise the sign of the
    low word spills into the high word and the bound is read back as the low
    word alone, sign extended.  The bounds are the ones the lookup finds for
    the command. *)
Theorem PARSE_RULE_DATA_INT64_reads_allow_range (rules : ParseRules)
    (commandId optionId : nat) (records : list DataRecord) (rangeMin rangeMax : Z) :
  optData (ruleOption rules optionId) = Some (encodeRecords records) ->
  Forall recordWf records ->
  Z.of_nat commandId <> UINT_MAX ->
  dataFindFirstScoped parseRuleOptionDataTypeAllowRange (Z.of_nat commandId) records =
    Some {| recType := parseRuleOptionDataTypeAllowRange; recData := 0;
            recList := tail (PARSE_RULE_OPTION_OPTIONAL_ALLOW_RANGE rangeMin rangeMax) |} ->
  INT64_MIN <= rangeMin <= INT64_MAX ->
  INT64_MIN <= rangeMax <= INT64_MAX ->
  let readBack (v : Z) := if v mod 2 ^ 32 <? 2 ^ 31 then v else v mod 2 ^ 32 - 2 ^ 32 in
  exists allowRange : ParseRuleOptionData,
    parseRuleOptionDataFind rules parseRuleOptionDataTypeAllowRange commandId optionId =
      Ok allowRange /\
    rodFound allowRange = true /\
    PARSE_RULE_DATA_INT64 allowRange 0 = Ok (readBack rangeMin) /\
    PARSE_RULE_DATA_INT64 allowRange 2 = Ok (readBack rangeMax).
Proof.
  intros Hdata Hwf Hcommand Hfind Hmin Hmax readBack.
  eexists. split.
  - rewrite (parseRuleOptionDataFind_records rules _ commandId optionId records)
      by (assumption || discriminate).
    rewrite Hfind. reflexivity.
  - cbn [dataOfRecord rodFound]. split; [reflexivity |].
    unfold PARSE_RULE_DATA_INT64, dataListInt.
    cbn [rodList recList PARSE_RULE_OPTION_OPTIONAL_ALLOW_RANGE tail lookup list_lookup
         Nat.add bind].
    rewrite !allow_range_cells by assumption. split; reflexivity.
Qed.

(** The range of [buffer-size] reads back as written; a bound of 2^31 would
    read back as -2^31. *)
Lemma PARSE_RULE_DATA_INT64_reads_allow_range_witness :
  (exists allowRange : ParseRuleOptionData,
     parseRuleOptionDataFind Demo.rules parseRuleOptionDataTypeAllowRange Demo.cmdBackup
       Demo.optBufferSize = Ok allowRange /\
     rodFound allowRange = true /\
     PARSE_RULE_DATA_INT64 allowRange 0 = Ok 16384 /\
     PARSE_RULE_DATA_INT64 allowRange 2 = Ok 16777216) /\
  PARSE_RULE_DATA_INT64
    {| rodFound := true; rodData := 0; rodListSize := 4;
       rodList := tail (PARSE_RULE_OPTION_OPTIONAL_ALLOW_RANGE 0 (2 ^ 31)) |} 2 =
    Ok (- 2 ^ 31).
Proof.
  split; [| reflexivity].
  apply (PARSE_RULE_DATA_INT64_reads_allow_range Demo.rules Demo.cmdBackup Demo.optBufferSize
           [ {| recType := parseRuleOptionDataTypeAllowRange; recData := 0;
                recList := tail (PARSE_RULE_OPTION_OPTIONAL_ALLOW_RANGE 16384 16777216) |};
             {| recType := parseRuleOptionDataTypeDefault; recData := 0;
                recList := [CellStr "1048576"] |} ] 16384 16777216).
  - reflexivity.
  - repeat (apply Forall_cons; split;
            [unfold recordWf; simpl; repeat split; (lia || discriminate) |]).
    apply Forall_nil. exact I.
  - vm_compute. discriminate.
  - reflexivity.
  - vm_compute. split; discriminate.
  - vm_compute. split; discriminate.
Defined.

(** ** Size values: what is accepted and what is returned *)

Lemma convertToByte_spec_values_witness :
  regExpMatchOne sizeExpressionSpec (strLower "64KB") = true /\
  convertToByte "64KB" = Ok (to_uint64 (64 * 1024)).
Proof.
  apply (convertToByte_spec_values "64KB" "64" "kb" 64 1024).
  - reflexivity.
  - discriminate.
  - reflexivity.
  - reflexivity.
  - reflexivity.
Defined.

(** An expression that starts with the empty language matches nothing. *)
Lemma regExpMatchOne_seq_none (a b : RegExp) (s : string) :
  regExpMatchOne (ReSeq (ReSeq ReNone a) b) s = false.
Proof. induction s as [| c s IH]; [reflexivity | exact IH]. Qed.

Lemma sizeExpression_leading_digit (s : string) :
  regExpMatchOne sizeExpression s = true ->
  exists c rest, s = String c rest /\ isDigit c = true.
Proof.
  destruct s as [| c rest]; [discriminate |]. intros Hmatch.
  exists c, rest. split; [reflexivity |].
  destruct (isDigit c) eqn:Hdigit; [reflexivity | exfalso].
  unfold sizeExpression, RePlus in Hmatch. cbn [regExpMatchOne reDerive reNullable andb] in Hmatch.
  change (nat_of_ascii "0") with 48%nat in Hmatch.
  change (nat_of_ascii "9") with 57%nat in Hmatch.
  unfold isDigit in Hdigit. rewrite Hdigit in Hmatch.
  rewrite regExpMatchOne_seq_none in Hmatch. discriminate Hmatch.
Qed.

(** X7: [convertToByte] fails with the [FormatError] "value '...' is not
    valid" on every value that does not begin with a decimal digit (the empty
    string, a sign, a bare qualifier), and whatever it returns lies in the range
    of [uint64_t]. *)
Theorem convertToByte_leading_digit_and_range (value : string) :
  (forall n : Z, convertToByte value = Ok n -> 0 <= n < UINT64_MODULUS) /\
  (match strLower value with
   | String c _ => isDigit c
   | EmptyString => false
   end = false ->
   convertToByte value = Throw FormatError ("value '" +:+ value +:+ "' is not valid")).
Proof.
  split.
  - intros n H. unfold convertToByte in H. cbv zeta in H.
    assert (Hrange : forall x, 0 <= to_uint64 x < UINT64_MODULUS)
      by (intros x; apply Z.mod_pos_bound; reflexivity).
    destruct (regExpMatchOne sizeExpression (strLower value)); [| discriminate].
    match type of H with
    | (if ?c then _ else _) = _ => destruct c
    end.
    + bind_inv H. injection H as <-. apply Hrange.
    + bind_inv H. bind_inv H. injection H as <-. apply Hrange.
  - intros Hlead. unfold convertToByte.
    destruct (regExpMatchOne sizeExpression (strLower value)) eqn:Hmatch; [| reflexivity].
    apply sizeExpression_leading_digit in Hmatch. destruct Hmatch as (c & rest & Hs & Hc).
    rewrite Hs, Hc in Hlead. discriminate Hlead.
Qed.

Lemma convertToByte_leading_digit_and_range_witness :
  convertToByte "-5" = Throw FormatError "value '-5' is not valid" /\
  convertToByte "kb" = Throw FormatError "value 'kb' is not valid" /\
  convertToByte "" = Throw FormatError "value '' is not valid" /\
  0 <= 5120 < UINT64_MODULUS.
Proof.
  split; [| split; [| split]].
  - apply (proj2 (convertToByte_leading_digit_and_range "-5")). reflexivity.
  - apply (proj2 (convertToByte_leading_digit_and_range "kb")). reflexivity.
  - apply (proj2 (convertToByte_leading_digit_and_range "")). reflexivity.
  - apply (proj1 (convertToByte_leading_digit_and_range "5k") 5120). reflexivity.
Defined.

(** ** Which files the loader reads *)

(** X8: with [--no-config] and neither [--config-path] nor
    [--config-include-path] on the command line nothing is loaded, whatever the
    storage holds: no file is read and no directory is listed. *)
Theorem cfgFileLoad_no_config_loads_nothing (rules : ParseRules) (ext : Collaborators)
    (optionList : list ParseOption)
    (optConfigDefault optConfigIncludePathDefault origConfigDefault : string) :
  optionFound optionList (cfgOptConfig rules) = true ->
  povNegate (parseOptionValueAt optionList (cfgOptConfig rules) 0) = true ->
  optionFound optionList (cfgOptConfigPath rules) = false ->
  optionFound optionList (cfgOptConfigIncludePath rules) = false ->
  cfgFileLoad rules ext optionList optConfigDefault optConfigIncludePathDefault
    origConfigDefault = Ok None.
Proof.
  intros Hconfig Hnegate Hpath Hinclude. unfold cfgFileLoad.
  rewrite Hconfig, Hpath, Hinclude, Hnegate.
  unfold optionFound in Hconfig. apply andb_true_iff in Hconfig. destruct Hconfig as [-> _].
  reflexivity.
Qed.

Lemma cfgFileLoad_no_config_loads_nothing_witness :
  cfgFileLoad Demo.rules (Demo.ext Demo.emptyMainFiles Demo.emptyMainDirs)
    Demo.noConfigOptionList "/etc/pgbackrest/pgbackrest.conf" "/etc/pgbackrest/conf.d"
    PGBACKREST_CONFIG_ORIG_PATH_FILE = Ok None.
Proof.
  apply cfgFileLoad_no_config_loads_nothing; reflexivity.
Defined.

(** X9: with [--config=file] and neither [--config-path] nor
    [--config-include-path], the result is the content of that file exactly, and
    the file must exist: the defaults, the original default location and the
    include directory play no part. *)
Theorem cfgFileLoad_config_only (rules : ParseRules) (ext : Collaborators)
    (optionList : list ParseOption)
    (optConfigDefault optConfigIncludePathDefault origConfigDefault : string)
    (file : string) (others : list string) :
  optionFound optionList (cfgOptConfig rules) = true ->
  povNegate (parseOptionValueAt optionList (cfgOptConfig rules) 0) = false ->
  povValueList (parseOptionValueAt optionList (cfgOptConfig rules) 0) = Some (file :: others) ->
  optionFound optionList (cfgOptConfigPath rules) = false ->
  optionFound optionList (cfgOptConfigIncludePath rules) = false ->
  cfgFileLoad rules ext optionList optConfigDefault optConfigIncludePathDefault
    origConfigDefault =
    match fsFile (fileSystem ext) file with
    | Some content => Ok (Some content)
    | None =>
        Throw FileMissingError ("unable to open missing file '" +:+ file +:+ "' for read")
    end.
Proof.
  intros Hconfig Hnegate Hvalue Hpath Hinclude. unfold cfgFileLoad.
  rewrite Hconfig, Hpath, Hinclude, Hnegate, Hvalue, andb_false_r.
  cbn [bind orb negb andb valueListFirst]. unfold storageGet.
  destruct (fsFile (fileSystem ext) file); reflexivity.
Qed.

(** X10: with none of the three options on the command line and no include
    directory, the current default file is loaded, the original default
    location is tried only when the current default is missing, and missing
    files are no error; what was loaded is validated as INI. *)
Theorem cfgFileLoad_defaults_fall_back (rules : ParseRules) (ext : Collaborators)
    (optionList : list ParseOption)
    (optConfigDefault optConfigIncludePathDefault origConfigDefault : string) :
  indexListNotNull optionList (cfgOptConfig rules) = false ->
  optionFound optionList (cfgOptConfigPath rules) = false ->
  optionFound optionList (cfgOptConfigIncludePath rules) = false ->
  fsDir (fileSystem ext) optConfigIncludePathDefault = None ->
  cfgFileLoad rules ext optionList optConfigDefault optConfigIncludePathDefault
    origConfigDefault =
    match fsFile (fileSystem ext) optConfigDefault with
    | Some content => do ini <-- iniParse ext content ;; Ok (Some content)
    | None =>
        match fsFile (fileSystem ext) origConfigDefault with
        | Some content => do ini <-- iniParse ext content ;; Ok (Some content)
        | None => Ok None
        end
    end.
Proof.
  intros Hconfig Hpath Hinclude Hdir. unfold cfgFileLoad.
  assert (Hfound : optionFound optionList (cfgOptConfig rules) = false)
    by (unfold optionFound; rewrite Hconfig; reflexivity).
  rewrite Hfound, Hpath, Hinclude, Hconfig.
  cbn [bind orb negb andb]. unfold storageGet, storageDriverPosixList.
  rewrite Hdir, String.eqb_refl || (unfold strEq; rewrite Hdir, String.eqb_refl).
  destruct (fsFile (fileSystem ext) optConfigDefault) as [content |]; cbn [bind].
  - destruct (iniParse ext content); reflexivity.
  - destruct (fsFile (fileSystem ext) origConfigDefault) as [content |]; cbn [bind];
      [destruct (iniParse ext content) |]; reflexivity.
Qed.

Lemma cfgFileLoad_config_only_witness :
  cfgFileLoad Demo.rules
    (Demo.ext [("/tmp/my.conf", "[global]"); ("/etc/pgbackrest/conf.d/a.conf", "[demo]")]
       Demo.emptyMainDirs)%string
    (<[Demo.optConfig :=
         {| indexList :=
              [parseOptionValueFound cfgSourceParam (Some ["/tmp/my.conf"%string])] |}]>
       (replicate (CFG_OPTION_TOTAL Demo.rules) ParseOption_zero))
    "/etc/pgbackrest/pgbackrest.conf" "/etc/pgbackrest/conf.d"
    PGBACKREST_CONFIG_ORIG_PATH_FILE = Ok (Some "[global]"%string).
Proof.
  lazymatch goal with
  | |- cfgFileLoad ?r ?e ?l ?a ?b ?c = _ =>
      refine (cfgFileLoad_config_only r e l a b c "/tmp/my.conf"%string [] _ _ _ _ _)
  end; reflexivity.
Defined.

Lemma cfgFileLoad_defaults_fall_back_witness :
  cfgFileLoad Demo.rules (Demo.ext [("/etc/pgbackrest.conf", "[global]")] [])%string
    (replicate (CFG_OPTION_TOTAL Demo.rules) ParseOption_zero)
    "/etc/pgbackrest/pgbackrest.conf" "/etc/pgbackrest/conf.d"
    PGBACKREST_CONFIG_ORIG_PATH_FILE = Ok (Some "[global]"%string).
Proof.
  lazymatch goal with
  | |- cfgFileLoad ?r ?e ?l ?a ?b ?c = _ =>
      refine (cfgFileLoad_defaults_fall_back r e l a b c _ _ _ _)
  end; reflexivity.
Defined.

(** ** The order of the include files *)

Lemma ascii_compare_le_trans (a b c : ascii) :
  Ascii.compare a b <> Gt -> Ascii.compare b c <> Gt -> Ascii.compare a c <> Gt.
Proof.
  unfold Ascii.compare. rewrite !N.compare_gt_iff. lia.
Qed.

Lemma ascii_compare_lt_trans (a b c : ascii) :
  Ascii.compare a b = Lt -> Ascii.compare b c <> Gt -> Ascii.compare a c = Lt.
Proof.
  unfold Ascii.compare. rewrite !N.compare_lt_iff, N.compare_gt_iff. lia.
Qed.

Lemma ascii_compare_le_lt_trans (a b c : ascii) :
  Ascii.compare a b <> Gt -> Ascii.compare b c = Lt -> Ascii.compare a c = Lt.
Proof.
  unfold Ascii.compare. rewrite !N.compare_lt_iff, N.compare_gt_iff. lia.
Qed.

Lemma string_compare_le_trans (a b c : string) :
  String.compare a b <> Gt -> String.compare b c <> Gt -> String.compare a c <> Gt.
Proof.
  revert b c. induction a as [| x a IH]; intros [| y b] [| z c]; cbn [String.compare];
    try congruence.
  destruct (Ascii.compare x y) eqn:Hxy; [| | congruence].
  - apply Ascii.compare_eq_iff in Hxy. subst y.
    destruct (Ascii.compare x z); [apply IH | congruence | congruence].
  - destruct (Ascii.compare y z) eqn:Hyz; [| | congruence]; intros _ H.
    + apply Ascii.compare_eq_iff in Hyz. subst z. rewrite Hxy. congruence.
    + rewrite (ascii_compare_lt_trans x y z Hxy) by congruence. congruence.
Qed.

Lemma string_leb_trans (a b c : string) :
  String.leb a b = true -> String.leb b c = true -> String.leb a c = true.
Proof.
  unfold String.leb. intros Hab Hbc.
  pose proof (string_compare_le_trans a b c) as Htrans.
  destruct (String.compare a b); [| | discriminate];
    (destruct (String.compare b c); [| | discriminate]);
    (destruct (String.compare a c); [reflexivity | reflexivity |]);
    exfalso; apply Htrans; congruence.
Qed.

Lemma string_leb_false (a b : string) : String.leb a b = false -> String.leb b a = true.
Proof.
  intros H. destruct (String.leb_total a b) as [Hab | Hba]; [congruence | exact Hba].
Qed.

(** Insertions commute, so the sorted list does not depend on the order in
    which the names arrive. *)
Lemma strLstInsert_comm (x y : string) (l : list string) :
  strLstInsert x (strLstInsert y l) = strLstInsert y (strLstInsert x l).
Proof.
  induction l as [| z l IH]; cbn [strLstInsert].
  - destruct (String.leb x y) eqn:Hxy, (String.leb y x) eqn:Hyx; try reflexivity.
    + rewrite (String.leb_antisym x y Hxy Hyx). reflexivity.
    + apply string_leb_false in Hxy. congruence.
  - destruct (String.leb y z) eqn:Hyz, (String.leb x z) eqn:Hxz; cbn [strLstInsert].
    + destruct (String.leb x y) eqn:Hxy, (String.leb y x) eqn:Hyx; rewrite ?Hxz, ?Hyz;
        try reflexivity.
      * rewrite (String.leb_antisym x y Hxy Hyx). reflexivity.
      * apply string_leb_false in Hxy. congruence.
    + assert (Hxy : String.leb x y = false).
      { destruct (String.leb x y) eqn:Hxy; [| reflexivity].
        rewrite (string_leb_trans x y z Hxy Hyz) in Hxz. discriminate. }
      rewrite Hxy, Hxz, Hyz. reflexivity.
    + assert (Hyx : String.leb y x = false).
      { destruct (String.leb y x) eqn:Hyx; [| reflexivity].
        rewrite (string_leb_trans y x z Hyx Hxz) in Hyz. discriminate. }
      rewrite Hxz, Hyx, Hyz. reflexivity.
    + rewrite Hxz, Hyz, IH. reflexivity.
Qed.

Lemma strLstSort_Permutation (l l' : list string) :
  Permutation l l' -> strLstSort l = strLstSort l'.
Proof.
  induction 1 as [| x l l' _ IH | x y l | l l' l'' _ IH1 _ IH2]; cbn [strLstSort].
  - reflexivity.
  - rewrite IH. reflexivity.
  - apply strLstInsert_comm.
  - congruence.
Qed.

Lemma cfgFileLoadInclude_ext (ext ext' : Collaborators) (configIncludePath : string)
    (list : list string) (result : option string) :
  iniParse ext' = iniParse ext ->
  fsFile (fileSystem ext') = fsFile (fileSystem ext) ->
  cfgFileLoadInclude ext' configIncludePath list result =
    cfgFileLoadInclude ext configIncludePath list result.
Proof.
  intros Hini Hfile. revert result.
  induction list as [| file rest IH]; intros result; [reflexivity |].
  cbn [cfgFileLoadInclude]. unfold storageGet, cfgFileLoadPart. rewrite Hfile, Hini.
  destruct (fsFile (fileSystem ext) (configIncludePath +:+ "/" +:+ file)) as [part |];
    cbn [bind]; [| apply IH].
  destruct (0 <? strSize part)%nat; cbn [bind]; [| apply IH].
  destruct (iniParse ext part); cbn [bind]; [apply IH | reflexivity].
Qed.

(** X11: the loaded configuration does not depend on the order in which the
    include directory lists its entries: two storages with the same files whose
    directory listings are permutations of each other load the same text (or
    fail with the same error). *)
Theorem cfgFileLoad_listing_order (rules : ParseRules) (ext ext' : Collaborators)
    (optionList : list ParseOption)
    (optConfigDefault optConfigIncludePathDefault origConfigDefault : string) :
  iniParse ext' = iniParse ext ->
  fsFile (fileSystem ext') = fsFile (fileSystem ext) ->
  (forall path,
     match fsDir (fileSystem ext) path, fsDir (fileSystem ext') path with
     | Some entries, Some entries' => Permutation entries entries'
     | None, None => True
     | _, _ => False
     end) ->
  cfgFileLoad rules ext' optionList optConfigDefault optConfigIncludePathDefault
    origConfigDefault =
  cfgFileLoad rules ext optionList optConfigDefault optConfigIncludePathDefault
    origConfigDefault.
Proof.
  intros Hini Hfile Hdir. unfold cfgFileLoad. cbv zeta.
  unfold storageGet. rewrite Hini, Hfile.
  destruct (if optionFound optionList (cfgOptConfigPath rules) then _ else _)
    as [[configDefault includeDefault] |]; cbn [bind]; [| reflexivity].
  match goal with
  | |- bind ?main _ = bind ?main _ =>
      destruct main as [result |]; cbn [bind]; [| reflexivity]
  end.
  match goal with
  | |- (if ?c then _ else _) = _ => destruct c; [| reflexivity]
  end.
  destruct (match result with Some _ => _ | None => _ end); cbn [bind]; [| reflexivity].
  match goal with
  | |- bind ?p _ = bind ?p _ => destruct p as [configIncludePath |]; cbn [bind]; [| reflexivity]
  end.
  unfold storageDriverPosixList. specialize (Hdir configIncludePath).
  destruct (fsDir (fileSystem ext) configIncludePath) as [entries |],
           (fsDir (fileSystem ext') configIncludePath) as [entries' |];
    try contradiction;
    [| match goal with
       | |- context [if ?c then Throw _ _ else Ok None] => destruct c
       end; reflexivity].
  cbn [bind].
  match goal with
  | |- context [filter ?P entries'] =>
      assert (Hperm : Permutation (filter P entries') (filter P entries))
        by (apply filter_Permutation; symmetry; exact Hdir);
      rewrite (Permutation_length Hperm), (strLstSort_Permutation _ _ Hperm)
  end.
  destruct (0 <? _)%nat; [| reflexivity].
  apply cfgFileLoadInclude_ext; assumption.
Qed.

Lemma cfgFileLoad_listing_order_witness :
  cfgFileLoad Demo.rules
    (Demo.ext [("/etc/pgbackrest/conf.d/a.conf", "[a]"); ("/etc/pgbackrest/conf.d/b.conf", "[b]")]
       [("/etc/pgbackrest/conf.d", ["b.conf"; ".."; "a.conf"; "."])])%string
    (replicate (CFG_OPTION_TOTAL Demo.rules) ParseOption_zero)
    "/etc/pgbackrest/pgbackrest.conf" "/etc/pgbackrest/conf.d"
    PGBACKREST_CONFIG_ORIG_PATH_FILE =
  cfgFileLoad Demo.rules
    (Demo.ext [("/etc/pgbackrest/conf.d/a.conf", "[a]"); ("/etc/pgbackrest/conf.d/b.conf", "[b]")]
       [("/etc/pgbackrest/conf.d", ["."; ".."; "a.conf"; "b.conf"])])%string
    (replicate (CFG_OPTION_TOTAL Demo.rules) ParseOption_zero)
    "/etc/pgbackrest/pgbackrest.conf" "/etc/pgbackrest/conf.d"
    PGBACKREST_CONFIG_ORIG_PATH_FILE.
Proof.
  apply cfgFileLoad_listing_order; [reflexivity | reflexivity |].
  intros path. cbn [Demo.ext fileSystem fsDir find fst snd].
  unfold strEq. destruct (String.eqb path "/etc/pgbackrest/conf.d"); [| exact I].
  cbn [snd].
  transitivity ([".."; "a.conf"; "b.conf"]%string ++ ["."]%string);
    [apply Permutation_cons_append |].
  change ["b.conf"; ".."; "a.conf"; "."]%string
    with (("b.conf" :: [".."; "a.conf"])%string ++ ["."]%string).
  apply Permutation_app_tail. symmetry.
  apply (Permutation_cons_append [".."; "a.conf"]%string "b.conf"%string).
Defined.

(** ** Phase 1: errors and repeated options *)

Lemma foldResult_never_ok {A S : Type} (body : A -> S -> Result S) (a : A) (l : list A) :
  (forall s, isOk (body a s) = false) ->
  In a l -> forall s, isOk (foldResult body l s) = false.
Proof.
  intros Hbody. induction l as [| x l IH]; intros Hin s; [contradiction |].
  cbn [foldResult]. destruct Hin as [-> | Hin].
  - specialize (Hbody s). destruct (body a s); [discriminate | reflexivity].
  - destruct (body x s); [apply IH; exact Hin | reflexivity].
Qed.

Lemma isOk_bind_false {A B : Type} (r : Result A) (k : A -> Result B) :
  isOk r = false -> isOk (bind r k) = false.
Proof. destruct r; [discriminate | reflexivity]. Qed.

Lemma cfgParseOptionKeyIdxName_throw (rules : ParseRules) (optionId keyIdx : nat)
    (e : ErrorType) (msg : string) :
  cfgParseOptionKeyIdxName rules optionId keyIdx = Throw e msg -> e = AssertError.
Proof.
  unfold cfgParseOptionKeyIdxName.
  destruct (optionId <? CFG_OPTION_TOTAL rules)%nat; [| congruence].
  destruct (negb _ && _ || _); [| congruence].
  destruct (optGroup _); discriminate.
Qed.

(** X12: a secure option is never accepted from the command line: whatever
    else the command line, the environment and the configuration files hold, a
    command line that names a secure option does not parse. *)
Theorem configParse_refuses_secure_argument (rules : ParseRules) (ext : Collaborators)
    (exe : string) (args : list GetoptResult) (environ : list string) (g : GetoptResult) :
  In g args ->
  getoptIsOption g = true ->
  optSecure (ruleOption rules (resId (cfgParseOptionInfo (optionValue g)))) = true ->
  isOk (configParse rules ext exe args environ) = false /\
  forall parseOptionList,
    exists msg, parseArgOption rules g parseOptionList = Throw OptionInvalidError msg \/
                parseArgOption rules g parseOptionList = Throw AssertError msg.
Proof.
  intros Hin Hoption Hsecure.
  assert (Hthrow : forall parseOptionList,
            exists msg, parseArgOption rules g parseOptionList = Throw OptionInvalidError msg \/
                        parseArgOption rules g parseOptionList = Throw AssertError msg).
  { intros parseOptionList. unfold parseArgOption, cfgParseOptionSecure. cbv zeta.
    destruct (_ <? CFG_OPTION_TOTAL rules)%nat; [| eexists; right; reflexivity].
    cbn [bind]. rewrite Hsecure.
    destruct (cfgParseOptionKeyIdxName rules _ _) as [name | e msg] eqn:Hname; cbn [bind].
    - eexists. left. reflexivity.
    - apply cfgParseOptionKeyIdxName_throw in Hname. subst e.
      eexists. right. reflexivity. }
  split; [| exact Hthrow].
  unfold configParse, configParseArgs. apply isOk_bind_false. apply isOk_bind_false.
  apply (foldResult_never_ok _ g); [| exact Hin].
  intros st. unfold parseArg, getoptIsOption in *.
  destruct (optionValue g =? 1); [discriminate |].
  destruct (optionValue g =? 63); [discriminate |].
  destruct (optionValue g =? 58); [discriminate |].
  destruct (Hthrow (psParseOptionList st)) as (msg & [-> | ->]); reflexivity.
Qed.

Lemma configParse_refuses_secure_argument_witness :
  isOk (configParse Demo.rules (Demo.ext [] []) "pgbackrest"
          [Demo.arg "stanza" "demo"; Demo.arg "repo1-cipher-pass" "secret";
           Demo.positional "backup"] []) = false.
Proof.
  apply (configParse_refuses_secure_argument Demo.rules (Demo.ext [] []) "pgbackrest" _ []
           (Demo.arg "repo1-cipher-pass" "secret")).
  - right. left. reflexivity.
  - reflexivity.
  - reflexivity.
Defined.

(** ** An option given more than once *)

Lemma parseOptionValueAt_found_allocated (parseOptionList : list ParseOption) (id k : nat) :
  povFound (parseOptionValueAt parseOptionList id k) = true ->
  exists po, parseOptionList !! id = Some po /\ (k < indexListTotal po)%nat.
Proof.
  unfold parseOptionValueAt, indexListTotal.
  destruct (parseOptionList !! id) as [po |]; [| discriminate].
  intros Hfound. exists po. split; [reflexivity |].
  destruct (Nat.lt_ge_cases k (length (indexList po))) as [Hlt | Hge]; [exact Hlt |].
  rewrite nth_overflow in Hfound by exact Hge. discriminate Hfound.
Qed.

Lemma parseOptionIdxValue_noop (rules : ParseRules) (parseOptionList : list ParseOption)
    (id k : nat) (po : ParseOption) :
  parseOptionList !! id = Some po -> (k < indexListTotal po)%nat ->
  parseOptionIdxValue rules parseOptionList id k = Ok parseOptionList.
Proof.
  intros Hpo Hlt. unfold parseOptionIdxValue. rewrite Hpo.
  destruct (Nat.leb_spec (indexListTotal po) k); [lia | reflexivity].
Qed.

Lemma parseOptionValueSet_length (parseOptionList : list ParseOption) (id k : nat)
    (value : ParseOptionValue) :
  length (parseOptionValueSet parseOptionList id k value) = length parseOptionList.
Proof.
  unfold parseOptionValueSet. destruct (parseOptionList !! id); [apply length_insert | reflexivity].
Qed.

(** The first time a plain option with an argument is seen. *)
Lemma parseArgOption_first (rules : ParseRules) (g : GetoptResult)
    (parseOptionList : list ParseOption) :
  let opt := cfgParseOptionInfo (optionValue g) in
  resNegate opt = false -> resReset opt = false ->
  has_arg (nth (optionListIdx g) (optionList rules) GetoptOption_zero) = required_argument ->
  (resId opt < CFG_OPTION_TOTAL rules)%nat ->
  (resId opt < length parseOptionList)%nat ->
  optSecure (ruleOption rules (resId opt)) = false ->
  optGroup (ruleOption rules (resId opt)) = true \/ resKeyIdx opt = 0%nat ->
  povFound (parseOptionValueAt parseOptionList (resId opt) (resKeyIdx opt)) = false ->
  exists parseOptionList',
    parseArgOption rules g parseOptionList = Ok parseOptionList' /\
    length parseOptionList' = length parseOptionList /\
    parseOptionValueAt parseOptionList' (resId opt) (resKeyIdx opt) =
      parseOptionValueFound cfgSourceParam (Some [optarg g]) /\
    forall id k, (id, k) <> (resId opt, resKeyIdx opt) ->
      parseOptionValueAt parseOptionList' id k = parseOptionValueAt parseOptionList id k.
Proof.
  intros opt Hnegate Hreset Harg Hid Hlen Hsecure Hkey Hfound.
  destruct (parseOptionIdxValue_succeeds rules parseOptionList _ _ Hlen Hkey)
    as (allocated & Halloc & Hlength).
  pose proof (parseOptionIdxValue_at _ _ _ _ _ Halloc) as Hat.
  destruct (parseOptionIdxValue_allocated _ _ _ _ _ Halloc) as (po & Hpo & Hlt).
  unfold parseArgOption, cfgParseOptionSecure. cbv zeta. fold opt.
  apply Nat.ltb_lt in Hid. rewrite Hid. cbn [bind]. rewrite Hsecure, Halloc. cbn [bind].
  rewrite Hat, Hfound, Harg, Hnegate, Hreset. cbn [negb Z.eqb Pos.eqb required_argument].
  eexists. split; [reflexivity |]. split; [| split].
  - rewrite parseOptionValueSet_length. exact Hlength.
  - erewrite parseOptionValueSet_at_same by eassumption. reflexivity.
  - intros id k Hne. rewrite parseOptionValueSet_at_other by exact Hne. apply Hat.
Qed.

(** The same option seen again. *)
Lemma parseArgOption_again (rules : ParseRules) (g : GetoptResult)
    (parseOptionList : list ParseOption) (values : list string) :
  let opt := cfgParseOptionInfo (optionValue g) in
  resNegate opt = false -> resReset opt = false ->
  has_arg (nth (optionListIdx g) (optionList rules) GetoptOption_zero) = required_argument ->
  (resId opt < CFG_OPTION_TOTAL rules)%nat ->
  optSecure (ruleOption rules (resId opt)) = false ->
  parseOptionValueAt parseOptionList (resId opt) (resKeyIdx opt) =
    parseOptionValueFound cfgSourceParam (Some values) ->
  parseArgOption rules g parseOptionList =
    if optMulti (ruleOption rules (resId opt)) then
      Ok (parseOptionValueSet parseOptionList (resId opt) (resKeyIdx opt)
            (parseOptionValueFound cfgSourceParam (Some (values ++ [optarg g]))))
    else throwOption rules (resId opt) (resKeyIdx opt) "cannot be set multiple times".
Proof.
  intros opt Hnegate Hreset Harg Hid Hsecure Hvalue.
  assert (Hfound : povFound (parseOptionValueAt parseOptionList (resId opt) (resKeyIdx opt))
                   = true) by (rewrite Hvalue; reflexivity).
  destruct (parseOptionValueAt_found_allocated _ _ _ Hfound) as (po & Hpo & Hlt).
  unfold parseArgOption, cfgParseOptionSecure. cbv zeta. fold opt.
  apply Nat.ltb_lt in Hid. rewrite Hid. cbn [bind]. rewrite Hsecure.
  rewrite (parseOptionIdxValue_noop rules _ _ _ po Hpo Hlt). cbn [bind].
  rewrite Hvalue, Harg, Hnegate, Hreset.
  cbn [parseOptionValueFound povFound povNegate povReset povSource povValueList negb andb orb
       eqb Z.eqb Pos.eqb required_argument].
  destruct (optMulti (ruleOption rules (resId opt))); reflexivity.
Qed.

(** X13: an option with an argument given several times on the command
    line.  For an option that can be multiple the values are collected in the
    order given, nothing else is touched; for any other option the second
    occurrence is the error "cannot be set multiple times". *)
Theorem parseArgOption_repeated (rules : ParseRules) (g : GetoptResult)
    (parseOptionList : list ParseOption) (first : string) (others : list string) :
  let opt := cfgParseOptionInfo (optionValue g) in
  resNegate opt = false -> resReset opt = false ->
  has_arg (nth (optionListIdx g) (optionList rules) GetoptOption_zero) = required_argument ->
  (resId opt < CFG_OPTION_TOTAL rules)%nat ->
  (resId opt < length parseOptionList)%nat ->
  optSecure (ruleOption rules (resId opt)) = false ->
  optGroup (ruleOption rules (resId opt)) = true \/ resKeyIdx opt = 0%nat ->
  povFound (parseOptionValueAt parseOptionList (resId opt) (resKeyIdx opt)) = false ->
  let result :=
    foldResult (fun value => parseArgOption rules (getoptWithArg g value)) (first :: others)
      parseOptionList in
  (optMulti (ruleOption rules (resId opt)) = true \/ others = [] ->
   exists parseOptionList',
     result = Ok parseOptionList' /\
     parseOptionValueAt parseOptionList' (resId opt) (resKeyIdx opt) =
       parseOptionValueFound cfgSourceParam (Some (first :: others)) /\
     forall id k, (id, k) <> (resId opt, resKeyIdx opt) ->
       parseOptionValueAt parseOptionList' id k = parseOptionValueAt parseOptionList id k) /\
  (optMulti (ruleOption rules (resId opt)) = false -> others <> [] ->
   exists name,
     cfgParseOptionKeyIdxName rules (resId opt) (resKeyIdx opt) = Ok name /\
     result = Throw OptionInvalidError
                ("option '" +:+ name +:+ "' cannot be set multiple times")).
Proof.
  intros opt Hnegate Hreset Harg Hid Hlen Hsecure Hkey Hfound result.
  destruct (parseArgOption_first rules (getoptWithArg g first) parseOptionList
              Hnegate Hreset Harg Hid Hlen Hsecure Hkey Hfound)
    as (afterFirst & Hfirst & _ & Hvalue & Hframe).
  cbn [getoptWithArg optionValue optarg] in Hvalue, Hframe. fold opt in Hvalue, Hframe.
  assert (Hrest : forall (rest : list string) (l : list ParseOption) (seen : list string),
            optMulti (ruleOption rules (resId opt)) = true ->
            parseOptionValueAt l (resId opt) (resKeyIdx opt) =
              parseOptionValueFound cfgSourceParam (Some seen) ->
            exists l',
              foldResult (fun value => parseArgOption rules (getoptWithArg g value)) rest l
                = Ok l' /\
              parseOptionValueAt l' (resId opt) (resKeyIdx opt) =
                parseOptionValueFound cfgSourceParam (Some (seen ++ rest)) /\
              forall id k, (id, k) <> (resId opt, resKeyIdx opt) ->
                parseOptionValueAt l' id k = parseOptionValueAt l id k).
  { intros rest. induction rest as [| value rest IH]; intros l seen Hmulti Hseen.
    - exists l. rewrite app_nil_r. split; [reflexivity |]. split; [exact Hseen | reflexivity].
    - cbn [foldResult].
      rewrite (parseArgOption_again rules (getoptWithArg g value) l seen
                 Hnegate Hreset Harg Hid Hsecure Hseen).
      cbn [getoptWithArg optionValue optarg]. fold opt. rewrite Hmulti. cbn [bind].
      destruct (parseOptionValueAt_found_allocated l (resId opt) (resKeyIdx opt))
        as (po & Hpo & Hlt); [rewrite Hseen; reflexivity |].
      destruct (IH (parseOptionValueSet l (resId opt) (resKeyIdx opt)
                      (parseOptionValueFound cfgSourceParam (Some (seen ++ [value]))))
                  (seen ++ [value]) Hmulti) as (l' & Hfold & Hat & Hother).
      { eapply parseOptionValueSet_at_same; eassumption. }
      exists l'. split; [exact Hfold |]. split.
      + rewrite Hat, <- app_assoc. reflexivity.
      + intros id k Hne. rewrite Hother by exact Hne.
        apply parseOptionValueSet_at_other. exact Hne. }
  split.
  - intros Hmulti. unfold result. cbn [foldResult]. rewrite Hfirst. cbn [bind].
    destruct Hmulti as [Hmulti | ->].
    + destruct (Hrest others afterFirst [first] Hmulti Hvalue) as (l' & Hfold & Hat & Hother).
      exists l'. split; [exact Hfold |]. split; [exact Hat |].
      intros id k Hne. rewrite Hother by exact Hne. apply Hframe. exact Hne.
    + exists afterFirst. split; [reflexivity |]. split; [exact Hvalue | exact Hframe].
  - intros Hmulti Hothers. destruct others as [| second others]; [congruence |].
    unfold result. cbn [foldResult]. rewrite Hfirst. cbn [bind].
    rewrite (parseArgOption_again rules (getoptWithArg g second) afterFirst [first]
               Hnegate Hreset Harg Hid Hsecure Hvalue).
    cbn [getoptWithArg optionValue optarg]. fold opt. rewrite Hmulti.
    unfold throwOption.
    destruct (cfgParseOptionKeyIdxName rules (resId opt) (resKeyIdx opt)) as [name | e msg]
      eqn:Hname.
    + exists name. split; reflexivity.
    + exfalso. unfold cfgParseOptionKeyIdxName in Hname.
      apply Nat.ltb_lt in Hid. rewrite Hid in Hname.
      destruct (optGroup (ruleOption rules (resId opt))); cbn [negb andb orb] in Hname;
        [discriminate |].
      destruct Hkey as [Hgroup | Hzero]; [discriminate |].
      rewrite Hzero in Hname. discriminate Hname.
Qed.

Lemma parseArgOption_repeated_witness :
  (exists parseOptionList',
     foldResult (fun value => parseArgOption Demo.rules
                                (getoptWithArg (Demo.arg "db-include" "") value))
       ["a"; "b"; "c"]%string (replicate (CFG_OPTION_TOTAL Demo.rules) ParseOption_zero)
       = Ok parseOptionList' /\
     parseOptionValueAt parseOptionList' Demo.optDbInclude 0 =
       parseOptionValueFound cfgSourceParam (Some ["a"; "b"; "c"]%string)) /\
  foldResult (fun value => parseArgOption Demo.rules
                             (getoptWithArg (Demo.arg "buffer-size" "") value))
    ["64kb"; "32kb"]%string (replicate (CFG_OPTION_TOTAL Demo.rules) ParseOption_zero)
    = Throw OptionInvalidError "option 'buffer-size' cannot be set multiple times".
Proof.
  split.
  - destruct (proj1 (parseArgOption_repeated Demo.rules (Demo.arg "db-include" "")
                       (replicate (CFG_OPTION_TOTAL Demo.rules) ParseOption_zero)
                       "a"%string ["b"; "c"]%string
                       eq_refl eq_refl eq_refl ltac:(vm_compute; lia) ltac:(vm_compute; lia)
                       eq_refl (or_intror eq_refl) eq_refl) (or_introl eq_refl))
      as (l' & Hfold & Hat & _).
    exists l'. split; [exact Hfold | exact Hat].
  - destruct (proj2 (parseArgOption_repeated Demo.rules (Demo.arg "buffer-size" "")
                       (replicate (CFG_OPTION_TOTAL Demo.rules) ParseOption_zero)
                       "64kb"%string ["32kb"]%string
                       eq_refl eq_refl eq_refl ltac:(vm_compute; lia) ltac:(vm_compute; lia)
                       eq_refl (or_intror eq_refl) eq_refl) eq_refl ltac:(discriminate))
      as (name & Hname & Hfold).
    vm_compute in Hname. injection Hname as <-. exact Hfold.
Defined.

(** ** The command *)

Lemma parseArg_option_state (rules : ParseRules) (ext : Collaborators) (g : GetoptResult)
    (st st' : ParseState) :
  optionValue g <> 1 ->
  parseArg rules ext g st = Ok st' ->
  psConfig st' = psConfig st /\ psCommandSet st' = psCommandSet st /\ psArgFound st' = true.
Proof.
  intros Hg H. unfold parseArg in H. apply Z.eqb_neq in Hg. rewrite Hg in H.
  bind_inv H. injection H as <-. cbn [psConfig psCommandSet psArgFound].
  repeat case_head Ha. cbn [psConfig psCommandSet]. repeat split.
Qed.

(** X14: a command line without a positional argument has no command.
    With no argument at all help is requested and the parse succeeds with the
    command [none]; with any option but no command the parse does not succeed,
    and where every option is accepted the error is "no command found". *)
Theorem configParseArgs_without_command (rules : ParseRules) (ext : Collaborators)
    (exe : string) (args : list GetoptResult) :
  Forall (fun g => optionValue g <> 1) args ->
  (args = [] ->
   configParseArgs rules ext exe args =
     Ok (configSetCommand (configNew rules exe) (cfgCmdNone rules) 0 true,
         replicate (CFG_OPTION_TOTAL rules) ParseOption_zero)) /\
  (args <> [] ->
   isOk (configParseArgs rules ext exe args) = false /\
   forall st, foldResult (parseArg rules ext) args (parseStateInit rules exe) = Ok st ->
              configParseArgs rules ext exe args =
                Throw CommandRequiredError "no command found").
Proof.
  intros Hargs. split.
  - intros ->. reflexivity.
  - intros Hne.
    assert (Hloop : forall l s s',
              Forall (fun g => optionValue g <> 1) l -> l <> [] ->
              foldResult (parseArg rules ext) l s = Ok s' ->
              psConfig s' = psConfig s /\ psCommandSet s' = psCommandSet s /\
              psArgFound s' = true).
    { induction l as [| g l IH]; intros s s' Hl Hnil Hfold; [congruence |].
      cbn [foldResult] in Hfold. bind_inv Hfold.
      apply Forall_cons in Hl. destruct Hl as [Hg Hl].
      destruct (parseArg_option_state _ _ _ _ _ Hg Ha) as (Hc & Hs & Hf).
      destruct l as [| g' l].
      - injection Hfold as <-. repeat split; assumption.
      - destruct (IH a s' Hl ltac:(discriminate) Hfold) as (Hc' & Hs' & Hf').
        repeat split; congruence. }
    assert (Hthrow : forall st,
              foldResult (parseArg rules ext) args (parseStateInit rules exe) = Ok st ->
              configParseArgs rules ext exe args =
                Throw CommandRequiredError "no command found").
    { intros st Hfold. unfold configParseArgs. fold (parseStateInit rules exe).
      rewrite Hfold. cbn [bind].
      destruct (Hloop _ _ _ Hargs Hne Hfold) as (Hc & Hs & Hf).
      rewrite Hs, Hc, Hf. reflexivity. }
    split; [| exact Hthrow].
    destruct (foldResult (parseArg rules ext) args (parseStateInit rules exe)) as [st |]
      eqn:Hfold.
    + rewrite (Hthrow st eq_refl). reflexivity.
    + unfold configParseArgs. fold (parseStateInit rules exe). rewrite Hfold. reflexivity.
Qed.

Lemma configParseArgs_without_command_witness :
  configParseArgs Demo.rules (Demo.ext [] []) "pgbackrest"
    [Demo.arg "stanza" "demo"; Demo.arg "pg1-path" "/db"] =
    Throw CommandRequiredError "no command found" /\
  configParseArgs Demo.rules (Demo.ext [] []) "pgbackrest" [] =
    Ok (configSetCommand (configNew Demo.rules "pgbackrest") (cfgCmdNone Demo.rules) 0 true,
        replicate (CFG_OPTION_TOTAL Demo.rules) ParseOption_zero).
Proof.
  split.
  - destruct (foldResult (parseArg Demo.rules (Demo.ext [] []))
                [Demo.arg "stanza" "demo"; Demo.arg "pg1-path" "/db"]
                (parseStateInit Demo.rules "pgbackrest")) as [st | e msg] eqn:Hfold;
      [| vm_compute in Hfold; discriminate Hfold].
    apply (proj2 (proj2 (configParseArgs_without_command Demo.rules (Demo.ext [] [])
                           "pgbackrest" [Demo.arg "stanza" "demo"; Demo.arg "pg1-path" "/db"]
                           ltac:(repeat constructor; vm_compute; discriminate))
                    ltac:(discriminate)) st Hfold).
  - apply (proj1 (configParseArgs_without_command Demo.rules (Demo.ext [] []) "pgbackrest" []
                    ltac:(constructor)) eq_refl).
Defined.

(** ** What the parse keeps of the command *)

Lemma sameCommand_refl (config : Config) : sameCommand config config.
Proof. repeat split. Qed.

Lemma sameCommand_trans (a b c : Config) :
  sameCommand a b -> sameCommand b c -> sameCommand a c.
Proof. unfold sameCommand. intuition congruence. Qed.

Lemma sameCommand_setOption (config : Config) (option : list ConfigOptionData) :
  sameCommand config (configSetOption config option).
Proof. repeat split. Qed.

Lemma sameCommand_setOptionGroup (config : Config) (group : list ConfigOptionGroupData) :
  sameCommand config (configSetOptionGroup config group).
Proof. repeat split. Qed.

Lemma groupScanKey_sameCommand (groupId : nat) (parseOption : ParseOption) (optionKeyIdx : nat)
    (state state' : Config * list (list bool)) :
  groupScanKey groupId parseOption optionKeyIdx state = Ok state' ->
  sameCommand (fst state) (fst state').
Proof.
  unfold groupScanKey. destruct state as [config groupIdxMap]. cbv zeta. intros H.
  repeat case_head H; cbn [fst]; first [apply sameCommand_refl | apply sameCommand_setOptionGroup].
Qed.

Lemma groupScanOption_sameCommand (rules : ParseRules) (ext : Collaborators)
    (parseOptionList : list ParseOption) (optionId : nat)
    (state state' : Config * list (list bool)) :
  groupScanOption rules ext parseOptionList optionId state = Ok state' ->
  sameCommand (fst state) (fst state').
Proof.
  unfold groupScanOption. destruct state as [config groupIdxMap]. cbv zeta. intros H.
  cbn [fst].
  destruct (arrayGet (cfgOption config) optionId) as [option |]; cbn [bind] in H;
    [| discriminate].
  destruct (cfgParseOptionValid rules (cfgCommand config) (cfgCommandRole config) optionId)
    as [valid |]; cbn [bind] in H; [| discriminate].
  destruct valid.
  - bind_inv H.
    destruct (optGroup (ruleOption rules optionId)).
    + bind_inv H. bind_inv H.
      apply (foldResult_preserves (fun s s' => sameCommand (fst s) (fst s'))) in H.
      * exact H.
      * intros s. apply sameCommand_refl.
      * intros s1 s2 s3. apply sameCommand_trans.
      * intros k s s'. apply groupScanKey_sameCommand.
    + injection H as <-. cbn [fst]. apply sameCommand_setOption.
  - repeat case_head H; cbn [fst]; apply sameCommand_setOption.
Qed.

Lemma groupWriteIndex_sameCommand (rules : ParseRules) (groupIdxMap : list (list bool))
    (groupId : nat) (config config' : Config) :
  groupWriteIndex rules groupIdxMap groupId config = Ok config' -> sameCommand config config'.
Proof.
  unfold groupWriteIndex. cbv zeta. intros H.
  repeat case_head H; apply sameCommand_setOptionGroup.
Qed.

Lemma configParseGroup_sameCommand (rules : ParseRules) (ext : Collaborators)
    (config config' : Config) (parseOptionList : list ParseOption) :
  configParseGroup rules ext config parseOptionList = Ok config' -> sameCommand config config'.
Proof.
  unfold configParseGroup. cbv zeta. intros H. bind_inv H. destruct a as [scanned groupIdxMap].
  apply (sameCommand_trans _ scanned).
  - apply (foldResult_preserves (fun s s' => sameCommand (fst s) (fst s'))) in Ha.
    + exact Ha.
    + intros s. apply sameCommand_refl.
    + intros s1 s2 s3. apply sameCommand_trans.
    + intros id s s'. apply groupScanOption_sameCommand.
  - revert H. apply (foldResult_preserves sameCommand).
    + apply sameCommand_refl.
    + apply sameCommand_trans.
    + intros id c c'. apply groupWriteIndex_sameCommand.
Qed.

Lemma configParseOption_sameCommand (rules : ParseRules) (ext : Collaborators)
    (parseOptionList : list ParseOption) (optionId : nat) (config config' : Config) :
  configParseOption rules ext parseOptionList optionId config = Ok config' ->
  sameCommand config config'.
Proof.
  unfold configParseOption. intros H. bind_inv H.
  destruct (coValid a); cbn [negb] in H; [| injection H as <-; apply sameCommand_refl].
  bind_inv H. bind_inv H.
  apply (foldResult_preserves sameCommand) in H.
  - eapply sameCommand_trans; [| exact H]. apply sameCommand_setOption.
  - apply sameCommand_refl.
  - apply sameCommand_trans.
  - intros optionListIdx c c' Hbody. bind_inv Hbody. bind_inv Hbody. bind_inv Hbody.
    injection Hbody as <-. apply sameCommand_setOption.
Qed.

Lemma configParseValidate_sameCommand (rules : ParseRules) (ext : Collaborators)
    (config config' : Config) (parseOptionList : list ParseOption) :
  configParseValidate rules ext config parseOptionList = Ok config' ->
  sameCommand config config'.
Proof.
  unfold configParseValidate. apply (foldResult_preserves sameCommand).
  - apply sameCommand_refl.
  - apply sameCommand_trans.
  - intros id c c'. apply configParseOption_sameCommand.
Qed.

(** What the loop of phase 1 keeps: the executable, and a command that is
    set is a real command whose role is valid for it. *)
Lemma parseArg_command (rules : ParseRules) (ext : Collaborators) (exe : string)
    (g : GetoptResult) (st st' : ParseState) :
  parseArg rules ext g st = Ok st' ->
  cfgExe (psConfig st) = exe /\
  (psCommandSet st = true ->
   cfgCommand (psConfig st) <> cfgCmdNone rules /\
   cfgCommand (psConfig st) <> cfgCmdHelp rules /\
   commandRoleValid rules (cfgCommand (psConfig st)) (cfgCommandRole (psConfig st)) = true) ->
  cfgExe (psConfig st') = exe /\
  (psCommandSet st' = true ->
   cfgCommand (psConfig st') <> cfgCmdNone rules /\
   cfgCommand (psConfig st') <> cfgCmdHelp rules /\
   commandRoleValid rules (cfgCommand (psConfig st')) (cfgCommandRole (psConfig st')) = true).
Proof.
  intros H [Hexe Hset]. unfold parseArg in H. bind_inv H. injection H as <-.
  cbn [psConfig psCommandSet].
  destruct (optionValue g =? 1).
  - unfold parseArgCommand in Ha.
    destruct (psCommandSet st) eqn:Hcs; cbn [negb] in Ha.
    + injection Ha as <-. cbn [psConfig psCommandSet configAddParam cfgExe cfgCommand
                                cfgCommandRole]. split; [exact Hexe | intros _; apply Hset; reflexivity].
    + bind_inv Ha. destruct a0 as [command commandRole].
      destruct (command =? cfgCmdNone rules)%nat eqn:Hnone; [discriminate |].
      destruct (Z.land _ _ =? 0) eqn:Hrole; [discriminate |].
      destruct (command =? cfgCmdHelp rules)%nat eqn:Hhelp; injection Ha as <-;
        cbn [psConfig psCommandSet configSetCommand cfgExe cfgCommand cfgCommandRole].
      * split; [exact Hexe | discriminate].
      * split; [exact Hexe |]. intros _.
        apply Nat.eqb_neq in Hnone, Hhelp. repeat split; try assumption.
        unfold commandRoleValid. rewrite Hrole. reflexivity.
  - repeat case_head Ha; cbn [psConfig psCommandSet]; split; assumption.
Qed.

(** X15: what a successful parse guarantees about the command.  The
    executable is the one given; either help was requested or the command is a
    real command (neither [none] nor [help]) whose role is valid for it; and
    parameters are present only if help was requested or the command allows
    parameters. *)
Theorem configParse_command_or_help (rules : ParseRules) (ext : Collaborators)
    (exe : string) (args : list GetoptResult) (environ : list string) (config : Config) :
  configParse rules ext exe args environ = Ok config ->
  cfgExe config = exe /\
  (cfgHelp config = true \/
   cfgCommand config <> cfgCmdNone rules /\
   cfgCommand config <> cfgCmdHelp rules /\
   commandRoleValid rules (cfgCommand config) (cfgCommandRole config) = true) /\
  (cfgParamList config <> None ->
   cfgHelp config = true \/
   cmdParameterAllowed (ruleCommand rules (cfgCommand config)) = true).
Proof.
  intros Hparse. unfold configParse in Hparse. bind_inv Hparse.
  destruct a as [parsed afterArgs].
  assert (Hargs : cfgExe parsed = exe /\
            (cfgHelp parsed = true \/
             cfgCommand parsed <> cfgCmdNone rules /\
             cfgCommand parsed <> cfgCmdHelp rules /\
             commandRoleValid rules (cfgCommand parsed) (cfgCommandRole parsed) = true) /\
            (cfgParamList parsed <> None ->
             cfgHelp parsed = true \/
             cmdParameterAllowed (ruleCommand rules (cfgCommand parsed)) = true)).
  { unfold configParseArgs in Ha. bind_inv Ha.
    assert (Hloop : cfgExe (psConfig a) = exe /\
              (psCommandSet a = true ->
               cfgCommand (psConfig a) <> cfgCmdNone rules /\
               cfgCommand (psConfig a) <> cfgCmdHelp rules /\
               commandRoleValid rules (cfgCommand (psConfig a))
                 (cfgCommandRole (psConfig a)) = true)).
    { revert Ha0.
      apply (foldResult_invariant
               (fun st => cfgExe (psConfig st) = exe /\
                  (psCommandSet st = true ->
                   cfgCommand (psConfig st) <> cfgCmdNone rules /\
                   cfgCommand (psConfig st) <> cfgCmdHelp rules /\
                   commandRoleValid rules (cfgCommand (psConfig st))
                     (cfgCommandRole (psConfig st)) = true))).
      - intros g s s' Hstep Hs. eapply parseArg_command; eassumption.
      - cbn [psConfig psCommandSet configNew cfgExe]. split; [reflexivity | discriminate]. }
    destruct Hloop as [Hexe Hset].
    bind_inv Ha.
    assert (Hhelp : cfgExe a0 = exe /\ cfgCommand a0 = cfgCommand (psConfig a) /\
                    cfgCommandRole a0 = cfgCommandRole (psConfig a) /\
                    cfgParamList a0 = cfgParamList (psConfig a) /\
                    (cfgHelp a0 = true \/ psCommandSet a = true)).
    { destruct (psCommandSet a); cbn [negb andb] in Ha1.
      - injection Ha1 as <-. repeat split; try assumption. right. reflexivity.
      - destruct (cfgHelp (psConfig a)) eqn:Hh; cbn [negb] in Ha1.
        + injection Ha1 as <-. repeat split; try assumption. left. exact Hh.
        + destruct (psArgFound a); [discriminate |]. injection Ha1 as <-.
          cbn [configSetCommand cfgExe cfgCommand cfgCommandRole cfgParamList cfgHelp].
          repeat split; try assumption. left. reflexivity. }
    destruct Hhelp as (Hexe' & Hcmd & Hrole & Hparam & Hor).
    destruct (cfgParamList a0) as [params |] eqn:Hparams; cbn [andb] in Ha.
    - destruct (cfgHelp a0) eqn:Hh; cbn [negb andb] in Ha.
      + injection Ha as <- <-. split; [exact Hexe' |]. split; [left; exact Hh |].
        intros _. left. exact Hh.
      + destruct (cmdParameterAllowed (ruleCommand rules (cfgCommand a0))) eqn:Hallowed;
          cbn [negb] in Ha; [| discriminate].
        injection Ha as <- <-. split; [exact Hexe' |]. split.
        * right. destruct Hor as [Hh' | Hcs]; [congruence |].
          rewrite Hcmd, Hrole. apply Hset. exact Hcs.
        * intros _. right. exact Hallowed.
    - injection Ha as <- <-. split; [exact Hexe' |]. split.
      + destruct (cfgHelp a0) eqn:Hh; [left; reflexivity | right].
        destruct Hor as [Hh' | Hcs]; [congruence |].
        rewrite Hcmd, Hrole. apply Hset. exact Hcs.
      + rewrite Hparams. congruence. }
  destruct (negb (cfgCommand parsed =? cfgCmdNone rules)%nat &&
            negb (cfgCommand parsed =? cfgCmdVersion rules)%nat &&
            negb (cfgCommand parsed =? cfgCmdHelp rules)%nat).
  - bind_inv Hparse. bind_inv Hparse. bind_inv Hparse.
    apply configParseGroup_sameCommand in Ha2.
    apply configParseValidate_sameCommand in Hparse.
    destruct (sameCommand_trans _ _ _ Ha2 Hparse) as (-> & -> & -> & -> & ->).
    exact Hargs.
  - injection Hparse as <-. exact Hargs.
Qed.

Lemma configParse_command_or_help_witness :
  exists config,
    configParse Demo.rules (Demo.ext [] []) "pgbackrest"
      [Demo.positional "help"; Demo.positional "backup"] [] = Ok config /\
    cfgExe config = "pgbackrest"%string /\
    cfgHelp config = true /\
    cfgCommand config = Demo.cmdBackup.
Proof.
  destruct (configParse Demo.rules (Demo.ext [] []) "pgbackrest"
              [Demo.positional "help"; Demo.positional "backup"] []) as [config | e msg]
    eqn:Hparse; [| vm_compute in Hparse; discriminate Hparse].
  exists config. split; [reflexivity |].
  destruct (configParse_command_or_help _ _ _ _ _ _ Hparse) as (Hexe & _ & _).
  split; [exact Hexe |].
  vm_compute in Hparse. injection Hparse as <-. split; reflexivity.
Defined.

(** ** Phase 2: which environment entries count *)

(** X16: the environment phase looks only at the entries that begin with
    [PGBACKREST_] and name a known option through an alias that is neither a
    negate nor a reset alias; every other entry can be removed from the
    environment without changing the outcome. *)
Theorem configParseEnv_ignores_other_entries (rules : ParseRules) (config : Config)
    (environ : list string) (parseOptionList : list ParseOption) :
  configParseEnv rules config environ parseOptionList =
  configParseEnv rules config
    (List.filter
       (fun keyValue =>
          strBeginsWith keyValue PGBACKREST_ENV &&
          match strChr keyValue "=" with
          | Some equalPos =>
              let opt := cfgParseOption rules (envKey keyValue equalPos) in
              resFound opt && negb (resNegate opt) && negb (resReset opt)
          | None => true
          end)
       environ)
    parseOptionList.
Proof.
  unfold configParseEnv. revert parseOptionList.
  induction environ as [| keyValue environ IH]; intros parseOptionList; [reflexivity |].
  cbn [List.filter foldResult].
  assert (Hskip : strBeginsWith keyValue PGBACKREST_ENV &&
                  match strChr keyValue "=" with
                  | Some equalPos =>
                      let opt := cfgParseOption rules (envKey keyValue equalPos) in
                      resFound opt && negb (resNegate opt) && negb (resReset opt)
                  | None => true
                  end = false ->
                  parseEnv rules config keyValue parseOptionList = Ok parseOptionList).
  { unfold parseEnv. cbv zeta.
    destruct (strBeginsWith keyValue PGBACKREST_ENV); [| reflexivity].
    destruct (strChr keyValue "=") as [equalPos |]; [| discriminate].
    destruct (resFound _); [| reflexivity]. destruct (resNegate _); [reflexivity |].
    destruct (resReset _); [reflexivity | discriminate]. }
  destruct (strBeginsWith keyValue PGBACKREST_ENV && _) eqn:Hused.
  - cbn [foldResult]. destruct (parseEnv rules config keyValue parseOptionList);
      cbn [bind]; [apply IH | reflexivity].
  - rewrite (Hskip eq_refl). cbn [bind]. apply IH.
Qed.

(** ** Phase 3: duplicates and stanza options *)

Lemma find_append {A : Type} (f : A -> bool) (l l' : list A) :
  find f (l ++ l') = match find f l with Some x => Some x | None => find f l' end.
Proof.
  induction l as [| x l IH]; [reflexivity |]. cbn [app find].
  destruct (f x); [reflexivity | exact IH].
Qed.

(** A key that gets past the first tests is remembered for the section. *)
Lemma parseConfigKey_remembers (rules : ParseRules) (config : Config) (ini : Ini)
    (section : string) (sectionIdx : nat) (key : string)
    (state state' : list (nat * string) * list ParseOption) :
  parseConfigKey rules config ini section sectionIdx key state = Ok state' ->
  (forall foundKey, optionFoundGet (fst state) foundKey <> None ->
                    optionFoundGet (fst state') foundKey <> None) /\
  (let opt := cfgParseOption rules key in
   resFound opt = true -> resNegate opt = false -> resReset opt = false ->
   optSection (ruleOption rules (resId opt)) <> cfgSectionCommandLine ->
   optionFoundGet (fst state')
     (resId opt * CFG_OPTION_KEY_MAX rules + resKeyIdx opt)%nat <> None).
Proof.
  unfold parseConfigKey, throwOption. destruct state as [optionFound parseOptionList].
  cbv zeta. intros H.
  assert (Hgrow : forall foundKey name,
            optionFoundGet optionFound foundKey <> None ->
            optionFoundGet (optionFound ++ [(name, key)]) foundKey <> None).
  { intros foundKey name. unfold optionFoundGet. rewrite find_append.
    destruct (find _ optionFound); [intros _; discriminate | congruence]. }
  assert (Hnew : forall foundKey,
            optionFoundGet (optionFound ++ [(foundKey, key)]) foundKey <> None).
  { intros foundKey. unfold optionFoundGet. rewrite find_append.
    destruct (find _ optionFound); [discriminate |].
    cbn [find fst]. rewrite Nat.eqb_refl. discriminate. }
  destruct (resFound (cfgParseOption rules key)); cbn [negb] in H;
    [| injection H as <-; split; [tauto | discriminate]].
  destruct (resNegate (cfgParseOption rules key));
    [injection H as <-; split; [tauto | discriminate] |].
  destruct (resReset (cfgParseOption rules key));
    [injection H as <-; split; [tauto | discriminate] |].
  destruct (optSection (ruleOption rules (resId (cfgParseOption rules key)))) eqn:Hsection;
    [injection H as <-; split; [tauto | congruence] | |].
  all: destruct (optionFoundGet optionFound _) eqn:Hget; [discriminate |].
  all: repeat case_head H; cbn [fst]; split; intros; first [apply Hgrow; assumption | apply Hnew].
Qed.

Lemma parseConfigKeys_remember (rules : ParseRules) (config : Config) (ini : Ini)
    (section : string) (sectionIdx : nat) (keys : list string)
    (state state' : list (nat * string) * list ParseOption) (foundKey : nat) :
  foldResult (parseConfigKey rules config ini section sectionIdx) keys state = Ok state' ->
  optionFoundGet (fst state) foundKey <> None ->
  optionFoundGet (fst state') foundKey <> None.
Proof.
  intros Hfold Hget. revert Hget. revert Hfold.
  apply (foldResult_preserves
           (fun s s' : list (nat * string) * list ParseOption =>
              optionFoundGet (fst s) foundKey <> None ->
              optionFoundGet (fst s') foundKey <> None)).
  - tauto.
  - tauto.
  - intros key s s' Hstep. apply (proj1 (parseConfigKey_remembers _ _ _ _ _ _ _ _ Hstep)).
Qed.

(** X17: a section that holds the same option under two names does not
    load.  If two keys of a section resolve, through aliases that are neither
    negate nor reset aliases, to the same option and key index of an option
    that may be in a configuration file, the section is refused; where
    everything before the second key is accepted the error is
    [OptionInvalidError]. *)
Theorem parseConfigSection_refuses_duplicates (rules : ParseRules) (config : Config)
    (ini : Ini) (sectionIdx : nat) (section : string) (parseOptionList : list ParseOption)
    (before between after : list string) (key1 key2 : string) :
  iniSectionKeyList ini section = before ++ key1 :: between ++ key2 :: after ->
  let opt1 := cfgParseOption rules key1 in
  let opt2 := cfgParseOption rules key2 in
  resFound opt1 = true -> resNegate opt1 = false -> resReset opt1 = false ->
  resFound opt2 = true -> resNegate opt2 = false -> resReset opt2 = false ->
  resId opt2 = resId opt1 -> resKeyIdx opt2 = resKeyIdx opt1 ->
  optSection (ruleOption rules (resId opt1)) <> cfgSectionCommandLine ->
  isOk (parseConfigSection rules config ini (sectionIdx, section) parseOptionList) = false /\
  forall state,
    foldResult (parseConfigKey rules config ini section sectionIdx)
      (before ++ key1 :: between) ([], parseOptionList) = Ok state ->
    exists name,
      parseConfigSection rules config ini (sectionIdx, section) parseOptionList =
        Throw OptionInvalidError
          ("configuration file contains duplicate options ('" +:+ key2 +:+ "', '" +:+
           name +:+ "') in section '[" +:+ section +:+ "]'").
Proof.
  intros Hkeys opt1 opt2 Hf1 Hn1 Hr1 Hf2 Hn2 Hr2 Hid Hkey Hsection.
  assert (Hsecond : forall state,
            foldResult (parseConfigKey rules config ini section sectionIdx)
              (before ++ key1 :: between) ([], parseOptionList) = Ok state ->
            exists name,
              parseConfigKey rules config ini section sectionIdx key2 state =
                Throw OptionInvalidError
                  ("configuration file contains duplicate options ('" +:+ key2 +:+ "', '" +:+
                   name +:+ "') in section '[" +:+ section +:+ "]'")).
  { intros state Hfold.
    rewrite foldResult_app in Hfold. bind_inv Hfold. cbn [foldResult] in Hfold.
    bind_inv Hfold.
    pose proof (proj2 (parseConfigKey_remembers _ _ _ _ _ _ _ _ Ha0) Hf1 Hn1 Hr1 Hsection)
      as Hfirst.
    pose proof (parseConfigKeys_remember _ _ _ _ _ _ _ _ _ Hfold Hfirst) as Hkept.
    unfold parseConfigKey. destruct state as [optionFound optionList']. cbv zeta.
    fold opt2. rewrite Hf2, Hn2, Hr2. cbn [negb]. rewrite Hid, Hkey.
    destruct (optSection (ruleOption rules (resId opt1))); [congruence | |].
    all: cbn [fst] in Hkept.
    all: destruct (optionFoundGet optionFound _) as [name |]; [| congruence].
    all: exists name; reflexivity. }
  assert (Hthrow : forall state,
            foldResult (parseConfigKey rules config ini section sectionIdx)
              (before ++ key1 :: between) ([], parseOptionList) = Ok state ->
            exists name,
              parseConfigSection rules config ini (sectionIdx, section) parseOptionList =
                Throw OptionInvalidError
                  ("configuration file contains duplicate options ('" +:+ key2 +:+ "', '" +:+
                   name +:+ "') in section '[" +:+ section +:+ "]'")).
  { intros state Hfold. destruct (Hsecond state Hfold) as (name & Hname).
    exists name. unfold parseConfigSection. rewrite Hkeys.
    replace (before ++ key1 :: between ++ key2 :: after)
      with ((before ++ key1 :: between) ++ key2 :: after)
      by (rewrite <- app_assoc; reflexivity).
    rewrite foldResult_app, Hfold. cbn [bind foldResult]. rewrite Hname. reflexivity. }
  split; [| exact Hthrow].
  destruct (foldResult (parseConfigKey rules config ini section sectionIdx)
              (before ++ key1 :: between) ([], parseOptionList)) as [state |] eqn:Hfold.
  - destruct (Hthrow state eq_refl) as (name & ->). reflexivity.
  - unfold parseConfigSection. rewrite Hkeys.
    replace (before ++ key1 :: between ++ key2 :: after)
      with ((before ++ key1 :: between) ++ key2 :: after)
      by (rewrite <- app_assoc; reflexivity).
    rewrite foldResult_app, Hfold. reflexivity.
Qed.

Lemma parseConfigSection_refuses_duplicates_witness :
  isOk (parseConfigSection Demo.rules Demo.backupConfig
          [("demo", [("pg1-path", IniStr "/a"); ("db-path", IniStr "/b")])]%string
          (1%nat, "demo"%string) Demo.stanzaOptionList) = false.
Proof.
  apply (proj1 (parseConfigSection_refuses_duplicates Demo.rules Demo.backupConfig
                  [("demo", [("pg1-path", IniStr "/a"); ("db-path", IniStr "/b")])]%string
                  1 "demo"%string Demo.stanzaOptionList [] [] [] "pg1-path"%string
                  "db-path"%string eq_refl eq_refl eq_refl eq_refl eq_refl eq_refl eq_refl
                  eq_refl eq_refl ltac:(discriminate))).
Defined.

Lemma strBeginsWith_append (s t prefix : string) :
  strBeginsWith s prefix = true -> strBeginsWith (s +:+ t) prefix = true.
Proof.
  revert s. induction prefix as [| p prefix IH]; intros s H; [destruct (s +:+ t); reflexivity |].
  destruct s as [| c s]; [discriminate |].
  change (String c s +:+ t) with (String c (s +:+ t)). cbn [strBeginsWith] in *.
  apply andb_true_iff in H. destruct H as [-> H]. cbn [andb]. apply IH. exact H.
Qed.

(** In a section whose name begins with [global] a stanza option is skipped. *)
Lemma parseConfigKey_global_section (rules : ParseRules) (config : Config) (ini : Ini)
    (section : string) (sectionIdx : nat) (key : string)
    (state state' : list (nat * string) * list ParseOption) (optionId : nat) :
  optSection (ruleOption rules optionId) = cfgSectionStanza ->
  strBeginsWith section CFGDEF_SECTION_GLOBAL = true ->
  parseConfigKey rules config ini section sectionIdx key state = Ok state' ->
  snd state' !! optionId = snd state !! optionId.
Proof.
  intros Hsection Hglobal. unfold parseConfigKey, throwOption.
  destruct state as [optionFound optionList]. cbv zeta. intros H. rewrite Hglobal in H.
  destruct (resFound (cfgParseOption rules key)); cbn [negb] in H;
    [| injection H as <-; reflexivity].
  destruct (resNegate (cfgParseOption rules key)); [injection H as <-; reflexivity |].
  destruct (resReset (cfgParseOption rules key)); [injection H as <-; reflexivity |].
  destruct (optSection (ruleOption rules (resId (cfgParseOption rules key)))) eqn:Hkey;
    [injection H as <-; reflexivity | |].
  - assert (Hne : optionId <> resId (cfgParseOption rules key)) by congruence.
    repeat case_head H; cbn [snd]; try reflexivity.
    all: try (rewrite parseOptionValueSet_other by exact Hne).
    all: eapply parseOptionIdxValue_other; eassumption.
  - cbn [andb] in H. repeat case_head H; reflexivity.
Qed.

(** X18: the options of the stanza section of the rules are read only
    from sections whose name does not begin with [global].  So when no stanza
    has been parsed by the time the file is read (neither the command line nor
    the environment gave one), and also for a stanza whose own name begins with
    [global], the configuration file never sets a stanza option: its parsed
    values are after phase 3 what they were before. *)
Theorem configParseIni_stanza_options (rules : ParseRules) (ext : Collaborators)
    (config : Config) (ini : Ini) (parseOptionList parseOptionList' : list ParseOption)
    (stanza : option string) (optionId : nat) :
  optSection (ruleOption rules optionId) = cfgSectionStanza ->
  configStanza rules parseOptionList = Ok stanza ->
  match stanza with
  | Some stanza => strBeginsWith stanza CFGDEF_SECTION_GLOBAL = true
  | None => True
  end ->
  configParseIni rules ext config ini parseOptionList = Ok parseOptionList' ->
  parseOptionList' !! optionId = parseOptionList !! optionId.
Proof.
  intros Hsection Hstanza Hglobal H. unfold configParseIni in H. rewrite Hstanza in H.
  cbn [bind] in H.
  assert (Hsections : Forall (fun sectionAt : nat * string =>
                                strBeginsWith (snd sectionAt) CFGDEF_SECTION_GLOBAL = true)
                        (indexed (configSectionList ext config stanza))).
  { unfold configSectionList, indexed.
    destruct stanza as [stanza |]; cbn [app imap]; repeat constructor; cbn [snd];
      try reflexivity; try exact Hglobal.
    apply strBeginsWith_append. exact Hglobal. }
  revert H. generalize parseOptionList parseOptionList'.
  induction Hsections as [| [sectionIdx section] sections Hhead _ IH]; intros l l' H.
  - injection H as <-. reflexivity.
  - cbn [foldResult] in H. bind_inv H. rewrite (IH _ _ H).
    unfold parseConfigSection in Ha. bind_inv Ha. injection Ha as <-.
    change (l !! optionId) with (snd (@nil (nat * string), l) !! optionId).
    revert Ha0.
    apply (foldResult_preserves
             (fun t t' : list (nat * string) * list ParseOption =>
                snd t' !! optionId = snd t !! optionId));
      [reflexivity | intros; congruence |].
    intros key t t'. apply parseConfigKey_global_section; assumption.
Qed.

(** The stanza [global2]: its section sets [pg1-path], and the parse does
    not see it; neither does it, with no stanza parsed, in the section
    [global]. *)
Lemma configParseIni_stanza_options_witness :
  (exists parseOptionList',
     configParseIni Demo.rules (Demo.ext [] []) Demo.backupConfig
       [("global2", [("pg1-path", IniStr "/db")])]%string
       (<[Demo.optStanza :=
            {| indexList :=
                 [parseOptionValueFound cfgSourceParam (Some ["global2"%string])] |}]>
          (replicate (CFG_OPTION_TOTAL Demo.rules) ParseOption_zero)) = Ok parseOptionList' /\
     parseOptionList' !! Demo.optPgPath = Some ParseOption_zero) /\
  (exists parseOptionList',
     configParseIni Demo.rules (Demo.ext [] []) Demo.backupConfig
       [("global", [("pg1-path", IniStr "/db")])]%string
       (replicate (CFG_OPTION_TOTAL Demo.rules) ParseOption_zero) = Ok parseOptionList' /\
     parseOptionList' !! Demo.optPgPath = Some ParseOption_zero).
Proof.
  split.
  - destruct (configParseIni Demo.rules (Demo.ext [] []) Demo.backupConfig
                [("global2", [("pg1-path", IniStr "/db")])]%string
                (<[Demo.optStanza :=
                     {| indexList :=
                          [parseOptionValueFound cfgSourceParam (Some ["global2"%string])] |}]>
                   (replicate (CFG_OPTION_TOTAL Demo.rules) ParseOption_zero)))
      as [parseOptionList' | e msg] eqn:Hini; [| vm_compute in Hini; discriminate Hini].
    exists parseOptionList'. split; [reflexivity |].
    pose proof (fun H1 H2 H3 =>
                  configParseIni_stanza_options Demo.rules (Demo.ext [] []) Demo.backupConfig
                    _ _ _ (Some "global2"%string) Demo.optPgPath H1 H2 H3 Hini) as Hsame.
    rewrite (Hsame eq_refl eq_refl eq_refl). reflexivity.
  - destruct (configParseIni Demo.rules (Demo.ext [] []) Demo.backupConfig
                [("global", [("pg1-path", IniStr "/db")])]%string
                (replicate (CFG_OPTION_TOTAL Demo.rules) ParseOption_zero))
      as [parseOptionList' | e msg] eqn:Hini; [| vm_compute in Hini; discriminate Hini].
    exists parseOptionList'. split; [reflexivity |].
    pose proof (fun H1 H2 H3 =>
                  configParseIni_stanza_options Demo.rules (Demo.ext [] []) Demo.backupConfig
                    _ _ _ None Demo.optPgPath H1 H2 H3 Hini) as Hsame.
    rewrite (Hsame eq_refl eq_refl I). reflexivity.
Defined.

(** ** Phase 4: the keys in use and the index map *)

Lemma foldResult_prefix {A S : Type} (P : list A -> S -> Prop) (body : A -> S -> Result S) :
  (forall done a s s', P done s -> body a s = Ok s' -> P (done ++ [a]) s') ->
  forall l s s', P [] s -> foldResult body l s = Ok s' -> P l s'.
Proof.
  intros Hstep l.
  assert (Hgen : forall done s s', P done s -> foldResult body l s = Ok s' -> P (done ++ l) s').
  { induction l as [| a l IH]; intros done s s' Hs Hfold.
    - injection Hfold as <-. rewrite app_nil_r. exact Hs.
    - cbn [foldResult] in Hfold. bind_inv Hfold.
      replace (done ++ a :: l) with ((done ++ [a]) ++ l) by (rewrite <- app_assoc; reflexivity).
      eapply IH; [| exact Hfold]. eapply Hstep; eassumption. }
  intros s s' Hs Hfold. apply (Hgen [] s s' Hs Hfold).
Qed.

Lemma rowUsed_lookup (row : list bool) (k : nat) (used : bool) :
  row !! k = Some used -> rowUsed row k = used.
Proof. unfold rowUsed. intros ->. reflexivity. Qed.

Lemma rowUsed_insert (row : list bool) (k j : nat) :
  (k < length row)%nat ->
  rowUsed (<[k := true]> row) j = (j =? k)%nat || rowUsed row j.
Proof.
  intros Hk. unfold rowUsed. destruct (Nat.eqb_spec j k) as [-> | Hne].
  - rewrite list_lookup_insert_eq by exact Hk. reflexivity.
  - rewrite list_lookup_insert_ne by congruence. reflexivity.
Qed.

(** The write loop: the keys in use from [start] on are written in ascending
    order from position [pos] on, and nothing else is written. *)
Lemma groupMapKeys_written (row : list bool) (n : nat) :
  forall (start : nat) (indexMap : list nat) (pos : nat) (indexMap' : list nat) (pos' : nat),
    foldResult (groupMapKey row) (seq start n) (indexMap, pos) = Ok (indexMap', pos') ->
    let keys := List.filter (rowUsed row) (seq start n) in
    pos' = (pos + length keys)%nat /\
    indexMap' = take pos indexMap ++ keys ++ drop (pos + length keys) indexMap /\
    (keys <> [] -> (pos + length keys <= length indexMap)%nat).
Proof.
  induction n as [| n IH]; intros start indexMap pos indexMap' pos' Hfold; cbv zeta.
  - injection Hfold as <- <-. cbn [seq List.filter length app]. rewrite Nat.add_0_r.
    split; [reflexivity |]. split; [symmetry; apply take_drop | congruence].
  - cbn [seq foldResult] in Hfold. bind_inv Hfold. unfold groupMapKey in Ha.
    destruct (arrayGet row start) as [used |] eqn:Hused; cbn [bind] in Ha; [| discriminate].
    apply arrayGet_Ok in Hused. apply rowUsed_lookup in Hused.
    cbn [seq List.filter]. rewrite Hused. destruct used.
    + bind_inv Ha. injection Ha as <-. apply arraySet_Ok in Ha0. destruct Ha0 as [-> Hpos].
      destruct (IH _ _ _ _ _ Hfold) as (Hpos' & Hmap & Hbound). cbv zeta in *.
      set (keys := List.filter (rowUsed row) (seq (S start) n)) in *.
      rewrite length_insert in Hbound.
      assert (Hle : (pos + 1 + length keys <= length indexMap)%nat).
      { destruct keys as [| key keys']; [cbn [length]; lia | apply Hbound; discriminate]. }
      cbn [length]. split; [lia |]. split; [| intros _; lia].
      rewrite Hmap.
      replace (pos + 1)%nat with (S pos) by lia.
      rewrite take_S_r with (x := start) by (apply list_lookup_insert_eq; exact Hpos).
      rewrite take_insert_ge by lia.
      rewrite drop_insert_lt by lia.
      rewrite <- app_assoc. cbn [app].
      replace (pos + S (length keys))%nat with (S pos + length keys)%nat by lia.
      reflexivity.
    + injection Ha as <-. apply (IH _ _ _ _ _ Hfold).
Qed.

Lemma filter_ext_length (f f' : nat -> bool) (l : list nat) :
  (forall j, f' j = f j) -> List.filter f' l = List.filter f l.
Proof.
  intros Hext. induction l as [| a l IH]; [reflexivity |].
  cbn [List.filter]. rewrite Hext, IH. reflexivity.
Qed.

Lemma filter_none (f : nat -> bool) (l : list nat) :
  (forall j, f j = false) -> List.filter f l = [].
Proof.
  intros Hnone. induction l as [| a l IH]; [reflexivity |].
  cbn [List.filter]. rewrite Hnone. exact IH.
Qed.

(** Marking one more key raises the number of keys in use by one. *)
Lemma filter_add_key (f f' : nat -> bool) (k n : nat) :
  (forall j, f' j = (j =? k)%nat || f j) -> f k = false ->
  forall start,
    length (List.filter f' (seq start n)) =
    (length (List.filter f (seq start n)) +
     (if (start <=? k)%nat && (k <? start + n)%nat then 1 else 0))%nat.
Proof.
  intros Hadd Hk. induction n as [| n IH]; intros start.
  - cbn [seq List.filter length].
    destruct (Nat.leb_spec start k), (Nat.ltb_spec k (start + 0)); cbn [andb]; lia.
  - cbn [seq List.filter]. rewrite Hadd. destruct (Nat.eqb_spec start k) as [-> | Hne].
    + rewrite Hk. cbn [orb length]. rewrite IH.
      destruct (Nat.leb_spec (S k) k); [lia |]. cbn [andb].
      destruct (Nat.leb_spec k k); [| lia].
      destruct (Nat.ltb_spec k (k + S n)); [| lia]. cbn [andb]. lia.
    + cbn [orb]. specialize (IH (S start)).
      assert (Hcase : (S start <=? k)%nat && (k <? S start + n)%nat =
                      (start <=? k)%nat && (k <? start + S n)%nat).
      { destruct (Nat.leb_spec (S start) k), (Nat.ltb_spec k (S start + n)),
          (Nat.leb_spec start k), (Nat.ltb_spec k (start + S n)); cbn [andb]; lia. }
      rewrite <- Hcase. destruct (f start); cbn [length]; rewrite IH; lia.
Qed.

Lemma parseOptionValueAt_nth (parseOptionList : list ParseOption) (optionId optionKeyIdx : nat) :
  nth optionKeyIdx (indexList (nth optionId parseOptionList ParseOption_zero))
    ParseOptionValue_zero =
  parseOptionValueAt parseOptionList optionId optionKeyIdx.
Proof.
  unfold parseOptionValueAt.
  destruct (nth_lookup_or_length parseOptionList optionId ParseOption_zero) as [Hin | Hout].
  - rewrite Hin. reflexivity.
  - rewrite (proj2 (lookup_ge_None parseOptionList optionId)) by lia.
    rewrite (nth_overflow parseOptionList ParseOption_zero Hout).
    destruct optionKeyIdx; reflexivity.
Qed.

Lemma valueInUse_allocated (parseOptionList : list ParseOption) (optionId optionKeyIdx : nat) :
  valueInUse parseOptionList optionId optionKeyIdx = true ->
  (optionKeyIdx < indexListTotal (nth optionId parseOptionList ParseOption_zero))%nat.
Proof.
  unfold valueInUse. rewrite <- parseOptionValueAt_nth. unfold indexListTotal. intros Huse.
  destruct (Nat.lt_ge_cases optionKeyIdx
              (length (indexList (nth optionId parseOptionList ParseOption_zero))))
    as [Hlt | Hge]; [exact Hlt |].
  rewrite nth_overflow in Huse by lia. discriminate Huse.
Qed.

Lemma existsb_seq (k n : nat) : existsb (Nat.eqb k) (seq 0 n) = (k <? n)%nat.
Proof.
  induction n as [| n IH]; [reflexivity |].
  rewrite seq_S, existsb_app, IH. cbn [existsb plus]. rewrite orb_false_r.
  destruct (Nat.ltb_spec k n), (Nat.eqb_spec k n), (Nat.ltb_spec k (S n)); cbn [orb]; lia.
Qed.

Lemma groupState_ext (rules : ParseRules) (config0 : Config) (used used' : nat -> nat -> bool)
    (valid valid' : nat -> bool) (state : Config * list (list bool)) :
  (forall groupId, (groupId < CFG_OPTION_GROUP_TOTAL rules)%nat ->
     (forall k, used' groupId k = used groupId k) /\ valid' groupId = valid groupId) ->
  groupState rules config0 used valid state -> groupState rules config0 used' valid' state.
Proof.
  intros Hext (Hsame & Hrows & Hgroups & Hstate).
  split; [exact Hsame |]. split; [exact Hrows |]. split; [exact Hgroups |].
  intros groupId row group Hrow Hgroup.
  destruct (Hstate groupId row group Hrow Hgroup) as (Hlen & Hused & Htotal & Hmap & Hvalid).
  assert (Hlt : (groupId < CFG_OPTION_GROUP_TOTAL rules)%nat).
  { rewrite <- Hrows. apply lookup_lt_Some in Hrow. exact Hrow. }
  destruct (Hext groupId Hlt) as [Hu Hv].
  repeat split; try assumption.
  - intros k. rewrite Hu. apply Hused.
  - rewrite Hv. exact Hvalid.
Qed.

(** One round of the scan of the keys of an option marks the key when its
    value is in use. *)
Lemma groupScanKey_state (rules : ParseRules) (config0 : Config) (used : nat -> nat -> bool)
    (valid : nat -> bool) (groupId : nat) (parseOption : ParseOption) (optionKeyIdx : nat)
    (state state' : Config * list (list bool)) :
  groupState rules config0 used valid state ->
  groupScanKey groupId parseOption optionKeyIdx state = Ok state' ->
  let value := nth optionKeyIdx (indexList parseOption) ParseOptionValue_zero in
  groupState rules config0
    (fun g k => used g k ||
                ((g =? groupId)%nat && (k =? optionKeyIdx)%nat &&
                 (povFound value && negb (povReset value))))
    valid state'.
Proof.
  intros Hstate Hscan. cbv zeta. destruct state as [config groupIdxMap].
  unfold groupScanKey in Hscan.
  set (value := nth optionKeyIdx (indexList parseOption) ParseOptionValue_zero) in *.
  destruct (povFound value && negb (povReset value)) eqn:Huse.
  2:{ injection Hscan as <-. revert Hstate. apply groupState_ext. intros g _.
      split; [| reflexivity]. intros k. rewrite andb_false_r, orb_false_r. reflexivity. }
  bind_inv Hscan. rename a into row, Ha into Hrow. apply arrayGet_Ok in Hrow.
  bind_inv Hscan. rename a into usedb, Ha into Husedb. apply arrayGet_Ok in Husedb.
  destruct Hstate as (Hsame & Hrows & Hgroups & Hstate). cbn [fst snd] in *.
  destruct usedb; cbn [negb] in Hscan.
  - injection Hscan as <-. split; [exact Hsame |]. split; [exact Hrows |].
    split; [exact Hgroups |]. cbn [fst snd]. intros g row' group Hrow' Hgroup.
    destruct (Hstate g row' group Hrow' Hgroup) as (Hlen & Hused & Htotal & Hmap & Hvalid).
    repeat split; try assumption. intros k. rewrite Hused.
    destruct (Nat.eqb_spec g groupId) as [-> | Hne]; [| rewrite orb_false_r; reflexivity].
    destruct (Nat.eqb_spec k optionKeyIdx) as [-> | Hnk]; [| rewrite orb_false_r; reflexivity].
    cbn [andb]. assert (row' = row) by congruence. subst row'.
    rewrite <- Hused, (rowUsed_lookup _ _ _ Husedb). reflexivity.
  - bind_inv Hscan. rename a into group, Ha into Hgroup. apply arrayGet_Ok in Hgroup.
    bind_inv Hscan. apply arraySet_Ok in Ha. destruct Ha as [-> HgroupLt].
    bind_inv Hscan. apply arraySet_Ok in Ha. destruct Ha as [-> HkeyLt].
    bind_inv Hscan. apply arraySet_Ok in Ha. destruct Ha as [-> HrowLt].
    injection Hscan as <-. unfold groupState.
    cbn [fst snd configSetOptionGroup cfgOptionGroup].
    split; [exact Hsame |]. split; [rewrite length_insert; exact Hrows |].
    split; [rewrite length_insert; exact Hgroups |].
    intros g row' group' Hrow' Hgroup'.
    destruct (Nat.eq_dec g groupId) as [-> | Hne].
    + rewrite list_lookup_insert_eq in Hrow' by exact HrowLt.
      rewrite list_lookup_insert_eq in Hgroup' by exact HgroupLt.
      injection Hrow' as <-. injection Hgroup' as <-.
      destruct (Hstate groupId row group Hrow Hgroup) as (Hlen & Hused & Htotal & Hmap & Hvalid).
      cbn [cogIndexTotal cogIndexMap cogValid].
      split; [rewrite length_insert; exact Hlen |].
      split.
      { intros k. rewrite rowUsed_insert by exact HkeyLt. rewrite Nat.eqb_refl, Hused.
        cbn [andb]. rewrite andb_true_r. apply orb_comm. }
      split; [| split; assumption].
      rewrite (filter_add_key (rowUsed row) (rowUsed (<[optionKeyIdx := true]> row))
                 optionKeyIdx (CFG_OPTION_KEY_MAX rules)).
      * rewrite Htotal. rewrite Hlen in HkeyLt.
        destruct (Nat.ltb_spec optionKeyIdx (0 + CFG_OPTION_KEY_MAX rules)); [| lia].
        reflexivity.
      * intros j. apply rowUsed_insert. exact HkeyLt.
      * apply rowUsed_lookup. exact Husedb.
    + rewrite list_lookup_insert_ne in Hrow' by congruence.
      rewrite list_lookup_insert_ne in Hgroup' by congruence.
      destruct (Hstate g row' group' Hrow' Hgroup') as (Hlen & Hused & Htotal & Hmap & Hvalid).
      repeat split; try assumption. intros k. rewrite Hused.
      destruct (Nat.eqb_spec g groupId) as [-> | _]; [congruence |].
      rewrite orb_false_r. reflexivity.
Qed.

(** The scan of all the keys of one option. *)
Lemma groupScanKeys_state (rules : ParseRules) (config0 : Config) (used : nat -> nat -> bool)
    (valid : nat -> bool) (groupId : nat) (parseOptionList : list ParseOption) (optionId : nat)
    (state state' : Config * list (list bool)) :
  let parseOption := nth optionId parseOptionList ParseOption_zero in
  groupState rules config0 used valid state ->
  foldResult (groupScanKey groupId parseOption) (seq 0 (indexListTotal parseOption)) state =
    Ok state' ->
  groupState rules config0
    (fun g k => used g k || ((g =? groupId)%nat && valueInUse parseOptionList optionId k))
    valid state'.
Proof.
  cbv zeta. intros Hstate Hfold.
  set (parseOption := nth optionId parseOptionList ParseOption_zero) in *.
  apply (foldResult_prefix
           (fun done s =>
              groupState rules config0
                (fun g k => used g k ||
                            ((g =? groupId)%nat && existsb (Nat.eqb k) done &&
                             valueInUse parseOptionList optionId k)) valid s)) in Hfold.
  - revert Hfold. apply groupState_ext. intros g _. split; [| reflexivity]. intros k.
    rewrite existsb_seq.
    destruct (valueInUse parseOptionList optionId k) eqn:Huse;
      [| rewrite !andb_false_r; reflexivity].
    apply valueInUse_allocated in Huse. fold parseOption in Huse.
    destruct (Nat.ltb_spec k (indexListTotal parseOption)); [| lia].
    destruct (used g k), (g =? groupId)%nat; reflexivity.
  - intros done k s s' Hs Hstep. apply (groupScanKey_state _ _ _ _ _ _ _ _ _ Hs) in Hstep.
    cbv zeta in Hstep. revert Hstep. apply groupState_ext. intros g _.
    split; [| reflexivity]. intros j. rewrite existsb_app. cbn [existsb].
    unfold parseOption. rewrite parseOptionValueAt_nth. fold (valueInUse parseOptionList optionId k).
    rewrite orb_false_r. destruct (Nat.eqb_spec j k) as [-> | Hne].
    + destruct (used g k), (g =? groupId)%nat, (existsb (Nat.eqb k) done),
        (valueInUse parseOptionList optionId k); reflexivity.
    + rewrite !andb_false_r, !orb_false_r. reflexivity.
  - revert Hstate. apply groupState_ext. intros g _. split; [| reflexivity]. intros k.
    cbn [existsb]. rewrite andb_false_r, orb_false_r. reflexivity.
Qed.

Lemma groupState_setOption (rules : ParseRules) (config0 config : Config)
    (used : nat -> nat -> bool) (valid : nat -> bool) (groupIdxMap : list (list bool))
    (option : list ConfigOptionData) :
  groupState rules config0 used valid (config, groupIdxMap) ->
  groupState rules config0 used valid (configSetOption config option, groupIdxMap).
Proof. intros Hstate. exact Hstate. Qed.

Lemma groupState_valid (rules : ParseRules) (config0 config : Config)
    (used : nat -> nat -> bool) (valid : nat -> bool) (groupIdxMap : list (list bool))
    (groupId : nat) (group : ConfigOptionGroupData) :
  groupState rules config0 used valid (config, groupIdxMap) ->
  cfgOptionGroup config !! groupId = Some group ->
  groupState rules config0 used (fun g => valid g || (g =? groupId)%nat)
    (configSetOptionGroup config
       (<[groupId := {| cogName := cogName group; cogValid := true;
                        cogIndexTotal := cogIndexTotal group;
                        cogIndexMap := cogIndexMap group |}]> (cfgOptionGroup config)),
     groupIdxMap).
Proof.
  intros (Hsame & Hrows & Hgroups & Hstate) Hgroup. unfold groupState.
  cbn [fst snd configSetOptionGroup cfgOptionGroup] in *.
  split; [exact Hsame |]. split; [exact Hrows |].
  split; [rewrite length_insert; exact Hgroups |].
  intros g row group' Hrow Hgroup'. destruct (Nat.eqb_spec g groupId) as [-> | Hne].
  - rewrite list_lookup_insert_eq in Hgroup' by (apply lookup_lt_Some in Hgroup; exact Hgroup).
    injection Hgroup' as <-. cbn [cogIndexTotal cogIndexMap cogValid].
    destruct (Hstate groupId row group Hrow Hgroup) as (Hlen & Hused & Htotal & Hmap & Hvalid).
    rewrite orb_true_r. repeat split; assumption.
  - rewrite list_lookup_insert_ne in Hgroup' by congruence.
    destruct (Hstate g row group' Hrow Hgroup') as (Hlen & Hused & Htotal & Hmap & Hvalid).
    rewrite orb_false_r. repeat split; assumption.
Qed.

Lemma optionValidFor_sameCommand (rules : ParseRules) (config0 config : Config)
    (optionId : nat) (valid : bool) :
  sameCommand config0 config ->
  cfgParseOptionValid rules (cfgCommand config) (cfgCommandRole config) optionId = Ok valid ->
  optionValidFor rules config0 optionId = valid.
Proof.
  intros (Hcommand & Hrole & _) Hvalid. unfold optionValidFor.
  rewrite <- Hcommand, <- Hrole, Hvalid. reflexivity.
Qed.

(** The scan of one option: the keys of its values in use are marked in the
    row of its group, when the option is valid for the command. *)
Lemma groupScanOption_state (rules : ParseRules) (ext : Collaborators) (config0 : Config)
    (parseOptionList : list ParseOption) (done : list nat) (optionId : nat)
    (state state' : Config * list (list bool)) :
  groupState rules config0
    (fun g => groupKeyUsed rules config0 parseOptionList g done)
    (fun g => existsb (optionInGroup rules config0 g) done) state ->
  groupScanOption rules ext parseOptionList optionId state = Ok state' ->
  groupState rules config0
    (fun g => groupKeyUsed rules config0 parseOptionList g (done ++ [optionId]))
    (fun g => existsb (optionInGroup rules config0 g) (done ++ [optionId])) state'.
Proof.
  intros Hstate Hscan. destruct state as [config groupIdxMap].
  unfold groupScanOption in Hscan. cbv zeta in Hscan.
  bind_inv Hscan. rename a into option. clear Ha.
  bind_inv Hscan. rename a into valid, Ha into Hvalid.
  apply (optionValidFor_sameCommand rules config0) in Hvalid; [| apply Hstate].
  destruct valid.
  - bind_inv Hscan. apply arraySet_Ok in Ha. destruct Ha as [-> _].
    apply (groupState_setOption _ _ _ _ _ _
             (<[optionId := {| coName := optName (ruleOption rules optionId); coValid := true;
                               coGroup := optGroup (ruleOption rules optionId);
                               coGroupId := optGroupId (ruleOption rules optionId);
                               coIndex := coIndex option |}]> (cfgOption config))) in Hstate.
    destruct (optGroup (ruleOption rules optionId)) eqn:Hgrouped.
    + bind_inv Hscan. rename a into group, Ha into Hgroup. apply arrayGet_Ok in Hgroup.
      bind_inv Hscan. apply arraySet_Ok in Ha. destruct Ha as [-> _].
      apply (groupState_valid _ _ _ _ _ _ _ _ Hstate) in Hgroup.
      apply (groupScanKeys_state _ _ _ _ _ _ _ _ _ Hgroup) in Hscan.
      revert Hscan. apply groupState_ext. intros g _.
      unfold groupKeyUsed. split; [intros k |]; rewrite existsb_app; cbn [existsb];
        unfold optionInGroup; rewrite Hvalid, Hgrouped; cbn [andb]; rewrite orb_false_r;
        rewrite (Nat.eqb_sym g); reflexivity.
    + injection Hscan as <-. revert Hstate. apply groupState_ext. intros g _.
      unfold groupKeyUsed. split; [intros k |]; rewrite existsb_app; cbn [existsb];
        unfold optionInGroup; rewrite Hgrouped, andb_false_r; cbn [andb];
        rewrite !orb_false_r; reflexivity.
  - destruct (indexListNotNull parseOptionList optionId).
    + bind_inv Hscan. discriminate Hscan.
    + bind_inv Hscan. injection Hscan as <-.
      apply (groupState_setOption _ _ _ _ _ _ a) in Hstate.
      revert Hstate. apply groupState_ext. intros g _.
      unfold groupKeyUsed. split; [intros k |]; rewrite existsb_app; cbn [existsb];
        unfold optionInGroup; rewrite Hvalid; cbn [andb]; rewrite !orb_false_r; reflexivity.
Qed.

Lemma groupState_initial (rules : ParseRules) (config : Config) :
  cfgOptionGroup config =
    replicate (CFG_OPTION_GROUP_TOTAL rules) (ConfigOptionGroupData_zero rules) ->
  groupState rules config (fun _ _ => false) (fun _ => false)
    (config,
     replicate (CFG_OPTION_GROUP_TOTAL rules) (replicate (CFG_OPTION_KEY_MAX rules) false)).
Proof.
  intros Hinit. unfold groupState. cbn [fst snd]. rewrite Hinit, !length_replicate.
  split; [apply sameCommand_refl |]. split; [reflexivity |]. split; [reflexivity |].
  intros groupId row group Hrow Hgroup.
  apply lookup_replicate in Hrow. destruct Hrow as [-> _].
  apply lookup_replicate in Hgroup. destruct Hgroup as [-> _].
  assert (Hnone : forall k, rowUsed (replicate (CFG_OPTION_KEY_MAX rules) false) k = false).
  { intros k. unfold rowUsed.
    destruct (replicate (CFG_OPTION_KEY_MAX rules) false !! k) as [used |] eqn:Hk;
      [| reflexivity].
    apply lookup_replicate in Hk. destruct Hk as [-> _]. reflexivity. }
  cbn [ConfigOptionGroupData_zero cogIndexTotal cogIndexMap cogValid].
  rewrite length_replicate, (filter_none _ _ Hnone). repeat split. exact Hnone.
Qed.

(** After the scan of all the options the rows mark exactly the keys in use
    and the index totals count them. *)
Lemma groupScan_state (rules : ParseRules) (ext : Collaborators) (config : Config)
    (parseOptionList : list ParseOption) (options : list nat)
    (state : Config * list (list bool)) :
  cfgOptionGroup config =
    replicate (CFG_OPTION_GROUP_TOTAL rules) (ConfigOptionGroupData_zero rules) ->
  foldResult (groupScanOption rules ext parseOptionList) options
    (config,
     replicate (CFG_OPTION_GROUP_TOTAL rules) (replicate (CFG_OPTION_KEY_MAX rules) false)) =
    Ok state ->
  groupState rules config
    (fun g => groupKeyUsed rules config parseOptionList g options)
    (fun g => existsb (optionInGroup rules config g) options) state.
Proof.
  intros Hinit Hfold.
  apply (foldResult_prefix
           (fun done s =>
              groupState rules config
                (fun g => groupKeyUsed rules config parseOptionList g done)
                (fun g => existsb (optionInGroup rules config g) done) s)) in Hfold.
  - exact Hfold.
  - intros done optionId s s'. apply groupScanOption_state.
  - apply (groupState_initial rules config Hinit).
Qed.

Lemma groupWriteIndex_other (rules : ParseRules) (groupIdxMap : list (list bool))
    (groupId other : nat) (config config' : Config) :
  groupWriteIndex rules groupIdxMap groupId config = Ok config' ->
  other <> groupId ->
  cfgOptionGroup config' !! other = cfgOptionGroup config !! other.
Proof.
  unfold groupWriteIndex. cbv zeta. intros Hwrite Hne.
  bind_inv Hwrite.
  repeat case_head Hwrite;
    match goal with
    | Hset : arraySet _ _ _ = Ok _ |- _ =>
        apply arraySet_Ok in Hset; destruct Hset as [-> _]
    end;
    cbn [configSetOptionGroup cfgOptionGroup];
    apply list_lookup_insert_ne; congruence.
Qed.

Lemma groupWriteIndexes_other (rules : ParseRules) (groupIdxMap : list (list bool))
    (other : nat) (groups : list nat) :
  forall (config config' : Config),
    foldResult (groupWriteIndex rules groupIdxMap) groups config = Ok config' ->
    ~ In other groups ->
    cfgOptionGroup config' !! other = cfgOptionGroup config !! other.
Proof.
  induction groups as [| groupId groups IH]; intros config config' Hfold Hnot.
  - injection Hfold as <-. reflexivity.
  - cbn [foldResult] in Hfold. bind_inv Hfold.
    rewrite (IH _ _ Hfold) by (intros Hin; apply Hnot; right; exact Hin).
    apply (groupWriteIndex_other _ _ _ _ _ _ Ha).
    intros ->. apply Hnot. left. reflexivity.
Qed.

(** What [groupWriteIndex] leaves in the group it is called for. *)
Lemma groupWriteIndex_at (rules : ParseRules) (groupIdxMap : list (list bool))
    (groupId : nat) (config config' : Config) (group : ConfigOptionGroupData) :
  groupWriteIndex rules groupIdxMap groupId config = Ok config' ->
  cfgOptionGroup config !! groupId = Some group ->
  exists group',
    cfgOptionGroup config' !! groupId = Some group' /\
    cogName group' = grpName (ruleOptionGroup rules groupId) /\
    cogValid group' = cogValid group /\
    (cogValid group = true ->
     if (cogIndexTotal group =? 0)%nat
     then cogIndexTotal group' = 1%nat /\ cogIndexMap group' = cogIndexMap group
     else cogIndexTotal group' = cogIndexTotal group /\
          exists row,
            groupIdxMap !! groupId = Some row /\
            let start := if (groupId =? cfgOptGrpPg rules)%nat then 1%nat else 0%nat in
            let keys := List.filter (rowUsed row) (seq start (CFG_OPTION_KEY_MAX rules - start)) in
            cogIndexMap group' =
              take start (cogIndexMap group) ++ keys ++
              drop (start + length keys) (cogIndexMap group) /\
            (keys <> [] -> (start + length keys <= length (cogIndexMap group))%nat)).
Proof.
  unfold groupWriteIndex. cbv zeta. intros Hwrite Hgroup.
  unfold arrayGet in Hwrite at 1. rewrite Hgroup in Hwrite. cbn [bind] in Hwrite.
  assert (Hlt : (groupId < length (cfgOptionGroup config))%nat)
    by (apply lookup_lt_Some in Hgroup; exact Hgroup).
  destruct (cogValid group) eqn:Hvalid; cbn [negb] in Hwrite.
  2:{ bind_inv Hwrite. apply arraySet_Ok in Ha. destruct Ha as [-> _]. injection Hwrite as <-.
      cbn [configSetOptionGroup cfgOptionGroup]. rewrite list_lookup_insert_eq by exact Hlt.
      eexists. split; [reflexivity |]. cbn [cogName cogValid].
      split; [reflexivity |]. split; [reflexivity | discriminate]. }
  destruct (cogIndexTotal group =? 0)%nat eqn:Htotal.
  - bind_inv Hwrite. apply arraySet_Ok in Ha. destruct Ha as [-> _]. injection Hwrite as <-.
    cbn [configSetOptionGroup cfgOptionGroup]. rewrite list_lookup_insert_eq by exact Hlt.
    eexists. split; [reflexivity |]. cbn [cogName cogValid cogIndexTotal cogIndexMap].
    split; [reflexivity |]. split; [reflexivity |]. intros _. split; reflexivity.
  - bind_inv Hwrite. rename a into row, Ha into Hrow. apply arrayGet_Ok in Hrow.
    bind_inv Hwrite. destruct a as [indexMap' pos']. rename Ha into Hfold.
    bind_inv Hwrite. apply arraySet_Ok in Ha. destruct Ha as [-> _]. injection Hwrite as <-.
    cbn [configSetOptionGroup cfgOptionGroup]. rewrite list_lookup_insert_eq by exact Hlt.
    eexists. split; [reflexivity |]. cbn [cogName cogValid cogIndexTotal cogIndexMap fst].
    split; [reflexivity |]. split; [reflexivity |]. intros _. split; [reflexivity |].
    exists row. split; [exact Hrow |].
    destruct (groupMapKeys_written _ _ _ _ _ _ _ Hfold) as (_ & Hmap & Hbound).
    split; [exact Hmap | exact Hbound].
Qed.

Lemma filter_seq_tail (f : nat -> bool) (n : nat) :
  List.filter f (seq 0 n) = [] -> List.filter f (seq 1 (n - 1)) = [].
Proof.
  destruct n as [| n]; [reflexivity |].
  replace (S n - 1)%nat with n by lia.
  cbn [seq List.filter]. destruct (f 0%nat); [discriminate | tauto].
Qed.

(** X19: phase 4 of [configParse], started on the groups as the configuration
    is created.  A group is valid exactly when one of its options is valid for
    the command.  The index total of a valid group is the number of key indexes
    at which some valid option of the group has a value that was found and not
    reset, and 1 when there is none.  Its index map lists these key indexes in
    ascending order, followed by zeros; in the pg group position 0 is left at
    key index 0 and the key indexes from 1 on are listed from position 1 on,
    whether or not key index 0 is in use. *)
Theorem configParseGroup_index_map (rules : ParseRules) (ext : Collaborators)
    (config config' : Config) (parseOptionList : list ParseOption) (groupId : nat)
    (group : ConfigOptionGroupData) :
  (0 < CFG_OPTION_KEY_MAX rules)%nat ->
  cfgOptionGroup config =
    replicate (CFG_OPTION_GROUP_TOTAL rules) (ConfigOptionGroupData_zero rules) ->
  configParseGroup rules ext config parseOptionList = Ok config' ->
  cfgOptionGroup config' !! groupId = Some group ->
  let used :=
    groupKeyUsed rules config parseOptionList groupId (seq 0 (CFG_OPTION_TOTAL rules)) in
  let start := if (groupId =? cfgOptGrpPg rules)%nat then 1%nat else 0%nat in
  let keys := List.filter used (seq start (CFG_OPTION_KEY_MAX rules - start)) in
  cogName group = grpName (ruleOptionGroup rules groupId) /\
  cogValid group =
    existsb (optionInGroup rules config groupId) (seq 0 (CFG_OPTION_TOTAL rules)) /\
  (cogValid group = true ->
   cogIndexTotal group =
     Nat.max 1 (length (List.filter used (seq 0 (CFG_OPTION_KEY_MAX rules)))) /\
   cogIndexMap group =
     replicate start 0%nat ++ keys ++
     replicate (CFG_OPTION_KEY_MAX rules - start - length keys) 0%nat).
Proof.
  intros Hmax Hinit Hparse Hlook. cbv zeta.
  unfold configParseGroup in Hparse. cbv zeta in Hparse. bind_inv Hparse.
  destruct a as [scanned groupIdxMap]. rename Ha into Hscan.
  apply (groupScan_state _ _ _ _ _ _ Hinit) in Hscan.
  destruct Hscan as (_ & Hrows & Hgroups & Hstate). cbn [fst snd] in *.
  destruct (Nat.lt_ge_cases groupId (CFG_OPTION_GROUP_TOTAL rules)) as [Hlt | Hge].
  2:{ rewrite (groupWriteIndexes_other _ _ groupId _ _ _ Hparse) in Hlook.
      - apply lookup_lt_Some in Hlook. lia.
      - rewrite in_seq. lia. }
  replace (seq 0 (CFG_OPTION_GROUP_TOTAL rules))
    with (seq 0 groupId ++
          [groupId] ++ seq (S groupId) (CFG_OPTION_GROUP_TOTAL rules - S groupId)) in Hparse.
  2:{ change ([groupId] ++ seq (S groupId) (CFG_OPTION_GROUP_TOTAL rules - S groupId))
        with (seq groupId (S (CFG_OPTION_GROUP_TOTAL rules - S groupId))).
      rewrite <- seq_app. f_equal. lia. }
  rewrite foldResult_app in Hparse. bind_inv Hparse. rename a into before, Ha into Hbefore.
  rewrite foldResult_app in Hparse. bind_inv Hparse. rename a into written, Ha into Hwrite.
  cbn [foldResult] in Hwrite. bind_inv Hwrite. injection Hwrite as ->.
  rename Ha into Hwrite.
  rewrite (groupWriteIndexes_other _ _ groupId _ _ _ Hparse) in Hlook
    by (rewrite in_seq; lia).
  destruct (lookup_lt_is_Some_2 (cfgOptionGroup scanned) groupId) as [group0 Hgroup0];
    [lia |].
  destruct (lookup_lt_is_Some_2 groupIdxMap groupId) as [row Hrow]; [lia |].
  destruct (Hstate groupId row group0 Hrow Hgroup0) as (Hlen & Hused & Htotal & Hmap & Hvalid).
  rewrite <- (groupWriteIndexes_other _ _ groupId _ _ _ Hbefore) in Hgroup0
    by (rewrite in_seq; lia).
  destruct (groupWriteIndex_at _ _ _ _ _ _ Hwrite Hgroup0)
    as (group' & Hlook' & Hname & Hvalid' & Hwritten).
  assert (group' = group) by congruence. subst group'.
  split; [exact Hname |]. split; [congruence |]. intros Hisvalid.
  rewrite Hvalid' in Hisvalid. specialize (Hwritten Hisvalid). cbv zeta in Hwritten.
  rewrite (filter_ext_length _ _ _ (Hused)) in Htotal.
  set (used := groupKeyUsed rules config parseOptionList groupId
                 (seq 0 (CFG_OPTION_TOTAL rules))) in *.
  set (start := if (groupId =? cfgOptGrpPg rules)%nat then 1%nat else 0%nat) in *.
  assert (Hstart : (start <= 1)%nat) by (unfold start; destruct (groupId =? _)%nat; lia).
  destruct (cogIndexTotal group0 =? 0)%nat eqn:Hzero.
  - destruct Hwritten as [-> ->]. apply Nat.eqb_eq in Hzero. rewrite Hzero in Htotal.
    rewrite <- Htotal. split; [reflexivity |].
    assert (Hnone : List.filter used (seq 0 (CFG_OPTION_KEY_MAX rules)) = [])
      by (apply length_zero_iff_nil; symmetry; exact Htotal).
    assert (Hkeys : List.filter used (seq start (CFG_OPTION_KEY_MAX rules - start)) = []).
    { unfold start. destruct (groupId =? cfgOptGrpPg rules)%nat.
      - apply filter_seq_tail. exact Hnone.
      - rewrite Nat.sub_0_r. exact Hnone. }
    rewrite Hkeys, Hmap. cbn [app length]. rewrite <- replicate_add. f_equal. lia.
  - destruct Hwritten as (-> & row' & Hrow' & Hmap' & Hbound).
    assert (row' = row) by congruence. subst row'.
    rewrite (filter_ext_length _ _ _ (Hused)) in Hmap', Hbound.
    apply Nat.eqb_neq in Hzero. split; [lia |].
    rewrite Hmap', Hmap, take_replicate, drop_replicate.
    f_equal; [f_equal; lia |]. f_equal. f_equal. lia.
Qed.

(** [pg2-path] and [pg3-path] are set and [pg1-path] is not: the index total
    of the pg group is 2 and its map begins 0, 1, 2. *)
Lemma configParseGroup_index_map_witness :
  exists (config : Config) (parseOptionList : list ParseOption) (config' : Config)
         (group : ConfigOptionGroupData),
    configParseArgs Demo.optionalPgRules (Demo.ext [] []) "pgbackrest"
      [Demo.arg "stanza" "demo"; Demo.arg "pg2-path" "/db"; Demo.arg "pg3-path" "/db3";
       Demo.positional "backup"] = Ok (config, parseOptionList) /\
    configParseGroup Demo.optionalPgRules (Demo.ext [] []) config parseOptionList =
      Ok config' /\
    cfgOptionGroup config' !! Demo.grpPg = Some group /\
    cogName group = "pg" /\ cogValid group = true /\ cogIndexTotal group = 2%nat /\
    take 4 (cogIndexMap group) = [0; 1; 2; 0]%nat.
Proof.
  destruct (configParseArgs Demo.optionalPgRules (Demo.ext [] []) "pgbackrest"
              [Demo.arg "stanza" "demo"; Demo.arg "pg2-path" "/db"; Demo.arg "pg3-path" "/db3";
               Demo.positional "backup"])
    as [[config parseOptionList] | e msg] eqn:Hargs; [| vm_compute in Hargs; discriminate Hargs].
  pose proof (configParseArgs_optionGroup _ _ _ _ _ _ Hargs) as Hinit.
  vm_compute in Hargs. injection Hargs as <- <-.
  match type of Hinit with
  | cfgOptionGroup ?c = _ =>
      match goal with
      | |- context [Ok (c, ?l)] =>
          destruct (configParseGroup Demo.optionalPgRules (Demo.ext [] []) c l)
            as [config' | e msg] eqn:Hparse; [| vm_compute in Hparse; discriminate Hparse];
          destruct (cfgOptionGroup config' !! Demo.grpPg) as [group |] eqn:Hlook;
            [| exfalso; vm_compute in Hparse; injection Hparse as <-;
               vm_compute in Hlook; discriminate Hlook];
          exists c, l, config', group;
          destruct (configParseGroup_index_map Demo.optionalPgRules (Demo.ext [] []) c config'
                      l Demo.grpPg group ltac:(vm_compute; lia) Hinit Hparse Hlook)
            as (Hname & Hvalid & Hmap)
      end
  end.
  assert (Htrue : cogValid group = true) by (rewrite Hvalid; vm_compute; reflexivity).
  destruct (Hmap Htrue) as [Htotal Hindex].
  split; [reflexivity |]. split; [exact Hparse |]. split; [exact Hlook |].
  split; [rewrite Hname; reflexivity |]. split; [exact Htrue |].
  split; [rewrite Htotal; vm_compute; reflexivity |].
  rewrite Hindex. vm_compute. reflexivity.
Defined.

(** ** Options that are not valid for the command *)

(** X20: an option given on the command line that is not valid for the
    command (in its role) makes the parse fail, whatever the environment and
    the configuration files hold, for every command whose options are
    validated. *)
Theorem configParse_refuses_invalid_option (rules : ParseRules) (ext : Collaborators)
    (exe : string) (args : list GetoptResult) (environ : list string) (config : Config)
    (afterArgs : list ParseOption) (g : GetoptResult) :
  configParseArgs rules ext exe args = Ok (config, afterArgs) ->
  cfgCommand config <> cfgCmdNone rules ->
  cfgCommand config <> cfgCmdVersion rules ->
  cfgCommand config <> cfgCmdHelp rules ->
  In g args -> getoptIsOption g = true ->
  cfgParseOptionValid rules (cfgCommand config) (cfgCommandRole config)
    (resId (cfgParseOptionInfo (optionValue g))) = Ok false ->
  forall result, configParse rules ext exe args environ <> Ok result.
Proof.
  intros Hargs Hnone Hversion Hhelp Hin Hopt Hvalid result Hparse.
  set (optionId := resId (cfgParseOptionInfo (optionValue g))) in *.
  unfold configParse in Hparse. rewrite Hargs in Hparse. cbn [bind] in Hparse.
  destruct (Nat.eqb_spec (cfgCommand config) (cfgCmdNone rules)); [contradiction |].
  destruct (Nat.eqb_spec (cfgCommand config) (cfgCmdVersion rules)); [contradiction |].
  destruct (Nat.eqb_spec (cfgCommand config) (cfgCmdHelp rules)); [contradiction |].
  cbn [negb andb] in Hparse.
  bind_inv Hparse. rename a into afterEnv, Ha into Henv.
  bind_inv Hparse. rename a into afterFile, Ha into Hfile.
  bind_inv Hparse. rename Ha into Hgroup. clear Hparse.
  destruct (configParseArgs_records _ _ _ _ _ _ Hargs) as (_ & Hfound).
  specialize (Hfound g Hin Hopt). fold optionId in Hfound.
  apply (configParseEnv_keepsFound _ _ _ _ _ Henv) in Hfound as Hkeep.
  rewrite <- Hkeep in Hfound.
  apply (configParseFile_keepsFound _ _ _ _ _ Hfile) in Hfound as Hkeep'.
  rewrite <- Hkeep' in Hfound.
  apply parseOptionValueAt_found_allocated in Hfound. destruct Hfound as (po & Hpo & Hlen).
  assert (Hnotnull : indexListNotNull afterFile optionId = true).
  { unfold indexListNotNull. rewrite Hpo. destruct (Nat.eqb_spec (indexListTotal po) 0); [lia |].
    reflexivity. }
  assert (Hlt : (optionId < CFG_OPTION_TOTAL rules)%nat).
  { unfold cfgParseOptionValid in Hvalid.
    destruct (cfgCommand config <? CFG_COMMAND_TOTAL rules)%nat; [| discriminate Hvalid].
    destruct (Nat.ltb_spec optionId (CFG_OPTION_TOTAL rules)); [assumption | discriminate Hvalid]. }
  unfold configParseGroup in Hgroup. cbv zeta in Hgroup. bind_inv Hgroup. clear Hgroup.
  rename Ha into Hall.
  replace (seq 0 (CFG_OPTION_TOTAL rules))
    with (seq 0 optionId ++ seq optionId (S (CFG_OPTION_TOTAL rules - S optionId))) in Hall
    by (rewrite <- seq_app; f_equal; lia).
  rewrite foldResult_app in Hall. apply bind_Ok in Hall.
  destruct Hall as (state & Hbefore & Hall).
  cbn [seq foldResult] in Hall. apply bind_Ok in Hall. destruct Hall as (state' & Hscan & _).
  apply (foldResult_preserves (fun s s' => sameCommand (fst s) (fst s'))) in Hbefore.
  2:{ intros s. apply sameCommand_refl. }
  2:{ intros s1 s2 s3. apply sameCommand_trans. }
  2:{ intros id s s'. apply groupScanOption_sameCommand. }
  destruct state as [scanned groupIdxMap]. cbn [fst] in Hbefore.
  destruct Hbefore as (Hcommand & Hrole & _).
  unfold groupScanOption in Hscan. cbv zeta in Hscan. bind_inv Hscan.
  rewrite Hcommand, Hrole in Hscan. fold optionId in Hscan. rewrite Hvalid in Hscan.
  cbn [bind] in Hscan. rewrite Hnotnull in Hscan. bind_inv Hscan. discriminate Hscan.
Qed.

(** [--db-include] for the backup command, in a table where it is valid for
    restore only. *)
Lemma configParse_refuses_invalid_option_witness :
  isOk (configParse Demo.restoreOptionRules (Demo.ext [] []) "pgbackrest"
          [Demo.arg "stanza" "demo"; Demo.arg "pg1-path" "/db";
           Demo.arg "db-include" "postgres"; Demo.positional "backup"]
          ["PGBACKREST_COMPRESS=n"]) = false.
Proof.
  destruct (configParse Demo.restoreOptionRules (Demo.ext [] []) "pgbackrest"
              [Demo.arg "stanza" "demo"; Demo.arg "pg1-path" "/db";
               Demo.arg "db-include" "postgres"; Demo.positional "backup"]
              ["PGBACKREST_COMPRESS=n"]) as [result | e msg] eqn:Hparse; [| reflexivity].
  exfalso.
  destruct (configParseArgs Demo.restoreOptionRules (Demo.ext [] []) "pgbackrest"
              [Demo.arg "stanza" "demo"; Demo.arg "pg1-path" "/db";
               Demo.arg "db-include" "postgres"; Demo.positional "backup"])
    as [[config afterArgs] | e msg] eqn:Hargs; [| vm_compute in Hargs; discriminate Hargs].
  refine (configParse_refuses_invalid_option Demo.restoreOptionRules (Demo.ext [] [])
            "pgbackrest" _ _ config afterArgs (Demo.arg "db-include" "postgres")
            Hargs _ _ _ _ _ _ result Hparse);
    vm_compute in Hargs; injection Hargs as <- <-; vm_compute;
    first [lia | reflexivity | tauto | discriminate].
Defined.
(** ** Phase 5: the values that are accepted *)

Lemma throwValue_never_ok {A : Type} (rules : ParseRules) (optionId keyIdx : nat)
    (value what : string) (a : A) :
  throwValue rules optionId keyIdx value what <> Ok a.
Proof. unfold throwValue. intros H. bind_inv H. discriminate H. Qed.

Lemma substring_split (s : string) :
  forall n, (n <= String.length s)%nat ->
    s = substring 0 n s +:+ substring n (String.length s - n) s.
Proof.
  induction s as [| c s IH]; intros n Hn.
  - destruct n; reflexivity.
  - destruct n as [| n].
    + rewrite Nat.sub_0_r, substring_all. reflexivity.
    + cbn [String.length] in *. cbn [substring].
      change (String c ?a +:+ ?t) with (String c (a +:+ t)).
      replace (S (String.length s) - S n)%nat with (String.length s - n)%nat by lia.
      rewrite <- IH by lia. reflexivity.
Qed.

Lemma strEndsWith_split (s suffix : string) :
  strEndsWith s suffix = true ->
  s = strTrunc s (Z.of_nat (strSize s) - Z.of_nat (String.length suffix)) +:+ suffix.
Proof.
  unfold strEndsWith, strTrunc, strSize, strEq, strDrop. intros H.
  apply andb_true_iff in H. destruct H as [Hlen Heq].
  apply Nat.leb_le in Hlen. apply String.eqb_eq in Heq.
  replace (Z.to_nat (Z.of_nat (String.length s) - Z.of_nat (String.length suffix)))
    with (String.length s - String.length suffix)%nat by lia.
  rewrite (substring_split s (String.length s - String.length suffix)) at 1 by lia.
  rewrite Heq. reflexivity.
Qed.

Lemma append_length (s t : string) :
  String.length (s +:+ t) = (String.length s + String.length t)%nat.
Proof.
  induction s as [| c s IH]; [reflexivity |].
  change (String c s +:+ t) with (String c (s +:+ t)). cbn [String.length]. rewrite IH. reflexivity.
Qed.

Lemma strEndsWith_append (s suffix : string) : strEndsWith (s +:+ suffix) suffix = true.
Proof.
  unfold strEndsWith, strEq. rewrite append_length.
  replace (String.length s + String.length suffix - String.length suffix)%nat
    with (String.length s) by lia.
  rewrite strDrop_append, String.eqb_refl.
  destruct (Nat.leb_spec (String.length suffix) (String.length s + String.length suffix));
    [reflexivity | lia].
Qed.

Lemma strContains_append (s t sub : string) :
  strContains s sub = true -> strContains (s +:+ t) sub = true.
Proof.
  induction s as [| c s IH]; intros H.
  - cbn [strContains] in H. rewrite orb_false_r in H.
    destruct sub; [| discriminate H]. destruct (EmptyString +:+ t); reflexivity.
  - change (String c s +:+ t) with (String c (s +:+ t)). cbn [strContains] in *.
    apply orb_true_iff in H. apply orb_true_iff. destruct H as [H | H].
    + left. apply (strBeginsWith_append (String c s) t sub H).
    + right. apply IH. exact H.
Qed.

Lemma strContains_suffix (s t sub : string) :
  strBeginsWith t sub = true -> strContains (s +:+ t) sub = true.
Proof.
  intros H. induction s as [| c s IH].
  - change (EmptyString +:+ t) with t. destruct t; cbn [strContains]; rewrite H; reflexivity.
  - change (String c s +:+ t) with (String c (s +:+ t)). cbn [strContains].
    rewrite IH. apply orb_true_r.
Qed.

Lemma append_assoc (s t u : string) : (s +:+ t) +:+ u = s +:+ (t +:+ u).
Proof.
  induction s as [| c s IH]; [reflexivity |].
  change (String c s +:+ t) with (String c (s +:+ t)).
  change (String c (s +:+ t) +:+ u) with (String c ((s +:+ t) +:+ u)).
  change (String c s +:+ (t +:+ u)) with (String c (s +:+ (t +:+ u))).
  rewrite IH. reflexivity.
Qed.

(** What the checks of a path leave: it begins with a slash, holds no double
    slash, and ends with a slash only when it is the root. *)
Lemma path_checks (value : string) :
  strBeginsWith value "/" = true -> strContains value "//" = false ->
  let path := if strEndsWith value "/" && negb (strSize value =? 1)%nat
              then strTrunc value (Z.of_nat (strSize value) - 1) else value in
  (path = value \/ value = path +:+ "/") /\
  strBeginsWith path "/" = true /\ strContains path "//" = false /\
  (strEndsWith path "/" = true -> path = "/"%string).
Proof.
  intros Hbegin Hdouble. cbv zeta.
  destruct (strEndsWith value "/") eqn:Hends; cbn [andb].
  - pose proof (strEndsWith_split _ _ Hends) as Hsplit. cbn [String.length] in Hsplit.
    change (Z.of_nat 1) with 1%Z in Hsplit.
    set (path := strTrunc value (Z.of_nat (strSize value) - 1)) in *.
    destruct (Nat.eqb_spec (strSize value) 1) as [Hone | Hmore]; cbn [negb].
    + split; [left; reflexivity |]. split; [exact Hbegin |]. split; [exact Hdouble |].
      intros _. rewrite Hsplit in Hone |- *. unfold strSize in Hone.
      rewrite append_length in Hone. cbn [String.length] in Hone.
      destruct path; [reflexivity | cbn [String.length] in Hone; lia].
    + split; [right; exact Hsplit |].
      assert (Hpath : path <> EmptyString).
      { intros Hempty. rewrite Hempty in Hsplit. apply Hmore. rewrite Hsplit. reflexivity. }
      split; [| split].
      * rewrite Hsplit in Hbegin. destruct path as [| c path]; [congruence |].
        change (String c path +:+ "/") with (String c (path +:+ "/")) in Hbegin.
        cbn [strBeginsWith] in *. apply andb_true_iff in Hbegin. destruct Hbegin as [-> _].
        destruct path; reflexivity.
      * destruct (strContains path "//") eqn:Hc; [| reflexivity].
        rewrite Hsplit in Hdouble. rewrite (strContains_append _ "/" _ Hc) in Hdouble.
        discriminate Hdouble.
      * intros Hends'. exfalso. apply strEndsWith_split in Hends'.
        rewrite Hends', append_assoc in Hsplit. rewrite Hsplit in Hdouble.
        rewrite strContains_suffix in Hdouble by reflexivity. discriminate Hdouble.
  - split; [left; reflexivity |]. split; [exact Hbegin |]. split; [exact Hdouble |].
    rewrite Hends. intros Hfalse. discriminate Hfalse.
Qed.

(** X21: the value of a path option that is accepted is the first value of
    the list as given, or with one slash removed from its end; it begins with a
    slash, holds no double slash, and ends with a slash only when it is the
    root directory. *)
Theorem configParseValue_path (rules : ParseRules) (ext : Collaborators) (config : Config)
    (optionId optionKeyIdx : nat) (parseOptionValue : ParseOptionValue) (result : Variant) :
  configParseValue rules ext config optionId optionKeyIdx cfgOptTypePath parseOptionValue =
    Ok result ->
  exists value path,
    valueListFirst (povValueList parseOptionValue) = Ok value /\
    result = VarStr path /\
    (path = value \/ value = path +:+ "/") /\
    strBeginsWith path "/" = true /\ strContains path "//" = false /\
    (strEndsWith path "/" = true -> path = "/"%string).
Proof.
  unfold configParseValue. cbv beta iota. intros H.
  bind_inv H. rename a into value, Ha into Hvalue.
  bind_inv H. destruct a as [[parsed shown] valueAllow]. rename Ha into Hparsed.
  assert (Hresult : result = parsed).
  { bind_inv H. destruct (rodFound a); [| congruence].
    bind_inv H. destruct (existsb (strEq valueAllow) a0); [congruence |].
    exfalso. exact (throwValue_never_ok _ _ _ _ _ _ H). }
  subst parsed. clear H.
  destruct (strSize value =? 0)%nat;
    [exfalso; exact (throwValue_never_ok _ _ _ _ _ _ Hparsed) |].
  bind_inv Hparsed. rename a into path, Ha into Hpath. injection Hparsed as <- <- <-.
  destruct (strBeginsWith value "/") eqn:Hbegin; cbn [negb] in Hpath;
    [| exfalso; exact (throwValue_never_ok _ _ _ _ _ _ Hpath)].
  destruct (strContains value "//") eqn:Hdouble;
    [exfalso; exact (throwValue_never_ok _ _ _ _ _ _ Hpath) |].
  exists value, path. split; [exact Hvalue |]. split; [reflexivity |].
  pose proof (path_checks value Hbegin Hdouble) as Hchecks. cbv zeta in Hchecks.
  destruct (strEndsWith value "/" && negb (strSize value =? 1)%nat);
    injection Hpath as <-; exact Hchecks.
Qed.

Lemma configParseValue_path_witness :
  exists result,
    configParseValue Demo.rules (Demo.ext [] [])
      {| cfgCommand := Demo.cmdBackup; cfgCommandRole := cfgCmdRoleDefault; cfgHelp := false;
         cfgExe := "pgbackrest"; cfgParamList := None; cfgOption := [];
         cfgOptionGroup := [] |}
      Demo.optPgPath 0 cfgOptTypePath
      {| povFound := true; povNegate := false; povReset := false; povSource := cfgSourceParam;
         povValueList := Some ["/var/lib/postgresql/"%string] |} = Ok result /\
    result = VarStr "/var/lib/postgresql".
Proof.
  destruct (configParseValue Demo.rules (Demo.ext [] [])
              {| cfgCommand := Demo.cmdBackup; cfgCommandRole := cfgCmdRoleDefault;
                 cfgHelp := false; cfgExe := "pgbackrest"; cfgParamList := None;
                 cfgOption := []; cfgOptionGroup := [] |}
              Demo.optPgPath 0 cfgOptTypePath
              {| povFound := true; povNegate := false; povReset := false;
                 povSource := cfgSourceParam;
                 povValueList := Some ["/var/lib/postgresql/"%string] |})
    as [result | e msg] eqn:Hvalue; [| vm_compute in Hvalue; discriminate Hvalue].
  exists result. split; [reflexivity |].
  destruct (configParseValue_path _ _ _ _ _ _ _ Hvalue)
    as (value & path & Hfirst & -> & _).
  vm_compute in Hvalue. injection Hvalue as <-. reflexivity.
Defined.

Lemma catchAny_throwValue {A : Type} (r : Result A) (rules : ParseRules)
    (optionId keyIdx : nat) (value what : string) (a : A) :
  catchAny r (throwValue rules optionId keyIdx value what) = Ok a -> r = Ok a.
Proof.
  unfold catchAny. destruct r as [a' | e msg]; [tauto |].
  destruct e; intros H; try discriminate H; exfalso; exact (throwValue_never_ok _ _ _ _ _ _ H).
Qed.

(** X22: the value of an integer, size or time option that is accepted is the
    number its first value converts to (for a size, the bytes of
    [convertToByte] as a signed 64-bit integer), and it lies within the allow
    range of the option for the command when there is one. *)
Theorem configParseValue_numeric_range (rules : ParseRules) (ext : Collaborators)
    (config : Config) (optionId optionKeyIdx : nat) (optionType : ConfigOptionType)
    (parseOptionValue : ParseOptionValue) (result : Variant) :
  optionType = cfgOptTypeInteger \/ optionType = cfgOptTypeSize \/
    optionType = cfgOptTypeTime ->
  configParseValue rules ext config optionId optionKeyIdx optionType parseOptionValue =
    Ok result ->
  exists value n,
    valueListFirst (povValueList parseOptionValue) = Ok value /\
    result = VarInt64 n /\
    match optionType with
    | cfgOptTypeInteger => cvtZToInt64 value = Ok n
    | cfgOptTypeSize => exists bytes, convertToByte value = Ok bytes /\ n = to_int64 bytes
    | _ => cvtZToMSec ext value = Ok n
    end /\
    forall allowRange,
      parseRuleOptionDataFind rules parseRuleOptionDataTypeAllowRange (cfgCommand config)
        optionId = Ok allowRange ->
      rodFound allowRange = true ->
      exists rangeMin rangeMax,
        PARSE_RULE_DATA_INT64 allowRange 0 = Ok rangeMin /\
        PARSE_RULE_DATA_INT64 allowRange 2 = Ok rangeMax /\
        rangeMin <= n <= rangeMax.
Proof.
  intros Htype H.
  assert (Hbody :
    exists value converted allowRange outOfRange,
      valueListFirst (povValueList parseOptionValue) = Ok value /\
      match optionType with
      | cfgOptTypeInteger => do i <-- cvtZToInt64 value ;; Ok (i, value)
      | cfgOptTypeSize =>
          do bytes <-- convertToByte value ;; Ok (to_int64 bytes, fmtInt64 (to_int64 bytes))
      | _ => do msec <-- cvtZToMSec ext value ;; Ok (msec, value)
      end = Ok converted /\
      parseRuleOptionDataFind rules parseRuleOptionDataTypeAllowRange (cfgCommand config)
        optionId = Ok allowRange /\
      (if rodFound allowRange then
         do rangeMin <-- PARSE_RULE_DATA_INT64 allowRange 0 ;;
         do rangeMax <-- PARSE_RULE_DATA_INT64 allowRange 2 ;;
         Ok ((fst converted <? rangeMin) || (rangeMax <? fst converted))
       else Ok false) = Ok outOfRange /\
      outOfRange = false /\ result = VarInt64 (fst converted)).
  { unfold configParseValue in H.
    destruct Htype as [-> | [-> | ->]]; cbv beta iota in H;
      (bind_inv H; rename a into value, Ha into Hvalue;
       bind_inv H; destruct a as [[parsed shown] valueAllow]; rename Ha into Hparsed;
       assert (Hresult : result = parsed);
       [ bind_inv H; destruct (rodFound a); [| congruence];
         bind_inv H; destruct (existsb (strEq valueAllow) a0); [congruence |];
         exfalso; exact (throwValue_never_ok _ _ _ _ _ _ H) |];
       subst parsed; clear H;
       bind_inv Hparsed; destruct a as [valueInt64 allowed];
       apply catchAny_throwValue in Ha;
       bind_inv Hparsed; rename a into allowRange, Ha0 into Hrange;
       bind_inv Hparsed; rename a into outOfRange, Ha0 into Hout;
       destruct outOfRange; [exfalso; exact (throwValue_never_ok _ _ _ _ _ _ Hparsed) |];
       injection Hparsed as <- <- <-;
       exists value, (valueInt64, allowed), allowRange, false;
       repeat split; assumption). }
  destruct Hbody as (value & [n allowed] & allowRange & outOfRange & Hvalue & Hconv & Hrange &
                     Hout & -> & ->).
  cbn [fst] in *. exists value, n. split; [exact Hvalue |]. split; [reflexivity |]. split.
  - destruct Htype as [-> | [-> | ->]]; bind_inv Hconv; injection Hconv as <- <-.
    + exact Ha.
    + exists a. split; [exact Ha | reflexivity].
    + exact Ha.
  - intros allowRange' Hrange' Hfound. assert (allowRange' = allowRange) by congruence.
    subst allowRange'. rewrite Hfound in Hout.
    bind_inv Hout. rename a into rangeMin. bind_inv Hout. rename a into rangeMax.
    injection Hout as Hout. apply orb_false_iff in Hout. destruct Hout as [Hmin Hmax].
    apply Z.ltb_ge in Hmin. apply Z.ltb_ge in Hmax.
    exists rangeMin, rangeMax. repeat split; assumption.
Qed.

Lemma configParseValue_numeric_range_witness :
  exists result,
    configParseValue Demo.rules (Demo.ext [] [])
      {| cfgCommand := Demo.cmdBackup; cfgCommandRole := cfgCmdRoleDefault; cfgHelp := false;
         cfgExe := "pgbackrest"; cfgParamList := None; cfgOption := [];
         cfgOptionGroup := [] |}
      Demo.optBufferSize 0 cfgOptTypeSize
      {| povFound := true; povNegate := false; povReset := false; povSource := cfgSourceParam;
         povValueList := Some ["64k"%string] |} = Ok result /\
    result = VarInt64 65536.
Proof.
  destruct (configParseValue Demo.rules (Demo.ext [] [])
              {| cfgCommand := Demo.cmdBackup; cfgCommandRole := cfgCmdRoleDefault;
                 cfgHelp := false; cfgExe := "pgbackrest"; cfgParamList := None;
                 cfgOption := []; cfgOptionGroup := [] |}
              Demo.optBufferSize 0 cfgOptTypeSize
              {| povFound := true; povNegate := false; povReset := false;
                 povSource := cfgSourceParam; povValueList := Some ["64k"%string] |})
    as [result | e msg] eqn:Hvalue; [| vm_compute in Hvalue; discriminate Hvalue].
  exists result. split; [reflexivity |].
  destruct (configParseValue_numeric_range _ _ _ _ _ _ _ _
              (or_intror (or_introl eq_refl)) Hvalue)
    as (value & n & Hfirst & -> & _).
  vm_compute in Hvalue. injection Hvalue as <-. reflexivity.
Defined.
(** ** Phase 5: the values stored for an option *)

Lemma lookup_seq_zero (n i idx : nat) : seq 0 n !! i = Some idx -> idx = i.
Proof. intros H. apply lookup_seq in H. lia. Qed.

(** The last occurrence of an element of a list. *)
Lemma in_split_last (x : nat) (l : list nat) :
  In x l -> exists before after, l = before ++ x :: after /\ ~ In x after.
Proof.
  induction l as [| a l IH]; intros Hin; [destruct Hin |].
  destruct (in_dec Nat.eq_dec x l) as [Hl | Hl].
  - destruct (IH Hl) as (before & after & -> & Hafter).
    exists (a :: before), after. split; [reflexivity | exact Hafter].
  - destruct Hin as [-> | Hin]; [| contradiction].
    exists [], l. split; [reflexivity | exact Hl].
Qed.

(** The loop through the option indexes appends one slot for each index,
    computed in the configuration that holds the slots before it. *)
Lemma configParseSlots_stored (rules : ParseRules) (ext : Collaborators)
    (parseOptionList : list ParseOption) (optionId : nat) (optionType : ConfigOptionType)
    (option : ConfigOptionData) (total : nat) (config config' : Config) :
  cfgOption config !! optionId = Some option ->
  foldResult (fun optionListIdx (config : Config) =>
                do value <-- configParseSlot rules ext config parseOptionList optionId
                               optionType optionListIdx ;;
                do option <-- arrayGet (cfgOption config) optionId ;;
                do options <-- arraySet (cfgOption config) optionId
                     {| coName := coName option; coValid := coValid option;
                        coGroup := coGroup option; coGroupId := coGroupId option;
                        coIndex :=
                          Some (match coIndex option with Some l => l | None => [] end
                                ++ [value]) |} ;;
                Ok (configSetOption config options))
    (seq 0 total)
    (configSetOption config
       (<[optionId := {| coName := coName option; coValid := coValid option;
                         coGroup := coGroup option; coGroupId := coGroupId option;
                         coIndex := Some [] |}]> (cfgOption config))) = Ok config' ->
  exists values,
    config' = configSetOption config
                (<[optionId := optionWithIndex option values]> (cfgOption config)) /\
    length values = total /\
    forall optionListIdx value,
      values !! optionListIdx = Some value ->
      configParseSlot rules ext (configAtSlot config optionId values optionListIdx)
        parseOptionList optionId optionType optionListIdx = Ok value.
Proof.
  intros Hoption Hfold.
  assert (Hlt : (optionId < length (cfgOption config))%nat)
    by (apply lookup_lt_Some in Hoption; exact Hoption).
  apply (foldResult_prefix
           (fun done current =>
              exists values,
                current = configSetOption config
                            (<[optionId := optionWithIndex option values]> (cfgOption config)) /\
                length values = length done /\
                forall i value,
                  values !! i = Some value ->
                  exists idx,
                    done !! i = Some idx /\
                    configParseSlot rules ext
                      (configSetOption config
                         (<[optionId := optionWithIndex option (take i values)]>
                            (cfgOption config)))
                      parseOptionList optionId optionType idx = Ok value)) in Hfold.
  - destruct Hfold as (values & Hconfig & Hlen & Hvalues).
    exists values. rewrite length_seq in Hlen. split; [exact Hconfig |]. split; [exact Hlen |].
    intros i value Hi. destruct (Hvalues i value Hi) as (idx & Hidx & Hslot).
    apply lookup_seq_zero in Hidx. subst idx. unfold configAtSlot. rewrite Hoption.
    exact Hslot.
  - clear Hfold. intros done idx current current' (values & -> & Hlen & Hvalues) Hstep.
    apply bind_Ok in Hstep. destruct Hstep as (value & Hslot & Hstep).
    cbn [configSetOption cfgOption] in Hstep.
    apply bind_Ok in Hstep. destruct Hstep as (stored & Hstored & Hstep).
    apply arrayGet_Ok in Hstored. rewrite list_lookup_insert_eq in Hstored by exact Hlt.
    injection Hstored as <-.
    apply bind_Ok in Hstep. destruct Hstep as (options & Hoptions & Hstep).
    apply arraySet_Ok in Hoptions. destruct Hoptions as [-> _]. injection Hstep as <-.
    exists (values ++ [value]). split.
    { unfold configSetOption. cbn [cfgCommand cfgCommandRole cfgHelp cfgExe cfgParamList
                                     cfgOption cfgOptionGroup optionWithIndex coName coValid
                                     coGroup coGroupId coIndex].
      rewrite list_insert_insert_eq. reflexivity. }
    rewrite !length_app. cbn [length]. split; [lia |]. intros i v Hi.
    destruct (Nat.lt_ge_cases i (length values)) as [Hin | Hout].
    + rewrite lookup_app_l in Hi by exact Hin.
      destruct (Hvalues i v Hi) as (idx' & Hidx & Hs).
      exists idx'. split.
      * rewrite lookup_app_l by (apply lookup_lt_Some in Hidx; exact Hidx). exact Hidx.
      * rewrite take_app_le by lia. exact Hs.
    + rewrite lookup_app_r in Hi by exact Hout.
      destruct (i - length values)%nat eqn:Hzero; [| destruct n; discriminate Hi].
      injection Hi as <-. exists idx. split.
      * rewrite lookup_app_r by lia. replace (i - length done)%nat with 0%nat by lia.
        reflexivity.
      * replace i with (length values) by lia. rewrite take_app_length. exact Hslot.
  - exists []. split; [reflexivity |]. split; [reflexivity |].
    intros i value Hi. discriminate Hi.
Qed.

(** The body of the loop over the resolve order: a valid option gets its
    slots, any other option is left as it is. *)
Lemma configParseOption_stored (rules : ParseRules) (ext : Collaborators)
    (parseOptionList : list ParseOption) (optionId : nat) (config config' : Config) :
  configParseOption rules ext parseOptionList optionId config = Ok config' ->
  sameCommand config config' /\ cfgOptionGroup config' = cfgOptionGroup config /\
  (forall other, other <> optionId -> cfgOption config' !! other = cfgOption config !! other) /\
  exists option option',
    cfgOption config !! optionId = Some option /\
    cfgOption config' !! optionId = Some option' /\
    coValid option' = coValid option /\
    (coValid option = true -> slotsStored rules ext config parseOptionList optionId option').
Proof.
  intros Hparse. unfold configParseOption in Hparse.
  apply bind_Ok in Hparse. destruct Hparse as (option & Hoption & Hparse).
  apply arrayGet_Ok in Hoption.
  destruct (negb (coValid option)) eqn:Hinvalid.
  1:{ apply negb_true_iff in Hinvalid. injection Hparse as <-.
      split; [apply sameCommand_refl |]. split; [reflexivity |].
      split; [reflexivity |]. exists option, option.
      repeat split; try assumption. intros Htrue. congruence. }
  apply bind_Ok in Hparse. destruct Hparse as (total & Htotal & Hparse).
  apply bind_Ok in Hparse. destruct Hparse as (optionType & Htype & Hparse).
  destruct (configParseSlots_stored _ _ _ _ _ _ _ _ _ Hoption Hparse)
    as (values & -> & Hlen & Hvalues).
  assert (Hlt : (optionId < length (cfgOption config))%nat)
    by (apply lookup_lt_Some in Hoption; exact Hoption).
  cbn [configSetOption cfgOption cfgOptionGroup].
  split; [apply sameCommand_setOption |]. split; [reflexivity |]. split.
  { intros other Hne. apply list_lookup_insert_ne. congruence. }
  exists option, (optionWithIndex option values). split; [exact Hoption |].
  split; [apply list_lookup_insert_eq; exact Hlt |]. split; [reflexivity |].
  intros _. exists values, optionType.
  split; [reflexivity |]. split; [exact Htype |]. split; [| exact Hvalues].
  rewrite Hlen. unfold optionIndexTotal.
  destruct (optGroup (ruleOption rules optionId)).
  - apply bind_Ok in Htotal. destruct Htotal as (group & Hgroup & Htotal).
    apply arrayGet_Ok in Hgroup. rewrite Hgroup. congruence.
  - congruence.
Qed.

(** The loop over a part of the resolve order keeps the command and the
    groups, the options it does not name, and of every option whether it is
    valid. *)
Lemma configParseOptions_frame (rules : ParseRules) (ext : Collaborators)
    (parseOptionList : list ParseOption) (order : list nat) (config config' : Config) :
  foldResult (configParseOption rules ext parseOptionList) order config = Ok config' ->
  sameCommand config config' /\ cfgOptionGroup config' = cfgOptionGroup config /\
  (forall other, ~ In other order -> cfgOption config' !! other = cfgOption config !! other) /\
  forall id option,
    cfgOption config !! id = Some option ->
    exists option', cfgOption config' !! id = Some option' /\ coValid option' = coValid option.
Proof.
  revert config. induction order as [| optionId order IH]; intros config Hfold.
  - injection Hfold as <-. split; [apply sameCommand_refl |]. split; [reflexivity |].
    split; [reflexivity |]. intros id option Hoption. exists option. split; [exact Hoption |].
    reflexivity.
  - cbn [foldResult] in Hfold. apply bind_Ok in Hfold. destruct Hfold as (next & Hstep & Hfold).
    destruct (configParseOption_stored _ _ _ _ _ _ Hstep)
      as (Hsame & Hgroups & Hother & option1 & option1' & Hlook1 & Hlook1' & Hvalid1 & _).
    destruct (IH next Hfold) as (Hsame' & Hgroups' & Hother' & Hvalid').
    split; [exact (sameCommand_trans _ _ _ Hsame Hsame') |]. split; [congruence |]. split.
    + intros other Hout. rewrite Hother' by (intros Hin; apply Hout; right; exact Hin).
      apply Hother. intros ->. apply Hout. left. reflexivity.
    + intros id option Hoption. destruct (Nat.eq_dec id optionId) as [-> | Hne].
      * assert (option = option1) by congruence. subst option1.
        destruct (Hvalid' optionId option1' Hlook1') as (option' & Hlook & Hvalid).
        exists option'. split; [exact Hlook | congruence].
      * apply Hvalid'. rewrite (Hother id Hne). exact Hoption.
Qed.

(** X23: phase 5 leaves, for every option of the resolve order that phase 4
    marked valid, one value for each index of its group (one value for an
    option that is not in a group), each the value computed for that index: the
    result of [configParseSlot] in the configuration of the loop at that point,
    which holds the options resolved before as phase 5 left them, the lower
    indexes of the option itself, and the other options as phase 4 left them.
    The option stays valid, the groups stay as phase 4 left them, and what is
    resolved later changes no option resolved before. *)
Theorem configParseValidate_slots (rules : ParseRules) (ext : Collaborators)
    (config config' : Config) (parseOptionList : list ParseOption) (optionId : nat)
    (option : ConfigOptionData) :
  configParseValidate rules ext config parseOptionList = Ok config' ->
  In optionId (optionResolveOrder rules) ->
  cfgOption config !! optionId = Some option -> coValid option = true ->
  cfgOptionGroup config' = cfgOptionGroup config /\
  exists before after current option',
    optionResolveOrder rules = before ++ optionId :: after /\
    ~ In optionId after /\
    foldResult (configParseOption rules ext parseOptionList) before config = Ok current /\
    cfgOptionGroup current = cfgOptionGroup config /\
    (forall other, ~ In other before -> cfgOption current !! other = cfgOption config !! other) /\
    (forall other,
       ~ In other (optionId :: after) -> cfgOption config' !! other = cfgOption current !! other) /\
    cfgOption config' !! optionId = Some option' /\ coValid option' = true /\
    slotsStored rules ext current parseOptionList optionId option'.
Proof.
  intros Hparse Hin Hoption Hvalid. unfold configParseValidate in Hparse.
  destruct (in_split_last _ _ Hin) as (before & after & Horder & Hafter).
  rewrite Horder, foldResult_app in Hparse.
  apply bind_Ok in Hparse. destruct Hparse as (current & Hbefore & Hparse).
  cbn [foldResult] in Hparse. apply bind_Ok in Hparse. destruct Hparse as (next & Hstep & Hrest).
  destruct (configParseOptions_frame _ _ _ _ _ _ Hbefore)
    as (_ & Hgroups1 & Hother1 & Hvalid1).
  destruct (configParseOption_stored _ _ _ _ _ _ Hstep)
    as (_ & Hgroups2 & Hother2 & option1 & option1' & Hlook1 & Hlook1' & Hvalid2 & Hstored).
  destruct (configParseOptions_frame _ _ _ _ _ _ Hrest)
    as (_ & Hgroups3 & Hother3 & _).
  destruct (Hvalid1 optionId option Hoption) as (option1_ & Hlook1_ & Hvalid1_).
  assert (option1_ = option1) by congruence. subst option1_.
  split; [congruence |].
  exists before, after, current, option1'.
  split; [exact Horder |]. split; [exact Hafter |]. split; [exact Hbefore |].
  split; [exact Hgroups1 |]. split; [exact Hother1 |]. split.
  { intros other Hout. rewrite Hother3 by (intros Hin'; apply Hout; right; exact Hin').
    apply Hother2. intros ->. apply Hout. left. reflexivity. }
  split; [rewrite (Hother3 optionId Hafter); exact Hlook1' |].
  split; [congruence |]. apply Hstored. congruence.
Qed.

(** A backup with [pg1-path] on the command line: the option is valid after
    phase 4 and phase 5 stores its one value. *)
Lemma configParseValidate_slots_witness :
  exists (config : Config) (parseOptionList : list ParseOption) (grouped config' : Config)
         (before : list nat) (current : Config) (option' : ConfigOptionData),
    configParseArgs Demo.rules (Demo.ext [] []) "pgbackrest"
      [Demo.arg "stanza" "demo"; Demo.arg "pg1-path" "/db/"; Demo.positional "backup"] =
      Ok (config, parseOptionList) /\
    configParseGroup Demo.rules (Demo.ext [] []) config parseOptionList = Ok grouped /\
    configParseValidate Demo.rules (Demo.ext [] []) grouped parseOptionList = Ok config' /\
    foldResult (configParseOption Demo.rules (Demo.ext [] []) parseOptionList) before grouped =
      Ok current /\
    cfgOption config' !! Demo.optPgPath = Some option' /\
    coValid option' = true /\
    slotsStored Demo.rules (Demo.ext [] []) current parseOptionList Demo.optPgPath option' /\
    coIndex option' =
      Some [{| covNegate := false; covReset := false; covSource := cfgSourceParam;
               covValue := Some (VarStr "/db") |}].
Proof.
  destruct (configParseArgs Demo.rules (Demo.ext [] []) "pgbackrest"
              [Demo.arg "stanza" "demo"; Demo.arg "pg1-path" "/db/"; Demo.positional "backup"])
    as [[config parseOptionList] | e msg] eqn:Hargs;
    [| vm_compute in Hargs; discriminate Hargs].
  destruct (configParseGroup Demo.rules (Demo.ext [] []) config parseOptionList)
    as [grouped | e msg] eqn:Hgroup.
  2:{ exfalso. vm_compute in Hargs. injection Hargs as <- <-.
      vm_compute in Hgroup. discriminate Hgroup. }
  destruct (configParseValidate Demo.rules (Demo.ext [] []) grouped parseOptionList)
    as [config' | e msg] eqn:Hparse.
  2:{ exfalso. vm_compute in Hargs. injection Hargs as <- <-.
      vm_compute in Hgroup. injection Hgroup as <-.
      vm_compute in Hparse. discriminate Hparse. }
  destruct (cfgOption grouped !! Demo.optPgPath) as [option |] eqn:Hoption.
  2:{ exfalso. vm_compute in Hargs. injection Hargs as <- <-.
      vm_compute in Hgroup. injection Hgroup as <-.
      vm_compute in Hoption. discriminate Hoption. }
  assert (Hvalid : coValid option = true).
  { vm_compute in Hargs. injection Hargs as <- <-.
    vm_compute in Hgroup. injection Hgroup as <-.
    vm_compute in Hoption. injection Hoption as <-. reflexivity. }
  assert (Hin : In Demo.optPgPath (optionResolveOrder Demo.rules)).
  { do 4 right. left. reflexivity. }
  destruct (configParseValidate_slots Demo.rules (Demo.ext [] []) grouped config'
              parseOptionList Demo.optPgPath option Hparse Hin Hoption Hvalid)
    as (_ & before & after & current & option' & _ & _ & Hbefore & _ & _ & _ & Hlook &
        Hvalid' & Hstored).
  exists config, parseOptionList, grouped, config', before, current, option'.
  split; [reflexivity |]. split; [exact Hgroup |]. split; [exact Hparse |].
  split; [exact Hbefore |].
  split; [exact Hlook |]. split; [exact Hvalid' |]. split; [exact Hstored |].
  vm_compute in Hargs. injection Hargs as <- <-.
  vm_compute in Hgroup. injection Hgroup as <-.
  vm_compute in Hparse. injection Hparse as <-.
  vm_compute in Hlook. injection Hlook as <-. reflexivity.
Defined.
(** ** Phase 1: the command and its parameters *)

Lemma parseArgs_options (rules : ParseRules) (ext : Collaborators) (args : list GetoptResult) :
  Forall (fun g => optionValue g <> 1) args ->
  forall st st',
    foldResult (parseArg rules ext) args st = Ok st' ->
    psConfig st' = psConfig st /\ psCommandSet st' = psCommandSet st.
Proof.
  induction 1 as [| g args Hg _ IH]; intros st st' Hfold.
  - injection Hfold as <-. split; reflexivity.
  - cbn [foldResult] in Hfold. bind_inv Hfold.
    destruct (parseArg_option_state _ _ _ _ _ Hg Ha) as (Hconfig & Hset & _).
    destruct (IH _ _ Hfold) as [Hconfig' Hset']. split; congruence.
Qed.

Lemma parseArg_help_kept (rules : ParseRules) (ext : Collaborators) (g : GetoptResult)
    (st st' : ParseState) :
  parseArg rules ext g st = Ok st' ->
  cfgHelp (psConfig st) = true -> cfgHelp (psConfig st') = true.
Proof.
  intros H Hhelp. unfold parseArg, parseArgCommand in H. bind_inv H. injection H as <-.
  cbn [psConfig]. repeat case_head Ha; cbn [psConfig configSetCommand configAddParam cfgHelp];
    first [reflexivity | exact Hhelp].
Qed.

(** Once the command is set a positional argument is a parameter. *)
Lemma parseArg_set_params (rules : ParseRules) (ext : Collaborators) (g : GetoptResult)
    (st st' : ParseState) :
  psCommandSet st = true ->
  parseArg rules ext g st = Ok st' ->
  psCommandSet st' = true /\
  cfgCommand (psConfig st') = cfgCommand (psConfig st) /\
  cfgCommandRole (psConfig st') = cfgCommandRole (psConfig st) /\
  cfgParamList (psConfig st') =
    if optionValue g =? 1 then Some (paramsOf (psConfig st) ++ [argCurrent g])
    else cfgParamList (psConfig st).
Proof.
  intros Hset H. unfold parseArg, parseArgCommand in H. bind_inv H. injection H as <-.
  cbn [psConfig psCommandSet]. rewrite Hset in Ha. cbn [negb] in Ha.
  destruct (optionValue g =? 1).
  - injection Ha as <-. cbn [psConfig psCommandSet configAddParam cfgCommand cfgCommandRole
                              cfgParamList]. repeat split; try exact Hset.
  - repeat case_head Ha; cbn [psConfig psCommandSet]; repeat split; try exact Hset.
Qed.

Lemma parseArgs_set_params (rules : ParseRules) (ext : Collaborators)
    (args : list GetoptResult) :
  forall st st',
    psCommandSet st = true ->
    foldResult (parseArg rules ext) args st = Ok st' ->
    let params := map argCurrent (List.filter (fun g => optionValue g =? 1) args) in
    psCommandSet st' = true /\
    cfgCommand (psConfig st') = cfgCommand (psConfig st) /\
    cfgCommandRole (psConfig st') = cfgCommandRole (psConfig st) /\
    cfgParamList (psConfig st') =
      match params with
      | [] => cfgParamList (psConfig st)
      | _ => Some (paramsOf (psConfig st) ++ params)
      end.
Proof.
  induction args as [| g args IH]; intros st st' Hset Hfold; cbv zeta.
  - injection Hfold as <-. cbn [List.filter map]. repeat split; try exact Hset.
  - cbn [foldResult] in Hfold. bind_inv Hfold.
    destruct (parseArg_set_params _ _ _ _ _ Hset Ha) as (Hset1 & Hcommand1 & Hrole1 & Hparams1).
    destruct (IH _ _ Hset1 Hfold) as (Hset' & Hcommand' & Hrole' & Hparams').
    cbv zeta in Hparams'. split; [exact Hset' |]. split; [congruence |]. split; [congruence |].
    rewrite Hparams'. cbn [List.filter]. unfold paramsOf at 1. rewrite Hparams1.
    destruct (optionValue g =? 1); cbn [map].
    + destruct (map argCurrent (List.filter (fun g0 => optionValue g0 =? 1) args)).
      * reflexivity.
      * rewrite <- app_assoc. reflexivity.
    + reflexivity.
Qed.

(** X24: a command line on which help is not requested.  The first
    positional argument names the command, alone or as command:role; every
    positional argument after it is a parameter of the command, kept in the
    order given; and the command allows parameters when there is one. *)
Theorem configParseArgs_parameters (rules : ParseRules) (ext : Collaborators) (exe : string)
    (before after : list GetoptResult) (command : GetoptResult) (config : Config)
    (parseOptionList : list ParseOption) :
  Forall (fun g => optionValue g <> 1) before ->
  optionValue command = 1 ->
  configParseArgs rules ext exe (before ++ command :: after) = Ok (config, parseOptionList) ->
  cfgHelp config = false ->
  let params := map argCurrent (List.filter (fun g => optionValue g =? 1) after) in
  cfgParamList config = match params with [] => None | _ => Some params end /\
  (params <> [] -> cmdParameterAllowed (ruleCommand rules (cfgCommand config)) = true) /\
  (cfgCommandId ext (argCurrent command) <> cfgCmdNone rules ->
   cfgCommand config = cfgCommandId ext (argCurrent command) /\
   cfgCommandRole config = cfgCmdRoleDefault) /\
  (cfgCommandId ext (argCurrent command) = cfgCmdNone rules ->
   exists name role,
     strLstNewSplit (argCurrent command) ":" = [name; role] /\
     cfgCommand config = cfgCommandId ext name /\
     cfgCommandRoleEnum ext role = Ok (cfgCommandRole config)).
Proof.
  intros Hbefore Hcommand Hparse Hhelp. cbv zeta.
  unfold configParseArgs in Hparse. apply bind_Ok in Hparse.
  destruct Hparse as (st3 & Hfold & Hparse).
  rewrite foldResult_app in Hfold. apply bind_Ok in Hfold. destruct Hfold as (st1 & Hfold1 & Hfold).
  cbn [foldResult] in Hfold. apply bind_Ok in Hfold. destruct Hfold as (st2 & Hstep & Hfold3).
  destruct (parseArgs_options _ _ _ Hbefore _ _ Hfold1) as [Hconfig1 Hset1].
  cbn [psConfig psCommandSet] in Hconfig1, Hset1.
  (* Help is not requested at the end, so it never was *)
  apply bind_Ok in Hparse. destruct Hparse as (checked & Hchecked & Hparse).
  assert (Hfinal : config = checked /\ parseOptionList = psParseOptionList st3).
  { destruct (_ && _ && _) in Hparse; [discriminate Hparse |].
    injection Hparse as <- <-. split; reflexivity. }
  destruct Hfinal as [<- ->].
  assert (Hhelp3 : cfgHelp (psConfig st3) = false /\ config = psConfig st3).
  { destruct (negb (psCommandSet st3) && negb (cfgHelp (psConfig st3))).
    - destruct (psArgFound st3); [discriminate Hchecked |]. injection Hchecked as <-.
      discriminate Hhelp.
    - injection Hchecked as <-. split; [exact Hhelp | reflexivity]. }
  destruct Hhelp3 as [Hhelp3 ->]. clear Hchecked.
  assert (Hhelp2 : cfgHelp (psConfig st2) = false).
  { destruct (cfgHelp (psConfig st2)) eqn:H2; [| reflexivity].
    rewrite <- Hhelp3. symmetry. revert Hfold3 H2.
    apply (foldResult_preserves
             (fun s s' => cfgHelp (psConfig s) = true -> cfgHelp (psConfig s') = true)).
    - tauto.
    - tauto.
    - intros g s s'. apply parseArg_help_kept. }
  (* The command *)
  unfold parseArg in Hstep. rewrite Hcommand in Hstep. cbn [Z.eqb Pos.eqb] in Hstep.
  apply bind_Ok in Hstep. destruct Hstep as (stc & Hstepc & Hstep). injection Hstep as <-.
  cbn [psConfig psCommandSet] in *.
  unfold parseArgCommand in Hstepc. rewrite Hset1, Hconfig1 in Hstepc. cbn [negb] in Hstepc.
  apply bind_Ok in Hstepc. destruct Hstepc as ([commandId roleId] & Hrole & Hstepc).
  destruct (commandId =? cfgCmdNone rules)%nat eqn:Hnone; [discriminate Hstepc |].
  destruct (Z.land _ _ =? 0); [discriminate Hstepc |].
  destruct (commandId =? cfgCmdHelp rules)%nat; injection Hstepc as <-;
    cbn [psConfig psCommandSet configSetCommand cfgHelp] in *; [discriminate Hhelp2 |].
  pose proof (fun Hset => parseArgs_set_params _ _ _ _ _ Hset Hfold3) as Hafter.
  destruct (Hafter eq_refl) as (_ & Hcommand3 & Hrole3 & Hparams3). clear Hafter.
  cbv zeta in Hparams3.
  cbn [psConfig configSetCommand cfgCommand cfgCommandRole cfgParamList configNew paramsOf]
    in Hcommand3, Hrole3, Hparams3.
  unfold paramsOf in Hparams3. cbn [cfgParamList app] in Hparams3.
  split; [exact Hparams3 |]. split.
  { intros Hsome. rewrite Hparams3, Hhelp in Hparse.
    destruct (map argCurrent (List.filter (fun g => optionValue g =? 1) after));
      [congruence |].
    cbn [andb negb] in Hparse.
    destruct (cmdParameterAllowed (ruleCommand rules (cfgCommand (psConfig st3))));
      [reflexivity | discriminate Hparse]. }
  rewrite Hcommand3, Hrole3. apply Nat.eqb_neq in Hnone. split.
  - intros Hknown. apply Nat.eqb_neq in Hknown. rewrite Hknown in Hrole.
    injection Hrole as <- <-. split; reflexivity.
  - intros Hunknown. rewrite Hunknown, Nat.eqb_refl in Hrole.
    destruct (strLstNewSplit (argCurrent command) ":") as [| name [| role [| extra parts]]];
      try (injection Hrole as <- <-; congruence).
    exists name, role. split; [reflexivity |].
    destruct (cfgCommandId ext name =? cfgCmdNone rules)%nat eqn:Hname; cbn [negb] in Hrole.
    + injection Hrole as <- <-. apply Nat.eqb_eq in Hname. congruence.
    + apply bind_Ok in Hrole. destruct Hrole as (r & Hr & Hrole). injection Hrole as <- <-.
      split; [reflexivity | exact Hr].
Qed.

(** A backup with two parameters, in a table where the command allows them. *)
Lemma configParseArgs_parameters_witness :
  exists (config : Config) (parseOptionList : list ParseOption),
    configParseArgs Demo.parameterRules (Demo.ext [] []) "pgbackrest"
      ([Demo.arg "stanza" "demo"] ++
       Demo.positional "backup" ::
       [Demo.positional "first"; Demo.arg "pg1-path" "/db"; Demo.positional "second"]) =
      Ok (config, parseOptionList) /\
    cfgCommand config = Demo.cmdBackup /\
    cfgParamList config = Some ["first"; "second"]%string.
Proof.
  destruct (configParseArgs Demo.parameterRules (Demo.ext [] []) "pgbackrest"
              ([Demo.arg "stanza" "demo"] ++
               Demo.positional "backup" ::
               [Demo.positional "first"; Demo.arg "pg1-path" "/db";
                Demo.positional "second"]))
    as [[config parseOptionList] | e msg] eqn:Hargs;
    [| vm_compute in Hargs; discriminate Hargs].
  exists config, parseOptionList. split; [reflexivity |].
  assert (Hhelp : cfgHelp config = false)
    by (vm_compute in Hargs; injection Hargs as <- <-; reflexivity).
  destruct (configParseArgs_parameters Demo.parameterRules (Demo.ext [] []) "pgbackrest"
              [Demo.arg "stanza" "demo"]
              [Demo.positional "first"; Demo.arg "pg1-path" "/db"; Demo.positional "second"]
              (Demo.positional "backup") config parseOptionList
              ltac:(repeat constructor; vm_compute; discriminate) eq_refl Hargs Hhelp)
    as (Hparams & _ & Hcommand & _).
  split.
  - apply Hcommand. vm_compute. discriminate.
  - exact Hparams.
Defined.
(** ** Phase 5: options that depend on another option *)

Lemma dependResolved_fold (value : string) (dependList : list string) :
  forall resolved : bool,
    foldResult (fun candidate (resolved : bool) =>
                  if resolved then Ok true
                  else do value <-- varStr (VarStr value) ;; Ok (strEq value candidate))
      dependList resolved = Ok (resolved || existsb (strEq value) dependList).
Proof.
  induction dependList as [| candidate dependList IH]; intros resolved.
  - cbn [foldResult existsb]. rewrite orb_false_r. reflexivity.
  - cbn [foldResult existsb]. destruct resolved; cbn [bind varStr].
    + rewrite IH. reflexivity.
    + rewrite IH. reflexivity.
Qed.

Lemma isOk_never {A : Type} (r : Result A) : (forall a, r <> Ok a) -> isOk r = false.
Proof. destruct r as [a | e msg]; [intros H; destruct (H a eq_refl) | reflexivity]. Qed.

(** X25: an option whose dependency is not resolved -- the option it depends
    on has no value, or a value that is not in the depend list -- and that was
    not set on the command line is stored unset: its value is NULL and its
    source is default, whatever the environment or a configuration file gave.
    Set on the command line it makes the parse fail; where the option depended
    on has no value the error is "not valid without option". *)
Theorem configParseSlot_dependency_unresolved (rules : ParseRules) (ext : Collaborators)
    (config : Config) (parseOptionList : list ParseOption) (optionId : nat)
    (optionType : ConfigOptionType) (optionListIdx optionKeyIdx : nat)
    (depend : ParseRuleOptionData) (dependType : ConfigOptionType)
    (dependOption : ConfigOptionData) (index : list ConfigOptionValue)
    (dependSlot : ConfigOptionValue) (shown : option string) (dependList : list string) :
  configSlotKeyIdx rules config optionId optionListIdx = Ok optionKeyIdx ->
  parseRuleOptionDataFind rules parseRuleOptionDataTypeDepend (cfgCommand config) optionId =
    Ok depend ->
  rodFound depend = true ->
  let dependOptionId := Z.to_nat (rodData depend) in
  cfgParseOptionType rules dependOptionId = Ok dependType ->
  cfgOption config !! dependOptionId = Some dependOption ->
  coIndex dependOption = Some index ->
  index !! optionListIdx = Some dependSlot ->
  match covValue dependSlot with
  | None => shown = None
  | Some value =>
      if isBoolean dependType
      then exists b : bool, value = VarBool b /\ shown = Some (if b then "1" else "0")%string
      else exists s, value = VarStr s /\ shown = Some s
  end ->
  dataListStrs depend 0 (rodListSize depend) = Ok dependList ->
  match shown with
  | None => True
  | Some value =>
      (0 < rodListSize depend)%nat /\ existsb (strEq value) dependList = false
  end ->
  let parseOptionValue := parseOptionValueAt parseOptionList optionId optionKeyIdx in
  let slot := configParseSlot rules ext config parseOptionList optionId optionType
                optionListIdx in
  (optionIsSet optionType parseOptionValue && isParam (povSource parseOptionValue) = false ->
   slot = Ok {| covNegate := povNegate parseOptionValue;
                covReset := povReset parseOptionValue;
                covSource := cfgSourceDefault; covValue := None |}) /\
  (optionIsSet optionType parseOptionValue && isParam (povSource parseOptionValue) = true ->
   isOk slot = false /\
   (shown = None ->
    forall name dependName,
      cfgParseOptionKeyIdxName rules optionId optionKeyIdx = Ok name ->
      cfgParseOptionKeyIdxName rules dependOptionId optionKeyIdx = Ok dependName ->
      slot = Throw OptionInvalidError
               ("option '" +:+ name +:+ "' not valid without option '" +:+ dependName +:+
                "'"))).
Proof.
  intros Hkey Hfind Hfound dependOptionId Htype Hoption Hindex Hslot Hshown Hlist Hunresolved.
  cbv zeta. unfold configParseSlot. rewrite Hkey. cbn [bind].
  set (parseOptionValue := parseOptionValueAt parseOptionList optionId optionKeyIdx).
  set (optionSet := optionIsSet optionType parseOptionValue).
  remember (configParseDepend rules config optionId optionListIdx optionKeyIdx optionSet
              parseOptionValue) as dependResolved eqn:Hdepend.
  unfold configParseDepend in Hdepend. rewrite Hfind in Hdepend. cbn [bind] in Hdepend.
  rewrite Hfound in Hdepend. fold dependOptionId in Hdepend. rewrite Htype in Hdepend.
  cbn [bind] in Hdepend. unfold arrayGet in Hdepend at 1. rewrite Hoption in Hdepend.
  cbn [bind] in Hdepend. rewrite Hindex in Hdepend. cbv beta iota in Hdepend.
  unfold arrayGet in Hdepend at 1. rewrite Hslot in Hdepend. cbn [bind] in Hdepend.
  destruct (covValue dependSlot) as [value |]; cbv beta iota in Hdepend.
  - (* The option depended on has a value that is not in the list *)
    assert (Hvalue : exists s,
               shown = Some s /\
               (if isBoolean dependType
                then do b <-- varBool value ;; Ok (Some (VarStr (if b then ONE_Z else ZERO_Z)))
                else Ok (Some value)) = Ok (Some (VarStr s))).
    { destruct (isBoolean dependType).
      - destruct Hshown as (b & -> & ->). eexists. split; [reflexivity |].
        cbn [varBool bind]. destruct b; reflexivity.
      - destruct Hshown as (s & -> & ->). exists s. split; reflexivity. }
    destruct Hvalue as (s & -> & Hconverted). rewrite Hconverted in Hdepend.
    cbn [bind] in Hdepend. destruct Hunresolved as [Hsize Hnot].
    destruct (Nat.ltb_spec 0 (rodListSize depend)) as [_ | Hzero]; [| lia].
    rewrite Hlist in Hdepend. cbn [bind] in Hdepend.
    rewrite dependResolved_fold, Hnot in Hdepend. cbn [bind orb negb andb] in Hdepend.
    split.
    + intros Hparam. rewrite Hparam in Hdepend. subst dependResolved. reflexivity.
    + intros Hparam. rewrite Hparam in Hdepend. split; [| discriminate].
      apply isOk_never. intros v H. bind_inv H. rewrite Ha in Hdepend. symmetry in Hdepend.
      bind_inv Hdepend. bind_inv Hdepend.
      destruct a1 as [dependOptionName dependValueList]. bind_inv Hdepend.
      discriminate Hdepend.
  - (* The option depended on has no value *)
    cbn [bind] in Hdepend. split.
    + intros Hparam. rewrite Hparam in Hdepend. subst dependResolved. reflexivity.
    + intros Hparam. rewrite Hparam in Hdepend. split.
      * apply isOk_never. intros v H. bind_inv H. rewrite Ha in Hdepend. symmetry in Hdepend.
        bind_inv Hdepend. bind_inv Hdepend. discriminate Hdepend.
      * intros _ name dependName Hname HdependName.
        rewrite Hname, HdependName in Hdepend. subst dependResolved. reflexivity.
Qed.

(** [buffer-size] depends on [compress]; compress is off and the buffer size
    comes from a configuration file: the buffer size is stored unset. *)
Lemma configParseSlot_dependency_unresolved_witness :
  configParseSlot Demo.dependRules (Demo.ext [] [])
    (configSetOption Demo.backupConfig
       (<[Demo.optCompress :=
            {| coName := "compress"; coValid := true; coGroup := false; coGroupId := 0;
               coIndex := Some [{| covNegate := true; covReset := false;
                                   covSource := cfgSourceParam;
                                   covValue := Some (VarBool false) |}] |}]>
          (cfgOption Demo.backupConfig)))
    (<[Demo.optBufferSize :=
         {| indexList := [parseOptionValueFound cfgSourceConfig (Some ["64k"%string])] |}]>
       (replicate (CFG_OPTION_TOTAL Demo.dependRules) ParseOption_zero))
    Demo.optBufferSize cfgOptTypeSize 0 =
  Ok {| covNegate := false; covReset := false; covSource := cfgSourceDefault;
        covValue := None |}.
Proof.
  lazymatch goal with
  | |- configParseSlot _ _ ?config ?parseOptionList _ _ _ = _ =>
      refine (proj1 (configParseSlot_dependency_unresolved Demo.dependRules (Demo.ext [] [])
                       config parseOptionList Demo.optBufferSize cfgOptTypeSize 0 0 _
                       cfgOptTypeBoolean _ _ _ (Some "0"%string) ["1"%string]
                       eq_refl eq_refl eq_refl eq_refl eq_refl eq_refl eq_refl _ eq_refl _)
                eq_refl)
  end.
  - exists false. split; reflexivity.
  - split; [vm_compute; lia | reflexivity].
Defined.

(** ** The environment in place of the command line *)

Lemma imap_fixed {A : Type} (f : nat -> A -> A) (l : list A) :
  (forall i x, l !! i = Some x -> f i x = x) -> imap f l = l.
Proof.
  intros H. apply list_eq. intros i. rewrite list_lookup_imap.
  destruct (l !! i) as [x |] eqn:Hi; cbn; [f_equal; apply H; exact Hi | reflexivity].
Qed.

Lemma imap_insert_at {A B : Type} (f : nat -> A -> B) (l : list A) (i : nat) (x : A) :
  imap f (<[i := x]> l) = <[i := f i x]> (imap f l).
Proof.
  apply list_eq. intros j. rewrite list_lookup_imap.
  destruct (decide (j = i)) as [-> | Hne].
  - destruct (decide (i < length l)%nat) as [Hlt | Hge].
    + rewrite !list_lookup_insert_eq by (rewrite ?length_imap; exact Hlt). reflexivity.
    + rewrite !list_insert_ge by (rewrite ?length_imap; lia).
      rewrite list_lookup_imap. reflexivity.
  - rewrite !list_lookup_insert_ne by congruence. rewrite list_lookup_imap. reflexivity.
Qed.

Lemma foldResult_ext {A S : Type} (f g : A -> S -> Result S) (l : list A) (s : S) :
  (forall a s, f a s = g a s) -> foldResult f l s = foldResult g l s.
Proof.
  intros H. revert s. induction l as [| a l IH]; intros s; [reflexivity |].
  cbn [foldResult]. rewrite H. destruct (g a s); cbn [bind]; [apply IH | reflexivity].
Qed.

(** A loop whose rounds commute with a map of the state commutes with it. *)
Lemma foldResult_mapResult {A S : Type} (f g : A -> S -> Result S) (m : S -> S) (l : list A)
    (s : S) :
  (forall a s, g a (m s) = mapResult m (f a s)) ->
  foldResult g l (m s) = mapResult m (foldResult f l s).
Proof.
  intros H. revert s. induction l as [| a l IH]; intros s; [reflexivity |].
  cbn [foldResult]. rewrite H. destruct (f a s); cbn [bind mapResult]; [apply IH | reflexivity].
Qed.

Section FromEnv.

Variables (rules : ParseRules) (envId envKeyIdx : nat).

Lemma cellFromEnv_zero (id k : nat) :
  cellFromEnv envId envKeyIdx id k ParseOptionValue_zero = ParseOptionValue_zero.
Proof. unfold cellFromEnv. cbn. rewrite andb_false_r. reflexivity. Qed.

Lemma cellFromEnv_found (id k : nat) (value : ParseOptionValue) :
  povFound (cellFromEnv envId envKeyIdx id k value) = povFound value.
Proof. unfold cellFromEnv. destruct (_ && _); reflexivity. Qed.

Lemma cellFromEnv_negate (id k : nat) (value : ParseOptionValue) :
  povNegate (cellFromEnv envId envKeyIdx id k value) = povNegate value.
Proof. unfold cellFromEnv. destruct (_ && _); reflexivity. Qed.

Lemma cellFromEnv_reset (id k : nat) (value : ParseOptionValue) :
  povReset (cellFromEnv envId envKeyIdx id k value) = povReset value.
Proof. unfold cellFromEnv. destruct (_ && _); reflexivity. Qed.

Lemma cellFromEnv_valueList (id k : nat) (value : ParseOptionValue) :
  povValueList (cellFromEnv envId envKeyIdx id k value) = povValueList value.
Proof. unfold cellFromEnv. destruct (_ && _); reflexivity. Qed.

(** A value stored with the source [cfgSourceConfig] is as the environment
    has it. *)
Lemma cellFromEnv_config (id k : nat) (found negate reset : bool)
    (valueList : option (list string)) :
  cellFromEnv envId envKeyIdx id k
    {| povFound := found; povNegate := negate; povReset := reset;
       povSource := cfgSourceConfig; povValueList := valueList |} =
  {| povFound := found; povNegate := negate; povReset := reset;
     povSource := cfgSourceConfig; povValueList := valueList |}.
Proof. unfold cellFromEnv. destruct (_ && _); reflexivity. Qed.

Lemma fromEnv_lookup (l : list ParseOption) (id : nat) :
  (parseOptionListFromEnv envId envKeyIdx) l !! id = optionFromEnv envId envKeyIdx id <$> (l !! id).
Proof. apply list_lookup_imap. Qed.

Lemma fromEnv_at (l : list ParseOption) (id k : nat) :
  parseOptionValueAt ((parseOptionListFromEnv envId envKeyIdx) l) id k =
    cellFromEnv envId envKeyIdx id k (parseOptionValueAt l id k).
Proof.
  unfold parseOptionValueAt. rewrite fromEnv_lookup.
  destruct (l !! id) as [po |]; cbn; [| symmetry; apply cellFromEnv_zero].
  rewrite !nth_lookup, list_lookup_imap.
  destruct (indexList po !! k); cbn; [reflexivity | symmetry; apply cellFromEnv_zero].
Qed.

Lemma fromEnv_notNull (l : list ParseOption) (id : nat) :
  indexListNotNull ((parseOptionListFromEnv envId envKeyIdx) l) id = indexListNotNull l id.
Proof.
  unfold indexListNotNull. rewrite fromEnv_lookup.
  destruct (l !! id) as [po |]; cbn; [| reflexivity].
  unfold indexListTotal. cbn. rewrite length_imap. reflexivity.
Qed.

Lemma fromEnv_nth (l : list ParseOption) (id : nat) :
  nth id ((parseOptionListFromEnv envId envKeyIdx) l) ParseOption_zero =
    optionFromEnv envId envKeyIdx id (nth id l ParseOption_zero).
Proof.
  rewrite !nth_lookup, fromEnv_lookup. destruct (l !! id); reflexivity.
Qed.

Lemma fromEnv_insert (l : list ParseOption) (id : nat) (po : ParseOption) :
  (parseOptionListFromEnv envId envKeyIdx) (<[id := po]> l) = <[id := optionFromEnv envId envKeyIdx id po]> ((parseOptionListFromEnv envId envKeyIdx) l).
Proof. apply imap_insert_at. Qed.

Lemma optionFromEnv_replicate (id n : nat) :
  optionFromEnv envId envKeyIdx id {| indexList := replicate n ParseOptionValue_zero |} =
    {| indexList := replicate n ParseOptionValue_zero |}.
Proof.
  unfold optionFromEnv. cbn [indexList]. f_equal. apply imap_fixed.
  intros i x Hx. apply lookup_replicate in Hx. destruct Hx as [-> _]. apply cellFromEnv_zero.
Qed.

Lemma optionFromEnv_app (id n : nat) (po : ParseOption) :
  optionFromEnv envId envKeyIdx id
    {| indexList := indexList po ++ replicate n ParseOptionValue_zero |} =
    {| indexList := indexList (optionFromEnv envId envKeyIdx id po) ++
                      replicate n ParseOptionValue_zero |}.
Proof.
  unfold optionFromEnv. cbn [indexList]. f_equal. rewrite imap_app. f_equal.
  apply imap_fixed.
  intros i x Hx. apply lookup_replicate in Hx. destruct Hx as [-> _]. apply cellFromEnv_zero.
Qed.

(** The allocation does not look at the source. *)
Lemma fromEnv_alloc (l : list ParseOption) (id k : nat) :
  parseOptionIdxValue rules ((parseOptionListFromEnv envId envKeyIdx) l) id k =
    mapResult (parseOptionListFromEnv envId envKeyIdx) (parseOptionIdxValue rules l id k).
Proof.
  unfold parseOptionIdxValue. rewrite fromEnv_lookup.
  destruct (l !! id) as [po |]; cbn [fmap option_fmap option_map mapResult]; [| reflexivity].
  replace (indexListTotal (optionFromEnv envId envKeyIdx id po)) with (indexListTotal po)
    by (unfold indexListTotal; cbn; rewrite length_imap; reflexivity).
  destruct (indexListTotal po <=? k)%nat; [| reflexivity].
  destruct (optGroup (ruleOption rules id)).
  - destruct (indexListTotal po =? 0)%nat; cbn [mapResult]; f_equal; rewrite fromEnv_insert.
    + rewrite optionFromEnv_replicate. reflexivity.
    + rewrite optionFromEnv_app. reflexivity.
  - destruct (k =? 0)%nat; cbn [mapResult]; [| reflexivity].
    f_equal. rewrite fromEnv_insert. f_equal.
    symmetry. apply (optionFromEnv_replicate id 1).
Qed.

Lemma fromEnv_set (l : list ParseOption) (id k : nat) (value : ParseOptionValue) :
  parseOptionValueSet ((parseOptionListFromEnv envId envKeyIdx) l) id k (cellFromEnv envId envKeyIdx id k value) =
    (parseOptionListFromEnv envId envKeyIdx) (parseOptionValueSet l id k value).
Proof.
  unfold parseOptionValueSet. rewrite fromEnv_lookup.
  destruct (l !! id) as [po |]; cbn [fmap option_fmap option_map]; [| reflexivity].
  rewrite fromEnv_insert. f_equal. unfold optionFromEnv. cbn [indexList]. f_equal.
  symmetry. apply imap_insert_at.
Qed.

(** Storing a value that has the source [cfgSourceConfig]. *)
Lemma fromEnv_store (l : list ParseOption) (id k : nat) (found negate reset : bool)
    (valueList : option (list string)) :
  parseOptionValueSet ((parseOptionListFromEnv envId envKeyIdx) l) id k
    {| povFound := found; povNegate := negate; povReset := reset;
       povSource := cfgSourceConfig; povValueList := valueList |} =
    (parseOptionListFromEnv envId envKeyIdx) (parseOptionValueSet l id k
               {| povFound := found; povNegate := negate; povReset := reset;
                  povSource := cfgSourceConfig; povValueList := valueList |}).
Proof. rewrite <- fromEnv_set, cellFromEnv_config. reflexivity. Qed.

(** A list in which the value of the option is not found is as the
    environment has it. *)
Lemma fromEnv_unfound (l : list ParseOption) :
  povFound (parseOptionValueAt l envId envKeyIdx) = false -> (parseOptionListFromEnv envId envKeyIdx) l = l.
Proof.
  intros Hnot. apply imap_fixed. intros id po Hpo.
  unfold optionFromEnv. destruct po as [values]. cbn [indexList]. f_equal.
  apply imap_fixed. intros k value Hvalue. unfold cellFromEnv.
  destruct (Nat.eqb_spec id envId) as [-> | Hid]; [| reflexivity].
  destruct (Nat.eqb_spec k envKeyIdx) as [-> | Hk]; [| reflexivity].
  cbn [andb]. unfold parseOptionValueAt in Hnot. rewrite Hpo in Hnot. cbn [indexList] in Hnot.
  rewrite nth_lookup, Hvalue in Hnot. cbn in Hnot. rewrite Hnot. reflexivity.
Qed.

Ltac lockstep :=
  repeat (cbn [bind mapResult fst snd];
          rewrite ?fromEnv_alloc, ?fromEnv_at, ?cellFromEnv_found, ?cellFromEnv_negate,
            ?cellFromEnv_reset, ?cellFromEnv_valueList;
          match goal with
          | |- bind (mapResult _ ?r) _ = mapResult _ (bind ?r _) => destruct r
          | |- bind ?r _ = mapResult _ (bind ?r _) => destruct r
          | |- (match ?c with _ => _ end) = mapResult _ (match ?c with _ => _ end) =>
              destruct c
          | |- Ok _ = Ok _ => f_equal
          | |- (_, _) = (_, _) => f_equal
          | |- parseOptionValueSet (parseOptionListFromEnv _ _ _) _ _ _ = _ =>
              apply fromEnv_store
          | |- _ = _ => reflexivity
          end).

(** Phase 2 does not look at the source. *)
Lemma fromEnv_parseEnv (config : Config) (keyValue : string) (l : list ParseOption) :
  parseEnv rules config keyValue ((parseOptionListFromEnv envId envKeyIdx) l) =
    mapResult (parseOptionListFromEnv envId envKeyIdx) (parseEnv rules config keyValue l).
Proof. unfold parseEnv. cbv zeta. lockstep. Qed.

Lemma fromEnv_configParseEnv (config : Config) (environ : list string)
    (l : list ParseOption) :
  configParseEnv rules config environ ((parseOptionListFromEnv envId envKeyIdx) l) =
    mapResult (parseOptionListFromEnv envId envKeyIdx) (configParseEnv rules config environ l).
Proof.
  unfold configParseEnv. apply foldResult_mapResult. intros keyValue s.
  apply fromEnv_parseEnv.
Qed.

(** Phase 3 does not look at the source. *)
Lemma fromEnv_parseConfigKey (config : Config) (ini : Ini) (section : string)
    (sectionIdx : nat) (key : string) (state : list (nat * string) * list ParseOption) :
  parseConfigKey rules config ini section sectionIdx key
    (fst state, parseOptionListFromEnv envId envKeyIdx (snd state)) =
    mapResult (fun s => (fst s, parseOptionListFromEnv envId envKeyIdx (snd s)))
      (parseConfigKey rules config ini section sectionIdx key state).
Proof.
  destruct state as [optionFound l]. unfold parseConfigKey, throwOption. cbv zeta. lockstep.
Qed.

Lemma fromEnv_parseConfigSection (config : Config) (ini : Ini) (sectionAt : nat * string)
    (l : list ParseOption) :
  parseConfigSection rules config ini sectionAt (parseOptionListFromEnv envId envKeyIdx l) =
    mapResult (parseOptionListFromEnv envId envKeyIdx)
      (parseConfigSection rules config ini sectionAt l).
Proof.
  unfold parseConfigSection. destruct sectionAt as [sectionIdx section].
  pose proof (foldResult_mapResult
                (parseConfigKey rules config ini section sectionIdx)
                (parseConfigKey rules config ini section sectionIdx)
                (fun s => (fst s, parseOptionListFromEnv envId envKeyIdx (snd s)))
                (iniSectionKeyList ini section) ([], l)) as Hfold.
  cbn [fst snd] in Hfold. rewrite Hfold by (intros key s; apply fromEnv_parseConfigKey).
  clear Hfold.
  destruct (foldResult (parseConfigKey rules config ini section sectionIdx)
              (iniSectionKeyList ini section) ([], l)); reflexivity.
Qed.

Lemma fromEnv_configStanza (l : list ParseOption) :
  configStanza rules (parseOptionListFromEnv envId envKeyIdx l) = configStanza rules l.
Proof.
  unfold configStanza. rewrite fromEnv_notNull, fromEnv_at, cellFromEnv_valueList.
  reflexivity.
Qed.

Lemma fromEnv_configParseIni (ext : Collaborators) (config : Config) (ini : Ini)
    (l : list ParseOption) :
  configParseIni rules ext config ini (parseOptionListFromEnv envId envKeyIdx l) =
    mapResult (parseOptionListFromEnv envId envKeyIdx) (configParseIni rules ext config ini l).
Proof.
  unfold configParseIni. rewrite fromEnv_configStanza.
  destruct (configStanza rules l) as [stanza | e msg]; cbn [bind mapResult]; [| reflexivity].
  apply foldResult_mapResult. intros sectionAt s. apply fromEnv_parseConfigSection.
Qed.

Lemma fromEnv_optionFound (l : list ParseOption) (id : nat) :
  optionFound (parseOptionListFromEnv envId envKeyIdx l) id = optionFound l id.
Proof. unfold optionFound. rewrite fromEnv_notNull, fromEnv_at, cellFromEnv_found. reflexivity. Qed.

Lemma fromEnv_cfgFileLoad (ext : Collaborators) (l : list ParseOption)
    (optConfigDefault optConfigIncludePathDefault origConfigDefault : string) :
  cfgFileLoad rules ext (parseOptionListFromEnv envId envKeyIdx l) optConfigDefault
    optConfigIncludePathDefault origConfigDefault =
  cfgFileLoad rules ext l optConfigDefault optConfigIncludePathDefault origConfigDefault.
Proof.
  unfold cfgFileLoad.
  rewrite !fromEnv_optionFound, !fromEnv_notNull, !fromEnv_at, !cellFromEnv_valueList,
    !cellFromEnv_negate.
  reflexivity.
Qed.

Lemma fromEnv_configParseFile (ext : Collaborators) (config : Config) (l : list ParseOption) :
  configParseFile rules ext config (parseOptionListFromEnv envId envKeyIdx l) =
    mapResult (parseOptionListFromEnv envId envKeyIdx) (configParseFile rules ext config l).
Proof.
  unfold configParseFile.
  repeat (rewrite ?fromEnv_cfgFileLoad;
          match goal with
          | |- bind ?r _ = mapResult _ (bind ?r _) => destruct r; cbn [bind mapResult]
          | |- (match ?c with _ => _ end) = mapResult _ (match ?c with _ => _ end) =>
              destruct c
          | |- _ = _ => first [reflexivity | apply fromEnv_configParseIni]
          end).
Qed.

(** Phase 4 does not look at the source. *)
Lemma fromEnv_groupScanKey (groupId id : nat) (parseOption : ParseOption) (optionKeyIdx : nat)
    (state : Config * list (list bool)) :
  groupScanKey groupId (optionFromEnv envId envKeyIdx id parseOption) optionKeyIdx state =
    groupScanKey groupId parseOption optionKeyIdx state.
Proof.
  unfold groupScanKey. destruct state as [config groupIdxMap]. cbv zeta.
  replace (nth optionKeyIdx (indexList (optionFromEnv envId envKeyIdx id parseOption))
             ParseOptionValue_zero)
    with (cellFromEnv envId envKeyIdx id optionKeyIdx
            (nth optionKeyIdx (indexList parseOption) ParseOptionValue_zero)).
  - rewrite cellFromEnv_found, cellFromEnv_reset. reflexivity.
  - unfold optionFromEnv. cbn [indexList]. rewrite !nth_lookup, list_lookup_imap.
    destruct (indexList parseOption !! optionKeyIdx); cbn;
      [reflexivity | apply cellFromEnv_zero].
Qed.

Lemma fromEnv_groupScanOption (ext : Collaborators) (l : list ParseOption) (optionId : nat)
    (state : Config * list (list bool)) :
  groupScanOption rules ext (parseOptionListFromEnv envId envKeyIdx l) optionId state =
    groupScanOption rules ext l optionId state.
Proof.
  unfold groupScanOption. destruct state as [config groupIdxMap]. cbv zeta.
  rewrite fromEnv_notNull, fromEnv_nth.
  replace (indexListTotal (optionFromEnv envId envKeyIdx optionId
                             (nth optionId l ParseOption_zero)))
    with (indexListTotal (nth optionId l ParseOption_zero))
    by (unfold indexListTotal, optionFromEnv; cbn [indexList]; rewrite length_imap;
        reflexivity).
  repeat match goal with
         | |- bind ?r _ = bind ?r _ => destruct r; cbn [bind]
         | |- (match ?c with _ => _ end) = (match ?c with _ => _ end) => destruct c
         | |- foldResult _ _ _ = foldResult _ _ _ =>
             apply foldResult_ext; intros; apply fromEnv_groupScanKey
         | |- _ = _ => reflexivity
         end.
Qed.

Lemma fromEnv_configParseGroup (ext : Collaborators) (config : Config)
    (l : list ParseOption) :
  configParseGroup rules ext config (parseOptionListFromEnv envId envKeyIdx l) =
    configParseGroup rules ext config l.
Proof.
  unfold configParseGroup. cbv zeta.
  rewrite (foldResult_ext (groupScanOption rules ext (parseOptionListFromEnv envId envKeyIdx l))
             (groupScanOption rules ext l)); [reflexivity |].
  intros optionId s. apply fromEnv_groupScanOption.
Qed.

End FromEnv.

(** ** Phase 5 with the environment in place of the command line *)

Lemma arrayGet_imap {A B : Type} (f : nat -> A -> B) (l : list A) (i : nat) :
  arrayGet (imap f l) i = mapResult (f i) (arrayGet l i).
Proof. unfold arrayGet. rewrite list_lookup_imap. destruct (l !! i); reflexivity. Qed.

Lemma arraySet_imap {A B : Type} (f : nat -> A -> B) (l : list A) (i : nat) (x : A) :
  arraySet (imap f l) i (f i x) = mapResult (imap f) (arraySet l i x).
Proof.
  unfold arraySet. rewrite length_imap. destruct (i <? length l)%nat; [| reflexivity].
  cbn [mapResult]. rewrite imap_insert_at. reflexivity.
Qed.

Section FromEnvConfig.

Variables (rules : ParseRules) (ext : Collaborators) (envId envKeyIdx : nat).
Variable parseOptionList : list ParseOption.

Hypothesis Hfound : povFound (parseOptionValueAt parseOptionList envId envKeyIdx) = true.
Hypothesis Hparam :
  povSource (parseOptionValueAt parseOptionList envId envKeyIdx) = cfgSourceParam.

Lemma configFromEnv_setOption (config : Config) (options : list ConfigOptionData) :
  configFromEnv rules envId envKeyIdx (configSetOption config options) =
    configSetOption config (imap (configOptionFromEnv rules config envId envKeyIdx) options).
Proof. reflexivity. Qed.

Lemma configOptionFromEnv_valid (config : Config) (id : nat) (option : ConfigOptionData) :
  coValid (configOptionFromEnv rules config envId envKeyIdx id option) = coValid option.
Proof. unfold configOptionFromEnv. destruct (id =? envId)%nat; reflexivity. Qed.

Lemma configOptionFromEnv_index (config : Config) (id : nat) (option : ConfigOptionData) :
  coIndex (configOptionFromEnv rules config envId envKeyIdx id option) =
    if (id =? envId)%nat
    then option_map (imap (slotFromEnv rules config envId envKeyIdx)) (coIndex option)
    else coIndex option.
Proof. unfold configOptionFromEnv. destruct (id =? envId)%nat; reflexivity. Qed.

Lemma slotFromEnv_value (config : Config) (idx : nat) (value : ConfigOptionValue) :
  covValue (slotFromEnv rules config envId envKeyIdx idx value) = covValue value.
Proof.
  unfold slotFromEnv. destruct (configSlotKeyIdx rules config envId idx); [| reflexivity].
  destruct (_ && _); reflexivity.
Qed.

(** A source that is not the command line before is none after. *)
Lemma cellFromEnv_param (id k : nat) (value : ParseOptionValue) (b : bool) :
  b && isParam (povSource value) = false ->
  b && isParam (povSource (cellFromEnv envId envKeyIdx id k value)) = false.
Proof.
  unfold cellFromEnv.
  destruct ((id =? envId)%nat && (k =? envKeyIdx)%nat && povFound value); [| trivial].
  intros _. cbn. apply andb_false_r.
Qed.

Lemma optionIsSet_fromEnv (type : ConfigOptionType) (id k : nat) (value : ParseOptionValue) :
  optionIsSet type (cellFromEnv envId envKeyIdx id k value) = optionIsSet type value.
Proof.
  unfold optionIsSet. rewrite cellFromEnv_found, cellFromEnv_negate, cellFromEnv_reset.
  reflexivity.
Qed.

Ltac depend_step H :=
  cbn [bind mapResult option_map] in H |- *;
  rewrite ?arrayGet_imap, ?configOptionFromEnv_index, ?slotFromEnv_value;
  lazymatch type of H with
  | (if ?b && isParam (povSource ?pov) then _ else _) = Ok _ =>
      let Hcond := fresh "Hcond" in
      destruct (b && isParam (povSource pov)) eqn:Hcond;
      [| rewrite (cellFromEnv_param _ _ _ _ Hcond)]
  | _ => case_head H
  end;
  try match goal with
      | |- context [if (?a =? envId)%nat then _ else _] => destruct (a =? envId)%nat
      end.

(** A dependency check that passes for a value of the command line passes
    with the same result for the value of the environment. *)
Lemma configParseDepend_fromEnv (config : Config) (optionId optionListIdx optionKeyIdx : nat)
    (optionSet : bool) (value : ParseOptionValue) (dependResolved : bool) :
  configParseDepend rules config optionId optionListIdx optionKeyIdx optionSet value =
    Ok dependResolved ->
  configParseDepend rules (configFromEnv rules envId envKeyIdx config) optionId optionListIdx
    optionKeyIdx optionSet (cellFromEnv envId envKeyIdx optionId optionKeyIdx value) =
    Ok dependResolved.
Proof.
  intros H. unfold configParseDepend in *. unfold configFromEnv.
  cbn [configSetOption cfgCommand cfgOption]. cbv zeta in *.
  repeat depend_step H; try reflexivity.
Qed.

Lemma configParseValue_fromEnv (config : Config) (id k : nat) (type : ConfigOptionType)
    (value : ParseOptionValue) :
  configParseValue rules ext (configFromEnv rules envId envKeyIdx config) id k type
    (cellFromEnv envId envKeyIdx id k value) =
  configParseValue rules ext config id k type value.
Proof.
  unfold cellFromEnv.
  destruct ((id =? envId)%nat && (k =? envKeyIdx)%nat && povFound value); reflexivity.
Qed.

(** The value computed for an index is the same but for the source. *)
Lemma configParseSlot_fromEnv (config : Config) (id : nat) (type : ConfigOptionType)
    (idx : nat) (value : ConfigOptionValue) :
  configParseSlot rules ext config parseOptionList id type idx = Ok value ->
  configParseSlot rules ext (configFromEnv rules envId envKeyIdx config)
    (parseOptionListFromEnv envId envKeyIdx parseOptionList) id type idx =
    Ok (if (id =? envId)%nat then slotFromEnv rules config envId envKeyIdx idx value
        else value).
Proof.
  intros H. unfold configParseSlot in *. cbv zeta in *.
  change (configSlotKeyIdx rules (configFromEnv rules envId envKeyIdx config) id idx)
    with (configSlotKeyIdx rules config id idx).
  destruct (configSlotKeyIdx rules config id idx) as [k |] eqn:Hk; cbn [bind] in *;
    [| discriminate H].
  rewrite fromEnv_at, optionIsSet_fromEnv, configParseValue_fromEnv.
  destruct (configParseDepend rules config id idx k
              (optionIsSet type (parseOptionValueAt parseOptionList id k))
              (parseOptionValueAt parseOptionList id k)) as [resolved |] eqn:Hdepend;
    cbn [bind] in H; [| discriminate H].
  rewrite (configParseDepend_fromEnv _ _ _ _ _ _ _ Hdepend). cbn [bind].
  rewrite cellFromEnv_negate, cellFromEnv_reset.
  change (configParseDefault rules ext (configFromEnv rules envId envKeyIdx config) id k type)
    with (configParseDefault rules ext config id k type).
  assert (Hsource :
            forall negate reset (result : option Variant),
              {| covNegate := negate; covReset := reset;
                 covSource :=
                   povSource (cellFromEnv envId envKeyIdx id k
                                (parseOptionValueAt parseOptionList id k));
                 covValue := result |} =
              (if (id =? envId)%nat
               then slotFromEnv rules config envId envKeyIdx idx
                      {| covNegate := negate; covReset := reset;
                         covSource := povSource (parseOptionValueAt parseOptionList id k);
                         covValue := result |}
               else {| covNegate := negate; covReset := reset;
                       covSource := povSource (parseOptionValueAt parseOptionList id k);
                       covValue := result |})).
  { intros negate reset result. unfold cellFromEnv, slotFromEnv.
    destruct (Nat.eqb_spec id envId) as [-> | Hid]; [| reflexivity].
    rewrite Hk. cbn [andb covSource covNegate covReset covValue].
    destruct (Nat.eqb_spec k envKeyIdx) as [-> | Hkey]; [| reflexivity].
    rewrite Hfound, Hparam. reflexivity. }
  assert (Hdefault :
            forall negate reset (result : option Variant),
              {| covNegate := negate; covReset := reset; covSource := cfgSourceDefault;
                 covValue := result |} =
              (if (id =? envId)%nat
               then slotFromEnv rules config envId envKeyIdx idx
                      {| covNegate := negate; covReset := reset;
                         covSource := cfgSourceDefault; covValue := result |}
               else {| covNegate := negate; covReset := reset;
                       covSource := cfgSourceDefault; covValue := result |})).
  { intros negate reset result. unfold slotFromEnv.
    destruct (Nat.eqb_spec id envId) as [-> | Hid]; [| reflexivity].
    rewrite Hk. cbn [covSource isParam]. rewrite andb_false_r. reflexivity. }
  repeat case_head H; cbn [bind]; f_equal; first [apply Hsource | apply Hdefault].
Qed.

(** One round of the loop through the option indexes, the index list of the
    option holding the values of the lower indexes. *)
Lemma configParseSlotStore_fromEnv (id : nat) (type : ConfigOptionType) (idx : nat)
    (config config' : Config) :
  (do value <-- configParseSlot rules ext config parseOptionList id type idx ;;
   do option <-- arrayGet (cfgOption config) id ;;
   do options <-- arraySet (cfgOption config) id
        {| coName := coName option; coValid := coValid option;
           coGroup := coGroup option; coGroupId := coGroupId option;
           coIndex :=
             Some (match coIndex option with Some l => l | None => [] end ++ [value]) |} ;;
   Ok (configSetOption config options)) = Ok config' ->
  (forall option,
     cfgOption config !! id = Some option ->
     exists index, coIndex option = Some index /\ length index = idx) ->
  (do value <-- configParseSlot rules ext (configFromEnv rules envId envKeyIdx config)
                  (parseOptionListFromEnv envId envKeyIdx parseOptionList) id type idx ;;
   do option <-- arrayGet (cfgOption (configFromEnv rules envId envKeyIdx config)) id ;;
   do options <-- arraySet (cfgOption (configFromEnv rules envId envKeyIdx config)) id
        {| coName := coName option; coValid := coValid option;
           coGroup := coGroup option; coGroupId := coGroupId option;
           coIndex :=
             Some (match coIndex option with Some l => l | None => [] end ++ [value]) |} ;;
   Ok (configSetOption (configFromEnv rules envId envKeyIdx config) options)) =
    Ok (configFromEnv rules envId envKeyIdx config') /\
  (forall option,
     cfgOption config' !! id = Some option ->
     exists index, coIndex option = Some index /\ length index = S idx).
Proof.
  intros H Hindex.
  apply bind_Ok in H. destruct H as (value & Hslot & H).
  apply bind_Ok in H. destruct H as (option & Hoption & H).
  apply bind_Ok in H. destruct H as (options & Hoptions & H). injection H as <-.
  apply arrayGet_Ok in Hoption. destruct (Hindex option Hoption) as (index & Hsome & Hlen).
  pose proof Hoptions as Hset. apply arraySet_Ok in Hset. destruct Hset as [-> Hlt].
  split.
  - rewrite (configParseSlot_fromEnv _ _ _ _ _ Hslot). cbn [bind].
    unfold configFromEnv at 1 2. cbn [configSetOption cfgOption].
    rewrite arrayGet_imap. unfold arrayGet at 1. rewrite Hoption. cbn [bind mapResult].
    match goal with
    | |- bind (arraySet _ _ ?new) _ = _ =>
        replace new
          with (configOptionFromEnv rules config envId envKeyIdx id
                  {| coName := coName option; coValid := coValid option;
                     coGroup := coGroup option; coGroupId := coGroupId option;
                     coIndex := Some (index ++ [value]) |})
    end.
    + rewrite arraySet_imap. rewrite Hsome in Hoptions. rewrite Hoptions, Hsome.
      cbn [bind mapResult]. reflexivity.
    + unfold configOptionFromEnv. destruct (id =? envId)%nat.
      * cbn [coName coValid coGroup coGroupId coIndex]. rewrite Hsome. cbn [option_map].
        rewrite imap_app. cbn [imap]. rewrite Nat.add_0_r, Hlen. reflexivity.
      * rewrite Hsome. reflexivity.
  - cbn [configSetOption cfgOption]. intros option'.
    rewrite list_lookup_insert_eq by exact Hlt. intros Hnew. injection Hnew as <-.
    cbn [coIndex]. rewrite Hsome. exists (index ++ [value]). split; [reflexivity |].
    rewrite length_app. cbn [length]. lia.
Qed.

(** The loop through the option indexes. *)
Lemma configParseSlots_fromEnv (id : nat) (type : ConfigOptionType) (total : nat) :
  forall (start : nat) (config config' : Config),
    foldResult (fun optionListIdx (config : Config) =>
                  do value <-- configParseSlot rules ext config parseOptionList id type
                                 optionListIdx ;;
                  do option <-- arrayGet (cfgOption config) id ;;
                  do options <-- arraySet (cfgOption config) id
                       {| coName := coName option; coValid := coValid option;
                          coGroup := coGroup option; coGroupId := coGroupId option;
                          coIndex :=
                            Some (match coIndex option with Some l => l | None => [] end
                                  ++ [value]) |} ;;
                  Ok (configSetOption config options))
      (seq start total) config = Ok config' ->
    (forall option,
       cfgOption config !! id = Some option ->
       exists index, coIndex option = Some index /\ length index = start) ->
    foldResult (fun optionListIdx (config : Config) =>
                  do value <-- configParseSlot rules ext config
                                 (parseOptionListFromEnv envId envKeyIdx parseOptionList) id
                                 type optionListIdx ;;
                  do option <-- arrayGet (cfgOption config) id ;;
                  do options <-- arraySet (cfgOption config) id
                       {| coName := coName option; coValid := coValid option;
                          coGroup := coGroup option; coGroupId := coGroupId option;
                          coIndex :=
                            Some (match coIndex option with Some l => l | None => [] end
                                  ++ [value]) |} ;;
                  Ok (configSetOption config options))
      (seq start total) (configFromEnv rules envId envKeyIdx config) =
      Ok (configFromEnv rules envId envKeyIdx config').
Proof.
  induction total as [| total IH]; intros start config config' H Hindex.
  - injection H as <-. reflexivity.
  - cbn [seq foldResult] in *. apply bind_Ok in H. destruct H as (next & Hstep & H).
    destruct (configParseSlotStore_fromEnv _ _ _ _ _ Hstep Hindex) as [Hnext Hindex'].
    rewrite Hnext. cbn [bind]. apply (IH (S start) next config' H Hindex').
Qed.

(** The body of the loop over the resolve order. *)
Lemma configParseOption_fromEnv (id : nat) (config config' : Config) :
  configParseOption rules ext parseOptionList id config = Ok config' ->
  configParseOption rules ext (parseOptionListFromEnv envId envKeyIdx parseOptionList) id
    (configFromEnv rules envId envKeyIdx config) =
    Ok (configFromEnv rules envId envKeyIdx config').
Proof.
  intros H. unfold configParseOption in *.
  apply bind_Ok in H. destruct H as (option & Hoption & H).
  unfold configFromEnv at 1. cbn [configSetOption cfgOption].
  rewrite arrayGet_imap, Hoption. cbn [bind mapResult].
  rewrite configOptionFromEnv_valid.
  destruct (negb (coValid option)); [injection H as <-; reflexivity |].
  change (cfgOptionGroup (configFromEnv rules envId envKeyIdx config))
    with (cfgOptionGroup config).
  apply bind_Ok in H. destruct H as (total & Htotal & H). rewrite Htotal. cbn [bind].
  apply bind_Ok in H. destruct H as (type & Htype & H). rewrite Htype. cbn [bind].
  apply arrayGet_Ok in Hoption.
  assert (Hlt : (id < length (cfgOption config))%nat)
    by (apply lookup_lt_Some in Hoption; exact Hoption).
  apply (configParseSlots_fromEnv id type total 0%nat) in H.
  - rewrite <- H. f_equal. rewrite configFromEnv_setOption.
    unfold configFromEnv, configSetOption. cbn [cfgCommand cfgCommandRole cfgHelp cfgExe
      cfgParamList cfgOption cfgOptionGroup]. f_equal.
    rewrite imap_insert_at. f_equal.
    unfold configOptionFromEnv. destruct (id =? envId)%nat; reflexivity.
  - cbn [configSetOption cfgOption]. intros option'.
    rewrite list_lookup_insert_eq by exact Hlt. intros Hnew. injection Hnew as <-.
    exists []. split; reflexivity.
Qed.

(** Phase 5. *)
Lemma configParseValidate_fromEnv (config config' : Config) :
  configParseValidate rules ext config parseOptionList = Ok config' ->
  configParseValidate rules ext (configFromEnv rules envId envKeyIdx config)
    (parseOptionListFromEnv envId envKeyIdx parseOptionList) =
    Ok (configFromEnv rules envId envKeyIdx config').
Proof.
  unfold configParseValidate. generalize (optionResolveOrder rules). intros order.
  revert config. induction order as [| id order IH]; intros config H.
  - injection H as <-. reflexivity.
  - cbn [foldResult] in *. apply bind_Ok in H. destruct H as (next & Hstep & H).
    rewrite (configParseOption_fromEnv _ _ _ Hstep). cbn [bind]. apply IH. exact H.
Qed.

(** A configuration without values for the option is as the environment
    has it. *)
Lemma configFromEnv_fixed (config : Config) :
  (forall option, cfgOption config !! envId = Some option -> coIndex option = None) ->
  configFromEnv rules envId envKeyIdx config = config.
Proof.
  intros Hnone. destruct config as [command role help exe params options groups].
  unfold configFromEnv, configSetOption.
  cbn [cfgCommand cfgCommandRole cfgHelp cfgExe cfgParamList cfgOption cfgOptionGroup] in *.
  f_equal. apply imap_fixed. intros id option Hoption. unfold configOptionFromEnv.
  destruct (Nat.eqb_spec id envId) as [-> | Hid]; [| reflexivity].
  pose proof (Hnone option Hoption) as Hindex. destruct option as [name valid group groupId index].
  cbn [coName coValid coGroup coGroupId coIndex] in *. subst index. reflexivity.
Qed.

End FromEnvConfig.

(** ** A value stored ahead of the steps of phases 1 and 2 *)

Lemma parseOptionIdxValue_closed (rules : ParseRules) (l : list ParseOption) (id k : nat) :
  parseOptionIdxValue rules l id k =
    match l !! id with
    | Some po =>
        if allocOk (optGroup (ruleOption rules id)) (indexListTotal po) k
        then Ok (<[id := {| indexList :=
                              indexList po ++
                              replicate (allocExtra (optGroup (ruleOption rules id))
                                           (LIST_INITIAL_SIZE rules / 2) (indexListTotal po) k)
                                ParseOptionValue_zero |}]> l)
        else Throw Unmodelled "key index past the single value of an ungrouped option"
    | None => Throw Unmodelled "option id past the parse option list"
    end.
Proof.
  unfold parseOptionIdxValue. destruct (l !! id) as [[values] |] eqn:Hl; [| reflexivity].
  unfold allocOk, allocExtra, indexListTotal. cbn [indexList].
  destruct (Nat.leb_spec (length values) k) as [Hle | Hgt]; cbn [negb orb].
  - destruct (optGroup (ruleOption rules id)); cbn [orb].
    + destruct (Nat.eqb_spec (length values) 0) as [Hzero | Hsome]; [| reflexivity].
      destruct values; [reflexivity | discriminate Hzero].
    + destruct (Nat.eqb_spec k 0) as [-> | Hk]; [| reflexivity].
      destruct values; [reflexivity | cbn in Hle; lia].
  - rewrite app_nil_r, list_insert_id by exact Hl. reflexivity.
Qed.

Ltac alloc_arith :=
  unfold allocOk, allocExtra in *;
  repeat match goal with
         | |- context [(?a <=? ?b)%nat] => destruct (Nat.leb_spec a b)
         | |- context [(?a =? ?b)%nat] => destruct (Nat.eqb_spec a b)
         | H : context [(?a <=? ?b)%nat] |- _ => destruct (Nat.leb_spec a b)
         | H : context [(?a =? ?b)%nat] |- _ => destruct (Nat.eqb_spec a b)
         end;
  repeat match goal with
         | grouped : bool |- _ => destruct grouped
         end;
  cbn [negb orb andb] in *; try reflexivity; try discriminate; try lia.

Section Store.

Variables (rules : ParseRules) (id k : nat) (value : ParseOptionValue).

Lemma parseOptionStore_closed (l : list ParseOption) :
  parseOptionStore rules l id k value =
    match l !! id with
    | Some po =>
        if allocOk (optGroup (ruleOption rules id)) (indexListTotal po) k
        then <[id := {| indexList :=
                          <[k := value]>
                            (indexList po ++
                             replicate (allocExtra (optGroup (ruleOption rules id))
                                          (LIST_INITIAL_SIZE rules / 2) (indexListTotal po) k)
                               ParseOptionValue_zero) |}]> l
        else l
    | None => l
    end.
Proof.
  unfold parseOptionStore. rewrite parseOptionIdxValue_closed.
  destruct (l !! id) as [po |] eqn:Hl; [| reflexivity].
  destruct (allocOk _ _ _); [| reflexivity].
  unfold parseOptionValueSet.
  rewrite list_lookup_insert_eq by (eapply lookup_lt_Some; exact Hl).
  cbn [indexList]. apply list_insert_insert_eq.
Qed.

(** The values at the other options and key indexes are read as before. *)
Lemma parseOptionStore_at_other (l : list ParseOption) (i j : nat) :
  (i, j) <> (id, k) ->
  parseOptionValueAt (parseOptionStore rules l id k value) i j = parseOptionValueAt l i j.
Proof.
  intros Hne. unfold parseOptionStore.
  destruct (parseOptionIdxValue rules l id k) as [allocated |] eqn:Halloc; [| reflexivity].
  rewrite parseOptionValueSet_at_other by exact Hne.
  apply (parseOptionIdxValue_at _ _ _ _ _ Halloc).
Qed.

Lemma allocExtra_covers (grouped : bool) (half total key : nat) :
  allocOk grouped total key = true -> (key < total + allocExtra grouped half total key)%nat.
Proof. intros H. alloc_arith. Qed.

(** The allocation for another key index comes out the same before and
    after the value is stored. *)
Lemma parseOptionStore_alloc (l : list ParseOption) (i j : nat) :
  (i, j) <> (id, k) ->
  parseOptionIdxValue rules (parseOptionStore rules l id k value) i j =
    mapResult (fun l' => parseOptionStore rules l' id k value)
      (parseOptionIdxValue rules l i j).
Proof.
  intros Hne. rewrite !parseOptionIdxValue_closed, parseOptionStore_closed.
  destruct (decide (i = id)) as [-> | Hi].
  - assert (Hj : j <> k) by congruence.
    destruct (l !! id) as [[values] |] eqn:Hl; [| rewrite Hl; reflexivity].
    pose proof (lookup_lt_Some _ _ _ Hl) as Hlt.
    unfold indexListTotal. cbn [indexList].
    set (grouped := optGroup (ruleOption rules id)).
    set (half := (LIST_INITIAL_SIZE rules / 2)%nat).
    destruct (allocOk grouped (length values) k) eqn:Hk.
    + rewrite list_lookup_insert_eq by exact Hlt. unfold indexListTotal. cbn [indexList].
      rewrite length_insert, length_app, length_replicate.
      pose proof (allocExtra_covers grouped half _ _ Hk) as Hcover.
      destruct (allocOk grouped (length values) j) eqn:Hj'.
      * assert (Hok : allocOk grouped
                        (length values + allocExtra grouped half (length values) k) j = true).
        { clear Hl Hlt. clearbody grouped half. alloc_arith. }
        rewrite Hok. cbn [mapResult]. f_equal. rewrite list_insert_insert_eq.
        rewrite parseOptionStore_closed.
        rewrite list_lookup_insert_eq by exact Hlt. unfold indexListTotal. cbn [indexList].
        rewrite length_app, length_replicate.
        pose proof (allocExtra_covers grouped half _ _ Hj') as Hcover'.
        assert (Hok' : allocOk grouped
                         (length values + allocExtra grouped half (length values) j) k = true).
        { clear Hl Hlt Hok. clearbody grouped half. alloc_arith. }
        fold grouped half. rewrite Hok'. rewrite list_insert_insert_eq. f_equal. f_equal.
        rewrite <- (insert_app_l _ _ k) by (rewrite length_app, length_replicate; lia).
        f_equal. rewrite <- !app_assoc, <- !replicate_add. f_equal. f_equal.
        clear Hl Hlt Hok Hok' Hcover Hcover'. clearbody grouped half. alloc_arith.
      * assert (Hno : allocOk grouped
                        (length values + allocExtra grouped half (length values) k) j = false).
        { clear Hl Hlt. clearbody grouped half. alloc_arith. }
        rewrite Hno. reflexivity.
    + rewrite Hl. unfold indexListTotal. cbn [indexList]. fold grouped half.
      destruct (allocOk grouped (length values) j) eqn:Hj'; [| reflexivity].
      cbn [mapResult]. f_equal. rewrite parseOptionStore_closed.
      rewrite list_lookup_insert_eq by exact Hlt. unfold indexListTotal. cbn [indexList].
      rewrite length_app, length_replicate. fold grouped half.
      assert (Hno : allocOk grouped
                      (length values + allocExtra grouped half (length values) j) k = false).
      { clear Hl Hlt. clearbody grouped half. alloc_arith. }
      rewrite Hno. reflexivity.
  - assert (Hlook : forall x, <[id := x]> l !! i = l !! i)
      by (intros x; apply list_lookup_insert_ne; congruence).
    assert (Hsame : match l !! id with
                    | Some po =>
                        if allocOk (optGroup (ruleOption rules id)) (indexListTotal po) k
                        then <[id := {| indexList :=
                                          <[k := value]>
                                            (indexList po ++
                                             replicate
                                               (allocExtra (optGroup (ruleOption rules id))
                                                  (LIST_INITIAL_SIZE rules / 2)
                                                  (indexListTotal po) k)
                                               ParseOptionValue_zero) |}]> l
                        else l
                    | None => l
                    end !! i = l !! i).
    { destruct (l !! id) as [po |]; [| reflexivity].
      destruct (allocOk _ _ _); [apply Hlook | reflexivity]. }
    rewrite Hsame. destruct (l !! i) as [pi |] eqn:Hi'; [| reflexivity].
    destruct (allocOk (optGroup (ruleOption rules i)) (indexListTotal pi) j);
      [| reflexivity].
    cbn [mapResult]. f_equal. rewrite parseOptionStore_closed.
    rewrite list_lookup_insert_ne by congruence.
    destruct (l !! id) as [po |]; [| reflexivity].
    destruct (allocOk _ _ _); [| reflexivity].
    apply list_insert_insert_ne. congruence.
Qed.

(** Assigning another value that is allocated comes out the same before
    and after the value is stored. *)
Lemma parseOptionStore_set (l : list ParseOption) (i j : nat) (other : ParseOptionValue)
    (po : ParseOption) :
  (i, j) <> (id, k) ->
  l !! i = Some po -> (j < indexListTotal po)%nat ->
  parseOptionValueSet (parseOptionStore rules l id k value) i j other =
    parseOptionStore rules (parseOptionValueSet l i j other) id k value.
Proof.
  intros Hne Hpo Hlt. pose proof (lookup_lt_Some _ _ _ Hpo) as Hlen.
  rewrite !parseOptionStore_closed. unfold parseOptionValueSet at 2 3. rewrite Hpo.
  destruct (decide (i = id)) as [-> | Hi].
  - assert (Hj : j <> k) by congruence.
    rewrite Hpo, list_lookup_insert_eq by exact Hlen.
    unfold indexListTotal in *. cbn [indexList]. rewrite length_insert.
    destruct (allocOk _ _ _).
    + unfold parseOptionValueSet. rewrite list_lookup_insert_eq by exact Hlen.
      cbn [indexList]. rewrite !list_insert_insert_eq. f_equal. f_equal.
      rewrite list_insert_insert_ne by exact Hj.
      rewrite insert_app_l by exact Hlt. reflexivity.
    + unfold parseOptionValueSet. rewrite Hpo. reflexivity.
  - rewrite list_lookup_insert_ne by exact Hi.
    destruct (l !! id) as [target |] eqn:Htarget.
    + destruct (allocOk _ _ _).
      * unfold parseOptionValueSet. rewrite list_lookup_insert_ne by congruence.
        rewrite Hpo. apply list_insert_insert_ne. exact Hi.
      * unfold parseOptionValueSet. rewrite Hpo. reflexivity.
    + unfold parseOptionValueSet. rewrite Hpo. reflexivity.
Qed.

(** A list that holds the value found after it was stored, and did not
    before, was allocated for it. *)
Lemma parseOptionStore_found (l : list ParseOption) :
  povFound (parseOptionValueAt (parseOptionStore rules l id k value) id k) = true ->
  povFound (parseOptionValueAt l id k) = false ->
  exists allocated,
    parseOptionIdxValue rules l id k = Ok allocated /\
    parseOptionStore rules l id k value = parseOptionValueSet allocated id k value.
Proof.
  unfold parseOptionStore. intros Hfound Hnot.
  destruct (parseOptionIdxValue rules l id k) as [allocated |]; [| congruence].
  exists allocated. split; reflexivity.
Qed.

Ltac store_lockstep Hne :=
  repeat (cbn [bind mapResult];
          rewrite ?(parseOptionStore_alloc _ _ _ Hne), ?(parseOptionStore_at_other _ _ _ Hne);
          match goal with
          | |- bind (mapResult _ ?r) _ = mapResult _ (bind ?r _) => destruct r eqn:?
          | |- bind ?r _ = mapResult _ (bind ?r _) => destruct r eqn:?
          | |- (match ?c with _ => _ end) = mapResult _ (match ?c with _ => _ end) =>
              destruct c eqn:?
          | |- Ok _ = Ok _ => f_equal
          | Halloc : parseOptionIdxValue _ _ _ _ = Ok ?allocated
            |- parseOptionValueSet (parseOptionStore _ ?allocated _ _ _) _ _ _ = _ =>
              let po := fresh "po" in
              let Hpo := fresh "Hpo" in
              let Hlt := fresh "Hlt" in
              destruct (parseOptionIdxValue_allocated _ _ _ _ _ Halloc) as (po & Hpo & Hlt);
              apply (parseOptionStore_set _ _ _ _ _ Hne Hpo Hlt)
          | |- _ = _ => reflexivity
          end).

(** An argument that names another option or key index is parsed the same
    before and after the value is stored. *)
Lemma parseArgOption_store (g : GetoptResult) (l : list ParseOption) :
  (resId (cfgParseOptionInfo (optionValue g)), resKeyIdx (cfgParseOptionInfo (optionValue g)))
    <> (id, k) ->
  parseArgOption rules g (parseOptionStore rules l id k value) =
    mapResult (fun l' => parseOptionStore rules l' id k value) (parseArgOption rules g l).
Proof.
  intros Hne. unfold parseArgOption, throwOption. cbv zeta.
  set (i := resId (cfgParseOptionInfo (optionValue g))) in *.
  set (j := resKeyIdx (cfgParseOptionInfo (optionValue g))) in *.
  store_lockstep Hne.
Qed.

Lemma parseArgOption_at_other (g : GetoptResult) (l l' : list ParseOption) :
  (resId (cfgParseOptionInfo (optionValue g)), resKeyIdx (cfgParseOptionInfo (optionValue g)))
    <> (id, k) ->
  parseArgOption rules g l = Ok l' ->
  parseOptionValueAt l' id k = parseOptionValueAt l id k.
Proof.
  intros Hne H. unfold parseArgOption, throwOption in H. cbv zeta in H.
  set (i := resId (cfgParseOptionInfo (optionValue g))) in *.
  set (j := resKeyIdx (cfgParseOptionInfo (optionValue g))) in *.
  assert (Hne' : (id, k) <> (i, j)) by congruence.
  repeat case_head H;
    match goal with
    | Halloc : parseOptionIdxValue _ _ _ _ = Ok _ |- _ =>
        pose proof (parseOptionIdxValue_at _ _ _ _ _ Halloc) as Hat
    end;
    rewrite parseOptionValueSet_at_other by exact Hne'; apply Hat.
Qed.

(** An entry of the environment that names another option or key index is
    parsed the same before and after the value is stored. *)
Lemma parseEnv_store (config : Config) (keyValue : string) (l : list ParseOption) :
  envNamesOption rules keyValue id k = false ->
  parseEnv rules config keyValue (parseOptionStore rules l id k value) =
    mapResult (fun l' => parseOptionStore rules l' id k value)
      (parseEnv rules config keyValue l).
Proof.
  unfold envNamesOption, parseEnv. intros Hno.
  destruct (strBeginsWith keyValue PGBACKREST_ENV); [| reflexivity].
  destruct (strChr keyValue "=") as [equalPos |]; [| reflexivity].
  cbv zeta in *. cbn [andb] in Hno.
  destruct (resFound (cfgParseOption rules (envKey keyValue equalPos))); [| reflexivity].
  cbn [negb andb] in *.
  assert (Hne : (resId (cfgParseOption rules (envKey keyValue equalPos)),
                 resKeyIdx (cfgParseOption rules (envKey keyValue equalPos))) <> (id, k)).
  { intros Heq. injection Heq as Hi Hj. rewrite Hi, Hj, !Nat.eqb_refl in Hno.
    discriminate Hno. }
  set (i := resId (cfgParseOption rules (envKey keyValue equalPos))) in *.
  set (j := resKeyIdx (cfgParseOption rules (envKey keyValue equalPos))) in *.
  store_lockstep Hne.
Qed.

Lemma parseEnv_at_other (config : Config) (keyValue : string) (l l' : list ParseOption) :
  envNamesOption rules keyValue id k = false ->
  parseEnv rules config keyValue l = Ok l' ->
  parseOptionValueAt l' id k = parseOptionValueAt l id k.
Proof.
  unfold envNamesOption, parseEnv. intros Hno H.
  destruct (strBeginsWith keyValue PGBACKREST_ENV); [| injection H as <-; reflexivity].
  destruct (strChr keyValue "=") as [equalPos |]; [| discriminate H].
  cbv zeta in *. cbn [andb] in Hno.
  destruct (resFound (cfgParseOption rules (envKey keyValue equalPos)));
    [| injection H as <-; reflexivity].
  cbn [negb andb] in *.
  assert (Hne : (id, k) <> (resId (cfgParseOption rules (envKey keyValue equalPos)),
                            resKeyIdx (cfgParseOption rules (envKey keyValue equalPos)))).
  { intros Heq. injection Heq as Hi Hj. rewrite <- Hi, <- Hj, !Nat.eqb_refl in Hno.
    discriminate Hno. }
  set (i := resId (cfgParseOption rules (envKey keyValue equalPos))) in *.
  set (j := resKeyIdx (cfgParseOption rules (envKey keyValue equalPos))) in *.
  repeat case_head H; try reflexivity;
    match goal with
    | Halloc : parseOptionIdxValue _ _ _ _ = Ok _ |- _ =>
        pose proof (parseOptionIdxValue_at _ _ _ _ _ Halloc) as Hat
    end;
    rewrite ?parseOptionValueSet_at_other by exact Hne; apply Hat.
Qed.

End Store.

(** A loop whose rounds commute with a map of the state commutes with it,
    the rounds being those of the elements of the list. *)
Lemma foldResult_mapResult_in {A S : Type} (f g : A -> S -> Result S) (m : S -> S)
    (l : list A) (s : S) :
  (forall a s, In a l -> g a (m s) = mapResult m (f a s)) ->
  foldResult g l (m s) = mapResult m (foldResult f l s).
Proof.
  revert s. induction l as [| a l IH]; intros s H; [reflexivity |].
  cbn [foldResult]. rewrite H by (left; reflexivity).
  destruct (f a s); cbn [bind mapResult]; [| reflexivity].
  apply IH. intros b t Hb. apply H. right. exact Hb.
Qed.

(** ** An option anywhere on the command line *)

Lemma strLstNewSplit_none (s : string) (delimiter : ascii) :
  strChr s delimiter = None -> strLstNewSplit s delimiter = [s].
Proof.
  induction s as [| c s IH]; intros H; [reflexivity |].
  cbn [strChr strLstNewSplit] in *.
  destruct (Ascii.eqb c delimiter); [discriminate H |].
  destruct (strChr s delimiter); [discriminate H |].
  rewrite IH by reflexivity. reflexivity.
Qed.

(** Phase 1 stores no value in the configuration. *)
Lemma parseArg_options (rules : ParseRules) (ext : Collaborators) (g : GetoptResult)
    (st st' : ParseState) :
  parseArg rules ext g st = Ok st' -> cfgOption (psConfig st') = cfgOption (psConfig st).
Proof.
  unfold parseArg, parseArgCommand. intros H. bind_inv H. injection H as <-. cbn [psConfig].
  repeat case_head Ha; reflexivity.
Qed.

Lemma configParseArgs_options (rules : ParseRules) (ext : Collaborators) (exe : string)
    (args : list GetoptResult) (config : Config) (l : list ParseOption) :
  configParseArgs rules ext exe args = Ok (config, l) ->
  Forall (fun option => coIndex option = None) (cfgOption config).
Proof.
  unfold configParseArgs. intros H. bind_inv H.
  assert (Hfold : cfgOption (psConfig a) =
                  replicate (CFG_OPTION_TOTAL rules) ConfigOptionData_zero).
  { revert Ha.
    apply (foldResult_invariant
             (fun st => cfgOption (psConfig st) =
                        replicate (CFG_OPTION_TOTAL rules) ConfigOptionData_zero)).
    - intros g s s' Hstep Hs. rewrite (parseArg_options _ _ _ _ _ Hstep). exact Hs.
    - reflexivity. }
  bind_inv H.
  assert (Hsame : cfgOption a0 = cfgOption (psConfig a))
    by (repeat case_head Ha0; reflexivity).
  assert (Hconfig : cfgOption config = cfgOption a0) by (repeat case_head H; reflexivity).
  rewrite Hconfig, Hsame, Hfold. apply Forall_replicate. reflexivity.
Qed.

(** Phase 4 stores no value in the configuration. *)
Lemma groupScanKey_options (groupId : nat) (parseOption : ParseOption) (optionKeyIdx : nat)
    (state state' : Config * list (list bool)) :
  groupScanKey groupId parseOption optionKeyIdx state = Ok state' ->
  cfgOption (fst state') = cfgOption (fst state).
Proof.
  unfold groupScanKey. destruct state as [config groupIdxMap]. cbv zeta. intros H.
  repeat case_head H; reflexivity.
Qed.

Lemma groupScanOption_options (rules : ParseRules) (ext : Collaborators)
    (l : list ParseOption) (optionId : nat) (state state' : Config * list (list bool)) :
  groupScanOption rules ext l optionId state = Ok state' ->
  Forall (fun option => coIndex option = None) (cfgOption (fst state)) ->
  Forall (fun option => coIndex option = None) (cfgOption (fst state')).
Proof.
  unfold groupScanOption. destruct state as [config groupIdxMap]. cbv zeta. cbn [fst].
  intros H Hnone.
  apply bind_Ok in H. destruct H as (option & Hoption & H). apply arrayGet_Ok in Hoption.
  pose proof (proj1 (Forall_lookup _ _) Hnone optionId option Hoption) as Hindex.
  cbn beta in Hindex.
  apply bind_Ok in H. destruct H as (valid & _ & H).
  assert (Hset : forall new options,
            arraySet (cfgOption config) optionId new = Ok options ->
            coIndex new = None ->
            Forall (fun option => coIndex option = None) options).
  { intros new options Hoptions Hnew. apply arraySet_Ok in Hoptions.
    destruct Hoptions as [-> _]. apply Forall_insert; assumption. }
  destruct valid.
  - apply bind_Ok in H. destruct H as (options & Hoptions & H).
    pose proof (Hset _ _ Hoptions Hindex) as Hnone'.
    destruct (optGroup (ruleOption rules optionId)).
    + apply bind_Ok in H. destruct H as (group & _ & H).
      apply bind_Ok in H. destruct H as (optionGroup & _ & H).
      apply (foldResult_preserves
               (fun s s' : Config * list (list bool) =>
                  cfgOption (fst s') = cfgOption (fst s))) in H.
      * rewrite H. exact Hnone'.
      * reflexivity.
      * intros; congruence.
      * intros k s s'. apply groupScanKey_options.
    + injection H as <-. exact Hnone'.
  - destruct (indexListNotNull l optionId).
    + apply bind_Ok in H. destruct H as (name & _ & H). discriminate H.
    + apply bind_Ok in H. destruct H as (options & Hoptions & H). injection H as <-.
      apply (Hset _ _ Hoptions Hindex).
Qed.

Lemma groupWriteIndex_options (rules : ParseRules) (groupIdxMap : list (list bool))
    (groupId : nat) (config config' : Config) :
  groupWriteIndex rules groupIdxMap groupId config = Ok config' ->
  cfgOption config' = cfgOption config.
Proof.
  unfold groupWriteIndex. cbv zeta. intros H. repeat case_head H; reflexivity.
Qed.

Lemma configParseGroup_options (rules : ParseRules) (ext : Collaborators)
    (config config' : Config) (l : list ParseOption) :
  configParseGroup rules ext config l = Ok config' ->
  Forall (fun option => coIndex option = None) (cfgOption config) ->
  Forall (fun option => coIndex option = None) (cfgOption config').
Proof.
  unfold configParseGroup. cbv zeta. intros H Hnone.
  apply bind_Ok in H. destruct H as ([scanned groupIdxMap] & Hscan & H).
  apply (foldResult_invariant
           (fun s : Config * list (list bool) =>
              Forall (fun option => coIndex option = None) (cfgOption (fst s)))) in Hscan.
  - cbn [fst] in Hscan.
    apply (foldResult_preserves (fun c c' : Config => cfgOption c' = cfgOption c)) in H.
    + rewrite H. exact Hscan.
    + reflexivity.
    + intros; congruence.
    + intros groupId c c'. apply groupWriteIndex_options.
  - intros optionId s s' Hstep Hs. eapply groupScanOption_options; eassumption.
  - exact Hnone.
Qed.

(** An option not found so far is stored by phase 1 as given. *)
Lemma parseArgOption_unfound (rules : ParseRules) (g : GetoptResult)
    (l l' : list ParseOption) :
  let opt := cfgParseOptionInfo (optionValue g) in
  parseArgOption rules g l = Ok l' ->
  povFound (parseOptionValueAt l (resId opt) (resKeyIdx opt)) = false ->
  exists allocated,
    parseOptionIdxValue rules l (resId opt) (resKeyIdx opt) = Ok allocated /\
    l' = parseOptionValueSet allocated (resId opt) (resKeyIdx opt)
           {| povFound := true; povNegate := resNegate opt; povReset := resReset opt;
              povSource := cfgSourceParam;
              povValueList :=
                if has_arg (nth (optionListIdx g) (optionList rules) GetoptOption_zero) =?
                   required_argument
                then Some [optarg g] else None |}.
Proof.
  intros opt H Hnot. unfold parseArgOption in H. cbv zeta in H. fold opt in H.
  set (id := resId opt) in *. set (k := resKeyIdx opt) in *.
  destruct (id <? CFG_OPTION_TOTAL rules)%nat; [| discriminate H].
  apply bind_Ok in H. destruct H as (secure & _ & H).
  destruct secure; [apply bind_Ok in H; destruct H as (name & _ & H); discriminate H |].
  apply bind_Ok in H. destruct H as (allocated & Halloc & H).
  rewrite (parseOptionIdxValue_at _ _ _ _ _ Halloc), Hnot in H. cbn [negb] in H.
  injection H as <-. exists allocated. split; [exact Halloc | reflexivity].
Qed.


Section Anywhere.

Variables (rules : ParseRules) (ext : Collaborators) (id k : nat) (value : ParseOptionValue).

(** An argument that does not name the option at the key index is parsed
    the same before and after the value is stored. *)
Lemma parseArg_store (g : GetoptResult) (st : ParseState) :
  argNamesOption g id k = false ->
  parseArg rules ext g (parseStateStore rules id k value st) =
    mapResult (parseStateStore rules id k value) (parseArg rules ext g st).
Proof.
  unfold argNamesOption, getoptIsOption, parseArg. intros Hno.
  destruct (optionValue g =? 1) eqn:H1.
  - unfold parseArgCommand, parseStateStore. cbv zeta.
    cbn [psConfig psParseOptionList psCommandSet psArgFound].
    destruct (negb (psCommandSet st)); [| reflexivity].
    match goal with
    | |- bind (bind ?r _) _ = _ => destruct r as [[command role] |]
    end; cbn [bind mapResult]; [| reflexivity].
    repeat match goal with
           | |- context [if ?c then _ else _] => destruct c
           end; reflexivity.
  - destruct (optionValue g =? 63) eqn:H63; [reflexivity |].
    destruct (optionValue g =? 58) eqn:H58; [reflexivity |].
    cbn [negb andb] in Hno.
    assert (Hne : (resId (cfgParseOptionInfo (optionValue g)),
                   resKeyIdx (cfgParseOptionInfo (optionValue g))) <> (id, k)).
    { intros Heq. apply pair_equal_spec in Heq. destruct Heq as [Hi Hj].
      rewrite Hi, Hj, !Nat.eqb_refl in Hno. discriminate Hno. }
    unfold parseStateStore at 1. cbn [psConfig psParseOptionList psCommandSet psArgFound].
    rewrite (parseArgOption_store rules id k value g _ Hne).
    destruct (parseArgOption rules g (psParseOptionList st)); reflexivity.
Qed.

Lemma parseArg_at_other (g : GetoptResult) (st st' : ParseState) :
  argNamesOption g id k = false ->
  parseArg rules ext g st = Ok st' ->
  parseOptionValueAt (psParseOptionList st') id k =
    parseOptionValueAt (psParseOptionList st) id k.
Proof.
  unfold argNamesOption, getoptIsOption, parseArg. intros Hno H.
  apply bind_Ok in H. destruct H as (st1 & Hstep & H). injection H as <-.
  cbn [psParseOptionList].
  destruct (optionValue g =? 1) eqn:H1.
  - unfold parseArgCommand in Hstep. repeat case_head Hstep; reflexivity.
  - destruct (optionValue g =? 63) eqn:H63; [discriminate Hstep |].
    destruct (optionValue g =? 58) eqn:H58; [discriminate Hstep |].
    cbn [negb andb] in Hno.
    apply bind_Ok in Hstep. destruct Hstep as (l' & Hoption & Hstep). injection Hstep as <-.
    cbn [psParseOptionList].
    apply (parseArgOption_at_other rules id k g _ _) in Hoption; [exact Hoption |].
    intros Heq. apply pair_equal_spec in Heq. destruct Heq as [Hi Hj].
    rewrite Hi, Hj, !Nat.eqb_refl in Hno. discriminate Hno.
Qed.

Lemma parseArgs_at_other (args : list GetoptResult) (st st' : ParseState) :
  Forall (fun g => argNamesOption g id k = false) args ->
  foldResult (parseArg rules ext) args st = Ok st' ->
  parseOptionValueAt (psParseOptionList st') id k =
    parseOptionValueAt (psParseOptionList st) id k.
Proof.
  intros Hno. revert st. induction Hno as [| g args Hg _ IH]; intros st H.
  - injection H as <-. reflexivity.
  - cbn [foldResult] in H. apply bind_Ok in H. destruct H as (st1 & Hstep & H).
    rewrite (IH _ H). apply (parseArg_at_other _ _ _ Hg Hstep).
Qed.

Lemma configParseEnv_at_other (config : Config) (environ : list string)
    (l l' : list ParseOption) :
  Forall (fun keyValue => envNamesOption rules keyValue id k = false) environ ->
  configParseEnv rules config environ l = Ok l' ->
  parseOptionValueAt l' id k = parseOptionValueAt l id k.
Proof.
  unfold configParseEnv. intros Hno. revert l.
  induction Hno as [| keyValue environ He _ IH]; intros l H.
  - injection H as <-. reflexivity.
  - cbn [foldResult] in H. apply bind_Ok in H. destruct H as (l1 & Hstep & H).
    rewrite (IH _ H). apply (parseEnv_at_other rules id k config _ _ _ He Hstep).
Qed.

Lemma configParseEnv_store (config : Config) (environ : list string) (l : list ParseOption) :
  Forall (fun keyValue => envNamesOption rules keyValue id k = false) environ ->
  configParseEnv rules config environ (parseOptionStore rules l id k value) =
    mapResult (fun l' => parseOptionStore rules l' id k value)
      (configParseEnv rules config environ l).
Proof.
  intros Hno. unfold configParseEnv.
  apply (foldResult_mapResult_in (parseEnv rules config) (parseEnv rules config)
           (fun l' => parseOptionStore rules l' id k value) environ l).
  intros keyValue s Hin. apply parseEnv_store.
  apply (proj1 (List.Forall_forall _ _) Hno keyValue Hin).
Qed.

End Anywhere.

(** An option of the command line that no other argument names: the
    command line without it parses to the same command, and to the list in
    which the value of the option is then stored. *)
Lemma configParseArgs_option_anywhere (rules : ParseRules) (ext : Collaborators)
    (exe : string) (args1 args2 : list GetoptResult) (g : GetoptResult) (config : Config)
    (lA : list ParseOption) :
  let opt := cfgParseOptionInfo (optionValue g) in
  let stored :=
    {| povFound := true; povNegate := resNegate opt; povReset := resReset opt;
       povSource := cfgSourceParam;
       povValueList :=
         if has_arg (nth (optionListIdx g) (optionList rules) GetoptOption_zero) =?
            required_argument
         then Some [optarg g] else None |} in
  getoptIsOption g = true ->
  Forall (fun a => argNamesOption a (resId opt) (resKeyIdx opt) = false) (args1 ++ args2) ->
  configParseArgs rules ext exe (args1 ++ g :: args2) = Ok (config, lA) ->
  exists lE allocated,
    configParseArgs rules ext exe (args1 ++ args2) = Ok (config, lE) /\
    parseOptionValueAt lE (resId opt) (resKeyIdx opt) = ParseOptionValue_zero /\
    parseOptionIdxValue rules lE (resId opt) (resKeyIdx opt) = Ok allocated /\
    lA = parseOptionValueSet allocated (resId opt) (resKeyIdx opt) stored /\
    (resId opt <? CFG_OPTION_TOTAL rules)%nat = true.
Proof.
  intros opt stored Hg Hno H.
  set (id := resId opt) in *. set (k := resKeyIdx opt) in *.
  apply Forall_app in Hno. destruct Hno as [Hno1 Hno2].
  unfold configParseArgs in *.
  apply bind_Ok in H. destruct H as (stA2 & Hfold & H).
  rewrite foldResult_app in Hfold.
  apply bind_Ok in Hfold. destruct Hfold as (st1 & Hargs1 & Hfold).
  cbn [foldResult] in Hfold. apply bind_Ok in Hfold. destruct Hfold as (stA1 & Hstep & Hfold).
  (* The list before the option *)
  assert (Hzero1 : parseOptionValueAt (psParseOptionList st1) id k = ParseOptionValue_zero).
  { rewrite (parseArgs_at_other rules ext id k _ _ _ Hno1 Hargs1). cbn [psParseOptionList].
    unfold parseOptionValueAt.
    destruct (replicate (CFG_OPTION_TOTAL rules) ParseOption_zero !! id) as [po |] eqn:Hpo;
      [| reflexivity].
    apply lookup_replicate in Hpo. destruct Hpo as [-> _]. destruct k; reflexivity. }
  (* The option *)
  pose proof Hg as Hcode. unfold getoptIsOption in Hcode.
  apply andb_prop in Hcode. destruct Hcode as [Hcode H58]. apply andb_prop in Hcode.
  destruct Hcode as [H1 H63].
  apply negb_true_iff in H1. apply negb_true_iff in H63. apply negb_true_iff in H58.
  unfold parseArg in Hstep. rewrite H1, H63, H58 in Hstep.
  apply bind_Ok in Hstep. destruct Hstep as (st & Hoption & Hstep). injection Hstep as <-.
  apply bind_Ok in Hoption. destruct Hoption as (lA1 & Hoption & Hst). injection Hst as <-.
  cbn [psConfig psParseOptionList psCommandSet psArgFound] in Hfold.
  assert (Hrange : (id <? CFG_OPTION_TOTAL rules)%nat = true).
  { unfold parseArgOption in Hoption. cbv zeta in Hoption. fold opt id in Hoption.
    destruct (id <? CFG_OPTION_TOTAL rules)%nat; [reflexivity | discriminate Hoption]. }
  destruct (parseArgOption_unfound rules g _ _ Hoption) as (allocated1 & Halloc1 & HlA1).
  { fold opt id k. rewrite Hzero1. reflexivity. }
  fold opt id k in Halloc1, HlA1. fold stored in HlA1.
  assert (Hstate : {| psConfig := psConfig st1; psParseOptionList := lA1;
                      psCommandSet := psCommandSet st1; psArgFound := true |} =
                   parseStateStore rules id k stored st1).
  { unfold parseStateStore, parseOptionStore. rewrite Halloc1, HlA1. reflexivity. }
  rewrite Hstate in Hfold.
  rewrite (foldResult_mapResult_in (parseArg rules ext) (parseArg rules ext)
             (parseStateStore rules id k stored)) in Hfold.
  2:{ intros a s Hin. apply parseArg_store.
      apply (proj1 (List.Forall_forall _ _) Hno2 a Hin). }
  destruct (foldResult (parseArg rules ext) args2 st1) as [stE2 |] eqn:Hargs2;
    cbn [mapResult] in Hfold; [| discriminate Hfold].
  injection Hfold as <-.
  assert (Hzero2 : parseOptionValueAt (psParseOptionList stE2) id k = ParseOptionValue_zero).
  { rewrite (parseArgs_at_other rules ext id k _ _ _ Hno2 Hargs2). exact Hzero1. }
  (* The value is in the list after the command line *)
  assert (Hfound : povFound (parseOptionValueAt
                               (parseOptionStore rules (psParseOptionList stE2) id k stored)
                               id k) = true).
  { pose proof (foldResult_mapResult_in (parseArg rules ext) (parseArg rules ext)
                  (parseStateStore rules id k stored) args2 st1) as Hstored.
    rewrite Hargs2 in Hstored. cbn [mapResult] in Hstored.
    apply (parseArgs_at_other rules ext id k _ _ _ Hno2) in Hstored.
    - unfold parseStateStore in Hstored at 1 2. cbn [psParseOptionList] in Hstored.
      rewrite Hstored. unfold parseOptionStore. rewrite Halloc1.
      destruct (parseOptionIdxValue_allocated _ _ _ _ _ Halloc1) as (po & Hpo & Hlt).
      rewrite (parseOptionValueSet_at_same _ _ _ _ _ Hpo Hlt). reflexivity.
    - intros a s Hin. apply parseArg_store.
      apply (proj1 (List.Forall_forall _ _) Hno2 a Hin). }
  destruct (parseOptionStore_found rules id k stored _ Hfound) as (allocated & Halloc & Hstore).
  { rewrite Hzero2. reflexivity. }
  exists (psParseOptionList stE2), allocated.
  rewrite foldResult_app, Hargs1. cbn [bind]. rewrite Hargs2. cbn [bind].
  unfold parseStateStore in H. cbn [psConfig psParseOptionList psCommandSet psArgFound] in H.
  destruct (negb (psCommandSet stE2) && negb (cfgHelp (psConfig stE2))).
  - cbn [bind] in H. discriminate H.
  - cbn [bind] in *.
    destruct (match cfgParamList (psConfig stE2) with Some _ => true | None => false end &&
              negb (cfgHelp (psConfig stE2)) &&
              negb (cmdParameterAllowed (ruleCommand rules (cfgCommand (psConfig stE2)))));
      [discriminate H |].
    injection H as <- <-.
    split; [reflexivity |]. split; [exact Hzero2 |]. split; [exact Halloc |].
    split; [exact Hstore | exact Hrange].
Qed.

(** Phase 4 succeeds only when every option with a parsed value is valid
    for the command and role. *)
Lemma configParseGroup_valid (rules : ParseRules) (ext : Collaborators)
    (config grouped : Config) (l : list ParseOption) (optionId : nat) :
  configParseGroup rules ext config l = Ok grouped ->
  (optionId < CFG_OPTION_TOTAL rules)%nat ->
  indexListNotNull l optionId = true ->
  cfgParseOptionValid rules (cfgCommand config) (cfgCommandRole config) optionId = Ok true.
Proof.
  intros Hgroup Hlt Hnotnull.
  unfold configParseGroup in Hgroup. cbv zeta in Hgroup.
  apply bind_Ok in Hgroup. destruct Hgroup as (scanned & Hall & _).
  replace (seq 0 (CFG_OPTION_TOTAL rules))
    with (seq 0 optionId ++ seq optionId (S (CFG_OPTION_TOTAL rules - S optionId))) in Hall
    by (rewrite <- seq_app; f_equal; lia).
  rewrite foldResult_app in Hall. apply bind_Ok in Hall.
  destruct Hall as (state & Hbefore & Hall).
  cbn [seq foldResult] in Hall. apply bind_Ok in Hall. destruct Hall as (state' & Hscan & _).
  apply (foldResult_preserves (fun s s' => sameCommand (fst s) (fst s'))) in Hbefore.
  2:{ intros s. apply sameCommand_refl. }
  2:{ intros s1 s2 s3. apply sameCommand_trans. }
  2:{ intros i s s'. apply groupScanOption_sameCommand. }
  destruct state as [current groupIdxMap]. cbn [fst] in Hbefore.
  destruct Hbefore as (Hcommand & Hrole & _).
  unfold groupScanOption in Hscan. cbv zeta in Hscan.
  apply bind_Ok in Hscan. destruct Hscan as (option & _ & Hscan).
  rewrite Hcommand, Hrole in Hscan.
  destruct (cfgParseOptionValid rules (cfgCommand config) (cfgCommandRole config) optionId)
    as [[|] |]; cbn [bind] in Hscan; [reflexivity | | discriminate Hscan].
  rewrite Hnotnull in Hscan. apply bind_Ok in Hscan. destruct Hscan as (name & _ & Hscan).
  discriminate Hscan.
Qed.

(** ** The environment and the command line give the same configuration *)

Lemma map_imap_fixed {A B : Type} (f : A -> B) (g : nat -> A -> A) (l : list A) :
  (forall i x, f (g i x) = f x) -> map f (imap g l) = map f l.
Proof.
  intros H. apply list_eq. intros i. rewrite !list_lookup_fmap, list_lookup_imap.
  destruct (l !! i); cbn; [f_equal; apply H | reflexivity].
Qed.

(** A configuration as the environment has it is the configuration but for
    the sources of the option. *)
Lemma configFromEnv_values (rules : ParseRules) (envId envKeyIdx : nat) (config : Config) :
  configWithoutSource (configFromEnv rules envId envKeyIdx config) =
    configWithoutSource config.
Proof.
  unfold configWithoutSource, configFromEnv.
  cbn [configSetOption cfgCommand cfgCommandRole cfgHelp cfgExe cfgParamList cfgOption
         cfgOptionGroup].
  f_equal. f_equal. apply map_imap_fixed. intros id option.
  unfold configOptionFromEnv, optionWithoutSource. destruct (id =? envId)%nat; [| reflexivity].
  cbn [coName coValid coGroup coGroupId coIndex]. f_equal.
  destruct (coIndex option) as [index |]; cbn [option_map]; [| reflexivity].
  f_equal. apply map_imap_fixed. intros idx value. unfold slotFromEnv, valueWithoutSource.
  destruct (configSlotKeyIdx rules config envId idx) as [keyIdx |]; [| reflexivity].
  destruct ((keyIdx =? envKeyIdx)%nat && isParam (covSource value)); reflexivity.
Qed.

Lemma configFromEnv_other (rules : ParseRules) (envId envKeyIdx : nat) (config : Config)
    (id : nat) :
  id <> envId ->
  cfgOption (configFromEnv rules envId envKeyIdx config) !! id = cfgOption config !! id.
Proof.
  intros Hne. unfold configFromEnv. cbn [configSetOption cfgOption].
  rewrite list_lookup_imap. destruct (cfgOption config !! id) as [option |]; cbn;
    [| reflexivity].
  unfold configOptionFromEnv. apply Nat.eqb_neq in Hne. rewrite Hne. reflexivity.
Qed.

(** C8 (as amended): let [--x] (with its value) be an argument of a command
    line no other argument of which names X, and let [PGBACKREST_X] name X
    through an alias that neither negates nor resets, no earlier entry of the
    environment naming X, with the same value: for a boolean option [y] for
    [--x] and [n] for [--no-x], else a value that is not empty and, for a multi
    option, holds no colon.  Whenever the run with [--x] succeeds (so X is
    valid for the command and role), the run with the variable in the
    environment in place of the argument succeeds too, and with the same
    configuration but for the source recorded for X, [config] in place of
    [param]: without the sources the two configurations are equal, and every
    other option is the same with its sources. *)
Theorem configParse_environment_matches_argv (rules : ParseRules) (ext : Collaborators)
    (exe : string) (args1 args2 : list GetoptResult) (env1 env2 : list string)
    (g : GetoptResult) (keyValue : string) (equalPos : nat) (alias : GetoptOption)
    (configArgv : Config) :
  let opt := cfgParseOptionInfo (val alias) in
  let envOpt := cfgParseOption rules (envKey keyValue equalPos) in
  let type := optType (ruleOption rules (resId opt)) in
  let value := envValue keyValue equalPos in
  optionList rules !! optionListIdx g = Some alias ->
  optionValue g = val alias ->
  getoptIsOption g = true ->
  resReset opt = false ->
  strBeginsWith keyValue PGBACKREST_ENV = true ->
  strChr keyValue "=" = Some equalPos ->
  resFound envOpt = true -> resNegate envOpt = false -> resReset envOpt = false ->
  resId envOpt = resId opt -> resKeyIdx envOpt = resKeyIdx opt ->
  (if isBoolean type
   then has_arg alias = no_argument /\
        value = (if resNegate opt then "n" else "y")%string
   else resNegate opt = false /\ has_arg alias = required_argument /\ optarg g = value /\
        (0 < strSize value)%nat /\
        (optMulti (ruleOption rules (resId opt)) = true -> strChr value ":" = None)) ->
  Forall (fun a => argNamesOption a (resId opt) (resKeyIdx opt) = false) (args1 ++ args2) ->
  Forall (fun entry => envNamesOption rules entry (resId opt) (resKeyIdx opt) = false) env1 ->
  configParse rules ext exe (args1 ++ g :: args2) (env1 ++ env2) = Ok configArgv ->
  configParse rules ext exe (args1 ++ args2) (env1 ++ keyValue :: env2) =
    Ok (configFromEnv rules (resId opt) (resKeyIdx opt) configArgv) /\
  configWithoutSource (configFromEnv rules (resId opt) (resKeyIdx opt) configArgv) =
    configWithoutSource configArgv /\
  forall id,
    id <> resId opt ->
    cfgOption (configFromEnv rules (resId opt) (resKeyIdx opt) configArgv) !! id =
      cfgOption configArgv !! id.
Proof.
  intros opt envOpt type value Halias Hval Hoption Hreset Hprefix Hequal HenvFound HenvNegate
    HenvReset HenvId HenvKey Hvalue HnoArgs HnoEnv Hargv.
  split; [| split; [apply configFromEnv_values | intros id; apply configFromEnv_other]].
  set (envId := resId opt) in *. set (envKeyIdx := resKeyIdx opt) in *.
  unfold configParse in *.
  apply bind_Ok in Hargv. destruct Hargv as ([config lA2] & HargsA & Hargv).
  pose proof (configParseArgs_option_anywhere rules ext exe args1 args2 g config lA2) as Hphase1.
  cbv zeta in Hphase1. rewrite Hval in Hphase1. fold opt envId envKeyIdx in Hphase1.
  destruct (Hphase1 Hoption HnoArgs HargsA)
    as (lE2 & allocated2 & HargsE & Hzero2 & Halloc2 & HlA2 & Hrange).
  clear Hphase1. rewrite nth_lookup, Halias in HlA2. cbn [default from_option id] in HlA2.
  set (stored := {| povFound := true; povNegate := resNegate opt; povReset := resReset opt;
                    povSource := cfgSourceParam;
                    povValueList :=
                      if has_arg alias =? required_argument then Some [optarg g] else None |})
    in *.
  rewrite HargsE. cbn [bind].
  pose proof (configParseArgs_options _ _ _ _ _ _ HargsE) as Hnone.
  assert (Hfixed : forall c : Config,
            Forall (fun option => coIndex option = None) (cfgOption c) ->
            configFromEnv rules envId envKeyIdx c = c).
  { intros c Hc. apply configFromEnv_fixed. intros option Hlook.
    apply (proj1 (Forall_lookup _ _) Hc envId option Hlook). }
  destruct (negb (cfgCommand config =? cfgCmdNone rules)%nat &&
            negb (cfgCommand config =? cfgCmdVersion rules)%nat &&
            negb (cfgCommand config =? cfgCmdHelp rules)%nat).
  2:{ injection Hargv as <-. rewrite (Hfixed _ Hnone). reflexivity. }
  (* The run with the argument, phase by phase *)
  assert (Happ : forall before after l,
            configParseEnv rules config (before ++ after) l =
              (do l' <-- configParseEnv rules config before l ;;
               configParseEnv rules config after l')).
  { intros before after l. unfold configParseEnv. apply foldResult_app. }
  rewrite Happ in Hargv.
  destruct (configParseEnv rules config env1 lA2) as [lA3 |] eqn:HenvA1;
    cbn [bind] in Hargv; [| discriminate Hargv].
  destruct (configParseEnv rules config env2 lA3) as [lA4 |] eqn:HenvA2;
    cbn [bind] in Hargv; [| discriminate Hargv].
  destruct (configParseFile rules ext config lA4) as [lA5 |] eqn:HfileA;
    cbn [bind] in Hargv; [| discriminate Hargv].
  destruct (configParseGroup rules ext config lA5) as [grouped |] eqn:HgroupA;
    cbn [bind] in Hargv; [| discriminate Hargv].
  (* The value of the argument through the phases *)
  assert (Hat2 : parseOptionValueAt lA2 envId envKeyIdx = stored).
  { rewrite HlA2.
    destruct (parseOptionIdxValue_allocated _ _ _ _ _ Halloc2) as (po & Hpo & Hlt).
    apply (parseOptionValueSet_at_same _ _ _ _ _ Hpo Hlt). }
  assert (Hat3 : parseOptionValueAt lA3 envId envKeyIdx = stored).
  { rewrite (configParseEnv_keepsFound _ _ _ _ _ HenvA1); rewrite Hat2; reflexivity. }
  assert (Hat4 : parseOptionValueAt lA4 envId envKeyIdx = stored).
  { rewrite (configParseEnv_keepsFound _ _ _ _ _ HenvA2); rewrite Hat3; reflexivity. }
  assert (Hat5 : parseOptionValueAt lA5 envId envKeyIdx = stored).
  { rewrite (configParseFile_keepsFound _ _ _ _ _ HfileA); rewrite Hat4; reflexivity. }
  (* The option is valid for the command *)
  assert (Hvalid : cfgParseOptionValid rules (cfgCommand config) (cfgCommandRole config)
                     envId = Ok true).
  { apply (configParseGroup_valid _ _ _ _ _ _ HgroupA).
    - apply Nat.ltb_lt. exact Hrange.
    - destruct (parseOptionValueAt_found_allocated lA5 envId envKeyIdx) as (po & Hpo & Hlt).
      { rewrite Hat5. reflexivity. }
      unfold indexListNotNull. rewrite Hpo.
      destruct (Nat.eqb_spec (indexListTotal po) 0); [lia | reflexivity]. }
  (* The environment before the variable *)
  assert (HlA2' : lA2 = parseOptionStore rules lE2 envId envKeyIdx stored).
  { unfold parseOptionStore. rewrite Halloc2. exact HlA2. }
  pose proof HenvA1 as HenvE1.
  rewrite HlA2', (configParseEnv_store rules envId envKeyIdx stored config env1 lE2 HnoEnv)
    in HenvE1.
  destruct (configParseEnv rules config env1 lE2) as [lE3 |] eqn:Henv1;
    cbn [mapResult] in HenvE1; [| discriminate HenvE1].
  injection HenvE1 as HlA3.
  assert (Hzero3 : parseOptionValueAt lE3 envId envKeyIdx = ParseOptionValue_zero).
  { rewrite (configParseEnv_at_other rules envId envKeyIdx config env1 _ _ HnoEnv Henv1).
    exact Hzero2. }
  destruct (parseOptionStore_found rules envId envKeyIdx stored lE3)
    as (allocated & Halloc & Hstore).
  { rewrite HlA3, Hat3. reflexivity. }
  { rewrite Hzero3. reflexivity. }
  rewrite HlA3 in Hstore. rename Hstore into HlA.
  pose proof (parseOptionIdxValue_at _ _ _ _ _ Halloc envId envKeyIdx) as Hat.
  (* The variable *)
  assert (Henv : parseEnv rules config keyValue lE3 =
                 Ok (parseOptionListFromEnv envId envKeyIdx lA3)).
  { unfold parseEnv. rewrite Hprefix, Hequal. cbv zeta. fold envOpt value.
    rewrite HenvFound, HenvNegate, HenvReset, HenvId, HenvKey. cbn [negb].
    fold envId envKeyIdx. rewrite Hvalid. cbn [bind negb].
    assert (Hsize : (strSize value =? 0)%nat = false).
    { destruct (isBoolean type).
      - destruct Hvalue as [_ ->]. destruct (resNegate opt); reflexivity.
      - destruct Hvalue as (_ & _ & _ & Hlen & _). apply Nat.eqb_neq. lia. }
    rewrite Hsize, Halloc. cbn [bind]. rewrite Hat, Hzero3.
    cbn [ParseOptionValue_zero povFound povNegate povReset povValueList].
    unfold cfgParseOptionType. rewrite Hrange. cbn [bind]. fold type.
    rewrite HlA, <- fromEnv_set, (fromEnv_unfound envId envKeyIdx allocated)
      by (rewrite Hat, Hzero3; reflexivity).
    unfold cellFromEnv, stored. rewrite !Nat.eqb_refl. cbn [andb povFound valueFromEnv
      povNegate povReset povValueList]. rewrite Hreset.
    destruct type eqn:Htype; cbn [isBoolean] in Hvalue.
    all: try (destruct Hvalue as (-> & -> & <- & _ & Hmulti);
              cbn [Z.eqb required_argument Pos.eqb];
              destruct (optMulti (ruleOption rules envId)) eqn:Hm;
              [rewrite (strLstNewSplit_none _ _ (Hmulti eq_refl)) |]; reflexivity).
    destruct Hvalue as [-> ->]. destruct (resNegate opt); reflexivity. }
  (* The run with the variable, phase by phase *)
  rewrite Happ, Henv1. cbn [bind].
  assert (Hhead : configParseEnv rules config (keyValue :: env2) lE3 =
                  configParseEnv rules config env2
                    (parseOptionListFromEnv envId envKeyIdx lA3)).
  { unfold configParseEnv. cbn [foldResult]. rewrite Henv. reflexivity. }
  rewrite Hhead, fromEnv_configParseEnv, HenvA2. cbn [bind mapResult].
  rewrite fromEnv_configParseFile, HfileA. cbn [bind mapResult].
  rewrite fromEnv_configParseGroup, HgroupA. cbn [bind].
  pose proof (configParseGroup_options _ _ _ _ _ HgroupA Hnone) as Hnone4.
  rewrite <- (Hfixed _ Hnone4) at 1.
  apply configParseValidate_fromEnv; [| | exact Hargv]; rewrite Hat5; reflexivity.
Qed.

(** A backup with an option between the other arguments against the
    variable between the other entries of the environment:
    [--buffer-size=64kb] and [PGBACKREST_BUFFER_SIZE=64kb]; the multi option
    [--db-include=a] and [PGBACKREST_DB_INCLUDE=a]; the boolean [--no-compress]
    and [PGBACKREST_COMPRESS=n].  Both runs succeed, the second with the
    configuration of the first but for the source of the option. *)
Lemma configParse_environment_matches_argv_witness :
  (exists configArgv : Config,
     configParse Demo.rules (Demo.ext [] []) "pgbackrest"
       ([Demo.arg "stanza" "demo"] ++ Demo.arg "buffer-size" "64kb" ::
        [Demo.arg "pg1-path" "/db"; Demo.positional "backup"])
       (["HOME=/root"] ++ ["PGBACKREST_REPO1_PATH=/repo"]) = Ok configArgv /\
     configParse Demo.rules (Demo.ext [] []) "pgbackrest"
       ([Demo.arg "stanza" "demo"] ++
        [Demo.arg "pg1-path" "/db"; Demo.positional "backup"])
       (["HOME=/root"] ++ "PGBACKREST_BUFFER_SIZE=64kb" :: ["PGBACKREST_REPO1_PATH=/repo"]) =
       Ok (configFromEnv Demo.rules Demo.optBufferSize 0 configArgv) /\
     Demo.optionValueOf (Ok configArgv) Demo.optBufferSize 0 =
       Some (cfgSourceParam, Some (VarInt64 65536)) /\
     Demo.optionValueOf (Ok (configFromEnv Demo.rules Demo.optBufferSize 0 configArgv))
       Demo.optBufferSize 0 = Some (cfgSourceConfig, Some (VarInt64 65536))) /\
  (exists configArgv : Config,
     configParse Demo.rules (Demo.ext [] []) "pgbackrest"
       ([Demo.arg "stanza" "demo"] ++ Demo.arg "db-include" "a" ::
        [Demo.arg "pg1-path" "/db"; Demo.positional "backup"])
       (["HOME=/root"] ++ ["PGBACKREST_REPO1_PATH=/repo"]) = Ok configArgv /\
     configParse Demo.rules (Demo.ext [] []) "pgbackrest"
       ([Demo.arg "stanza" "demo"] ++
        [Demo.arg "pg1-path" "/db"; Demo.positional "backup"])
       (["HOME=/root"] ++ "PGBACKREST_DB_INCLUDE=a" :: ["PGBACKREST_REPO1_PATH=/repo"]) =
       Ok (configFromEnv Demo.rules Demo.optDbInclude 0 configArgv) /\
     Demo.optionValueOf (Ok configArgv) Demo.optDbInclude 0 =
       Some (cfgSourceParam, Some (VarVarLst ["a"%string])) /\
     Demo.optionValueOf (Ok (configFromEnv Demo.rules Demo.optDbInclude 0 configArgv))
       Demo.optDbInclude 0 = Some (cfgSourceConfig, Some (VarVarLst ["a"%string]))) /\
  (exists configArgv : Config,
     configParse Demo.rules (Demo.ext [] []) "pgbackrest"
       ([Demo.arg "stanza" "demo"] ++ Demo.arg "no-compress" "" ::
        [Demo.arg "pg1-path" "/db"; Demo.positional "backup"])
       (["HOME=/root"] ++ ["PGBACKREST_REPO1_PATH=/repo"]) = Ok configArgv /\
     configParse Demo.rules (Demo.ext [] []) "pgbackrest"
       ([Demo.arg "stanza" "demo"] ++
        [Demo.arg "pg1-path" "/db"; Demo.positional "backup"])
       (["HOME=/root"] ++ "PGBACKREST_COMPRESS=n" :: ["PGBACKREST_REPO1_PATH=/repo"]) =
       Ok (configFromEnv Demo.rules Demo.optCompress 0 configArgv) /\
     Demo.optionValueOf (Ok configArgv) Demo.optCompress 0 =
       Some (cfgSourceParam, Some (VarBool false)) /\
     Demo.optionValueOf (Ok (configFromEnv Demo.rules Demo.optCompress 0 configArgv))
       Demo.optCompress 0 = Some (cfgSourceConfig, Some (VarBool false))).
Proof.
  split; [| split].
  - destruct (configParse Demo.rules (Demo.ext [] []) "pgbackrest"
                ([Demo.arg "stanza" "demo"] ++ Demo.arg "buffer-size" "64kb" ::
                 [Demo.arg "pg1-path" "/db"; Demo.positional "backup"])
                (["HOME=/root"] ++ ["PGBACKREST_REPO1_PATH=/repo"]))
      as [configArgv | e msg] eqn:Hargv; [| vm_compute in Hargv; discriminate Hargv].
    exists configArgv. split; [reflexivity |].
    pose proof (configParse_environment_matches_argv Demo.rules (Demo.ext [] [])
                  "pgbackrest" [Demo.arg "stanza" "demo"]
                  [Demo.arg "pg1-path" "/db"; Demo.positional "backup"]
                  ["HOME=/root"%string] ["PGBACKREST_REPO1_PATH=/repo"%string]
                  (Demo.arg "buffer-size" "64kb") "PGBACKREST_BUFFER_SIZE=64kb" 22
                  (Demo.alias "buffer-size" required_argument 0 0 Demo.optBufferSize)
                  configArgv
                  eq_refl eq_refl eq_refl eq_refl eq_refl eq_refl eq_refl eq_refl eq_refl
                  eq_refl eq_refl) as Hsame.
    cbv zeta in Hsame.
    destruct (Hsame ltac:(vm_compute; repeat split; (lia || discriminate || reflexivity))
                ltac:(repeat constructor) ltac:(repeat constructor) Hargv) as [Henv _].
    split; [exact Henv |].
    vm_compute in Hargv. injection Hargv as <-. split; vm_compute; reflexivity.
  - destruct (configParse Demo.rules (Demo.ext [] []) "pgbackrest"
                ([Demo.arg "stanza" "demo"] ++ Demo.arg "db-include" "a" ::
                 [Demo.arg "pg1-path" "/db"; Demo.positional "backup"])
                (["HOME=/root"] ++ ["PGBACKREST_REPO1_PATH=/repo"]))
      as [configArgv | e msg] eqn:Hargv; [| vm_compute in Hargv; discriminate Hargv].
    exists configArgv. split; [reflexivity |].
    pose proof (configParse_environment_matches_argv Demo.rules (Demo.ext [] [])
                  "pgbackrest" [Demo.arg "stanza" "demo"]
                  [Demo.arg "pg1-path" "/db"; Demo.positional "backup"]
                  ["HOME=/root"%string] ["PGBACKREST_REPO1_PATH=/repo"%string]
                  (Demo.arg "db-include" "a") "PGBACKREST_DB_INCLUDE=a" 21
                  (Demo.alias "db-include" required_argument 0 0 Demo.optDbInclude)
                  configArgv
                  eq_refl eq_refl eq_refl eq_refl eq_refl eq_refl eq_refl eq_refl eq_refl
                  eq_refl eq_refl) as Hsame.
    cbv zeta in Hsame.
    destruct (Hsame ltac:(vm_compute; repeat split; (lia || discriminate || reflexivity))
                ltac:(repeat constructor) ltac:(repeat constructor) Hargv) as [Henv _].
    split; [exact Henv |].
    vm_compute in Hargv. injection Hargv as <-. split; vm_compute; reflexivity.
  - destruct (configParse Demo.rules (Demo.ext [] []) "pgbackrest"
                ([Demo.arg "stanza" "demo"] ++ Demo.arg "no-compress" "" ::
                 [Demo.arg "pg1-path" "/db"; Demo.positional "backup"])
                (["HOME=/root"] ++ ["PGBACKREST_REPO1_PATH=/repo"]))
      as [configArgv | e msg] eqn:Hargv; [| vm_compute in Hargv; discriminate Hargv].
    exists configArgv. split; [reflexivity |].
    pose proof (configParse_environment_matches_argv Demo.rules (Demo.ext [] [])
                  "pgbackrest" [Demo.arg "stanza" "demo"]
                  [Demo.arg "pg1-path" "/db"; Demo.positional "backup"]
                  ["HOME=/root"%string] ["PGBACKREST_REPO1_PATH=/repo"%string]
                  (Demo.arg "no-compress" "") "PGBACKREST_COMPRESS=n" 19
                  (Demo.alias "no-compress" no_argument PARSE_NEGATE_FLAG 0 Demo.optCompress)
                  configArgv
                  eq_refl eq_refl eq_refl eq_refl eq_refl eq_refl eq_refl eq_refl eq_refl
                  eq_refl eq_refl) as Hsame.
    cbv zeta in Hsame.
    destruct (Hsame ltac:(vm_compute; repeat split; (lia || discriminate || reflexivity))
                ltac:(repeat constructor) ltac:(repeat constructor) Hargv) as [Henv _].
    split; [exact Henv |].
    vm_compute in Hargv. injection Hargv as <-. split; vm_compute; reflexivity.
Defined.

(** C8 as stated fails for a multi option, whose environment value is split
    at every colon; for a secure option, which the command line refuses; and
    for an option whose dependency is not met, which is an error on the command
    line and is dropped from the environment. *)
Lemma configParse_environment_differs_from_argv :
  Demo.optionValueOf
    (configParse Demo.rules (Demo.ext [] []) "pgbackrest"
       [Demo.arg "stanza" "demo"; Demo.arg "pg1-path" "/db"; Demo.arg "db-include" "a:b";
        Demo.positional "backup"] [])
    Demo.optDbInclude 0 = Some (cfgSourceParam, Some (VarVarLst ["a:b"%string])) /\
  Demo.optionValueOf
    (configParse Demo.rules (Demo.ext [] []) "pgbackrest"
       [Demo.arg "stanza" "demo"; Demo.arg "pg1-path" "/db"; Demo.positional "backup"]
       ["PGBACKREST_DB_INCLUDE=a:b"%string])
    Demo.optDbInclude 0 = Some (cfgSourceConfig, Some (VarVarLst ["a"; "b"]%string)) /\
  isThrow OptionInvalidError
    (configParse Demo.rules (Demo.ext [] []) "pgbackrest"
       [Demo.arg "stanza" "demo"; Demo.arg "pg1-path" "/db";
        Demo.arg "repo1-cipher-pass" "secret"; Demo.positional "backup"] []) /\
  Demo.optionValueOf
    (configParse Demo.rules (Demo.ext [] []) "pgbackrest"
       [Demo.arg "stanza" "demo"; Demo.arg "pg1-path" "/db"; Demo.positional "backup"]
       ["PGBACKREST_REPO1_CIPHER_PASS=secret"%string])
    Demo.optRepoCipherPass 0 = Some (cfgSourceConfig, Some (VarStr "secret")) /\
  configParse Demo.dependRules (Demo.ext [] []) "pgbackrest"
    [Demo.arg "stanza" "demo"; Demo.arg "pg1-path" "/db"; Demo.arg "no-compress" "";
     Demo.positional "backup"; Demo.arg "buffer-size" "64kb"] [] =
    Throw OptionInvalidError "option 'buffer-size' not valid without option 'compress'" /\
  Demo.optionValueOf
    (configParse Demo.dependRules (Demo.ext [] []) "pgbackrest"
       [Demo.arg "stanza" "demo"; Demo.arg "pg1-path" "/db"; Demo.arg "no-compress" "";
        Demo.positional "backup"] ["PGBACKREST_BUFFER_SIZE=64kb"%string])
    Demo.optBufferSize 0 = Some (cfgSourceDefault, None).
Proof.
  split; [vm_compute; reflexivity |]. split; [vm_compute; reflexivity |].
  split; [eexists; vm_compute; reflexivity |]. split; [vm_compute; reflexivity |].
  split; vm_compute; reflexivity.
Qed.
